(** * sdcv: the StarDict lookup engine of [src/stardict_lib.cpp]

    A shallow embedding of the comparator, the [.ifo] parser, the two index
    variants with their binary searches, the fuzzy/data lookups and the query
    classifier, together with the properties stated for them.

    Conventions.
    - A C string is the list of its bytes before the terminating NUL; a byte
      is a [Z] in [0, 256) (the value of the [unsigned char]).  Reading at
      the end of the list reads the terminator, which is [0].
    - [glong]/[gint] values are [Z]; the quantities involved (indices into an
      index of at most 2^32 entries) stay far away from the 64-bit range, so
      no wrap-around is written out for them.
    - [std::set<glong>] is a [gset Z], [std::map<std::string, std::string>] a
      [gmap (list Z) (list Z)]. *)

From Stdlib Require Import ZArith List Lia Bool Sorted.
From stdpp Require Import base gmap sets list strings.
From Equations Require Import Equations.
Import ListNotations.
Local Open Scope Z_scope.

(** ** C strings *)

Abbreviation cstring := (list Z).

(** The bytes of a C string are non-zero unsigned chars. *)
Definition is_cstr (s : cstring) : Prop := Forall (fun c => 0 < c < 256) s.

Definition is_cstrb (s : cstring) : bool :=
  forallb (fun c => (0 <? c) && (c <? 256)) s.

(** [*p] for a pointer at the suffix [s] of a C string. *)
Definition deref (s : cstring) : Z := hd 0 s.

(** ** Results of functions that read memory and files *)

(** What a function that reads memory and files comes to: a value; an
    exception ([THROW_IF_ERROR]); or an access outside a buffer or a vector,
    for which the language defines nothing. *)
Inductive result (A : Type) : Type :=
  | Ok (a : A)
  | Throw
  | Undefined.
Arguments Ok {A} a.
Arguments Throw {A}.
Arguments Undefined {A}.

Definition result_bind {A B} (m : result A) (f : A -> result B) : result B :=
  match m with
  | Ok a => f a
  | Throw => Throw
  | Undefined => Undefined
  end.

Notation "'let*' x := m 'in' k" := (result_bind m (fun x => k))
  (at level 10, x pattern, m at level 99, k at level 200).

(** A read that must stay inside its buffer. *)
Definition defined {A} (o : option A) : result A :=
  match o with Some a => Ok a | None => Undefined end.

(** [v[i]] for a [std::vector] or an array. *)
Definition vec_at {A} (v : list A) (i : Z) : option A :=
  if i <? 0 then None else v !! Z.to_nat i.

(** [v[i] = x]. *)
Definition vec_set {A} (v : list A) (i : Z) (x : A) : option (list A) :=
  if (0 <=? i) && (i <? Z.of_nat (length v)) then Some (<[Z.to_nat i := x]> v)
  else None.

(** What can be read from the position [p] of [buf] on. *)
Definition from_ptr (buf : list Z) (p : Z) : list Z :=
  if p <? 0 then [] else drop (Z.to_nat p) buf.

(** [fseek (file, pos, SEEK_SET)] and a read of at most [size] bytes: the
    bytes got. *)
Definition fread_at (file : list Z) (pos size : Z) : list Z :=
  take (Z.to_nat size) (from_ptr file pos).

Lemma vec_set_nat {A} (v : list A) (i : nat) (x : A) :
  ((i < length v)%nat /\ vec_set v (Z.of_nat i) x = Some (<[i := x]> v)) \/
  ((length v <= i)%nat /\ vec_set v (Z.of_nat i) x = None).
Proof.
  unfold vec_set. destruct (Z.leb_spec 0 (Z.of_nat i)); [|lia].
  destruct (Z.ltb_spec (Z.of_nat i) (Z.of_nat (length v))); cbn [andb].
  - left. rewrite Nat2Z.id. split; [lia | reflexivity].
  - right. split; [lia | reflexivity].
Qed.

(** ** The comparator (lines 59-66) *)

(** GLib's [g_ascii_tolower]: only 'A'..'Z' are mapped. *)
Definition g_ascii_tolower (c : Z) : Z :=
  if (65 <=? c) && (c <=? 90) then c + 32 else c.

Definition g_ascii_isupper (c : Z) : bool := (65 <=? c) && (c <=? 90).

(** GLib's [g_ascii_strcasecmp]: walk both strings while neither has ended,
    return the difference of the first pair of bytes that differ after
    lowering; at the end of either, the difference of the bytes there. *)
Fixpoint g_ascii_strcasecmp (s1 s2 : cstring) : Z :=
  match s1, s2 with
  | c1 :: t1, c2 :: t2 =>
      if g_ascii_tolower c1 =? g_ascii_tolower c2
      then g_ascii_strcasecmp t1 t2
      else g_ascii_tolower c1 - g_ascii_tolower c2
  | _, _ => deref s1 - deref s2
  end.

(** libc's [strcmp] on unsigned bytes.  Only the sign is specified by C; the
    difference of the first differing bytes is one conforming result. *)
Fixpoint strcmp (s1 s2 : cstring) : Z :=
  match s1, s2 with
  | c1 :: t1, c2 :: t2 => if c1 =? c2 then strcmp t1 t2 else c1 - c2
  | _, _ => deref s1 - deref s2
  end.

Definition stardict_strcmp (s1 s2 : cstring) : Z :=
  let a := g_ascii_strcasecmp s1 s2 in
  if a =? 0 then strcmp s1 s2 else a.

(** *** Facts about [strcmp] *)

Lemma is_cstr_cons c s : is_cstr (c :: s) <-> (0 < c < 256) /\ is_cstr s.
Proof.
  unfold is_cstr. split.
  - intros H. inversion H; subst. tauto.
  - intros [H1 H2]. constructor; assumption.
Qed.

Lemma is_cstrb_spec s : is_cstrb s = true <-> is_cstr s.
Proof.
  unfold is_cstrb, is_cstr. rewrite forallb_forall, Forall_forall.
  split; intros H x Hx.
  - apply list_elem_of_In in Hx. specialize (H x Hx). lia.
  - apply list_elem_of_In in Hx. specialize (H x Hx). lia.
Qed.

Lemma strcmp_refl s : strcmp s s = 0.
Proof. induction s as [|c s IH]; simpl; [reflexivity|]. now rewrite Z.eqb_refl. Qed.

Lemma strcmp_eq s1 s2 :
  is_cstr s1 -> is_cstr s2 -> strcmp s1 s2 = 0 -> s1 = s2.
Proof.
  revert s2. induction s1 as [|c1 t1 IH]; intros [|c2 t2] H1 H2; simpl;
    rewrite ?is_cstr_cons in *; unfold deref; simpl; try lia; [reflexivity|].
  destruct (Z.eqb_spec c1 c2); [|lia].
  intros E. f_equal; [assumption|]. apply IH; tauto.
Qed.

Lemma strcmp_antisym s1 s2 :
  is_cstr s1 -> is_cstr s2 -> Z.sgn (strcmp s1 s2) = - Z.sgn (strcmp s2 s1).
Proof.
  revert s2. induction s1 as [|c1 t1 IH]; intros [|c2 t2] H1 H2; simpl;
    rewrite ?is_cstr_cons in *; unfold deref; simpl; try lia.
  destruct (Z.eqb_spec c1 c2), (Z.eqb_spec c2 c1); try lia.
  apply IH; tauto.
Qed.

Lemma strcmp_trans_lt s1 s2 s3 :
  is_cstr s1 -> is_cstr s2 -> is_cstr s3 ->
  strcmp s1 s2 < 0 -> strcmp s2 s3 < 0 -> strcmp s1 s3 < 0.
Proof.
  revert s2 s3.
  induction s1 as [|c1 t1 IH]; intros [|c2 t2] [|c3 t3] H1 H2 H3; simpl;
    rewrite ?is_cstr_cons in *; unfold deref; simpl; try lia.
  destruct (Z.eqb_spec c1 c2), (Z.eqb_spec c2 c3), (Z.eqb_spec c1 c3); try lia.
  apply IH; tauto.
Qed.

(** *** The case-insensitive comparison as [strcmp] of the lowered strings *)

Definition strdown (s : cstring) : cstring := map g_ascii_tolower s.

Lemma g_ascii_tolower_range c : 0 < c < 256 -> 0 < g_ascii_tolower c < 256.
Proof. unfold g_ascii_tolower. destruct (_ && _) eqn:E; lia. Qed.

Lemma strdown_cstr s : is_cstr s -> is_cstr (strdown s).
Proof.
  unfold is_cstr, strdown. intros H. induction H; simpl; constructor; auto.
  now apply g_ascii_tolower_range.
Qed.

Lemma strcasecmp_sgn s1 s2 :
  is_cstr s1 -> is_cstr s2 ->
  Z.sgn (g_ascii_strcasecmp s1 s2) = Z.sgn (strcmp (strdown s1) (strdown s2)).
Proof.
  revert s2. induction s1 as [|c1 t1 IH]; intros [|c2 t2] H1 H2; simpl;
    rewrite ?is_cstr_cons in *; unfold deref; simpl; try reflexivity.
  - pose proof (g_ascii_tolower_range c2). lia.
  - pose proof (g_ascii_tolower_range c1). lia.
  - destruct (Z.eqb_spec (g_ascii_tolower c1) (g_ascii_tolower c2)); [|reflexivity].
    apply IH; tauto.
Qed.

(** The comparator is negative exactly when the pair (lowered string, string)
    is lexicographically smaller. *)
Lemma stardict_strcmp_lt s1 s2 :
  is_cstr s1 -> is_cstr s2 ->
  (stardict_strcmp s1 s2 < 0 <->
   strcmp (strdown s1) (strdown s2) < 0 \/
   (strdown s1 = strdown s2 /\ strcmp s1 s2 < 0)).
Proof.
  intros H1 H2. unfold stardict_strcmp.
  pose proof (strcasecmp_sgn s1 s2 H1 H2) as Hs.
  pose proof (strcmp_eq (strdown s1) (strdown s2)
                (strdown_cstr _ H1) (strdown_cstr _ H2)) as He.
  pose proof (strcmp_refl (strdown s1)) as Hr.
  destruct (Z.eqb_spec (g_ascii_strcasecmp s1 s2) 0) as [E|E].
  - split.
    + intros L. right. split; [apply He; lia | assumption].
    + intros [L | [_ L]]; [lia | assumption].
  - split.
    + intros L. left. lia.
    + intros [L | [Eq _]]; [lia|]. rewrite Eq, strcmp_refl in Hs. lia.
Qed.

Lemma stardict_strcmp_refl s : stardict_strcmp s s = 0.
Proof.
  unfold stardict_strcmp.
  assert (g_ascii_strcasecmp s s = 0) as ->.
  { induction s as [|c s IH]; simpl; [reflexivity|]. now rewrite Z.eqb_refl. }
  simpl. apply strcmp_refl.
Qed.

Lemma stardict_strcmp_eq s1 s2 :
  is_cstr s1 -> is_cstr s2 -> stardict_strcmp s1 s2 = 0 -> s1 = s2.
Proof.
  intros H1 H2. unfold stardict_strcmp.
  destruct (Z.eqb_spec (g_ascii_strcasecmp s1 s2) 0); [|lia].
  now apply strcmp_eq.
Qed.

Lemma stardict_strcmp_antisym s1 s2 :
  is_cstr s1 -> is_cstr s2 ->
  Z.sgn (stardict_strcmp s1 s2) = - Z.sgn (stardict_strcmp s2 s1).
Proof.
  intros H1 H2. unfold stardict_strcmp.
  pose proof (strcasecmp_sgn s1 s2 H1 H2) as Hs.
  pose proof (strcasecmp_sgn s2 s1 H2 H1) as Hs'.
  pose proof (strcmp_antisym (strdown s1) (strdown s2)
                (strdown_cstr _ H1) (strdown_cstr _ H2)) as Ha.
  pose proof (strcmp_antisym s1 s2 H1 H2) as Hb.
  destruct (Z.eqb_spec (g_ascii_strcasecmp s1 s2) 0),
           (Z.eqb_spec (g_ascii_strcasecmp s2 s1) 0); lia.
Qed.

Lemma stardict_strcmp_trans_lt s1 s2 s3 :
  is_cstr s1 -> is_cstr s2 -> is_cstr s3 ->
  stardict_strcmp s1 s2 < 0 -> stardict_strcmp s2 s3 < 0 ->
  stardict_strcmp s1 s3 < 0.
Proof.
  intros H1 H2 H3.
  rewrite !stardict_strcmp_lt by assumption.
  pose proof (strdown_cstr _ H1). pose proof (strdown_cstr _ H2).
  pose proof (strdown_cstr _ H3).
  intros [L1 | [E1 L1]] [L2 | [E2 L2]].
  - left. apply strcmp_trans_lt with (strdown s2); assumption.
  - left. now rewrite <- E2.
  - left. now rewrite E1.
  - right. split; [congruence|]. apply strcmp_trans_lt with s2; assumption.
Qed.

Lemma stardict_strcmp_trans_le s1 s2 s3 :
  is_cstr s1 -> is_cstr s2 -> is_cstr s3 ->
  stardict_strcmp s1 s2 <= 0 -> stardict_strcmp s2 s3 <= 0 ->
  stardict_strcmp s1 s3 <= 0.
Proof.
  intros H1 H2 H3 L1 L2.
  destruct (Z.eq_dec (stardict_strcmp s1 s2) 0) as [E|E].
  { apply stardict_strcmp_eq in E; subst; assumption. }
  destruct (Z.eq_dec (stardict_strcmp s2 s3) 0) as [E'|E'].
  { apply stardict_strcmp_eq in E'; subst; assumption. }
  apply Z.lt_le_incl. apply stardict_strcmp_trans_lt with s2; auto; lia.
Qed.

(** C3.  [stardict_strcmp a b] is [g_ascii_strcasecmp a b] whenever that is
    non-zero and [strcmp a b] otherwise, and on C strings it is a total
    order: reflexive, antisymmetric in sign (and zero only on equal strings),
    and transitive. *)
Theorem stardict_strcmp_total_order (a b c : cstring) :
  is_cstr a -> is_cstr b -> is_cstr c ->
  (g_ascii_strcasecmp a b <> 0 ->
   stardict_strcmp a b = g_ascii_strcasecmp a b) /\
  (g_ascii_strcasecmp a b = 0 -> stardict_strcmp a b = strcmp a b) /\
  stardict_strcmp a a = 0 /\
  Z.sgn (stardict_strcmp a b) = - Z.sgn (stardict_strcmp b a) /\
  (stardict_strcmp a b = 0 -> a = b) /\
  (stardict_strcmp a b < 0 -> stardict_strcmp b c < 0 ->
   stardict_strcmp a c < 0) /\
  (stardict_strcmp a b <= 0 -> stardict_strcmp b c <= 0 ->
   stardict_strcmp a c <= 0).
Proof.
  intros Ha Hb Hc. split_and!.
  - intros N. unfold stardict_strcmp.
    destruct (Z.eqb_spec (g_ascii_strcasecmp a b) 0); [contradiction|reflexivity].
  - intros E. unfold stardict_strcmp. now rewrite E.
  - apply stardict_strcmp_refl.
  - now apply stardict_strcmp_antisym.
  - now apply stardict_strcmp_eq.
  - now apply stardict_strcmp_trans_lt.
  - now apply stardict_strcmp_trans_le.
Qed.

(** The comparator on "Apple", "apple", "b". *)
Lemma stardict_strcmp_total_order_witness :
  is_cstr [65; 112; 112; 108; 101] /\
  is_cstr [97; 112; 112; 108; 101] /\
  is_cstr [98] /\
  stardict_strcmp [65; 112; 112; 108; 101] [98] < 0.
Proof.
  assert (Ha : is_cstr [65; 112; 112; 108; 101]) by (apply is_cstrb_spec; reflexivity).
  assert (Hb : is_cstr [97; 112; 112; 108; 101]) by (apply is_cstrb_spec; reflexivity).
  assert (Hc : is_cstr [98]) by (apply is_cstrb_spec; reflexivity).
  split_and!; try assumption.
  destruct (stardict_strcmp_total_order _ _ _ Ha Hb Hc)
    as (_ & _ & _ & _ & _ & T & _).
  apply T; reflexivity.
Defined.

(** ** The query classifier (lines 1550-1583) *)

Inductive query_t := qtSIMPLE | qtREGEXP | qtFUZZY | qtDATA.

Definition ch_backslash : Z := 92.
Definition ch_star : Z := 42.
Definition ch_question : Z := 63.
Definition ch_slash : Z := 47.
Definition ch_bar : Z := 124.

(** The [for (; *p; res += *p, ++p)] loop: [p] is the rest of the query,
    [res] and [regexp] the two variables it updates.  On a backslash the
    pointer moves on first; at the terminator the loop is left ([break]),
    otherwise [continue] runs the increment, which appends the escaped byte
    without looking at it. *)
Fixpoint analyze_loop (p res : cstring) (regexp : bool) : cstring * bool :=
  match p with
  | [] => (res, regexp)
  | c :: p1 =>
      if c =? ch_backslash then
        match p1 with
        | [] => (res, regexp)
        | c' :: p2 => analyze_loop p2 (res ++ [c']) regexp
        end
      else
        analyze_loop p1 (res ++ [c])
          (if (c =? ch_star) || (c =? ch_question) then true else regexp)
  end.

(** [analyze_query s res]: [None] is the null pointer; the pair returned is
    the classification and the final value of [res]. *)
Definition analyze_query (s : option cstring) : query_t * cstring :=
  match s with
  | None => (qtSIMPLE, [])
  | Some [] => (qtSIMPLE, [])
  | Some (c :: r) =>
      if c =? ch_slash then (qtFUZZY, r)
      else if c =? ch_bar then (qtDATA, r)
      else
        let '(res, regexp) := analyze_loop (c :: r) [] false in
        (if regexp then qtREGEXP else qtSIMPLE, res)
  end.

(** *** What the specification says about a query *)

(** The query with its escape prefixes removed: a backslash is dropped and
    the byte after it is kept as it is. *)
Fixpoint strip_escapes (s : cstring) : cstring :=
  match s with
  | [] => []
  | c :: r =>
      if c =? ch_backslash then
        match r with
        | [] => []
        | c' :: r' => c' :: strip_escapes r'
        end
      else c :: strip_escapes r
  end.

(** The query holds a '*' or '?' that no backslash precedes as an escape. *)
Fixpoint has_unescaped_glob (s : cstring) : bool :=
  match s with
  | [] => false
  | c :: r =>
      if c =? ch_backslash then
        match r with
        | [] => false
        | _ :: r' => has_unescaped_glob r'
        end
      else (c =? ch_star) || (c =? ch_question) || has_unescaped_glob r
  end.

(** The string stops right after a backslash that starts an escape. *)
Fixpoint escape_pending (s : cstring) : bool :=
  match s with
  | [] => false
  | c :: r =>
      if c =? ch_backslash then
        match r with
        | [] => true
        | _ :: r' => escape_pending r'
        end
      else escape_pending r
  end.

Lemma analyze_loop_spec n : forall p res regexp,
  (length p <= n)%nat ->
  analyze_loop p res regexp =
  (res ++ strip_escapes p, regexp || has_unescaped_glob p).
Proof.
  induction n as [|n IH]; intros [|c p] res regexp Hn; simpl in *;
    try lia; rewrite ?app_nil_r, ?orb_false_r; try reflexivity.
  destruct (c =? ch_backslash).
  - destruct p as [|c' p]; [now rewrite app_nil_r, orb_false_r|].
    rewrite IH by (simpl in *; lia). now rewrite <- app_assoc.
  - rewrite IH by lia. rewrite <- app_assoc. simpl. f_equal.
    destruct ((c =? ch_star) || (c =? ch_question)); simpl;
      [now rewrite orb_true_r | reflexivity].
Qed.

Lemma analyze_query_loop c r :
  c <> ch_slash -> c <> ch_bar ->
  analyze_query (Some (c :: r)) =
  (if has_unescaped_glob (c :: r) then qtREGEXP else qtSIMPLE,
   strip_escapes (c :: r)).
Proof.
  intros Hs Hb. unfold analyze_query.
  destruct (Z.eqb_spec c ch_slash); [contradiction|].
  destruct (Z.eqb_spec c ch_bar); [contradiction|].
  now rewrite (analyze_loop_spec (length (c :: r))) by lia.
Qed.

(** C7 (amended).  The empty and the null query are SIMPLE with payload "";
    a leading '/' gives FUZZY and a leading '|' gives DATA, the payload being
    the rest of the query as it stands; any other query is REGEXP when it
    holds an unescaped '*' or '?' and SIMPLE otherwise, and for these two
    classes the payload is the query with its escape prefixes removed. *)
Theorem analyze_query_classification :
  analyze_query None = (qtSIMPLE, []) /\
  analyze_query (Some []) = (qtSIMPLE, []) /\
  (forall r, analyze_query (Some (ch_slash :: r)) = (qtFUZZY, r)) /\
  (forall r, analyze_query (Some (ch_bar :: r)) = (qtDATA, r)) /\
  (forall c r, c <> ch_slash -> c <> ch_bar ->
     analyze_query (Some (c :: r)) =
     (if has_unescaped_glob (c :: r) then qtREGEXP else qtSIMPLE,
      strip_escapes (c :: r))).
Proof.
  split_and!; try reflexivity. apply analyze_query_loop.
Qed.

(** C7 as stated fails on the query "/a\b": the FUZZY payload is "a\b", with
    the escape prefix still in it, not "ab". *)
Lemma analyze_query_fuzzy_keeps_escapes :
  analyze_query (Some [ch_slash; 97; ch_backslash; 98])
    = (qtFUZZY, [97; ch_backslash; 98]) /\
  strip_escapes [97; ch_backslash; 98] = [97; 98] /\
  snd (analyze_query (Some [ch_slash; 97; ch_backslash; 98]))
    <> strip_escapes [97; ch_backslash; 98].
Proof. split_and!; [reflexivity | reflexivity | discriminate]. Qed.

Lemma trailing_backslash_spec n : forall t,
  (length t <= n)%nat -> escape_pending t = false ->
  strip_escapes (t ++ [ch_backslash]) = strip_escapes t /\
  has_unescaped_glob (t ++ [ch_backslash]) = has_unescaped_glob t.
Proof.
  induction n as [|n IH]; intros [|c t] Hn Hp; simpl in *; try lia;
    try (split; reflexivity).
  destruct (c =? ch_backslash).
  - destruct t as [|c' t]; [discriminate|]. simpl.
    destruct (IH t) as [-> ->]; simpl in *; auto; lia.
  - destruct (IH t) as [-> ->]; auto; lia.
Qed.

(** C10 (amended).  For a query that does not start with '/' or '|' and ends
    in a backslash that is not itself escaped, the classification and the
    payload are those of the query without that backslash: the backslash is
    dropped and never makes the query a REGEXP. *)
Theorem analyze_query_trailing_backslash (t : cstring) :
  deref t <> ch_slash -> deref t <> ch_bar -> escape_pending t = false ->
  analyze_query (Some (t ++ [ch_backslash])) = analyze_query (Some t) /\
  analyze_query (Some (t ++ [ch_backslash])) =
  (if has_unescaped_glob t then qtREGEXP else qtSIMPLE, strip_escapes t).
Proof.
  intros Hs Hb Hp.
  destruct t as [|c t]; [split; reflexivity|].
  unfold deref in *; simpl in Hs, Hb.
  destruct (trailing_backslash_spec (length (c :: t)) (c :: t)) as [E1 E2];
    [lia | assumption |].
  rewrite <- app_comm_cons, !analyze_query_loop by assumption.
  rewrite app_comm_cons, E1, E2. split; reflexivity.
Qed.

(** "a*\": REGEXP because of the '*', payload "a*". *)
Lemma analyze_query_trailing_backslash_witness :
  analyze_query (Some ([97; ch_star] ++ [ch_backslash])) =
  (qtREGEXP, [97; ch_star]).
Proof.
  apply (analyze_query_trailing_backslash [97; ch_star]);
    [discriminate | discriminate | reflexivity].
Defined.

(** C10 as stated fails on "/a\": the query is FUZZY and its payload "a\"
    still ends in the backslash. *)
Lemma analyze_query_fuzzy_keeps_trailing_backslash :
  escape_pending [ch_slash; 97] = false /\
  analyze_query (Some [ch_slash; 97]) = (qtFUZZY, [97]) /\
  analyze_query (Some ([ch_slash; 97] ++ [ch_backslash])) =
  (qtFUZZY, [97; ch_backslash]) /\
  snd (analyze_query (Some ([ch_slash; 97] ++ [ch_backslash]))) <>
  snd (analyze_query (Some [ch_slash; 97])).
Proof. split_and!; [reflexivity | reflexivity | reflexivity | discriminate]. Qed.

(** ** Byte strings of the examples *)

(** The bytes of a string literal. *)
Definition str (s : String.string) : cstring :=
  map (fun a => Z.of_N (Ascii.N_of_ascii a)) (String.list_ascii_of_string s).
Arguments str s%_string.

(** ** The [.ifo] parser (lines 77-170) *)

(** GLib's [g_ascii_isspace]: space, TAB, LF, FF and CR (not VT). *)
Definition g_ascii_isspace (c : Z) : bool :=
  (c =? 32) || (c =? 9) || (c =? 10) || (c =? 12) || (c =? 13).

Definition not_space (c : Z) : bool := negb (g_ascii_isspace c).
Definition is_eq_sign (c : Z) : bool := c =? 61.
Definition is_line_end (c : Z) : bool := (c =? 13) || (c =? 10).

(** [std::find_if(p, end, P)]: the position of the first byte satisfying
    [P], as the bytes from there to [end]; [[]] is [end] itself. *)
Fixpoint find_if (P : Z -> bool) (p : list Z) : list Z :=
  match p with
  | [] => []
  | c :: r => if P c then p else find_if P r
  end.

(** [std::string(p, std::find_if(p, end, P))]: the bytes before it. *)
Fixpoint upto (P : Z -> bool) (p : list Z) : list Z :=
  match p with
  | [] => []
  | c :: r => if P c then [] else c :: upto P r
  end.

(** [std::map::insert]: an existing key keeps its value. *)
Definition map_insert (k v : list Z) (m : gmap (list Z) (list Z))
  : gmap (list Z) (list Z) :=
  match m !! k with
  | Some _ => m
  | None => <[k := v]> m
  end.

(** What one iteration of the [while (p != end)] loop does. *)
Inductive ifo_step_result :=
| IfoBreak (m : gmap (list Z) (list Z))
| IfoError
| IfoNext (next : list Z) (m : gmap (list Z) (list Z)).

(** The body of the loop, for [p != end] as for [p == end] (where
    [find_if] is at [end] at once). *)
Definition ifo_body_step (p : list Z) (m : gmap (list Z) (list Z))
  : ifo_step_result :=
  match find_if not_space p with
  | [] => IfoBreak m
  | key_it =>
      match find_if is_eq_sign key_it with
      | [] => IfoError
      | _ :: after_eq =>
          let key := upto is_eq_sign key_it in
          match find_if not_space after_eq with
          | [] => IfoBreak (map_insert key [] m)
          | val_it =>
              let m' := map_insert key (upto is_line_end val_it) m in
              match find_if is_line_end val_it with
              | [] => IfoBreak m'
              | _ :: next => IfoNext next m'
              end
          end
      end
  end.

(** The [while (p != end)] loop over the body.  [None] is the
    [return false] taken when no '=' follows a key; the fuel bounds the
    number of iterations and [S (length p)] is always enough
    ([ifo_body_loop_fuel]). *)
Fixpoint ifo_body_loop (fuel : nat) (p : list Z) (m : gmap (list Z) (list Z))
  : option (gmap (list Z) (list Z)) :=
  match fuel with
  | O => Some m
  | S fuel' =>
      match ifo_body_step p m with
      | IfoBreak m' => Some m'
      | IfoError => None
      | IfoNext next m' => ifo_body_loop fuel' next m'
      end
  end.

Definition parse_ifo_body (p : list Z) : option (gmap (list Z) (list Z)) :=
  ifo_body_loop (S (length p)) p ∅.

Lemma find_if_length P p : (length (find_if P p) <= length p)%nat.
Proof. induction p as [|c r IH]; simpl; [lia|]. destruct (P c); simpl; lia. Qed.

(** Any fuel above the length of the input gives the same result: the loop
    never stops for lack of fuel. *)
Lemma ifo_body_step_next p m next m' :
  ifo_body_step p m = IfoNext next m' -> (length next < length p)%nat.
Proof.
  unfold ifo_body_step.
  pose proof (find_if_length not_space p) as L1.
  destruct (find_if not_space p) as [|c1 r1] eqn:E1; [discriminate|].
  pose proof (find_if_length is_eq_sign (c1 :: r1)) as L2.
  destruct (find_if is_eq_sign (c1 :: r1)) as [|c2 r2] eqn:E2; [discriminate|].
  pose proof (find_if_length not_space r2) as L3.
  destruct (find_if not_space r2) as [|c3 r3] eqn:E3; [discriminate|].
  pose proof (find_if_length is_line_end (c3 :: r3)) as L4.
  destruct (find_if is_line_end (c3 :: r3)) as [|c4 r4] eqn:E4; [discriminate|].
  intros [= <- _]. cbn [length] in *. lia.
Qed.

Lemma ifo_body_loop_fuel n : forall k p m,
  (length p < n)%nat -> (length p < k)%nat ->
  ifo_body_loop n p m = ifo_body_loop k p m.
Proof.
  induction n as [|n IH]; intros [|k] p m Hn Hk; try lia.
  cbn [ifo_body_loop].
  destruct (ifo_body_step p m) as [| |next m'] eqn:E; try reflexivity.
  apply ifo_body_step_next in E. apply IH; lia.
Qed.

Lemma parse_ifo_body_fuel p n :
  (length p < n)%nat -> ifo_body_loop n p ∅ = parse_ifo_body p.
Proof. intros H. apply ifo_body_loop_fuel; simpl; lia. Qed.

(** libc's [isspace] in the C locale and [atol]: leading white space, an
    optional sign, then decimal digits up to the first other byte.  The
    result is not reduced to the range of [long]. *)
Definition c_isspace (c : Z) : bool := (c =? 32) || ((9 <=? c) && (c <=? 13)).
Definition c_isdigit (c : Z) : bool := (48 <=? c) && (c <=? 57).

Fixpoint atol_digits (s : list Z) (acc : Z) : Z :=
  match s with
  | [] => acc
  | c :: r => if c_isdigit c then atol_digits r (acc * 10 + (c - 48)) else acc
  end.

Definition atol (s : list Z) : Z :=
  match find_if (fun c => negb (c_isspace c)) s with
  | [] => 0
  | c :: r =>
      if c =? 45 then - atol_digits r 0
      else if c =? 43 then atol_digits r 0
      else atol_digits (c :: r) 0
  end.

(** GLib's [g_str_has_prefix]: [strncmp (s, prefix, strlen (prefix)) == 0]. *)
Fixpoint g_str_has_prefix (s prefix : list Z) {struct prefix} : bool :=
  match prefix, s with
  | [], _ => true
  | c :: r, c' :: r' => (c =? c') && g_str_has_prefix r' r
  | _ :: _, [] => false
  end.

Definition TREEDICT_MAGIC_DATA : cstring := str "StarDict's treedict ifo file".
Definition DICT_MAGIC_DATA : cstring := str "StarDict's dict ifo file".
Definition utf8_bom : cstring := [239; 187; 191].
Definition magic_data (istreedict : bool) : cstring :=
  if istreedict then TREEDICT_MAGIC_DATA else DICT_MAGIC_DATA.

Record DictInfo := {
  ifo_file_name : cstring;
  wordcount : Z;
  syn_wordcount : Z;
  bookname : list Z;
  author : list Z;
  email : list Z;
  website : list Z;
  date : list Z;
  description : list Z;
  index_file_size : Z;
  sametypesequence : list Z
}.

Section Ifo.

(** The fields [wordcount], [syn_wordcount] and [index_file_size] are
    declared in [stardict_lib.hpp]; the conversions from the [long] that
    [atol] returns to their types are left open. *)
Variable to_count : Z -> Z.
Variable to_filesize : Z -> Z.

(** [SET_IF_EXISTS]: the field of a fresh [DictInfo] stays empty when the key
    is absent. *)
Definition set_if_exists (m : gmap (list Z) (list Z)) (k : list Z) : list Z :=
  match m !! k with
  | Some v => v
  | None => []
  end.

(** [file] is what [g_file_get_contents] delivers: [None] when the file
    cannot be read.  The result is [None] when the function returns
    [false]. *)
Definition load_from_ifo_file (ifofilename : cstring) (file : option (list Z))
    (istreedict : bool) : option DictInfo :=
  match file with
  | None => None
  | Some buffer =>
      let p := if g_str_has_prefix buffer utf8_bom
               then drop (length utf8_bom) buffer else buffer in
      if negb (g_str_has_prefix p (magic_data istreedict)) then None
      else
        match parse_ifo_body (drop (length (magic_data istreedict)) p) with
        | None => None
        | Some key_value_map =>
            match key_value_map !! str "wordcount" with
            | None => None
            | Some wc =>
                match key_value_map !!
                        (if istreedict then str "tdxfilesize" else str "idxfilesize") with
                | None => None
                | Some fs =>
                    match key_value_map !! str "bookname" with
                    | None => None
                    | Some bn =>
                        Some {|
                          ifo_file_name := ifofilename;
                          wordcount := to_count (atol wc);
                          syn_wordcount :=
                            match key_value_map !! str "synwordcount" with
                            | Some swc => to_count (atol swc)
                            | None => 0
                            end;
                          bookname := bn;
                          author := set_if_exists key_value_map (str "author");
                          email := set_if_exists key_value_map (str "email");
                          website := set_if_exists key_value_map (str "website");
                          date := set_if_exists key_value_map (str "date");
                          description := set_if_exists key_value_map (str "description");
                          index_file_size := to_filesize (atol fs);
                          sametypesequence :=
                            set_if_exists key_value_map (str "sametypesequence")
                        |}
                    end
                end
            end
        end
  end.

End Ifo.

(** *** Well-formed bodies *)

(** One line of a body as it lies in the file: white space, the key, '=',
    white space, the value, and the CR or LF that ends it. *)
Record ifo_line := {
  pre_ws : list Z;
  key : list Z;
  mid_ws : list Z;
  value : list Z;
  eol : Z
}.

Definition render_line (l : ifo_line) : list Z :=
  pre_ws l ++ key l ++ [61] ++ mid_ws l ++ value l ++ [eol l].

(** The line without its end, for the last line of a file. *)
Definition render_last (l : ifo_line) : list Z :=
  pre_ws l ++ key l ++ [61] ++ mid_ws l ++ value l.

(** The white space is white space, the key starts with a byte that is not
    and holds no '=', the value is not empty, starts with a byte that is not
    white space and holds no CR or LF. *)
Definition wf_line (l : ifo_line) : bool :=
  forallb g_ascii_isspace (pre_ws l) &&
  forallb g_ascii_isspace (mid_ws l) &&
  not_space (hd 61 (key l)) &&
  forallb (fun c => negb (is_eq_sign c)) (key l) &&
  not_space (hd 32 (value l)) &&
  forallb (fun c => negb (is_line_end c)) (value l) &&
  is_line_end (eol l).

(** The map a sequence of lines stands for: the first of two equal keys
    wins. *)
Definition ifo_map (ls : list ifo_line) : gmap (list Z) (list Z) :=
  fold_left (fun m l => map_insert (key l) (value l) m) ls ∅.

Lemma find_if_app_miss P a b :
  forallb (fun c => negb (P c)) a = true ->
  find_if P (a ++ b) = find_if P b /\ upto P (a ++ b) = a ++ upto P b.
Proof.
  induction a as [|c a IH]; simpl; [intros _; split; reflexivity|].
  rewrite andb_true_iff. intros [Hc Ha].
  destruct (P c); [discriminate|]. destruct (IH Ha) as [-> ->].
  split; reflexivity.
Qed.

Lemma find_if_app_hit P a c r :
  forallb (fun c => negb (P c)) a = true -> P c = true ->
  find_if P (a ++ c :: r) = c :: r /\ upto P (a ++ c :: r) = a.
Proof.
  intros Ha Hc. destruct (find_if_app_miss P a (c :: r) Ha) as [-> ->].
  simpl. rewrite Hc. now rewrite app_nil_r.
Qed.

Lemma forallb_isspace_not_space ws :
  forallb g_ascii_isspace ws = true ->
  forallb (fun c => negb (not_space c)) ws = true.
Proof.
  induction ws as [|c ws IH]; simpl; [reflexivity|].
  rewrite !andb_true_iff. intros [Hc Hws]. split; [|auto].
  unfold not_space. now rewrite negb_involutive.
Qed.

Lemma wf_line_parts l :
  wf_line l = true ->
  forallb g_ascii_isspace (pre_ws l) = true /\
  forallb g_ascii_isspace (mid_ws l) = true /\
  not_space (hd 61 (key l)) = true /\
  forallb (fun c => negb (is_eq_sign c)) (key l) = true /\
  (exists v0 v, value l = v0 :: v /\ not_space v0 = true) /\
  forallb (fun c => negb (is_line_end c)) (value l) = true /\
  is_line_end (eol l) = true.
Proof.
  unfold wf_line. rewrite !andb_true_iff.
  intros ((((((H1 & H2) & H3) & H4) & H5) & H6) & H7). split_and!; auto.
  destruct (value l) as [|v0 v]; [discriminate|]. eauto.
Qed.

(** The steps of an iteration on a line: the key and the value found. *)
Lemma ifo_line_scan l tail :
  wf_line l = true ->
  exists k0 kr, find_if not_space (pre_ws l ++ key l ++ [61] ++ mid_ws l ++ value l ++ tail) = k0 :: kr /\
    find_if is_eq_sign (k0 :: kr) = 61 :: (mid_ws l ++ value l ++ tail) /\
    upto is_eq_sign (k0 :: kr) = key l /\
    exists v0 vr, find_if not_space (mid_ws l ++ value l ++ tail) = v0 :: vr /\
      v0 :: vr = value l ++ tail /\
      upto is_line_end (value l ++ tail) = value l ++ upto is_line_end tail /\
      find_if is_line_end (value l ++ tail) = find_if is_line_end tail.
Proof.
  intros Hwf. destruct (wf_line_parts l Hwf) as (H1 & H2 & H3 & H4 & (v0 & v & Hv & Hv0) & H6 & H7).
  destruct (find_if_app_miss not_space (pre_ws l)
              (key l ++ [61] ++ mid_ws l ++ value l ++ tail)
              (forallb_isspace_not_space _ H1)) as [E1 _].
  destruct (find_if_app_hit is_eq_sign (key l) 61 (mid_ws l ++ value l ++ tail) H4 eq_refl)
    as [E2 E3].
  destruct (find_if_app_miss not_space (mid_ws l) (value l ++ tail)
              (forallb_isspace_not_space _ H2)) as [E4 _].
  destruct (find_if_app_miss is_line_end (value l) tail H6) as [E5 E6].
  assert (Hk : exists k0 kr, key l ++ [61] ++ mid_ws l ++ value l ++ tail = k0 :: kr
                             /\ not_space k0 = true).
  { destruct (key l) as [|k0 k]; simpl in *; eauto. }
  destruct Hk as (k0 & kr & Hk & Hk0).
  exists k0, kr. rewrite E1, Hk. simpl find_if at 1. rewrite Hk0.
  split; [reflexivity|]. rewrite <- Hk. simpl app in *. rewrite E2, E3.
  split; [reflexivity|]. split; [reflexivity|].
  exists v0, (v ++ tail). rewrite E4, E5, E6, Hv. simpl. rewrite Hv0.
  split_and!; reflexivity.
Qed.

Lemma ifo_body_step_line l rest m :
  wf_line l = true ->
  ifo_body_step (render_line l ++ rest) m =
  IfoNext rest (map_insert (key l) (value l) m).
Proof.
  intros Hwf. unfold render_line. rewrite <- !app_assoc.
  destruct (ifo_line_scan l ([eol l] ++ rest) Hwf)
    as (k0 & kr & E1 & E2 & E3 & v0 & vr & E4 & E5 & E6 & E7).
  destruct (wf_line_parts l Hwf) as (_ & _ & _ & _ & _ & _ & H7).
  unfold ifo_body_step. rewrite E1, E2, E3, E4, E5, E6, E7.
  simpl. rewrite H7. now rewrite app_nil_r.
Qed.

(** The bytes of a sequence of lines. *)
Definition ifo_lines (ls : list ifo_line) : list Z :=
  concat (map render_line ls).

Lemma ifo_body_loop_lines ls : forall m rest n,
  forallb wf_line ls = true ->
  (length (ifo_lines ls ++ rest) < n)%nat ->
  ifo_body_loop n (ifo_lines ls ++ rest) m =
  ifo_body_loop (S (length rest)) rest
    (fold_left (fun m l => map_insert (key l) (value l) m) ls m).
Proof.
  induction ls as [|l ls IH]; intros m rest n Hwf Hn.
  - apply ifo_body_loop_fuel; simpl in *; lia.
  - simpl in Hwf. apply andb_true_iff in Hwf as [Hl Hls].
    unfold ifo_lines in *. simpl concat in *. rewrite <- app_assoc in *.
    destruct n as [|n]; [lia|]. cbn [ifo_body_loop].
    rewrite ifo_body_step_line by assumption.
    rewrite IH; [reflexivity | assumption |].
    revert Hn. unfold render_line. rewrite !length_app. simpl. lia.
Qed.

Lemma ifo_body_step_ws ws m :
  forallb g_ascii_isspace ws = true -> ifo_body_step ws m = IfoBreak m.
Proof.
  intros H. unfold ifo_body_step.
  destruct (find_if_app_miss not_space ws [] (forallb_isspace_not_space _ H)) as [E _].
  rewrite app_nil_r in E. now rewrite E.
Qed.

Lemma ifo_body_step_last l m :
  wf_line l = true ->
  ifo_body_step (render_last l) m = IfoBreak (map_insert (key l) (value l) m).
Proof.
  intros Hwf. unfold render_last.
  destruct (ifo_line_scan l [] Hwf)
    as (k0 & kr & E1 & E2 & E3 & v0 & vr & E4 & E5 & E6 & E7).
  rewrite !app_nil_r in *.
  unfold ifo_body_step. rewrite E1, E2, E3, E4, E5, E6, E7. reflexivity.
Qed.

Lemma ifo_body_step_junk ws junk m :
  forallb g_ascii_isspace ws = true ->
  junk <> [] -> not_space (hd 32 junk) = true ->
  forallb (fun c => negb (is_eq_sign c)) junk = true ->
  ifo_body_step (ws ++ junk) m = IfoError.
Proof.
  intros Hws Hne Hhd Hno. unfold ifo_body_step.
  destruct (find_if_app_miss not_space ws junk (forallb_isspace_not_space _ Hws)) as [-> _].
  destruct junk as [|c junk]; [congruence|]. simpl in Hhd.
  simpl find_if at 1. rewrite Hhd.
  destruct (find_if_app_miss is_eq_sign (c :: junk) [] Hno) as [E _].
  rewrite app_nil_r in E. now rewrite E.
Qed.

Lemma g_str_has_prefix_app a b : g_str_has_prefix (a ++ b) a = true.
Proof. induction a as [|c a IH]; simpl; [reflexivity|]. now rewrite Z.eqb_refl. Qed.

Lemma load_from_ifo_file_parse_error conv1 conv2 name istreedict body :
  parse_ifo_body body = None ->
  load_from_ifo_file conv1 conv2 name (Some (magic_data istreedict ++ body)) istreedict = None.
Proof.
  intros E. unfold load_from_ifo_file.
  assert (g_str_has_prefix (magic_data istreedict ++ body) utf8_bom = false) as ->
    by (destruct istreedict; reflexivity).
  rewrite g_str_has_prefix_app. cbn [negb].
  now rewrite drop_app_length, E.
Qed.

Lemma ifo_map_lookup ls : forall m l,
  NoDup (map key ls) -> In l ls ->
  (forall l', In l' ls -> m !! key l' = None) ->
  fold_left (fun m l => map_insert (key l) (value l) m) ls m !! key l
  = Some (value l).
Proof.
  assert (Hkeep : forall ls m k v, m !! k = Some v ->
            fold_left (fun m l => map_insert (key l) (value l) m) ls m !! k = Some v).
  { clear. induction ls as [|l ls IH]; intros m k v Hk; simpl; [assumption|].
    apply IH. unfold map_insert. destruct (m !! key l) eqn:E; [assumption|].
    rewrite lookup_insert_ne; [assumption|]. congruence. }
  induction ls as [|l0 ls IH]; intros m l Hnd Hin Hm; [destruct Hin|].
  simpl in *. apply NoDup_cons in Hnd as [Hn0 Hnd].
  assert (E0 : map_insert (key l0) (value l0) m = <[key l0 := value l0]> m).
  { unfold map_insert. now rewrite (Hm l0) by auto. }
  destruct Hin as [<- | Hin].
  - apply Hkeep. rewrite E0. apply lookup_insert_eq.
  - apply IH; auto. intros l' Hl'. rewrite E0.
    rewrite lookup_insert_ne; [auto|].
    intros E. apply Hn0. rewrite E. apply list_elem_of_In, in_map, Hl'.
Qed.

(** C6 (amended).  On a body made of well-formed lines the parser skips the
    white space before each key, reads the key up to '=', skips the white
    space after '=' and stores the bytes from the first byte that is not
    white space up to the next CR, LF or the end of the file, trailing white
    space included; the first of two equal keys wins.  When, after the lines
    parsed so far, a byte that is not white space remains and no '=' follows
    it, the body is refused and [load_from_ifo_file] returns [false]. *)
Theorem parse_ifo_body_lines (ls : list ifo_line) (ws : list Z) :
  forallb wf_line ls = true -> forallb g_ascii_isspace ws = true ->
  parse_ifo_body (ifo_lines ls ++ ws) = Some (ifo_map ls) /\
  (NoDup (map key ls) ->
   forall l, In l ls -> ifo_map ls !! key l = Some (value l)) /\
  (forall l, wf_line l = true ->
     parse_ifo_body (ifo_lines ls ++ render_last l)
     = Some (ifo_map (ls ++ [l]))) /\
  (forall junk, junk <> [] -> not_space (hd 32 junk) = true ->
     forallb (fun c => negb (is_eq_sign c)) junk = true ->
     parse_ifo_body (ifo_lines ls ++ ws ++ junk) = None /\
     forall to_count to_filesize name istreedict,
       load_from_ifo_file to_count to_filesize name
         (Some (magic_data istreedict ++ ifo_lines ls ++ ws ++ junk))
         istreedict = None).
Proof.
  intros Hls Hws. split_and!.
  - unfold parse_ifo_body. rewrite ifo_body_loop_lines by (auto; lia).
    cbn [ifo_body_loop]. now rewrite ifo_body_step_ws.
  - intros Hnd l Hl. apply ifo_map_lookup; auto.
  - intros l Hl. unfold parse_ifo_body.
    rewrite ifo_body_loop_lines by (auto; lia).
    cbn [ifo_body_loop]. rewrite ifo_body_step_last by assumption.
    unfold ifo_map. now rewrite fold_left_app.
  - intros junk Hne Hhd Hno.
    assert (E : parse_ifo_body (ifo_lines ls ++ ws ++ junk) = None).
    { unfold parse_ifo_body. rewrite ifo_body_loop_lines by (auto; lia).
      cbn [ifo_body_loop]. now rewrite ifo_body_step_junk. }
    split; [exact E|]. intros. now apply load_from_ifo_file_parse_error.
Qed.

(** The body [" wordcount=  3 <LF><LF>"]: the value stored is ["3 "]. *)
Lemma parse_ifo_body_lines_witness :
  let l := {| pre_ws := [32]; key := str "wordcount"; mid_ws := [32; 32];
              value := str "3 "; eol := 10 |} in
  parse_ifo_body (ifo_lines [l] ++ [10]) = Some (ifo_map [l]) /\
  ifo_map [l] !! str "wordcount" = Some (str "3 ").
Proof.
  split.
  - apply (parse_ifo_body_lines
             [{| pre_ws := [32]; key := str "wordcount"; mid_ws := [32; 32];
                 value := str "3 "; eol := 10 |}] [10]); reflexivity.
  - reflexivity.
Defined.

(** C6 as stated fails twice.  On ["a= b"] the bytes after '=' are [" b"]
    but the value stored is ["b"]; and ["junk<LF>k=v"] holds the run
    ["junk"] with no '=' in it, yet the body is accepted, with the key
    ["junk<LF>k"]. *)
Lemma parse_ifo_body_value_not_verbatim :
  upto is_line_end (drop 2 (str "a= b")) = str " b" /\
  (parse_ifo_body (str "a= b") ≫= (fun m => m !! str "a")) = Some (str "b") /\
  forallb (fun c => negb (is_eq_sign c)) (str "junk") = true /\
  (parse_ifo_body (str "junk" ++ [10] ++ str "k=v")
     ≫= (fun m => m !! (str "junk" ++ [10] ++ str "k"))) = Some (str "v").
Proof. split_and!; vm_compute; reflexivity. Qed.

(** ** Loading a dictionary (lines 921-985, 1006-1013) *)

(** What the file system answers to [Dict::load] for one [.ifo] path: the
    contents of the [.ifo] file ([None]: unreadable), whether [.dict.dz]
    exists and [DictData::open] succeeds on it, whether [fopen] of [.dict]
    succeeds, whether [.idx.gz] exists, and the result of [idx_file->load]
    for the index class chosen ([true]: [WordListIndex]), the word count and
    the index file size. *)
Record DictFiles := {
  ifo_file : option (list Z);
  dictdz_exists : bool;
  dictdz_open : bool;
  dict_fopen : bool;
  idxgz_exists : bool;
  idx_load : bool -> Z -> Z -> bool
}.

(** The members of [Dict] set by [load]. *)
Record Dict := {
  dict_ifo_file_name : cstring;
  dict_wordcount : Z;
  dict_syn_wordcount : Z;
  dict_bookname : list Z;
  dict_sametypesequence : list Z;
  dict_compressed : bool;
  dict_wordlist_index : bool
}.

Section DictLoad.

Variable to_count : Z -> Z.
Variable to_filesize : Z -> Z.

(** [Dict::load_ifofile]: the [DictInfo] read, whose [index_file_size] is
    the [idxfilesize] handed back. *)
Definition load_ifofile (ifofilename : cstring) (file : option (list Z))
  : option DictInfo :=
  match load_from_ifo_file to_count to_filesize ifofilename file false with
  | None => None
  | Some dict_info =>
      if wordcount dict_info =? 0 then None else Some dict_info
  end.

Definition Dict_load (ifofilename : cstring) (fs : DictFiles) : option Dict :=
  match load_ifofile ifofilename (ifo_file fs) with
  | None => None
  | Some dict_info =>
      if (if dictdz_exists fs then dictdz_open fs else dict_fopen fs) then
        if idx_load fs (idxgz_exists fs) (wordcount dict_info)
             (index_file_size dict_info)
        then Some {|
               dict_ifo_file_name := ifo_file_name dict_info;
               dict_wordcount := wordcount dict_info;
               dict_syn_wordcount := syn_wordcount dict_info;
               dict_bookname := bookname dict_info;
               dict_sametypesequence := sametypesequence dict_info;
               dict_compressed := dictdz_exists fs;
               dict_wordlist_index := idxgz_exists fs
             |}
        else None
      else None
  end.

(** [Libs::load_dict]: the dictionary joins [oLib] only when it loads. *)
Definition load_dict (oLib : list Dict) (url : cstring) (fs : DictFiles)
  : list Dict :=
  match Dict_load url fs with
  | Some lib => oLib ++ [lib]
  | None => oLib
  end.

(** C9.  When the [.ifo] file parses and its word count is 0, [Dict::load]
    returns [false] whatever the companion files are, and [load_dict] leaves
    the library as it was. *)
Theorem Dict_load_wordcount_zero (url : cstring) (fs : DictFiles)
    (dict_info : DictInfo) (oLib : list Dict) :
  load_from_ifo_file to_count to_filesize url (ifo_file fs) false
    = Some dict_info ->
  wordcount dict_info = 0 ->
  Dict_load url fs = None /\ load_dict oLib url fs = oLib.
Proof.
  intros Hifo Hwc.
  assert (E : Dict_load url fs = None).
  { unfold Dict_load, load_ifofile. now rewrite Hifo, Hwc. }
  split; [exact E|]. unfold load_dict. now rewrite E.
Qed.

End DictLoad.

(** An [.ifo] file with [wordcount=0] and every companion file in place. *)
Definition ifo_wordcount_zero : list Z :=
  DICT_MAGIC_DATA ++ [10] ++ str "version=2.4.2" ++ [10] ++
  str "wordcount=0" ++ [10] ++ str "idxfilesize=16" ++ [10] ++
  str "bookname=empty" ++ [10].

Definition files_all_present (ifo : list Z) : DictFiles :=
  {| ifo_file := Some ifo; dictdz_exists := true; dictdz_open := true;
     dict_fopen := true; idxgz_exists := true;
     idx_load := fun _ _ _ => true |}.

Lemma Dict_load_wordcount_zero_witness :
  (wordcount <$> load_from_ifo_file id id (str "e.ifo")
                   (Some ifo_wordcount_zero) false) = Some 0 /\
  Dict_load id id (str "e.ifo") (files_all_present ifo_wordcount_zero) = None /\
  load_dict id id [] (str "e.ifo") (files_all_present ifo_wordcount_zero) = [].
Proof.
  assert (E : exists i, load_from_ifo_file id id (str "e.ifo")
                (Some ifo_wordcount_zero) false = Some i
              /\ wordcount i = 0).
  { eexists. split; vm_compute; reflexivity. }
  destruct E as (i & Ei & Ew). split.
  - rewrite Ei. cbn [fmap option_fmap option_map]. now rewrite Ew.
  - exact (Dict_load_wordcount_zero id id (str "e.ifo")
             (files_all_present ifo_wordcount_zero) i [] Ei Ew).
Defined.

(** ** The first suffix rule of [LookupSimilarWord] (lines 1063-1087) *)

(** [isascii] on every byte. *)
Definition bIsPureEnglish (s : cstring) : bool :=
  forallb (fun c => (0 <=? c) && (c <? 128)) s.

(** Reads of the input word are made through [load], which records the
    index read and fails when it lies outside the string and its
    terminator: a computation is a function from the reads made so far to
    its value and the reads made, or [None] after a read out of bounds. *)
Definition mem (A : Type) : Type := list Z -> option (A * list Z).

Definition mem_ret {A} (a : A) : mem A := fun tr => Some (a, tr).

Definition mem_bind {A B} (m : mem A) (f : A -> mem B) : mem B :=
  fun tr =>
    match m tr with
    | Some (a, tr') => f a tr'
    | None => None
    end.

Notation "'do' x <- m ;; k" := (mem_bind m (fun x => k))
  (at level 10, x name, m at level 99, k at level 200,
   format "'[v' 'do'  x  <-  m  ;; '/' k ']'").

Definition load (s : cstring) (i : Z) : mem Z :=
  fun tr =>
    if (0 <=? i) && (i <=? Z.of_nat (length s))
    then Some (nth (Z.to_nat i) s 0, i :: tr)
    else None.

(** [strncmp (&s[k], lit, n)]: bytes are read one at a time, up to the first
    difference, a NUL, or [n] of them. *)
Fixpoint strncmp_at (s : cstring) (k : Z) (lit : cstring) (n : nat) : mem Z :=
  match n with
  | O => mem_ret 0
  | S n' =>
      do c1 <- load s k ;;
      let c2 := deref lit in
      if c1 =? c2 then
        if c1 =? 0 then mem_ret 0 else strncmp_at s (k + 1) (tl lit) n'
      else mem_ret (c1 - c2)
  end.

Section Morphology.

(** [oLib[iLib]->Lookup (word, iWordIndices)]: whether the word was found
    and the indices after the call. *)
Variable Lookup : cstring -> gset Z -> bool * gset Z.

(** The second attempt of a rule: the lowered stem, when it differs. *)
Definition lookup_lowered (sNewWord : cstring) (idxs : gset Z)
  : bool * gset Z :=
  let casestr := strdown sNewWord in
  if strcmp casestr sNewWord =? 0 then (false, idxs)
  else Lookup casestr idxs.

(** The block [if (!bFound && iWordLen > 1) { ... }] that cuts "s" or "d";
    the value is [bFound] and [iWordIndices] after it. *)
Definition trim_s_ed (sWord : cstring) (bFound : bool) (idxs : gset Z)
  : mem (bool * gset Z) :=
  let iWordLen := Z.of_nat (length sWord) in
  if negb bFound && (1 <? iWordLen) then
    do c <- load sWord (iWordLen - 1) ;;
    do isupcase <-
      (if c =? 83 then mem_ret true
       else do r <- strncmp_at sWord (iWordLen - 2) (str "ED") 2 ;;
            mem_ret (r =? 0)) ;;
    do cut <-
      (if isupcase then mem_ret true
       else do c' <- load sWord (iWordLen - 1) ;;
            if c' =? 115 then mem_ret true
            else do r <- strncmp_at sWord (iWordLen - 2) (str "ed") 2 ;;
                 mem_ret (r =? 0)) ;;
    if cut then
      let sNewWord := take (Z.to_nat (iWordLen - 1)) sWord in
      let '(found, idxs1) := Lookup sNewWord idxs in
      if found then mem_ret (true, idxs1)
      else
        do lower <-
          (if isupcase then mem_ret true
           else do c0 <- load sWord 0 ;; mem_ret (g_ascii_isupper c0)) ;;
        if lower then mem_ret (lookup_lowered sNewWord idxs1)
        else mem_ret (false, idxs1)
    else mem_ret (bFound, idxs)
  else mem_ret (bFound, idxs).

(** Every read recorded lies on a byte of the word itself. *)
Definition reads_in_bounds (sWord : cstring) (tr : list Z) : Prop :=
  Forall (fun i => 0 <= i < Z.of_nat (length sWord)) tr.

Lemma load_ok (s : cstring) i tr :
  0 <= i < Z.of_nat (length s) -> reads_in_bounds s tr ->
  exists c, load s i tr = Some (c, i :: tr) /\ reads_in_bounds s (i :: tr).
Proof.
  intros Hi Htr. unfold load.
  destruct (Z.leb_spec 0 i); [|lia].
  destruct (Z.leb_spec i (Z.of_nat (length s))); [|lia].
  simpl. eexists. split; [reflexivity|]. constructor; assumption.
Qed.

(** A comparison with a two-letter suffix reads at [n-2] and, when the
    first letter matched, at [n-1]. *)
Lemma strncmp_at_suffix_ok (s : cstring) l1 l2 tr :
  2 <= Z.of_nat (length s) -> reads_in_bounds s tr ->
  exists r tr', strncmp_at s (Z.of_nat (length s) - 2) [l1; l2] 2 tr = Some (r, tr')
                /\ reads_in_bounds s tr'.
Proof.
  intros Hn Htr. cbn [strncmp_at]. unfold mem_bind.
  destruct (load_ok s (Z.of_nat (length s) - 2) tr) as (c1 & -> & Htr1); [lia|assumption|].
  unfold deref. cbn [hd tl].
  destruct (c1 =? l1); [|unfold mem_ret; eauto].
  destruct (c1 =? 0); [unfold mem_ret; eauto|].
  destruct (load_ok s (Z.of_nat (length s) - 2 + 1) (Z.of_nat (length s) - 2 :: tr))
    as (c2 & -> & Htr2); [lia|assumption|].
  destruct (c2 =? l2); [|unfold mem_ret; eauto].
  destruct (c2 =? 0); unfold mem_ret; eauto.
Qed.

Ltac mem_load H :=
  match goal with
  | |- context [load ?s ?i ?tr] =>
      let c := fresh "c" in
      let E := fresh "E" in
      destruct (load_ok s i tr) as (c & E & H); [lia | assumption | rewrite E]
  end.

Ltac mem_strncmp H :=
  match goal with
  | |- context [strncmp_at ?s _ [?l1; ?l2] 2 ?tr] =>
      let r := fresh "r" in
      let tr' := fresh "tr" in
      let E := fresh "E" in
      destruct (strncmp_at_suffix_ok s l1 l2 tr) as (r & tr' & E & H);
      [lia | assumption | rewrite E]
  end.

Lemma trim_s_ed_ok (sWord : cstring) bFound idxs :
  exists r tr, trim_s_ed sWord bFound idxs [] = Some (r, tr)
               /\ reads_in_bounds sWord tr.
Proof.
  unfold trim_s_ed.
  change (str "ED") with [69; 68]. change (str "ed") with [101; 100].
  assert (H0 : reads_in_bounds sWord []) by constructor.
  destruct (negb bFound && (1 <? Z.of_nat (length sWord))) eqn:G;
    [|unfold mem_ret; eauto].
  apply andb_true_iff in G as [_ G]. apply Z.ltb_lt in G.
  unfold mem_bind at 1. mem_load H1.
  unfold mem_bind at 1.
  assert (Hup : exists isupcase tr1,
             (if c =? 83 then mem_ret true
              else do r <- strncmp_at sWord (Z.of_nat (length sWord) - 2) [69; 68] 2 ;;
                   mem_ret (r =? 0))
               (Z.of_nat (length sWord) - 1 :: []) = Some (isupcase, tr1)
             /\ reads_in_bounds sWord tr1).
  { destruct (c =? 83); [unfold mem_ret; eauto|].
    unfold mem_bind. mem_strncmp H2. unfold mem_ret. eauto. }
  destruct Hup as (isupcase & tr1 & -> & H2).
  unfold mem_bind at 1.
  assert (Hcut : exists cut tr2,
             (if isupcase then mem_ret true
              else do c' <- load sWord (Z.of_nat (length sWord) - 1) ;;
                   if c' =? 115 then mem_ret true
                   else do r <- strncmp_at sWord (Z.of_nat (length sWord) - 2) [101; 100] 2 ;;
                        mem_ret (r =? 0)) tr1 = Some (cut, tr2)
             /\ reads_in_bounds sWord tr2).
  { destruct isupcase; [unfold mem_ret; eauto|].
    unfold mem_bind at 1. mem_load H3.
    destruct (c0 =? 115); [unfold mem_ret; eauto|].
    unfold mem_bind. mem_strncmp H4. unfold mem_ret. eauto. }
  destruct Hcut as (cut & tr2 & -> & H3).
  destruct cut; [|unfold mem_ret; eauto].
  destruct (Lookup _ idxs) as [found idxs1].
  destruct found; [unfold mem_ret; eauto|].
  unfold mem_bind.
  destruct isupcase.
  - unfold mem_ret. eauto.
  - mem_load H4. destruct (g_ascii_isupper c0); unfold mem_ret; eauto.
Qed.

End Morphology.

(** C8 (amended).  In the branch that cuts "s" or "d", guarded by
    [iWordLen > 1], every read of the input word, the reads of
    [sWord[iWordLen - 2]] for the "ed"/"ED" test among them, lies inside the
    word: the branch never reads out of bounds, whatever the word, two-letter
    words included. *)
Theorem trim_s_ed_reads_in_bounds
    (Lookup : cstring -> gset Z -> bool * gset Z)
    (sWord : cstring) (bFound : bool) (idxs : gset Z) :
  exists r tr, trim_s_ed Lookup sWord bFound idxs [] = Some (r, tr)
               /\ reads_in_bounds sWord tr.
Proof. apply trim_s_ed_ok. Qed.

(** C8 as stated fails: no pure-ASCII word of length 2 makes the branch read
    outside the word; for such a word [iWordLen - 2] is index 0. *)
Lemma trim_s_ed_two_letters_safe :
  ~ (exists (Lookup : cstring -> gset Z -> bool * gset Z)
            (sWord : cstring) (idxs : gset Z),
        bIsPureEnglish sWord = true /\ length sWord = 2%nat /\
        (trim_s_ed Lookup sWord false idxs [] = None \/
         exists r tr, trim_s_ed Lookup sWord false idxs [] = Some (r, tr)
                      /\ ~ reads_in_bounds sWord tr)).
Proof.
  intros (Lookup & sWord & idxs & _ & _ & H).
  destruct (trim_s_ed_ok Lookup sWord false idxs) as (r & tr & E & Hb).
  destruct H as [H | (r' & tr' & H & Hn)]; congruence.
Qed.

(** On "ed" itself the reads are at indices 1, 0, 1, 0, 1 and 0 (latest
    first in the record). *)
Example trim_s_ed_reads_ed :
  snd <$> trim_s_ed (fun _ i => (false, i)) (str "ed") false ∅ []
  = Some [0; 1; 0; 1; 0; 1].
Proof. reflexivity. Qed.

(** ** The index lookups (lines 658-759, 797-836) *)

(** [(iFrom + iTo) / 2] in C truncates towards zero. *)
Lemma quot2_between a b : a <= b -> a <= Z.quot (a + b) 2 <= b.
Proof.
  intros H. pose proof (Z.quot_rem' (a + b) 2) as E.
  destruct (Z_le_gt_dec 0 (a + b)).
  - pose proof (Z.rem_bound_pos (a + b) 2 ltac:(lia) ltac:(lia)). lia.
  - pose proof (Z.rem_bound_pos_neg (a + b) 2 ltac:(lia) ltac:(lia)). lia.
Qed.

(** The variables a binary search loop leaves behind. *)
Record bsearch_result := {
  bs_found : bool;
  bs_iFrom : Z;
  bs_iTo : Z;
  bs_iThisIndex : Z
}.

(** The three loops that [WordListIndex::lookup] and [OffsetIndex::lookup]
    are made of.  They are written once, over the comparison
    [cmp_at s i = stardict_strcmp (str, KEY (i))] of the query with the key
    at index [i]; getting at that key may change the state [s] of the index
    (its page buffer), which is threaded through. *)
Section IndexLoops.

Context {S : Type}.
Variable cmp_at : S -> Z -> S * Z.

(** [while (iFrom <= iTo) { iThisIndex = (iFrom + iTo) / 2; ... }] *)
Equations? bsearch (s : S) (iFrom iTo iThisIndex : Z) : S * bsearch_result
  by wf (Z.to_nat (iTo - iFrom + 1)) lt :=
  bsearch s iFrom iTo iThisIndex with Z_le_gt_dec iFrom iTo => {
    | right _ => (s, Build_bsearch_result false iFrom iTo iThisIndex);
    | left _ with cmp_at s (Z.quot (iFrom + iTo) 2) => {
        | (s', cmpint) with Z.compare cmpint 0 => {
            | Gt => bsearch s' (Z.quot (iFrom + iTo) 2 + 1) iTo
                      (Z.quot (iFrom + iTo) 2);
            | Lt => bsearch s' iFrom (Z.quot (iFrom + iTo) 2 - 1)
                      (Z.quot (iFrom + iTo) 2);
            | Eq => (s', Build_bsearch_result true iFrom iTo
                           (Z.quot (iFrom + iTo) 2)) } } }.
Proof.
  all: pose proof (quot2_between iFrom iTo ltac:(lia)); lia.
Qed.

(** [while (iHeadIndex >= 0 && stardict_strcmp (str, get_key (iHeadIndex)) == 0)
      idxs.insert (iHeadIndex--);] *)
Equations? walk_back (s : S) (iHeadIndex : Z) (idxs : gset Z) : S * gset Z
  by wf (Z.to_nat (iHeadIndex + 1)) lt :=
  walk_back s iHeadIndex idxs with Z_le_gt_dec 0 iHeadIndex => {
    | right _ => (s, idxs);
    | left _ with cmp_at s iHeadIndex => {
        | (s', cmpint) with Z.eq_dec cmpint 0 => {
            | left _ => walk_back s' (iHeadIndex - 1) ({[iHeadIndex]} ∪ idxs);
            | right _ => (s', idxs) } } }.
Proof. lia. Qed.

(** [do idxs.insert (iThisIndex++);
    while (iThisIndex <= iLast && stardict_strcmp (str, get_key (iThisIndex)) == 0);]
    with [iThisIndex] the index about to be inserted. *)
Equations? walk_fwd (s : S) (iLast iThisIndex : Z) (idxs : gset Z) : S * gset Z
  by wf (Z.to_nat (iLast - iThisIndex + 1)) lt :=
  walk_fwd s iLast iThisIndex idxs with Z_le_gt_dec (iThisIndex + 1) iLast => {
    | right _ => (s, {[iThisIndex]} ∪ idxs);
    | left _ with cmp_at s (iThisIndex + 1) => {
        | (s', cmpint) with Z.eq_dec cmpint 0 => {
            | left _ => walk_fwd s' iLast (iThisIndex + 1) ({[iThisIndex]} ∪ idxs);
            | right _ => (s', {[iThisIndex]} ∪ idxs) } } }.
Proof. lia. Qed.

End IndexLoops.

(** The key of entry [i] of an index given by its keys in order. *)
Definition key_at (keys : list cstring) (i : Z) : cstring :=
  nth (Z.to_nat i) keys [].

(** What a lookup hands back: the return value, [idxs] and [next_idx]. *)
Record lookup_result := {
  lr_found : bool;
  lr_idxs : gset Z;
  lr_next_idx : Z
}.

(** *** [WordListIndex] *)

(** [wordlist] holds the keys; its last slot in the source, the end of the
    buffer, is left out, so [wordlist.size () - 2] is [length wordlist - 1]. *)
Record WordListIndex := { wordlist : list cstring }.

Definition WordListIndex_get_key (w : WordListIndex) (idx : Z) : cstring :=
  key_at (wordlist w) idx.

Section Lookup.

(** [INVALID_INDEX] is a constant of [stardict_lib.hpp]. *)
Variable INVALID_INDEX : Z.

Definition WordListIndex_lookup (w : WordListIndex) (str : cstring)
    (idxs : gset Z) (next_idx : Z) : lookup_result :=
  let iLast := Z.of_nat (length (wordlist w)) - 1 in
  let cmp_at := fun (s : unit) i =>
                  (s, stardict_strcmp str (WordListIndex_get_key w i)) in
  if stardict_strcmp str (WordListIndex_get_key w 0) <? 0 then
    Build_lookup_result false idxs 0
  else if 0 <? stardict_strcmp str (WordListIndex_get_key w iLast) then
    Build_lookup_result false idxs INVALID_INDEX
  else
    let r := snd (bsearch cmp_at tt 0 iLast 0) in
    if negb (bs_found r) then Build_lookup_result false idxs (bs_iFrom r)
    else
      let idxs1 := snd (walk_back cmp_at tt (bs_iThisIndex r - 1) idxs) in
      let idxs2 := snd (walk_fwd cmp_at tt iLast (bs_iThisIndex r) idxs1) in
      Build_lookup_result true idxs2 next_idx.

End Lookup.

(** *** The pages of [OffsetIndex] *)

Definition ENTR_PER_PAGE : Z := 32.

Record index_entry := { ie_idx : Z; ie_keystr : cstring }.

(** *** The loops on a sorted run of keys *)

Section IndexLoopSpecs.

Context {S : Type}.
Variable cmp_at : S -> Z -> S * Z.

(** Between [lo] and [hi] the comparison is that of a fixed function [c] of
    the index, in every state satisfying [Inv], which it keeps. *)
Variable Inv : S -> Prop.
Variable c : Z -> Z.
Variables lo hi : Z.
Hypothesis cmp_at_pure : forall s i,
  Inv s -> lo <= i <= hi -> Inv (fst (cmp_at s i)) /\ snd (cmp_at s i) = c i.

Lemma bsearch_found s iFrom iTo iThisIndex :
  Inv s -> lo <= iFrom -> iTo <= hi ->
  Inv (fst (bsearch cmp_at s iFrom iTo iThisIndex)) /\
  (bs_found (snd (bsearch cmp_at s iFrom iTo iThisIndex)) = true ->
   iFrom <= bs_iThisIndex (snd (bsearch cmp_at s iFrom iTo iThisIndex)) <= iTo /\
   c (bs_iThisIndex (snd (bsearch cmp_at s iFrom iTo iThisIndex))) = 0).
Proof.
  funelim (bsearch cmp_at s iFrom iTo iThisIndex); intros HI Hlo Hhi.
  - simpl. split; [assumption | discriminate].
  - pose proof (quot2_between iFrom iTo l) as Hq.
    destruct (cmp_at_pure s ((iFrom + iTo) `quot` 2) HI ltac:(lia)) as [HI' Hc].
    rewrite Heq0 in HI', Hc. simpl in *.
    split; [assumption|]. intros _. split; [lia|].
    apply Z.compare_eq in Heq. lia.
  - pose proof (quot2_between iFrom iTo l) as Hq.
    destruct (cmp_at_pure s ((iFrom + iTo) `quot` 2) HI ltac:(lia)) as [HI' Hc].
    rewrite Heq0 in HI', Hc. simpl in *.
    destruct (H HI' ltac:(lia) ltac:(lia)) as [H1 H2].
    split; [assumption|]. intros F. specialize (H2 F). lia.
  - pose proof (quot2_between iFrom iTo l) as Hq.
    destruct (cmp_at_pure s ((iFrom + iTo) `quot` 2) HI ltac:(lia)) as [HI' Hc].
    rewrite Heq0 in HI', Hc. simpl in *.
    destruct (H HI' ltac:(lia) ltac:(lia)) as [H1 H2].
    split; [assumption|]. intros F. specialize (H2 F). lia.
Qed.

(** The sign of the comparison falls along a sorted run. *)
Hypothesis c_mono : forall i j, lo <= i -> i <= j -> j <= hi ->
  (c i < 0 -> c j < 0) /\ (0 < c j -> 0 < c i).

Lemma bsearch_not_found s iFrom iTo iThisIndex :
  Inv s -> lo <= iFrom -> iTo <= hi -> iFrom <= iTo + 1 ->
  bs_found (snd (bsearch cmp_at s iFrom iTo iThisIndex)) = false ->
  bs_iFrom (snd (bsearch cmp_at s iFrom iTo iThisIndex))
  = bs_iTo (snd (bsearch cmp_at s iFrom iTo iThisIndex)) + 1 /\
  iFrom <= bs_iFrom (snd (bsearch cmp_at s iFrom iTo iThisIndex)) <= iTo + 1 /\
  (forall i, iFrom <= i < bs_iFrom (snd (bsearch cmp_at s iFrom iTo iThisIndex)) ->
             0 < c i) /\
  (forall i, bs_iFrom (snd (bsearch cmp_at s iFrom iTo iThisIndex)) <= i <= iTo ->
             c i < 0).
Proof.
  funelim (bsearch cmp_at s iFrom iTo iThisIndex); intros HI Hlo Hhi Hft.
  - simpl. intros _. split_and!; intros; lia.
  - simpl. discriminate.
  - pose proof (quot2_between iFrom iTo l) as Hq.
    destruct (cmp_at_pure s ((iFrom + iTo) `quot` 2) HI ltac:(lia)) as [HI' Hc].
    rewrite Heq0 in HI', Hc. simpl in *.
    rewrite Z.compare_lt_iff in Heq.
    intros F. destruct (H HI' ltac:(lia) ltac:(lia) ltac:(lia) F) as (E & B & L & R).
    split_and!; try lia; [exact L|].
    intros i Hi.
    destruct (Z_lt_le_dec i ((iFrom + iTo) `quot` 2)); [apply R; lia|].
    apply (c_mono ((iFrom + iTo) `quot` 2) i); lia.
  - pose proof (quot2_between iFrom iTo l) as Hq.
    destruct (cmp_at_pure s ((iFrom + iTo) `quot` 2) HI ltac:(lia)) as [HI' Hc].
    rewrite Heq0 in HI', Hc. simpl in *.
    rewrite Z.compare_gt_iff in Heq.
    intros F. destruct (H HI' ltac:(lia) ltac:(lia) ltac:(lia) F) as (E & B & L & R).
    split_and!; try lia; [|exact R].
    intros i Hi.
    destruct (Z_lt_le_dec ((iFrom + iTo) `quot` 2) i); [apply L; lia|].
    apply (c_mono i ((iFrom + iTo) `quot` 2)); lia.
Qed.

(** The backward walk collects the run of zeros that ends at
    [iHeadIndex]. *)
Lemma walk_back_spec s iHeadIndex idxs :
  Inv s -> lo <= 0 -> iHeadIndex <= hi ->
  (forall i j, 0 <= i -> i <= j -> j <= iHeadIndex -> c i = 0 -> c j = 0) ->
  Inv (fst (walk_back cmp_at s iHeadIndex idxs)) /\
  forall x, x ∈ snd (walk_back cmp_at s iHeadIndex idxs) <->
            x ∈ idxs \/ (0 <= x <= iHeadIndex /\ c x = 0).
Proof.
  funelim (walk_back cmp_at s iHeadIndex idxs); intros HI Hlo Hhi Hrun.
  - simpl. split; [assumption|]. intros x. split; [auto|]. intros [?|?]; [assumption|lia].
  - destruct (cmp_at_pure s iHeadIndex HI ltac:(lia)) as [HI' Hc].
    rewrite Heq0 in HI', Hc. simpl in *.
    destruct (H HI' Hlo ltac:(lia)) as [H1 H2].
    { intros i j ? ? ? ?. apply (Hrun i j); lia. }
    split; [assumption|]. intros x. rewrite H2.
    rewrite elem_of_union, elem_of_singleton.
    split.
    + intros [[-> | ?] | [? ?]]; [right; split; [lia|congruence] | auto | right; split; [lia|assumption]].
    + intros [? | [? Hx]]; [auto|].
      destruct (Z.eq_dec x iHeadIndex); [auto|]. right. split; [lia|assumption].
  - destruct (cmp_at_pure s iHeadIndex HI ltac:(lia)) as [HI' Hc].
    rewrite Heq0 in HI', Hc. simpl in *.
    split; [assumption|]. intros x. split; [auto|].
    intros [? | [? Hx]]; [assumption|]. exfalso.
    apply n. rewrite Hc. apply (Hrun x iHeadIndex); lia.
Qed.

(** The forward walk collects [iThisIndex] and the run of zeros after it. *)
Lemma walk_fwd_spec s iLast iThisIndex idxs :
  Inv s -> lo <= iThisIndex + 1 -> iLast <= hi ->
  (forall i j, iThisIndex < i -> i <= j -> j <= iLast -> c j = 0 -> c i = 0) ->
  Inv (fst (walk_fwd cmp_at s iLast iThisIndex idxs)) /\
  forall x, x ∈ snd (walk_fwd cmp_at s iLast iThisIndex idxs) <->
            x ∈ idxs \/ x = iThisIndex \/ (iThisIndex < x <= iLast /\ c x = 0).
Proof.
  funelim (walk_fwd cmp_at s iLast iThisIndex idxs); intros HI Hlo Hhi Hrun.
  - simpl. split; [assumption|]. intros x.
    rewrite elem_of_union, elem_of_singleton.
    split; [intros [?|?]; auto|]. intros [?|[?|?]]; auto; lia.
  - destruct (cmp_at_pure s (iThisIndex + 1) HI ltac:(lia)) as [HI' Hc].
    rewrite Heq0 in HI', Hc. simpl in *.
    destruct (H HI' ltac:(lia) Hhi) as [H1 H2].
    { intros i j ? ? ? ?. apply (Hrun i j); lia. }
    split; [assumption|]. intros x. rewrite H2.
    rewrite elem_of_union, elem_of_singleton.
    split.
    + intros [[? | ?] | [-> | [? ?]]]; auto.
      * right. right. split; [lia|congruence].
      * right. right. split; [lia|assumption].
    + intros [? | [? | [? Hx]]]; auto.
      destruct (Z.eq_dec x (iThisIndex + 1)); [auto|].
      right. right. split; [lia|assumption].
  - destruct (cmp_at_pure s (iThisIndex + 1) HI ltac:(lia)) as [HI' Hc].
    rewrite Heq0 in HI', Hc. simpl in *.
    split; [assumption|]. intros x.
    rewrite elem_of_union, elem_of_singleton.
    split; [intros [?|?]; auto|].
    intros [? | [? | [? Hx]]]; auto. exfalso.
    apply n. rewrite Hc. apply (Hrun (iThisIndex + 1) x); lia.
Qed.

End IndexLoopSpecs.

(** *** Sorted indexes (invariant I1) *)

(** Each key is at most its successor under the comparator. *)
Fixpoint index_sortedb (keys : list cstring) : bool :=
  match keys with
  | a :: (b :: _) as r => (stardict_strcmp a b <=? 0) && index_sortedb r
  | _ => true
  end.

(** The keys are C strings in ascending order, and there is at least one
    ([Dict::load] refuses a word count of 0). *)
Definition index_ok (keys : list cstring) : bool :=
  negb (Nat.eqb (length keys) 0) && forallb is_cstrb keys && index_sortedb keys.

Lemma stardict_strcmp_lt_le a b c :
  is_cstr a -> is_cstr b -> is_cstr c ->
  stardict_strcmp a b < 0 -> stardict_strcmp b c <= 0 -> stardict_strcmp a c < 0.
Proof.
  intros Ha Hb Hc L1 L2.
  destruct (Z.eq_dec (stardict_strcmp b c) 0) as [E|E].
  - apply stardict_strcmp_eq in E; subst; assumption.
  - apply stardict_strcmp_trans_lt with b; auto; lia.
Qed.

Lemma stardict_strcmp_le_lt a b c :
  is_cstr a -> is_cstr b -> is_cstr c ->
  stardict_strcmp a b <= 0 -> stardict_strcmp b c < 0 -> stardict_strcmp a c < 0.
Proof.
  intros Ha Hb Hc L1 L2.
  destruct (Z.eq_dec (stardict_strcmp a b) 0) as [E|E].
  - apply stardict_strcmp_eq in E; subst; assumption.
  - apply stardict_strcmp_trans_lt with b; auto; lia.
Qed.

Lemma forallb_is_cstrb_nth keys i :
  forallb is_cstrb keys = true -> is_cstr (nth i keys []).
Proof.
  revert i. induction keys as [|a r IH]; intros [|i] H; simpl in *;
    try (constructor; fail).
  - apply andb_true_iff in H as [H _]. now apply is_cstrb_spec.
  - apply andb_true_iff in H as [_ H]. now apply IH.
Qed.

Lemma index_sortedb_hd a r :
  forallb is_cstrb (a :: r) = true -> index_sortedb (a :: r) = true ->
  forall j, (j < length r)%nat -> stardict_strcmp a (nth j r []) <= 0.
Proof.
  revert a. induction r as [|b r IH]; intros a Hc Hs j Hj; simpl in Hj; [lia|].
  cbn [index_sortedb] in Hs. apply andb_true_iff in Hs as [Hab Hs].
  apply Z.leb_le in Hab.
  destruct j as [|j]; [exact Hab|]. cbn [nth].
  pose proof Hc as Hc'. cbn [forallb] in Hc'.
  apply andb_true_iff in Hc' as [Ha Hr].
  apply stardict_strcmp_trans_le with b.
  - now apply is_cstrb_spec.
  - apply (forallb_is_cstrb_nth (b :: r) 0 Hr).
  - apply (forallb_is_cstrb_nth (b :: r) (S j) Hr).
  - exact Hab.
  - apply IH; [exact Hr | exact Hs | lia].
Qed.

Lemma index_sortedb_nth keys :
  forallb is_cstrb keys = true -> index_sortedb keys = true ->
  forall i j, (i <= j)%nat -> (j < length keys)%nat ->
  stardict_strcmp (nth i keys []) (nth j keys []) <= 0.
Proof.
  induction keys as [|a r IH]; intros Hc Hs i j Hij Hj; simpl in Hj; [lia|].
  destruct i as [|i].
  - destruct j as [|j]; cbn [nth].
    + rewrite stardict_strcmp_refl. lia.
    + apply index_sortedb_hd; [assumption | assumption | lia].
  - destruct j as [|j]; [lia|]. cbn [nth].
    cbn [forallb] in Hc. apply andb_true_iff in Hc as [_ Hc].
    apply IH; try lia; [assumption|].
    destruct r; [reflexivity|]. cbn [index_sortedb] in Hs.
    now apply andb_true_iff in Hs as [_ Hs].
Qed.

Section SortedKeys.

Variable keys : list cstring.
Variable str : cstring.
Hypothesis keys_ok : index_ok keys = true.
Hypothesis str_ok : is_cstr str.

(** The comparison of the query with the key at an index. *)
Definition cmp_key_at (i : Z) : Z := stardict_strcmp str (key_at keys i).

Let n : Z := Z.of_nat (length keys).

Lemma index_ok_parts :
  1 <= n /\ forallb is_cstrb keys = true /\ index_sortedb keys = true.
Proof.
  unfold index_ok in keys_ok. rewrite !andb_true_iff in keys_ok.
  destruct keys_ok as [[H1 H2] H3]. split_and!; auto.
  subst n. destruct keys; [discriminate|]. simpl. lia.
Qed.

Lemma key_at_cstr i : is_cstr (key_at keys i).
Proof. apply forallb_is_cstrb_nth, index_ok_parts. Qed.

Lemma key_at_sorted i j :
  0 <= i -> i <= j -> j < n ->
  stardict_strcmp (key_at keys i) (key_at keys j) <= 0.
Proof.
  intros Hi Hij Hj. destruct index_ok_parts as (_ & Hc & Hs).
  unfold key_at. apply index_sortedb_nth; auto; subst n; lia.
Qed.

Lemma cmp_key_at_mono i j :
  0 <= i -> i <= j -> j <= n - 1 ->
  (cmp_key_at i < 0 -> cmp_key_at j < 0) /\
  (0 < cmp_key_at j -> 0 < cmp_key_at i).
Proof.
  intros Hi Hij Hj. unfold cmp_key_at.
  pose proof (key_at_sorted i j Hi Hij ltac:(lia)) as Hs.
  pose proof (key_at_cstr i) as Ci. pose proof (key_at_cstr j) as Cj.
  split.
  - intros L. now apply stardict_strcmp_lt_le with (key_at keys i).
  - intros L.
    pose proof (stardict_strcmp_antisym str (key_at keys j) str_ok Cj) as A1.
    pose proof (stardict_strcmp_antisym str (key_at keys i) str_ok Ci) as A2.
    assert (stardict_strcmp (key_at keys i) str < 0); [|lia].
    apply stardict_strcmp_le_lt with (key_at keys j); auto. lia.
Qed.

(** Between two keys equal to the query every key is equal to it. *)
Lemma cmp_key_at_run i j k :
  0 <= i -> i <= j -> j <= k -> k <= n - 1 ->
  cmp_key_at i = 0 -> cmp_key_at k = 0 -> cmp_key_at j = 0.
Proof.
  intros Hi Hij Hjk Hk Zi Zk.
  destruct (cmp_key_at_mono i j Hi Hij ltac:(lia)) as [_ M1].
  destruct (cmp_key_at_mono j k ltac:(lia) Hjk Hk) as [M2 _].
  lia.
Qed.

End SortedKeys.

(** *** What a lookup returns on a sorted index *)

(** The indices added are those of the keys equal to the query, and the
    outcome is one of four: the query is before the first key; it is after
    the last; it falls strictly between two neighbours, the higher of which
    is [next_idx]; or it is found and [next_idx] is left alone. *)
Definition lookup_spec (INVALID_INDEX : Z) (keys : list cstring)
    (str : cstring) (idxs : gset Z) (next_idx : Z) (r : lookup_result)
  : Prop :=
  let n := Z.of_nat (length keys) in
  let c := cmp_key_at keys str in
  (forall x, x ∈ lr_idxs r <-> x ∈ idxs \/ (0 <= x < n /\ c x = 0)) /\
  ((c 0 < 0 /\ lr_found r = false /\ lr_next_idx r = 0) \/
   (0 <= c 0 /\ 0 < c (n - 1) /\
    lr_found r = false /\ lr_next_idx r = INVALID_INDEX) \/
   (0 <= c 0 /\ c (n - 1) <= 0 /\ lr_found r = false /\
    0 < lr_next_idx r < n /\
    0 < c (lr_next_idx r - 1) /\ c (lr_next_idx r) < 0) \/
   (lr_found r = true /\ lr_next_idx r = next_idx /\
    exists i, 0 <= i < n /\ c i = 0)).

(** Around a sign change there is no key equal to the query. *)
Lemma no_zero_between keys str i :
  index_ok keys = true -> is_cstr str ->
  0 <= i -> i <= Z.of_nat (length keys) ->
  (0 < i -> 0 < cmp_key_at keys str (i - 1)) ->
  (i < Z.of_nat (length keys) -> cmp_key_at keys str i < 0) ->
  forall x, 0 <= x < Z.of_nat (length keys) -> cmp_key_at keys str x <> 0.
Proof.
  intros Hk Hs Hi Hn Hl Hr x Hx.
  destruct (Z_lt_le_dec x i).
  - destruct (cmp_key_at_mono keys str Hk Hs x (i - 1)
                ltac:(lia) ltac:(lia) ltac:(lia)) as [_ M].
    pose proof (M (Hl ltac:(lia))). lia.
  - destruct (cmp_key_at_mono keys str Hk Hs i x
                ltac:(lia) ltac:(lia) ltac:(lia)) as [M _].
    pose proof (M (Hr ltac:(lia))). lia.
Qed.

Lemma WordListIndex_lookup_spec INVALID_INDEX keys str idxs next_idx :
  index_ok keys = true -> is_cstr str ->
  lookup_spec INVALID_INDEX keys str idxs next_idx
    (WordListIndex_lookup INVALID_INDEX {| wordlist := keys |} str idxs next_idx).
Proof.
  intros Hk Hs. unfold lookup_spec.
  change (WordListIndex_lookup INVALID_INDEX {| wordlist := keys |} str idxs next_idx)
    with (let n := Z.of_nat (length keys) in
          let c := cmp_key_at keys str in
          let cmp_at := fun (s : unit) (i : Z) => (s, c i) in
          if c 0 <? 0 then Build_lookup_result false idxs 0
          else if 0 <? c (n - 1) then Build_lookup_result false idxs INVALID_INDEX
          else
            let r := snd (bsearch cmp_at tt 0 (n - 1) 0) in
            if negb (bs_found r) then Build_lookup_result false idxs (bs_iFrom r)
            else
              let idxs1 := snd (walk_back cmp_at tt (bs_iThisIndex r - 1) idxs) in
              let idxs2 := snd (walk_fwd cmp_at tt (n - 1) (bs_iThisIndex r) idxs1) in
              Build_lookup_result true idxs2 next_idx).
  cbv zeta.
  set (n := Z.of_nat (length keys)).
  set (c := cmp_key_at keys str).
  set (cmp_at := fun (s : unit) (i : Z) => (s, c i)).
  destruct (index_ok_parts keys Hk) as (Hn & _ & _). fold n in Hn.
  assert (Hpure : forall (s : unit) i, True -> 0 <= i <= n - 1 ->
                    True /\ snd (cmp_at s i) = c i) by (intros; split; auto).
  assert (Hmono : forall i j, 0 <= i -> i <= j -> j <= n - 1 ->
                    (c i < 0 -> c j < 0) /\ (0 < c j -> 0 < c i))
    by (intros; apply cmp_key_at_mono; auto).
  destruct (Z.ltb_spec (c 0) 0) as [L0|L0].
  { cbn [lr_idxs lr_found lr_next_idx]. split; [|left; auto].
    intros x. split; [intros ?; left; assumption|]. intros [?|[Hx Z0]]; [assumption|].
    exfalso. revert Z0.
    apply (no_zero_between keys str 0); auto; try lia. }
  destruct (Z.ltb_spec 0 (c (n - 1))) as [L1|L1].
  { cbn [lr_idxs lr_found lr_next_idx]. split; [|right; left; auto].
    intros x. split; [intros ?; left; assumption|]. intros [?|[Hx Z0]]; [assumption|].
    exfalso. revert Z0.
    apply (no_zero_between keys str n); auto; fold n; try lia. }
  destruct (bsearch_found cmp_at (fun _ => True) c 0 (n - 1) Hpure tt 0 (n - 1) 0 I
              ltac:(lia) ltac:(lia)) as [_ Hf].
  pose proof (bsearch_not_found cmp_at (fun _ => True) c 0 (n - 1) Hpure Hmono
                tt 0 (n - 1) 0 I ltac:(lia) ltac:(lia) ltac:(lia)) as Hnf.
  destruct (bs_found (snd (bsearch cmp_at tt 0 (n - 1) 0))) eqn:F; cbn [negb].
  - destruct (Hf eq_refl) as [Hr Hz]. clear Hf Hnf.
    set (m := bs_iThisIndex (snd (bsearch cmp_at tt 0 (n - 1) 0))) in *.
    cbn [lr_idxs lr_found lr_next_idx].
    destruct (walk_back_spec cmp_at (fun _ => True) c 0 (n - 1) Hpure tt (m - 1) idxs I
                ltac:(lia) ltac:(lia)) as [_ Hb].
    { intros i j ? ? ? Zi. apply (cmp_key_at_run keys str Hk Hs i j m); auto; lia. }
    destruct (walk_fwd_spec cmp_at (fun _ => True) c 0 (n - 1) Hpure tt (n - 1) m
                (snd (walk_back cmp_at tt (m - 1) idxs)) I
                ltac:(lia) ltac:(lia)) as [_ Hw].
    { intros i j ? ? ? Zj. apply (cmp_key_at_run keys str Hk Hs m i j); auto; lia. }
    split.
    + intros x. rewrite Hw, Hb. split.
      * intros [[?|[? ?]]|[->|[? ?]]]; auto; right; split; auto; lia.
      * intros [?|[? Zx]]; auto.
        destruct (Z_lt_le_dec x m); [left; right; split; [lia|assumption]|].
        destruct (Z.eq_dec x m); [auto|].
        right. right. split; [lia|assumption].
    + right. right. right. split_and!; auto. exists m. split; [lia|assumption].
  - destruct (Hnf eq_refl) as (E & B & L & R). clear Hf Hnf.
    set (f := bs_iFrom (snd (bsearch cmp_at tt 0 (n - 1) 0))) in *.
    cbn [lr_idxs lr_found lr_next_idx].
    assert (0 < f) by (destruct (Z.eq_dec f 0); [specialize (R 0); lia | lia]).
    assert (f < n) by (destruct (Z.eq_dec f n); [specialize (L (n - 1)); lia | lia]).
    assert (0 < c (f - 1)) by (apply L; lia).
    assert (c f < 0) by (apply R; lia).
    split.
    + intros x. split; [intros ?; left; assumption|]. intros [?|[Hx Z0]]; [assumption|].
      exfalso. revert Z0. apply (no_zero_between keys str f); auto; fold n; lia.
    + right. right. left. split_and!; auto; lia.
Qed.

(** *** Pages and the entries on them *)

(** The number of the last page and the number of entries on a page, for an
    index of [n] entries. *)
Definition last_page (n : Z) : Z := Z.quot (n - 1) ENTR_PER_PAGE.

Definition page_len (n p : Z) : Z :=
  if p =? last_page n then
    if Z.rem n ENTR_PER_PAGE =? 0 then ENTR_PER_PAGE else Z.rem n ENTR_PER_PAGE
  else ENTR_PER_PAGE.

Definition page_of (keys : list cstring) (p : Z) : list cstring :=
  take (Z.to_nat (page_len (Z.of_nat (length keys)) p))
       (drop (Z.to_nat (ENTR_PER_PAGE * p)) keys).

Lemma page_arith n :
  1 <= n ->
  0 <= last_page n /\
  ENTR_PER_PAGE * last_page n + page_len n (last_page n) = n /\
  forall p, 0 <= p <= last_page n ->
    1 <= page_len n p <= ENTR_PER_PAGE /\
    ENTR_PER_PAGE * p + page_len n p <= n /\
    (p < last_page n -> page_len n p = ENTR_PER_PAGE).
Proof.
  intros Hn. unfold page_len, last_page, ENTR_PER_PAGE.
  pose proof (Z.quot_rem' (n - 1) 32) as E1.
  pose proof (Z.rem_bound_pos (n - 1) 32 ltac:(lia) ltac:(lia)) as B1.
  pose proof (Z.quot_rem' n 32) as E2.
  pose proof (Z.rem_bound_pos n 32 ltac:(lia) ltac:(lia)) as B2.
  rewrite Z.eqb_refl.
  set (q1 := Z.quot (n - 1) 32) in *. set (r1 := Z.rem (n - 1) 32) in *.
  set (q2 := Z.quot n 32) in *. set (r2 := Z.rem n 32) in *.
  clearbody q1 r1 q2 r2.
  assert (Hq : (r2 = 0 /\ q2 = q1 + 1) \/ (0 < r2 /\ q2 = q1)).
  { destruct (Z.eqb_spec r2 0); [left | right];
      (split; [lia|]);
      destruct (Z.lt_trichotomy q2 q1) as [|[|]];
      destruct (Z.lt_trichotomy q2 (q1 + 1)) as [|[|]]; lia. }
  split; [lia|]. split.
  - destruct (Z.eqb_spec r2 0); cbv iota; lia.
  - intros p Hp. destruct (Z.eqb_spec p q1);
      destruct (Z.eqb_spec r2 0); cbv iota; lia.
Qed.

Lemma quot_rem_page idx :
  0 <= idx ->
  idx = ENTR_PER_PAGE * Z.quot idx ENTR_PER_PAGE + Z.rem idx ENTR_PER_PAGE /\
  0 <= Z.rem idx ENTR_PER_PAGE < ENTR_PER_PAGE /\
  0 <= Z.quot idx ENTR_PER_PAGE.
Proof.
  intros H. unfold ENTR_PER_PAGE.
  pose proof (Z.quot_rem' idx 32).
  pose proof (Z.rem_bound_pos idx 32 ltac:(lia) ltac:(lia)).
  set (q := Z.quot idx 32) in *. set (r := Z.rem idx 32) in *.
  clearbody q r. lia.
Qed.

Lemma key_at_page_of keys p k :
  1 <= Z.of_nat (length keys) ->
  0 <= p <= last_page (Z.of_nat (length keys)) ->
  0 <= k < page_len (Z.of_nat (length keys)) p ->
  key_at (page_of keys p) k = key_at keys (ENTR_PER_PAGE * p + k).
Proof.
  intros Hn Hp Hk. unfold key_at, page_of.
  rewrite nth_firstn, nth_skipn.
  destruct (Nat.ltb_spec (Z.to_nat k)
              (Z.to_nat (page_len (Z.of_nat (length keys)) p))); [|lia].
  f_equal. unfold ENTR_PER_PAGE in *. lia.
Qed.


(** *** Binary search correctness and duplicate walking *)

(** What C1 asks of the result [r] of looking [str] up in [keys]. *)
Definition binary_search_correct (INVALID_INDEX : Z) (keys : list cstring)
    (str : cstring) (r : lookup_result) : Prop :=
  let n := Z.of_nat (length keys) in
  (In str keys ->
   lr_found r = true /\
   exists i, i ∈ lr_idxs r /\ 0 <= i < n /\ key_at keys i = str) /\
  (forall i, 0 <= i -> i + 1 < n ->
     stardict_strcmp (key_at keys i) str < 0 ->
     stardict_strcmp str (key_at keys (i + 1)) < 0 ->
     lr_found r = false /\ lr_next_idx r = i + 1) /\
  (stardict_strcmp str (key_at keys 0) < 0 ->
   lr_found r = false /\ lr_next_idx r = 0) /\
  (0 < stardict_strcmp str (key_at keys (n - 1)) ->
   lr_found r = false /\ lr_next_idx r = INVALID_INDEX).

(** What C2 asks of it: when the keys equal to the query are the [k]
    entries from [lo] on, exactly their indices are added to [idxs]. *)
Definition duplicates_collected (keys : list cstring) (str : cstring)
    (idxs : gset Z) (r : lookup_result) : Prop :=
  forall lo k, 0 <= k ->
    (forall i, (0 <= i < Z.of_nat (length keys) /\
                stardict_strcmp str (key_at keys i) = 0) <->
               lo <= i < lo + k) ->
    lr_idxs r = idxs ∪ list_to_set (seqZ lo k) /\
    (lr_found r = true <-> 0 < k) /\
    (idxs = ∅ -> size (lr_idxs r) = Z.to_nat k).

Section FromLookupSpec.

Variable INVALID_INDEX : Z.
Variable keys : list cstring.
Variable str : cstring.
Variable idxs : gset Z.
Variable next_idx : Z.
Variable r : lookup_result.
Hypothesis keys_ok : index_ok keys = true.
Hypothesis str_ok : is_cstr str.
Hypothesis r_spec : lookup_spec INVALID_INDEX keys str idxs next_idx r.

(** A key equal to the query makes the lookup succeed. *)
Lemma lookup_spec_zero_found j :
  0 <= j < Z.of_nat (length keys) -> cmp_key_at keys str j = 0 ->
  lr_found r = true /\ lr_next_idx r = next_idx.
Proof.
  intros Hj Zj. destruct r_spec as [_ Hcase].
  destruct Hcase as [(L & _) | [(_ & L & _) | [(_ & _ & _ & B & L1 & L2) | (F & N & _)]]].
  - destruct (cmp_key_at_mono keys str keys_ok str_ok 0 j) as [M _]; lia.
  - destruct (cmp_key_at_mono keys str keys_ok str_ok j
                (Z.of_nat (length keys) - 1)) as [_ M]; lia.
  - exfalso. revert Zj.
    apply (no_zero_between keys str (lr_next_idx r)); auto; lia.
  - auto.
Qed.

Lemma lookup_spec_binary_search :
  binary_search_correct INVALID_INDEX keys str r.
Proof.
  destruct (index_ok_parts keys keys_ok) as (Hn & _).
  pose proof lookup_spec_zero_found as Hzero.
  destruct r_spec as [Hset Hcase]. unfold binary_search_correct.
  set (n := Z.of_nat (length keys)) in *.
  set (c := cmp_key_at keys str) in *.
  assert (Hmono : forall i j, 0 <= i -> i <= j -> j <= n - 1 ->
                    (c i < 0 -> c j < 0) /\ (0 < c j -> 0 < c i))
    by (intros; apply cmp_key_at_mono; auto).
  change (stardict_strcmp str (key_at keys 0)) with (c 0).
  change (stardict_strcmp str (key_at keys (n - 1))) with (c (n - 1)).
  split_and!.
  - intros Hin. apply (In_nth _ _ []) in Hin as (i & Hi & Ei).
    assert (Zi : c (Z.of_nat i) = 0).
    { unfold c, cmp_key_at, key_at. rewrite Nat2Z.id, Ei.
      apply stardict_strcmp_refl. }
    destruct (Hzero (Z.of_nat i) ltac:(lia) Zi) as [F _].
    split; [assumption|]. exists (Z.of_nat i). split_and!; try lia.
    + apply Hset. right. split; [lia | assumption].
    + unfold key_at. now rewrite Nat2Z.id.
  - intros i Hi Hi1 Lt1 Lt2.
    change (stardict_strcmp str (key_at keys (i + 1))) with (c (i + 1)) in Lt2.
    assert (Gi : 0 < c i).
    { pose proof (stardict_strcmp_antisym str (key_at keys i) str_ok
                    (key_at_cstr keys keys_ok i)) as A.
      unfold c, cmp_key_at. lia. }
    destruct Hcase as [(L & _) | [(_ & L & _) | [(_ & _ & F & B & L1 & L2) | (_ & _ & j & Hj & Zj)]]].
    + destruct (Hmono 0 i) as [M _]; try lia.
    + destruct (Hmono (i + 1) (n - 1)) as [_ M]; try lia.
    + split; [assumption|].
      destruct (Z_le_gt_dec (lr_next_idx r) i).
      { destruct (Hmono (lr_next_idx r) i) as [M _]; try lia. }
      destruct (Z_le_gt_dec (lr_next_idx r) (i + 1)); [lia|].
      destruct (Hmono (i + 1) (lr_next_idx r - 1)) as [M _]; try lia.
    + exfalso. destruct (Z_le_gt_dec j i).
      * destruct (Hmono j i) as [_ M]; try lia.
      * destruct (Hmono (i + 1) j) as [M _]; try lia.
  - intros L.
    destruct Hcase as [(_ & F & N) | [(L' & _) | [(L' & _) | (_ & _ & j & Hj & Zj)]]];
      auto; try lia.
    destruct (Hmono 0 j) as [M _]; try lia.
  - intros L.
    destruct Hcase as [(L' & _) | [(_ & _ & F & N) | [(_ & L' & _) | (_ & _ & j & Hj & Zj)]]];
      auto; try lia.
    + destruct (Hmono 0 (n - 1)) as [M _]; try lia.
    + destruct (Hmono j (n - 1)) as [_ M]; try lia.
Qed.

Lemma lookup_spec_duplicates : duplicates_collected keys str idxs r.
Proof.
  pose proof lookup_spec_zero_found as Hzero.
  destruct r_spec as [Hset Hcase]. unfold duplicates_collected.
  intros lo k Hk Hrun.
  assert (Hin : forall x, x ∈ lr_idxs r <-> x ∈ idxs \/ lo <= x < lo + k).
  { intros x. rewrite Hset. unfold cmp_key_at. now rewrite (Hrun x). }
  assert (Heq : lr_idxs r = idxs ∪ list_to_set (seqZ lo k)).
  { apply set_eq. intros x.
    rewrite Hin, elem_of_union, elem_of_list_to_set, elem_of_seqZ. reflexivity. }
  split_and!.
  - exact Heq.
  - split.
    + intros F.
      destruct Hcase as [(_ & F' & _) | [(_ & _ & F' & _) | [(_ & _ & F' & _) | (_ & _ & j & Hj & Zj)]]];
        try congruence.
      assert (lo <= j < lo + k) by (apply Hrun; split; assumption). lia.
    + intros Hpos.
      assert (Hlo : 0 <= lo < Z.of_nat (length keys) /\
                    stardict_strcmp str (key_at keys lo) = 0)
        by (apply Hrun; lia).
      destruct Hlo as [Hlo Zlo]. now destruct (Hzero lo Hlo Zlo).
  - intros ->. rewrite Heq, union_empty_l_L.
    rewrite size_list_to_set by apply NoDup_seqZ. apply length_seqZ.
Qed.

End FromLookupSpec.

(** The index of scenario S1. *)
Definition keys_abc : list cstring := [str "apple"; str "banana"; str "cherry"].

(** An index with the headword "b" three times. *)
Definition keys_abbbc : list cstring :=
  [str "a"; str "b"; str "b"; str "b"; str "c"].

(** ** Full-text search (lines 315-416, 1478-1547) *)

(** *** The needles of a query *)

(** The byte a backslash escape stands for: [\t] and [\n] are TAB and LF,
    any other byte (space and backslash among them) is itself. *)
Definition unescape_needle_byte (c : Z) : Z :=
  if c =? 116 then 9 else if c =? 110 then 10 else c.

(** [if (!SearchWord.empty ()) { push_back; clear; }] *)
Definition flush_needle (SearchWord : list Z) (SearchWords : list (list Z))
  : list Z * list (list Z) :=
  match SearchWord with
  | [] => ([], SearchWords)
  | _ => ([], SearchWords ++ [SearchWord])
  end.

(** The [while] loop of [LookupData] over the bytes of [sWord].  After a backslash at the very
    end of the query the loop steps over the terminator and goes on reading
    behind the string: that is [None]. *)
Fixpoint needles_loop (p : cstring) (SearchWord : list Z)
    (SearchWords : list (list Z)) : option (list Z * list (list Z)) :=
  match p with
  | [] => Some (SearchWord, SearchWords)
  | c :: p1 =>
      if c =? ch_backslash then
        match p1 with
        | [] => None
        | c' :: p2 =>
            needles_loop p2 (SearchWord ++ [unescape_needle_byte c']) SearchWords
        end
      else if c =? 32 then
        let '(w, ws) := flush_needle SearchWord SearchWords in
        needles_loop p1 w ws
      else needles_loop p1 (SearchWord ++ [c]) SearchWords
  end.

(** The loop and the flush after it: the final [SearchWords]. *)
Definition parse_needles (sWord : cstring) : option (list (list Z)) :=
  match needles_loop sWord [] [] with
  | None => None
  | Some (w, ws) => Some (snd (flush_needle w ws))
  end.

(** *** Needles as the specification describes them *)








(** *** [DictBase::SearchData] *)

Definition is_nul (c : Z) : bool := c =? 0.

(** The types searched: m, t, y, l, g, x, k. *)
Definition is_search_type (t : Z) : bool :=
  (t =? 109) || (t =? 116) || (t =? 121) || (t =? 108) ||
  (t =? 103) || (t =? 120) || (t =? 107).

Fixpoint prefixb (needle hay : list Z) : bool :=
  match needle, hay with
  | [], _ => true
  | c :: needle', c' :: hay' => (c =? c') && prefixb needle' hay'
  | _ :: _, [] => false
  end.

(** Whether [needle] occurs in [hay]. *)
Fixpoint occurs_in (hay needle : list Z) : bool :=
  prefixb needle hay ||
  match hay with
  | [] => false
  | _ :: hay' => occurs_in hay' needle
  end.

(** The C string at [p], a position in the record given by the bytes from
    there to the end of the record; [None] when no NUL ends it inside the
    record, so that [strlen] and [strstr] would run out of it. *)
Definition c_str_at (p : list Z) : option (list Z) :=
  if existsb is_nul p then Some (upto is_nul p) else None.

(** [p += sec_size], as long as that stays inside the record. *)
Definition advance (p : list Z) (sec_size : Z) : option (list Z) :=
  if (0 <=? sec_size) && (sec_size <=? Z.of_nat (length p))
  then Some (drop (Z.to_nat sec_size) p) else None.

(** [for (j = 0; j < nWord; j++)
      if (!WordFind[j] && FIND (SearchWords[j])) { WordFind[j] = true; ++nfound; }] *)
Fixpoint mark_found (find : list Z -> bool) (SearchWords : list (list Z))
    (WordFind : list bool) (nfound : Z) : list bool * Z :=
  match SearchWords, WordFind with
  | w :: ws, f :: fs =>
      if negb f && find w then
        let '(fs', n') := mark_found find ws fs (nfound + 1) in (true :: fs', n')
      else
        let '(fs', n') := mark_found find ws fs nfound in (f :: fs', n')
  | _, _ => (WordFind, nfound)
  end.

(** The file of the records of a dictionary: [dictfile], the [.dict] file
    itself, when it is not compressed, else [dictdzfile]; both are given by
    the bytes of the records. *)
Inductive dict_file : Type :=
  | DictFile (content : list Z)
  | DictDzFile (content : list Z).

Definition dict_content (file : dict_file) : list Z :=
  match file with DictFile c | DictDzFile c => c end.

(** Modelled from the spec: [dictData::read] of [dictziplib.cpp], which is
    not among the sources.  It gives the [size] bytes at [offset] of the
    uncompressed content; what it does with a range that leaves the content
    is not said. *)
Definition dictData_read (content : list Z) (offset size : Z)
  : result (list Z) :=
  let got := fread_at content offset size in
  if Z.of_nat (length got) =? size then Ok got else Undefined.

Section DataSearch.

(** [get_uint32] of [utils.hpp], on the four bytes it reads. *)
Variable get_uint32 : list Z -> Z.

(** [sec_size = get_uint32 (p); sec_size += sizeof (guint32);] in 32-bit
    unsigned arithmetic; the four bytes must lie in the record. *)
Definition binary_sec_size (p : list Z) : option Z :=
  if (4 <=? Z.of_nat (length p))
  then Some ((get_uint32 (take 4 p) + 4) mod 2 ^ 32) else None.

(** The fields before the last one and then the last one, for a non-empty
    [sametypesequence]; [p] is the position in the record.  [None]: a read
    or the position leaves the record. *)
Fixpoint search_sequence (seq : list Z) (p : list Z)
    (SearchWords : list (list Z)) (WordFind : list bool) (nfound : Z)
  : option bool :=
  let nWord := Z.of_nat (length SearchWords) in
  match seq with
  | [] => Some false
  | [t] =>
      if is_search_type t then
        let '(_, nfound') :=
          mark_found (occurs_in (upto is_nul p)) SearchWords WordFind nfound in
        Some (nfound' =? nWord)
      else Some false
  | t :: seq' =>
      if is_search_type t then
        match c_str_at p with
        | None => None
        | Some s =>
            let '(WordFind', nfound') :=
              mark_found (occurs_in s) SearchWords WordFind nfound in
            if nfound' =? nWord then Some true
            else
              match advance p (Z.of_nat (length s) + 1) with
              | None => None
              | Some p' => search_sequence seq' p' SearchWords WordFind' nfound'
              end
        end
      else
        match (if g_ascii_isupper t then binary_sec_size p
               else option_map (fun s => Z.of_nat (length s) + 1) (c_str_at p)) with
        | None => None
        | Some sec_size =>
            match advance p sec_size with
            | None => None
            | Some p' => search_sequence seq' p' SearchWords WordFind nfound
            end
        end
  end.

(** The loop over a record that carries its own type tags.  The tag is not
    stepped over before the field is looked at: the text searched starts at
    the tag, and the length of a binary field is read from the tag on.
    A step beyond the end of the record ends the loop; the fuel is the
    number of bytes of the record and runs out only when a field has
    [sec_size] 0 and the loop does not advance. *)
Fixpoint search_tagged (fuel : nat) (p : list Z)
    (SearchWords : list (list Z)) (WordFind : list bool) (nfound : Z)
  : option bool :=
  let nWord := Z.of_nat (length SearchWords) in
  match fuel with
  | O => match p with [] => Some false | _ => None end
  | S fuel' =>
      match p with
      | [] => Some false
      | t :: _ =>
          if is_search_type t then
            match c_str_at p with
            | None => None
            | Some s =>
                let '(WordFind', nfound') :=
                  mark_found (occurs_in s) SearchWords WordFind nfound in
                if nfound' =? nWord then Some true
                else search_tagged fuel' (drop (length s + 1) p)
                       SearchWords WordFind' nfound'
            end
          else
            match (if g_ascii_isupper t then binary_sec_size p
                   else option_map (fun s => Z.of_nat (length s) + 1)
                          (c_str_at p)) with
            | None => None
            | Some sec_size =>
                search_tagged fuel' (drop (Z.to_nat sec_size) p)
                  SearchWords WordFind nfound
            end
      end
  end.

(** The search of the record [data], the [idxitem_size] bytes read into
    [origin_data], of a dictionary with the given [sametypesequence].  The
    bytes of the buffer behind the record are those of earlier records, if
    any: nothing is defined for a search that reaches them. *)
Definition search_record (sametypesequence : list Z)
    (SearchWords : list (list Z)) (data : list Z) : option bool :=
  let WordFind := repeat false (length SearchWords) in
  match sametypesequence with
  | [] => search_tagged (length data) data SearchWords WordFind 0
  | _ => search_sequence sametypesequence data SearchWords WordFind 0
  end.

(** [fread (origin_data, idxitem_size, 1, dictfile)] after the [fseek]:
    the bytes got, which must fit the [allocated] bytes of [origin_data];
    [nitems] is 1 when the size is not 0 and all the bytes were there.
    [THROW_IF_ERROR (nitems == 1)]. *)
Definition fread_record (content : list Z) (idxitem_offset idxitem_size : Z)
    (allocated : Z) : result (list Z) :=
  let got := fread_at content idxitem_offset idxitem_size in
  if allocated <? Z.of_nat (length got) then Undefined
  else if (0 <? idxitem_size) && (Z.of_nat (length got) =? idxitem_size)
       then Ok got
       else Throw.

(** [SearchData]; [origin_data] is [None] for the null pointer and else the
    number of bytes allocated there.  The record is read before anything is
    searched, and [THROW_IF_ERROR (origin_data != nullptr)] comes before
    the read. *)
Definition SearchData (file : dict_file) (sametypesequence : list Z)
    (SearchWords : list (list Z)) (idxitem_offset idxitem_size : Z)
    (origin_data : option Z) : result bool :=
  match origin_data with
  | None => Throw
  | Some allocated =>
      let* data :=
        match file with
        | DictFile content =>
            fread_record content idxitem_offset idxitem_size allocated
        | DictDzFile content =>
            if allocated <? idxitem_size then Undefined
            else dictData_read content idxitem_offset idxitem_size
        end in
      defined (search_record sametypesequence SearchWords data)
  end.

End DataSearch.

(** *** Records as the specification describes them *)

Section RecordSpec.

Variable get_uint32 : list Z -> Z.

(** The fields of a record under a [sametypesequence]: each field before
    the last is NUL-terminated text or, for an upper-case type, a length
    prefix and that many bytes; the last field is the rest of the record.
    [None] when the record is too short for its schema. *)
Fixpoint record_fields (seq : list Z) (data : list Z)
  : option (list (Z * list Z)) :=
  match seq with
  | [] => Some []
  | [t] => Some [(t, data)]
  | t :: seq' =>
      if g_ascii_isupper t then
        if 4 <=? Z.of_nat (length data) then
          let len := get_uint32 (take 4 data) in
          if (0 <=? len) && (len + 4 <=? Z.of_nat (length data)) then
            option_map (cons (t, take (Z.to_nat len) (drop 4 data)))
              (record_fields seq' (drop (Z.to_nat (len + 4)) data))
          else None
        else None
      else
        match c_str_at data with
        | None => None
        | Some s =>
            option_map (cons (t, s))
              (record_fields seq' (drop (length s + 1) data))
        end
  end.




End RecordSpec.

(** *** Substrings *)






(** *** The flags of [SearchData] *)











Lemma c_str_at_length p s :
  c_str_at p = Some s -> (length s + 1 <= length p)%nat.
Proof.
  unfold c_str_at. destruct (existsb is_nul p) eqn:E; [|discriminate].
  intros [= <-]. induction p as [|c p IH]; simpl in *; [discriminate|].
  destruct (is_nul c); simpl in *; [lia|]. apply IH in E. lia.
Qed.

Section SearchSequence.

Variable get_uint32 : list Z -> Z.
Variable needles : list (list Z).


End SearchSequence.

(** *** [Libs::LookupData] *)

(** A dictionary as [LookupData] sees it: its schema, the file of its
    records and, for each index in order, the key, offset and size that
    [get_key_and_data] delivers. *)
Record DataDict := {
  dd_sametypesequence : list Z;
  dd_file : dict_file;
  dd_index : list (cstring * Z * Z)
}.


Section LookupData.

Variable get_uint32 : list Z -> Z.

(** [Dict::containSearchData] is defined in [stardict_lib.hpp]. *)
Variable containSearchData : DataDict -> bool.

(** The loop over the words of one dictionary; [res] is [reslist[i]].
    [max_size] and [origin_data] are those of [LookupData], which outlive
    the loop:
    [if (size > max_size) { origin_data = g_realloc (origin_data, size);
                            max_size = size; }] *)
Fixpoint search_articles (d : DataDict) (SearchWords : list (list Z))
    (index : list (cstring * Z * Z)) (max_size : Z) (origin_data : option Z)
    (res : list cstring) : result (Z * option Z * list cstring) :=
  match index with
  | [] => Ok (max_size, origin_data, res)
  | (key, offset, size) :: rest =>
      let '(origin_data, max_size) :=
        if max_size <? size then (Some size, size)
        else (origin_data, max_size) in
      let* found :=
        SearchData get_uint32 (dd_file d) (dd_sametypesequence d) SearchWords
          offset size origin_data in
      search_articles d SearchWords rest max_size origin_data
        (if found then res ++ [key] else res)
  end.

(** The loop over the dictionaries, with the array [reslist] of one list per
    dictionary. *)
Fixpoint search_libs (SearchWords : list (list Z)) (oLib : list DataDict)
    (max_size : Z) (origin_data : option Z) (reslist : list (list cstring))
  : result (list (list cstring)) :=
  match oLib, reslist with
  | [], _ => Ok reslist
  | _ :: _, [] => Undefined
  | d :: oLib', res :: reslist' =>
      let* st :=
        if containSearchData d
        then search_articles d SearchWords (dd_index d) max_size origin_data
               res
        else Ok (max_size, origin_data, res) in
      let '(max_size', origin_data', res') := st in
      let* rest :=
        search_libs SearchWords oLib' max_size' origin_data' reslist' in
      Ok (res' :: rest)
  end.

(** [LookupData]: the value returned and [reslist] after the call.  The
    exception of [SearchData] is not caught; nothing is defined when a read
    leaves the query or a record. *)
Definition LookupData (oLib : list DataDict) (sWord : cstring)
    (reslist : list (list cstring)) : result (bool * list (list cstring)) :=
  let* SearchWords := defined (parse_needles sWord) in
  match SearchWords with
  | [] => Ok (false, reslist)
  | _ =>
      let* reslist' := search_libs SearchWords oLib 0 None reslist in
      Ok (existsb (fun res => negb (Nat.eqb (length res) 0))
            (take (length oLib) reslist'),
          reslist')
  end.

(** *** The headwords the specification asks for *)













End LookupData.





(** In a record that carries its own tags the text searched starts at the
    tag byte: the needle "mh" is found in the field "hello" of type m. *)
Example SearchData_tagged_searches_tag :
  SearchData (fun _ => 0) (DictFile (str "mhello" ++ [0])) [] [str "mh"] 0 7
    (Some 7) = Ok true /\
  occurs_in (str "hello") (str "mh") = false.
Proof. split; reflexivity. Qed.

(** An empty record, or no buffer, is the exception of [THROW_IF_ERROR]:
    with an index whose first record has size 0 nothing has been allocated
    when [SearchData] is called. *)
Example LookupData_empty_record_throws :
  SearchData (fun _ => 0) (DictFile (str "hello")) (str "m") [str "h"] 0 5
    None = Throw /\
  SearchData (fun _ => 0) (DictFile (str "hello")) (str "m") [str "h"] 0 0
    (Some 5) = Throw /\
  SearchData (fun _ => 0) (DictFile (str "hello")) (str "m") [str "h"] 3 5
    (Some 5) = Throw /\
  LookupData (fun _ => 0) (fun _ => true)
    [{| dd_sametypesequence := str "m"; dd_file := DictFile (str "hello");
        dd_index := [(str "k0", 0, 0); (str "k1", 0, 5)] |}]
    (str "h") [[]] = Throw.
Proof. split_and!; reflexivity. Qed.

(** ** Fuzzy lookup (lines 1346-1439) *)

(** *** The edit distance *)

(** The cells of a row after its first, for the letter [a] of the first
    string: [prev] holds the cells above, [diag] the cell above and to the
    left, [left] the cell just computed.  Insertion, deletion and
    substitution all cost 1. *)
Fixpoint lev_row_aux (a : Z) (t : list Z) (prev : list Z) (diag left : Z)
  : list Z :=
  match t, prev with
  | b :: t', up :: prev' =>
      let cell := Z.min (Z.min (up + 1) (left + 1))
                    (diag + (if a =? b then 0 else 1)) in
      cell :: lev_row_aux a t' prev' up cell
  | _, _ => []
  end.

Definition lev_row (a : Z) (t : list Z) (prev : list Z) : list Z :=
  match prev with
  | d0 :: prev' => (d0 + 1) :: lev_row_aux a t prev' d0 (d0 + 1)
  | [] => []
  end.

(** The first row: 0, 1, ..., [length t]. *)
Definition lev_row0 (t : list Z) : list Z := seqZ 0 (Z.of_nat (length t) + 1).

Fixpoint lev_rows (s t : list Z) (row : list Z) : list Z :=
  match s with
  | [] => row
  | a :: s' => lev_rows s' t (lev_row a t row)
  end.

(** The Levenshtein distance of two strings of code points: the last cell
    of the last row. *)
Definition levenshtein (s t : list Z) : Z :=
  List.last (lev_rows s t (lev_row0 t)) 0.

Fixpoint cal_rows (s t : list Z) (row : list Z) (limit : Z) : Z :=
  match s with
  | [] => List.last row 0
  | a :: s' =>
      let row' := lev_row a t row in
      if forallb (fun c => limit <=? c) row' then limit
      else cal_rows s' t row' limit
  end.

(** Modelled from the spec: [EditDistance::CalEditDistance] of
    [distance.cpp], which is not among the sources.  Section 4.4: classic
    Levenshtein on UCS-4 code points with the early-termination cap
    [max_distance]: if no cell in the current row is below [max_distance],
    return [max_distance]. *)
Definition CalEditDistance (s t : list Z) (limit : Z) : Z :=
  cal_rows s t (lev_row0 t) limit.

(** Modelled from the spec: the member [iMaxFuzzyDistance] of [Libs], set
    in [stardict_lib.hpp]; section 4.11 gives its initial value. *)
Definition iMaxFuzzyDistance : Z := 3.

Example levenshtein_kitten_sitting :
  levenshtein (str "kitten") (str "sitting") = 3.
Proof. reflexivity. Qed.

(** Below the cap the capped distance is the distance. *)
Lemma cal_rows_below s t limit : forall row,
  cal_rows s t row limit < limit ->
  cal_rows s t row limit = List.last (lev_rows s t row) 0.
Proof.
  induction s as [|a s IH]; intros row H; simpl in *; [reflexivity|].
  destruct (forallb (fun c => limit <=? c) (lev_row a t row)); [lia|].
  now apply IH.
Qed.

Lemma CalEditDistance_below s t limit :
  CalEditDistance s t limit < limit ->
  CalEditDistance s t limit = levenshtein s t.
Proof. apply cal_rows_below. Qed.

(** *** [LookupWithFuzzy] *)

Record Fuzzystruct := {
  pMatchWord : option cstring;
  iMatchWordDistance : Z
}.

(** The variables the loop over the headwords updates. *)
Record fuzzy_state := {
  oFuzzystruct : list Fuzzystruct;
  iMaxDistance : Z;
  fz_Found : bool
}.

(** The scan of the slots for a word found: whether it is in the list
    already, and the last slot seen whose distance is [iMaxDistance]. *)
Fixpoint scan_slots (slots : list Fuzzystruct) (sCheck : cstring)
    (iMax : Z) (j : nat) (iMaxDistanceAt : nat) : bool * nat :=
  match slots with
  | [] => (false, iMaxDistanceAt)
  | slot :: slots' =>
      match pMatchWord slot with
      | Some w =>
          if strcmp w sCheck =? 0 then (true, iMaxDistanceAt)
          else scan_slots slots' sCheck iMax (S j)
                 (if iMatchWordDistance slot =? iMax then j else iMaxDistanceAt)
      | None =>
          scan_slots slots' sCheck iMax (S j)
            (if iMatchWordDistance slot =? iMax then j else iMaxDistanceAt)
      end
  end.

(** [iMaxDistance = iDistance; for (j ...) if (slot[j].distance > iMaxDistance)
    iMaxDistance = slot[j].distance;] *)
Definition max_slot_distance (slots : list Fuzzystruct) (iDistance : Z) : Z :=
  fold_left (fun m slot => if m <? iMatchWordDistance slot
                           then iMatchWordDistance slot else m)
    slots iDistance.

Section Fuzzy.

(** GLib's [g_utf8_to_ucs4_fast] and [g_unichar_tolower]; [g_utf8_strlen]
    counts the code points the former delivers. *)
Variable g_utf8_to_ucs4_fast : cstring -> list Z.
Variable g_unichar_tolower : Z -> Z.

Definition unicode_strdown (s : list Z) : list Z := map g_unichar_tolower s.

(** The candidate as it is compared: cut to the length of the query when
    it is longer, then lowered. *)
Definition fuzzy_candidate (sCheck : cstring) (ucs4_str2_len : Z) : list Z :=
  unicode_strdown (take (Z.to_nat ucs4_str2_len) (g_utf8_to_ucs4_fast sCheck)).

(** The body of the loop over the headwords, for the headword [sCheck].
    The slot read and written is [oFuzzystruct[iMaxDistanceAt]], which is
    slot 0 when the scan set no other: with [reslist_size] 0 the array has
    no such slot, and the access is outside it. *)
Definition fuzzy_step (ucs4_str2 : list Z) (st : fuzzy_state)
    (sCheck : cstring) : result fuzzy_state :=
  let ucs4_str2_len := Z.of_nat (length ucs4_str2) in
  let iCheckWordLen := Z.of_nat (length (g_utf8_to_ucs4_fast sCheck)) in
  if (iMaxDistance st <=? iCheckWordLen - ucs4_str2_len) ||
     (iMaxDistance st <=? ucs4_str2_len - iCheckWordLen) then Ok st
  else
    let ucs4_str1 := fuzzy_candidate sCheck ucs4_str2_len in
    let iDistance := CalEditDistance ucs4_str1 ucs4_str2 (iMaxDistance st) in
    if (iDistance <? iMaxDistance st) && (iDistance <? ucs4_str2_len) then
      let '(bAlreadyInList, iMaxDistanceAt) :=
        scan_slots (oFuzzystruct st) sCheck (iMaxDistance st) 0 0 in
      if bAlreadyInList then
        Ok {| oFuzzystruct := oFuzzystruct st;
              iMaxDistance := iMaxDistance st;
              fz_Found := true |}
      else
        let* slots :=
          defined (vec_set (oFuzzystruct st) (Z.of_nat iMaxDistanceAt)
                     {| pMatchWord := Some sCheck;
                        iMatchWordDistance := iDistance |}) in
        Ok {| oFuzzystruct := slots;
              iMaxDistance := max_slot_distance slots iDistance;
              fz_Found := true |}
    else Ok st.

(** The loop over the headwords of all the dictionaries. *)
Fixpoint fuzzy_loop (ucs4_str2 : list Z) (words : list cstring)
    (st : fuzzy_state) : result fuzzy_state :=
  match words with
  | [] => Ok st
  | sCheck :: words' =>
      let* st' := fuzzy_step ucs4_str2 st sCheck in
      fuzzy_loop ucs4_str2 words' st'
  end.

(** The order of the final sort: by distance, then by headword. *)
Definition fuzzy_less (lh rh : Fuzzystruct) : bool :=
  if negb (iMatchWordDistance lh =? iMatchWordDistance rh)
  then iMatchWordDistance lh <? iMatchWordDistance rh
  else
    match pMatchWord lh, pMatchWord rh with
    | Some l, Some r => stardict_strcmp l r <? 0
    | _, _ => false
    end.

(** [std::sort] leaves the order of slots that compare equal open; an
    insertion sort stands for it here. *)
Fixpoint fuzzy_insert (x : Fuzzystruct) (l : list Fuzzystruct)
  : list Fuzzystruct :=
  match l with
  | [] => [x]
  | y :: l' => if fuzzy_less y x then y :: fuzzy_insert x l' else x :: y :: l'
  end.

Definition fuzzy_sort (l : list Fuzzystruct) : list Fuzzystruct :=
  fold_right fuzzy_insert [] l.

(** [LookupWithFuzzy]: the value returned and [reslist]; [oLib] is given by
    the headwords of each dictionary in index order.  On the empty query
    [reslist] is not written ([None]). *)
Definition LookupWithFuzzy (oLib : list (list cstring)) (sWord : cstring)
    (reslist_size : nat) : result (bool * option (list (option cstring))) :=
  match sWord with
  | [] => Ok (false, None)
  | _ =>
      let st0 := {| oFuzzystruct :=
                      repeat {| pMatchWord := None;
                                iMatchWordDistance := iMaxFuzzyDistance |}
                        reslist_size;
                    iMaxDistance := iMaxFuzzyDistance;
                    fz_Found := false |} in
      let ucs4_str2 := unicode_strdown (g_utf8_to_ucs4_fast sWord) in
      let* st := fuzzy_loop ucs4_str2 (concat oLib) st0 in
      let slots := if fz_Found st then fuzzy_sort (oFuzzystruct st)
                   else oFuzzystruct st in
      Ok (fz_Found st, Some (map pMatchWord slots))
  end.

(** *** The bound on what is returned *)

(** The headword [w] was taken at distance [d]: when it was examined, with
    the cap [m], its length was within [m] of the query's and the distance
    computed for it was [d], below [m] and below the length of the query. *)
Definition fuzzy_taken (q : list Z) (w : cstring) (d : Z) : Prop :=
  exists m,
    m <= iMaxFuzzyDistance /\
    d = CalEditDistance (fuzzy_candidate w (Z.of_nat (length q))) q m /\
    d < m /\ d < Z.of_nat (length q) /\
    Z.abs (Z.of_nat (length (g_utf8_to_ucs4_fast w)) - Z.of_nat (length q)) < m.

Definition slot_ok (q : list Z) (cands : list cstring) (slot : Fuzzystruct)
  : Prop :=
  iMatchWordDistance slot <= iMaxFuzzyDistance /\
  match pMatchWord slot with
  | Some w => In w cands /\ fuzzy_taken q w (iMatchWordDistance slot)
  | None => True
  end.

Definition fuzzy_inv (q : list Z) (cands : list cstring) (st : fuzzy_state)
  : Prop :=
  iMaxDistance st <= iMaxFuzzyDistance /\
  Forall (slot_ok q cands) (oFuzzystruct st) /\
  (fz_Found st = false -> Forall (fun slot => pMatchWord slot = None)
                            (oFuzzystruct st)).

Lemma max_slot_distance_le slots : forall d,
  d <= iMaxFuzzyDistance ->
  Forall (fun slot => iMatchWordDistance slot <= iMaxFuzzyDistance) slots ->
  max_slot_distance slots d <= iMaxFuzzyDistance.
Proof.
  unfold max_slot_distance.
  induction slots as [|slot slots IH]; intros d Hd Hs; simpl; [assumption|].
  apply Forall_cons_1 in Hs as [H1 H2].
  apply IH; [|assumption]. destruct (d <? iMatchWordDistance slot); assumption.
Qed.

Lemma fuzzy_step_inv q cands st sCheck st' :
  fuzzy_step q st sCheck = Ok st' ->
  fuzzy_inv q cands st -> In sCheck cands ->
  fuzzy_inv q cands st'.
Proof.
  intros Hstep (Hm & Hs & Hf) Hin. unfold fuzzy_step in Hstep.
  destruct (_ || _) eqn:Eskip;
    [injection Hstep as <-; repeat split; assumption|].
  apply orb_false_iff in Eskip as [E1 E2]. apply Z.leb_gt in E1, E2.
  destruct (_ && _) eqn:Etake;
    [|injection Hstep as <-; repeat split; assumption].
  apply andb_true_iff in Etake as [E3 E4]. apply Z.ltb_lt in E3, E4.
  destruct (scan_slots (oFuzzystruct st) sCheck (iMaxDistance st) 0 0)
    as [bAlreadyInList iMaxDistanceAt].
  destruct bAlreadyInList.
  - injection Hstep as <-. split_and!; cbn; auto. discriminate.
  - destruct (vec_set_nat (oFuzzystruct st) iMaxDistanceAt
                {| pMatchWord := Some sCheck;
                   iMatchWordDistance :=
                     CalEditDistance
                       (fuzzy_candidate sCheck (Z.of_nat (length q)))
                       q (iMaxDistance st) |}) as [[_ Hv] | [_ Hv]];
      rewrite Hv in Hstep; [|discriminate Hstep].
    cbn [defined result_bind] in Hstep. injection Hstep as <-.
    assert (Hnew : slot_ok q cands
              {| pMatchWord := Some sCheck;
                 iMatchWordDistance :=
                   CalEditDistance (fuzzy_candidate sCheck (Z.of_nat (length q)))
                     q (iMaxDistance st) |}).
    { split; cbn; [lia|]. split; [assumption|].
      exists (iMaxDistance st). split_and!; auto; lia. }
    assert (Hs' : Forall (slot_ok q cands)
              (<[iMaxDistanceAt :=
                   {| pMatchWord := Some sCheck;
                      iMatchWordDistance :=
                        CalEditDistance (fuzzy_candidate sCheck (Z.of_nat (length q)))
                          q (iMaxDistance st) |}]> (oFuzzystruct st)))
      by (apply Forall_insert; assumption).
    split_and!; cbn; auto; [|discriminate].
    apply max_slot_distance_le; [lia|].
    eapply Forall_impl; [exact Hs'|]. intros slot [H _]. exact H.
Qed.

Lemma fuzzy_fold_inv q cands l : forall st st',
  fuzzy_loop q l st = Ok st' ->
  fuzzy_inv q cands st -> (forall w, In w l -> In w cands) ->
  fuzzy_inv q cands st'.
Proof.
  induction l as [|w l IH]; intros st st' Hloop Hst Hl;
    cbn [fuzzy_loop] in Hloop.
  - now injection Hloop as <-.
  - destruct (fuzzy_step q st w) as [st1| |] eqn:E1; try discriminate Hloop.
    cbn [result_bind] in Hloop. apply (IH st1 st' Hloop).
    + apply (fuzzy_step_inv q cands st w st1 E1); [assumption|].
      apply Hl. now left.
    + intros w' Hw'. apply Hl. now right.
Qed.

Lemma fuzzy_insert_Forall (P : Fuzzystruct -> Prop) x l :
  P x -> Forall P l -> Forall P (fuzzy_insert x l).
Proof.
  intros Hx Hl. induction Hl as [|y l Hy Hl IH]; simpl.
  - constructor; [assumption | constructor].
  - destruct (fuzzy_less y x); constructor; auto.
Qed.

Lemma fuzzy_sort_Forall (P : Fuzzystruct -> Prop) l :
  Forall P l -> Forall P (fuzzy_sort l).
Proof.
  intros Hl. induction Hl as [|x l Hx Hl IH]; simpl; [constructor|].
  now apply fuzzy_insert_Forall.
Qed.

Lemma LookupWithFuzzy_slots oLib sWord reslist_size found reslist w :
  LookupWithFuzzy oLib sWord reslist_size = Ok (found, Some reslist) ->
  In (Some w) reslist ->
  found = true /\ In w (concat oLib) /\
  exists d, fuzzy_taken (unicode_strdown (g_utf8_to_ucs4_fast sWord)) w d.
Proof.
  unfold LookupWithFuzzy. destruct sWord as [|c0 sWord]; [discriminate|].
  set (q := unicode_strdown (g_utf8_to_ucs4_fast (c0 :: sWord))).
  set (st0 := {| oFuzzystruct :=
                   repeat {| pMatchWord := None;
                             iMatchWordDistance := iMaxFuzzyDistance |}
                     reslist_size;
                 iMaxDistance := iMaxFuzzyDistance; fz_Found := false |}).
  assert (H0 : fuzzy_inv q (concat oLib) st0).
  { split_and!; cbn; [lia | |].
    - apply Forall_forall. intros slot Hs. apply list_elem_of_In in Hs.
      apply repeat_spec in Hs. subst slot. split; cbn; [lia | exact I].
    - intros _. apply Forall_forall. intros slot Hs.
      apply list_elem_of_In in Hs.
      apply repeat_spec in Hs. now subst slot. }
  destruct (fuzzy_loop q (concat oLib) st0) as [st| |] eqn:Eloop;
    try discriminate.
  pose proof (fuzzy_fold_inv q (concat oLib) (concat oLib) st0 st Eloop H0
                (fun _ H => H)) as (Hm & Hs & Hf).
  cbn [result_bind]. intros [= <- <-] Hin.
  apply in_map_iff in Hin as (slot & Hw & Hslot).
  destruct (fz_Found st) eqn:EF.
  - split; [reflexivity|].
    assert (Hok : slot_ok q (concat oLib) slot).
    { apply (proj1 (Forall_forall _ _) (fuzzy_sort_Forall _ _ Hs)).
      now apply list_elem_of_In. }
    destruct Hok as [_ Hok]. rewrite Hw in Hok. destruct Hok as [Hc Ht].
    split; [assumption|]. eauto.
  - exfalso. specialize (Hf eq_refl).
    assert (Hnone : pMatchWord slot = None).
    { apply (proj1 (Forall_forall _ _) Hf). now apply list_elem_of_In. }
    congruence.
Qed.

End Fuzzy.

(** C4 (amended).  Every headword that [LookupWithFuzzy] returns is a
    headword of a dictionary whose lowered form, cut to the length [L] of
    the lowered query when it is longer, is at Levenshtein distance at most
    2 from the lowered query and at distance less than [L]; its own length
    differs from [L] by less than the distance cap current when it was
    examined, which is at most 3, so by at most 2. *)
Theorem LookupWithFuzzy_bound (g_utf8_to_ucs4_fast : cstring -> list Z)
    (g_unichar_tolower : Z -> Z) (oLib : list (list cstring))
    (sWord : cstring) (reslist_size : nat) (found : bool)
    (reslist : list (option cstring)) (w : cstring) :
  LookupWithFuzzy g_utf8_to_ucs4_fast g_unichar_tolower oLib sWord reslist_size
    = Ok (found, Some reslist) ->
  In (Some w) reslist ->
  let q := unicode_strdown g_unichar_tolower (g_utf8_to_ucs4_fast sWord) in
  let L := Z.of_nat (length q) in
  let cand := fuzzy_candidate g_utf8_to_ucs4_fast g_unichar_tolower w L in
  found = true /\ In w (concat oLib) /\
  levenshtein cand q <= 2 /\ levenshtein cand q < L /\
  Z.abs (Z.of_nat (length (g_utf8_to_ucs4_fast w)) - L) <= 2 /\
  exists m, m <= iMaxFuzzyDistance /\
    CalEditDistance cand q m = levenshtein cand q /\
    levenshtein cand q < m /\
    Z.abs (Z.of_nat (length (g_utf8_to_ucs4_fast w)) - L) < m.
Proof.
  intros Hres Hin q L cand.
  destruct (LookupWithFuzzy_slots g_utf8_to_ucs4_fast g_unichar_tolower
              oLib sWord reslist_size found reslist w Hres Hin)
    as (Hf & Hc & d & m & Hm & Hd & Hdm & HdL & Hlen).
  fold q in Hd, HdL, Hlen. fold L in Hd, HdL, Hlen. fold cand in Hd.
  assert (Hlev : CalEditDistance cand q m = levenshtein cand q)
    by (apply CalEditDistance_below; lia).
  unfold iMaxFuzzyDistance in *.
  split_and!; auto; try lia.
  exists m. unfold iMaxFuzzyDistance. split_and!; auto; lia.
Qed.

(** "abd" is returned for the query "abc": one substitution. *)
Lemma LookupWithFuzzy_bound_witness :
  levenshtein (fuzzy_candidate id g_ascii_tolower (str "abd") 3)
    (unicode_strdown g_ascii_tolower (str "abc")) <= 2.
Proof.
  assert (Hres : LookupWithFuzzy id g_ascii_tolower
                   [[str "abd"; str "xyz"]] (str "abc") 2
                 = Ok (true, Some [Some (str "abd"); None])) by reflexivity.
  assert (Hin : In (Some (str "abd")) [Some (str "abd"); None]) by (left; reflexivity).
  apply (LookupWithFuzzy_bound id g_ascii_tolower _ _ _ _ _ _ Hres Hin).
Defined.

(** C4 as stated fails on the query "abc" and the headword "abxyz": cut to
    three letters the headword is "abx", at distance 1, so it is returned;
    its own distance from "abc" is 3, more than 2 and not less than the
    length of the query. *)
Lemma LookupWithFuzzy_returns_distant_headword :
  LookupWithFuzzy id g_ascii_tolower [[str "abxyz"]] (str "abc") 1
  = Ok (true, Some [Some (str "abxyz")]) /\
  levenshtein (unicode_strdown g_ascii_tolower (str "abxyz"))
    (unicode_strdown g_ascii_tolower (str "abc")) = 3 /\
  Z.of_nat (length (unicode_strdown g_ascii_tolower (str "abc"))) = 3.
Proof. split_and!; reflexivity. Qed.

(** * The index files as bytes

    [WordListIndex::load] and [get_data] (lines 761-795), [SynFile::load]
    (839-864), the scan of [OffsetIndex::load] (629-640), [page_t::fill]
    (507-521), [read_first_on_page_key] (523-533), [load_page] and [get_key]
    (658-685), on the bytes of the files.  A pointer into a buffer is its
    offset from the start of the buffer. *)

Section IndexBytes.

(** [get_uint32] of [utils.hpp] on the four bytes it reads, and GLib's
    [g_ntohl]. *)
Variable get_uint32 : list Z -> Z.
Variable g_ntohl : Z -> Z.

(** [g_ntohl (get_uint32 (p))]; the four bytes must lie in the buffer. *)
Definition read_uint32 (buf : list Z) (p : Z) : option Z :=
  let b := take 4 (from_ptr buf p) in
  if Nat.eqb (length b) 4 then Some (g_ntohl (get_uint32 b)) else None.

(** [for (i = 0; i < wc; i++) { list[i] = p1; p1 += strlen (p1) + 1 + tail; }
    list[wc] = p1;] with [wc] the number of rounds left: the pointers
    stored, in order. *)
Fixpoint index_pointers (tail : Z) (buf : list Z) (wc : nat) (p1 : Z)
  : option (list Z) :=
  match wc with
  | O => Some [p1]
  | S wc' =>
      match c_str_at (from_ptr buf p1) with
      | None => None
      | Some s =>
          option_map (cons p1)
            (index_pointers tail buf wc' (p1 + Z.of_nat (length s) + 1 + tail))
      end
  end.

(** *** [WordListIndex] *)

Record WordListBuf := {
  idxdatabuf : list Z;
  wordlist_ptrs : list Z
}.

(** [WordListIndex::load]; [file] is the uncompressed content of the
    [.idx.gz] file, [None] when it cannot be opened or read.  [gzread] takes
    its length as an [unsigned], refuses one that does not fit an [int] and
    returns the number of bytes it got.  [Ok None] is the result [false]. *)
Definition WordListIndex_load (file : option (list Z)) (wc fsize : Z)
  : result (option WordListBuf) :=
  match file with
  | None => Ok None
  | Some content =>
      let n := fsize mod 2 ^ 32 in
      if 2 ^ 31 <=? n then Ok None
      else
        let idxdatabuf := take (Z.to_nat n) content in
        let len := Z.of_nat (length idxdatabuf) in
        if negb (len =? fsize) then Ok None
        else
          let* ptrs := defined (index_pointers 8 idxdatabuf (Z.to_nat wc) 0) in
          Ok (Some {| idxdatabuf := idxdatabuf; wordlist_ptrs := ptrs |})
  end.

(** [get_key (idx)] read as a C string. *)
Definition WordListBuf_get_key (w : WordListBuf) (idx : Z) : result cstring :=
  let* p := defined (vec_at (wordlist_ptrs w) idx) in
  defined (c_str_at (from_ptr (idxdatabuf w) p)).

(** [WordListIndex::get_data]: [wordentry_offset] and [wordentry_size]. *)
Definition WordListIndex_get_data (w : WordListBuf) (idx : Z)
  : result (Z * Z) :=
  let* p := defined (vec_at (wordlist_ptrs w) idx) in
  let* s := defined (c_str_at (from_ptr (idxdatabuf w) p)) in
  let p1 := p + Z.of_nat (length s) + 1 in
  let* wordentry_offset := defined (read_uint32 (idxdatabuf w) p1) in
  let* wordentry_size := defined (read_uint32 (idxdatabuf w) (p1 + 4)) in
  Ok (wordentry_offset, wordentry_size).

(** *** [SynFile] *)

Record SynBuf := {
  synfile : list Z;
  synlist_ptrs : list Z
}.

(** [SynFile::load]; [file] is the content of the [.syn] file, [None] when
    [stat] or the mapping fails.  [Ok None] is the result [false], which
    leaves [synlist] empty. *)
Definition SynFile_load (file : option (list Z)) (wc : Z)
  : result (option SynBuf) :=
  match file with
  | None => Ok None
  | Some content =>
      let* ptrs := defined (index_pointers 4 content (Z.to_nat wc) 0) in
      Ok (Some {| synfile := content; synlist_ptrs := ptrs |})
  end.

Definition SynBuf_get_key (w : SynBuf) (idx : Z) : result cstring :=
  let* p := defined (vec_at (synlist_ptrs w) idx) in
  defined (c_str_at (from_ptr (synfile w) p)).

(** [g_ntohl (get_uint32 (key + strlen (key) + 1))] for [key = get_key (idx)],
    the index that [SynFile::lookup] inserts. *)
Definition SynBuf_get_target (w : SynBuf) (idx : Z) : result Z :=
  let* p := defined (vec_at (synlist_ptrs w) idx) in
  let* s := defined (c_str_at (from_ptr (synfile w) p)) in
  defined (read_uint32 (synfile w) (p + Z.of_nat (length s) + 1)).

End IndexBytes.

(** *** The layout of the files

    An entry of an index file is its key, a NUL and a tail of fixed size:
    offset and size in an [.idx] file (eight bytes), the index of the
    headword in a [.syn] file (four bytes). *)
Record raw_entry := { re_key : cstring; re_tail : list Z }.

Definition render_entry (e : raw_entry) : list Z := re_key e ++ 0 :: re_tail e.

Definition render_entries (es : list raw_entry) : list Z :=
  concat (map render_entry es).

Definition wf_raw_entry (tail : Z) (e : raw_entry) : Prop :=
  is_cstr (re_key e) /\ Z.of_nat (length (re_tail e)) = tail.

(** The offset of entry [i] in the file (its size for [i] the number of
    entries). *)
Definition entry_start (es : list raw_entry) (i : nat) : Z :=
  Z.of_nat (length (render_entries (take i es))).

Lemma from_ptr_drop buf (n : nat) : from_ptr buf (Z.of_nat n) = drop n buf.
Proof.
  unfold from_ptr. destruct (Z.ltb_spec (Z.of_nat n) 0); [lia|].
  now rewrite Nat2Z.id.
Qed.

Lemma is_cstr_no_nul s :
  is_cstr s -> forallb (fun c => negb (is_nul c)) s = true.
Proof.
  intros H. apply forallb_forall. intros c Hc.
  apply list_elem_of_In in Hc. apply (proj1 (Forall_forall _ _) H) in Hc.
  unfold is_nul. destruct (Z.eqb_spec c 0); [lia | reflexivity].
Qed.

(** The C string read at the start of an entry is its key. *)
Lemma c_str_at_render_entry e rest :
  is_cstr (re_key e) ->
  c_str_at (render_entry e ++ rest) = Some (re_key e).
Proof.
  intros Hk. unfold c_str_at, render_entry. rewrite <- app_assoc. simpl.
  pose proof (is_cstr_no_nul _ Hk) as Hn.
  destruct (find_if_app_hit is_nul (re_key e) 0 (re_tail e ++ rest) Hn eq_refl)
    as [_ ->].
  rewrite existsb_app. simpl. now rewrite orb_true_r.
Qed.

Lemma render_entries_cons e es :
  render_entries (e :: es) = render_entry e ++ render_entries es.
Proof. reflexivity. Qed.

Lemma render_entry_length tail e :
  wf_raw_entry tail e ->
  Z.of_nat (length (render_entry e)) = Z.of_nat (length (re_key e)) + 1 + tail.
Proof.
  intros [_ Ht]. unfold render_entry. rewrite length_app. simpl length. lia.
Qed.

Lemma entry_start_0 es : entry_start es 0 = 0.
Proof. reflexivity. Qed.

Lemma entry_start_S e es i :
  entry_start (e :: es) (S i)
  = Z.of_nat (length (render_entry e)) + entry_start es i.
Proof.
  unfold entry_start. simpl take. rewrite render_entries_cons, length_app. lia.
Qed.

Lemma entry_start_nonneg es i : 0 <= entry_start es i.
Proof. unfold entry_start. lia. Qed.

(** From the start of entry [i] on, the file holds the entries from [i]
    on. *)
Lemma drop_entry_start es i :
  drop (Z.to_nat (entry_start es i)) (render_entries es)
  = render_entries (drop i es).
Proof.
  unfold entry_start. rewrite Nat2Z.id.
  rewrite <- (take_drop i es) at 2.
  unfold render_entries. rewrite map_app, concat_app.
  now rewrite drop_app_length.
Qed.

Lemma entry_start_mono es i j : (i <= j)%nat -> entry_start es i <= entry_start es j.
Proof.
  intros Hij. unfold entry_start.
  replace (take j es) with (take i es ++ take (j - i) (drop i es)).
  - unfold render_entries. rewrite map_app, concat_app, length_app. lia.
  - rewrite take_take_drop. f_equal. lia.
Qed.

(** The scan of [load] stores the starts of the entries and the end of the
    last one. *)
Lemma index_pointers_entries tail buf es :
  Forall (wf_raw_entry tail) es ->
  forall pre post,
  buf = pre ++ render_entries es ++ post ->
  index_pointers tail buf (length es) (Z.of_nat (length pre))
  = Some (map (fun i => Z.of_nat (length pre) + entry_start es i)
            (seq 0 (S (length es)))).
Proof.
  induction 1 as [|e es He Hes IH]; intros pre post Hbuf.
  - simpl. unfold entry_start. simpl. now rewrite Z.add_0_r.
  - cbn [length index_pointers].
    assert (Hp : from_ptr buf (Z.of_nat (length pre))
                 = render_entry e ++ render_entries es ++ post).
    { now rewrite from_ptr_drop, Hbuf, drop_app_length, render_entries_cons,
        <- app_assoc. }
    rewrite Hp, c_str_at_render_entry by apply He.
    pose proof (render_entry_length tail e He) as Hl.
    specialize (IH (pre ++ render_entry e) post).
    rewrite length_app in IH.
    replace (Z.of_nat (length pre) + Z.of_nat (length (re_key e)) + 1 + tail)
      with (Z.of_nat (length pre + length (render_entry e))) by lia.
    rewrite IH by (rewrite Hbuf, render_entries_cons, <- !app_assoc; reflexivity).
    cbn [option_map]. f_equal.
    change (seq 0 (S (S (length es)))) with (0%nat :: seq 1 (S (length es))).
    cbn [map]. rewrite entry_start_0, Z.add_0_r. f_equal.
    rewrite <- seq_shift, map_map. apply map_ext. intros i.
    rewrite entry_start_S. lia.
Qed.

Lemma from_ptr_app buf p a b :
  0 <= p -> from_ptr buf p = a ++ b ->
  from_ptr buf (p + Z.of_nat (length a)) = b.
Proof.
  intros Hp H. unfold from_ptr in *.
  destruct (Z.ltb_spec p 0); [lia|].
  destruct (Z.ltb_spec (p + Z.of_nat (length a)) 0); [lia|].
  replace (Z.to_nat (p + Z.of_nat (length a)))
    with (Z.to_nat p + length a)%nat by lia.
  now rewrite <- drop_drop, H, drop_app_length.
Qed.

(** What is read at the start of entry [i]. *)
Lemma from_ptr_entry es i e :
  es !! i = Some e ->
  from_ptr (render_entries es) (entry_start es i)
  = render_entry e ++ render_entries (drop (S i) es).
Proof.
  intros Hi. unfold from_ptr.
  destruct (Z.ltb_spec (entry_start es i) 0);
    [pose proof (entry_start_nonneg es i); lia|].
  rewrite drop_entry_start, (drop_S es e i Hi). apply render_entries_cons.
Qed.

Lemma vec_at_entry_starts es (i : nat) :
  (i <= length es)%nat ->
  vec_at (map (fun i => 0 + entry_start es i) (seq 0 (S (length es))))
    (Z.of_nat i) = Some (entry_start es i).
Proof.
  intros Hi. unfold vec_at. destruct (Z.ltb_spec (Z.of_nat i) 0); [lia|].
  rewrite Nat2Z.id, list_lookup_fmap.
  rewrite (lookup_seq_lt 0 (S (length es)) i) by lia. reflexivity.
Qed.

Lemma read_uint32_at get_uint32 g_ntohl buf p b rest :
  from_ptr buf p = b ++ rest -> length b = 4%nat ->
  read_uint32 get_uint32 g_ntohl buf p = Some (g_ntohl (get_uint32 b)).
Proof.
  intros H Hb. unfold read_uint32. rewrite H.
  rewrite take_app_length' by congruence. now rewrite Hb.
Qed.

(** The key and the tail of entry [i] are found where [load] stored its
    pointer. *)
Lemma entry_at_pointer es i e tail :
  Forall (wf_raw_entry tail) es -> es !! i = Some e ->
  c_str_at (from_ptr (render_entries es) (entry_start es i)) = Some (re_key e) /\
  from_ptr (render_entries es)
    (entry_start es i + Z.of_nat (length (re_key e)) + 1)
  = re_tail e ++ render_entries (drop (S i) es).
Proof.
  intros Hes Hi.
  assert (He : wf_raw_entry tail e).
  { apply (proj1 (Forall_forall _ _) Hes). eapply list_elem_of_lookup_2, Hi. }
  pose proof (from_ptr_entry es i e Hi) as Hp.
  split.
  - rewrite Hp. apply c_str_at_render_entry, He.
  - replace (entry_start es i + Z.of_nat (length (re_key e)) + 1)
      with (entry_start es i + Z.of_nat (length (re_key e ++ [0]))).
    + apply from_ptr_app; [apply entry_start_nonneg|].
      rewrite Hp. unfold render_entry. now rewrite <- !app_assoc.
    + rewrite length_app. simpl. lia.
Qed.

(** X1.  [WordListIndex::load] on the bytes of an index of well-formed
    entries (key, NUL, four bytes of offset, four of size), with the number
    of entries and the size of the file as recorded in the [.ifo] file,
    succeeds; afterwards [get_key (i)] is the key of entry [i] and
    [get_data (i)] decodes its offset and size, for every entry. *)
Theorem WordListIndex_load_entries (get_uint32 : list Z -> Z)
    (g_ntohl : Z -> Z) (es : list raw_entry) :
  Forall (wf_raw_entry 8) es ->
  Z.of_nat (length (render_entries es)) < 2 ^ 31 ->
  exists w,
    WordListIndex_load (Some (render_entries es)) (Z.of_nat (length es))
      (Z.of_nat (length (render_entries es))) = Ok (Some w) /\
    forall i e, es !! i = Some e ->
      WordListBuf_get_key w (Z.of_nat i) = Ok (re_key e) /\
      WordListIndex_get_data get_uint32 g_ntohl w (Z.of_nat i)
      = Ok (g_ntohl (get_uint32 (take 4 (re_tail e))),
            g_ntohl (get_uint32 (drop 4 (re_tail e)))).
Proof.
  intros Hes Hsz.
  pose proof (index_pointers_entries 8 (render_entries es) es Hes [] []) as Hp.
  rewrite app_nil_r in Hp. specialize (Hp eq_refl).
  change (Z.of_nat (length (@nil Z))) with 0 in Hp.
  eexists. split.
  - unfold WordListIndex_load.
    rewrite Z.mod_small by lia.
    destruct (Z.leb_spec (2 ^ 31) (Z.of_nat (length (render_entries es)))); [lia|].
    rewrite Nat2Z.id, firstn_all, Z.eqb_refl. cbn [negb].
    rewrite Nat2Z.id, Hp. reflexivity.
  - intros i e Hi.
    assert (Hlt : (i <= length es)%nat)
      by (apply lookup_lt_Some in Hi; lia).
    destruct (entry_at_pointer es i e 8 Hes Hi) as [Hk Ht].
    assert (He : wf_raw_entry 8 e).
    { apply (proj1 (Forall_forall _ _) Hes). eapply list_elem_of_lookup_2, Hi. }
    destruct He as [_ Hl].
    unfold WordListBuf_get_key, WordListIndex_get_data.
    cbn [wordlist_ptrs idxdatabuf].
    rewrite vec_at_entry_starts by assumption.
    cbn [defined result_bind]. rewrite Hk. cbn [defined result_bind].
    split; [reflexivity|].
    rewrite <- (take_drop 4 (re_tail e)), <- app_assoc in Ht.
    rewrite (read_uint32_at _ _ _ _ _ _ Ht) by (rewrite length_take; lia).
    cbn [defined result_bind].
    apply from_ptr_app in Ht;
      [|pose proof (entry_start_nonneg es i); lia].
    rewrite length_take in Ht.
    replace (Z.of_nat (4 `min` length (re_tail e))) with 4 in Ht by lia.
    rewrite <- (app_nil_r (drop 4 (re_tail e))), <- app_assoc in Ht.
    rewrite (read_uint32_at _ _ _ _ _ _ Ht) by (rewrite length_drop; lia).
    reflexivity.
Qed.

(** A big-endian reading of four bytes, for the examples. *)
Definition uint32_be (b : list Z) : Z := fold_left (fun a c => a * 256 + c) b 0.

Definition idx_two : list raw_entry :=
  [ {| re_key := str "a"; re_tail := [0; 0; 0; 0; 0; 0; 0; 5] |};
    {| re_key := str "b"; re_tail := [0; 0; 0; 5; 0; 0; 1; 7] |} ].

Lemma wf_idx_two : Forall (wf_raw_entry 8) idx_two.
Proof.
  repeat (constructor; [split; [apply is_cstrb_spec|]; reflexivity|]).
  constructor.
Qed.

Lemma WordListIndex_load_entries_witness :
  exists w,
    WordListIndex_load (Some (render_entries idx_two))
      (Z.of_nat (length idx_two))
      (Z.of_nat (length (render_entries idx_two))) = Ok (Some w) /\
    forall i e, idx_two !! i = Some e ->
      WordListBuf_get_key w (Z.of_nat i) = Ok (re_key e) /\
      WordListIndex_get_data uint32_be id w (Z.of_nat i)
      = Ok (id (uint32_be (take 4 (re_tail e))),
            id (uint32_be (drop 4 (re_tail e)))).
Proof.
  apply (WordListIndex_load_entries uint32_be id idx_two wf_idx_two).
  vm_compute. reflexivity.
Defined.

(** One round more than there are entries reads at the end of the buffer. *)
Lemma index_pointers_past_end tail es k :
  Forall (wf_raw_entry tail) es ->
  forall pre,
  index_pointers tail (pre ++ render_entries es) (length es + S k)
    (Z.of_nat (length pre)) = None.
Proof.
  induction 1 as [|e es He Hes IH]; intros pre.
  - cbn [length Nat.add index_pointers render_entries map concat].
    rewrite from_ptr_drop, app_nil_r, drop_all. reflexivity.
  - cbn [length Nat.add index_pointers].
    rewrite from_ptr_drop, drop_app_length, render_entries_cons.
    rewrite c_str_at_render_entry by apply He.
    pose proof (render_entry_length tail e He) as Hl.
    replace (Z.of_nat (length pre) + Z.of_nat (length (re_key e)) + 1 + tail)
      with (Z.of_nat (length (pre ++ render_entry e)))
      by (rewrite length_app; lia).
    rewrite app_assoc, IH. reflexivity.
Qed.

(** X2.  [WordListIndex::load] trusts the word count: when it is larger
    than the number of entries in the buffer, the scan for the starts of
    the entries reads beyond the end of the buffer. *)
Theorem WordListIndex_load_wordcount_too_large (es : list raw_entry) (wc : Z) :
  Forall (wf_raw_entry 8) es ->
  Z.of_nat (length (render_entries es)) < 2 ^ 31 ->
  Z.of_nat (length es) < wc ->
  WordListIndex_load (Some (render_entries es)) wc
    (Z.of_nat (length (render_entries es))) = Undefined.
Proof.
  intros Hes Hsz Hwc.
  unfold WordListIndex_load.
  rewrite Z.mod_small by lia.
  destruct (Z.leb_spec (2 ^ 31) (Z.of_nat (length (render_entries es)))); [lia|].
  rewrite Nat2Z.id, firstn_all, Z.eqb_refl. cbn [negb].
  pose proof (fun k => index_pointers_past_end 8 es k Hes) as Hn.
  specialize (Hn (Z.to_nat wc - length es - 1)%nat []).
  replace (length es + S (Z.to_nat wc - length es - 1))%nat with (Z.to_nat wc)
    in Hn by lia.
  cbn [app] in Hn. change (Z.of_nat (length (@nil Z))) with 0 in Hn.
  rewrite Hn. reflexivity.
Qed.

Lemma WordListIndex_load_wordcount_too_large_witness :
  WordListIndex_load (Some (render_entries idx_two)) 3
    (Z.of_nat (length (render_entries idx_two))) = Undefined.
Proof.
  apply (WordListIndex_load_wordcount_too_large idx_two 3 wf_idx_two);
    vm_compute; reflexivity.
Defined.

(** X3.  [SynFile::load] on the bytes of a synonym file of well-formed
    entries (key, NUL, four bytes of index) succeeds and stores one pointer
    more than there are entries; the key read at pointer [i] is that of
    entry [i], and the index that [lookup] reads behind it decodes the four
    bytes of the entry. *)
Theorem SynFile_load_entries (get_uint32 : list Z -> Z) (g_ntohl : Z -> Z)
    (es : list raw_entry) :
  Forall (wf_raw_entry 4) es ->
  exists w,
    SynFile_load (Some (render_entries es)) (Z.of_nat (length es))
    = Ok (Some w) /\
    length (synlist_ptrs w) = S (length es) /\
    forall i e, es !! i = Some e ->
      SynBuf_get_key w (Z.of_nat i) = Ok (re_key e) /\
      SynBuf_get_target get_uint32 g_ntohl w (Z.of_nat i)
      = Ok (g_ntohl (get_uint32 (re_tail e))).
Proof.
  intros Hes.
  pose proof (index_pointers_entries 4 (render_entries es) es Hes [] []) as Hp.
  rewrite app_nil_r in Hp. specialize (Hp eq_refl).
  change (Z.of_nat (length (@nil Z))) with 0 in Hp.
  eexists. split; [|split].
  - unfold SynFile_load. rewrite Nat2Z.id, Hp. reflexivity.
  - cbn [synlist_ptrs]. now rewrite length_map, length_seq.
  - intros i e Hi.
    assert (Hlt : (i <= length es)%nat)
      by (apply lookup_lt_Some in Hi; lia).
    destruct (entry_at_pointer es i e 4 Hes Hi) as [Hk Ht].
    assert (He : wf_raw_entry 4 e).
    { apply (proj1 (Forall_forall _ _) Hes). eapply list_elem_of_lookup_2, Hi. }
    destruct He as [_ Hl].
    unfold SynBuf_get_key, SynBuf_get_target. cbn [synlist_ptrs synfile].
    rewrite vec_at_entry_starts by assumption.
    cbn [defined result_bind]. rewrite Hk. cbn [defined result_bind].
    split; [reflexivity|].
    rewrite (read_uint32_at _ _ _ _ _ _ Ht) by lia. reflexivity.
Qed.

Definition syn_two : list raw_entry :=
  [ {| re_key := str "colour"; re_tail := [0; 0; 0; 1] |};
    {| re_key := str "grey"; re_tail := [0; 0; 0; 0] |} ].

Lemma wf_syn_two : Forall (wf_raw_entry 4) syn_two.
Proof.
  repeat (constructor; [split; [apply is_cstrb_spec|]; reflexivity|]).
  constructor.
Qed.

Lemma SynFile_load_entries_witness :
  exists w,
    SynFile_load (Some (render_entries syn_two)) (Z.of_nat (length syn_two))
    = Ok (Some w) /\
    length (synlist_ptrs w) = S (length syn_two) /\
    forall i e, syn_two !! i = Some e ->
      SynBuf_get_key w (Z.of_nat i) = Ok (re_key e) /\
      SynBuf_get_target uint32_be id w (Z.of_nat i)
      = Ok (id (uint32_be (re_tail e))).
Proof.
  apply (SynFile_load_entries uint32_be id syn_two wf_syn_two).
Defined.

(** *** [OffsetIndex] *)

(** The scan of [OffsetIndex::load] (lines 629-640), with [n] the number of
    rounds left: [wordoffset] is a vector of [guint32]. *)
Fixpoint page_offsets (buf : list Z) (n : nat) (i p1 j : Z)
    (wordoffset : list Z) : option (list Z) :=
  match n with
  | O => vec_set wordoffset j (p1 mod 2 ^ 32)
  | S n' =>
      match c_str_at (from_ptr buf p1) with
      | None => None
      | Some s =>
          let index_size := Z.of_nat (length s) + 1 + 2 * 4 in
          if Z.rem i ENTR_PER_PAGE =? 0 then
            match vec_set wordoffset j (p1 mod 2 ^ 32) with
            | None => None
            | Some wordoffset' =>
                page_offsets buf n' (i + 1) (p1 + index_size) (j + 1)
                  wordoffset'
            end
          else page_offsets buf n' (i + 1) (p1 + index_size) j wordoffset
      end
  end.

(** [npages = (wc - 1) / ENTR_PER_PAGE + 2] for a [gulong], then
    [wordoffset.resize (npages)] on the empty vector and the scan. *)
Definition OffsetIndex_scan (buf : list Z) (wc : Z) : option (list Z) :=
  let npages := ((wc - 1) mod 2 ^ 64) / ENTR_PER_PAGE + 2 in
  page_offsets buf (Z.to_nat wc) 0 0 0 (replicate (Z.to_nat npages) 0).

Record page_entry := { pe_keystr : cstring; pe_off : Z; pe_size : Z }.

(** The index file behind [idxfile], the page table, [wordentry_buf] and
    the page buffer: [ob_entries] are the entries of [page.entries] that the
    last [fill] wrote, each with the string its [keystr] points to. *)
Record OffsetBuf := {
  ob_idxfile : list Z;
  ob_wordoffset : list Z;
  ob_wordcount : Z;
  ob_wordentry_buf : list Z;
  ob_page_idx : Z;
  ob_entries : list page_entry
}.

(** The size of [wordentry_buf]: [256 + sizeof (guint32) * 2]. *)
Definition wordentry_buf_size : Z := 256 + 4 * 2.

Section OffsetBytes.

Variable get_uint32 : list Z -> Z.
Variable g_ntohl : Z -> Z.

(** [read_first_on_page_key]: one item of [min (sizeof (wordentry_buf),
    page_size)] bytes is read over the start of [wordentry_buf], which is
    then read as a C string. *)
Definition OffsetBuf_read_first_on_page_key (o : OffsetBuf) (page_idx : Z)
  : result (OffsetBuf * cstring) :=
  let* w0 := defined (vec_at (ob_wordoffset o) page_idx) in
  let* w1 := defined (vec_at (ob_wordoffset o) (page_idx + 1)) in
  let page_size := (w1 - w0) mod 2 ^ 32 in
  let size := Z.min wordentry_buf_size page_size in
  let got := fread_at (ob_idxfile o) w0 size in
  if (0 <? size) && (Z.of_nat (length got) =? size) then
    let buf := got ++ drop (length got) (ob_wordentry_buf o) in
    let* key := defined (c_str_at buf) in
    Ok ({| ob_idxfile := ob_idxfile o; ob_wordoffset := ob_wordoffset o;
           ob_wordcount := ob_wordcount o; ob_wordentry_buf := buf;
           ob_page_idx := ob_page_idx o; ob_entries := ob_entries o |}, key)
  else Throw.

(** [page_t::fill]: [nent] entries are read from [data] on, [p] being the
    position in it. *)
Fixpoint page_fill (data : list Z) (nent : nat) (p : Z)
  : result (list page_entry) :=
  match nent with
  | O => Ok []
  | S nent' =>
      let* keystr := defined (c_str_at (from_ptr data p)) in
      let p := p + Z.of_nat (length keystr) + 1 in
      let* off := defined (read_uint32 get_uint32 g_ntohl data p) in
      let p := p + 4 in
      let* size := defined (read_uint32 get_uint32 g_ntohl data p) in
      let p := p + 4 in
      let* rest := page_fill data nent' p in
      Ok ({| pe_keystr := keystr; pe_off := off; pe_size := size |} :: rest)
  end.

(** [load_page]: the number of entries of the page, which is read and
    parsed unless it is the one in the buffer. *)
Definition OffsetBuf_load_page (o : OffsetBuf) (page_idx : Z)
  : result (OffsetBuf * Z) :=
  let nentr :=
    if page_idx =? Z.of_nat (length (ob_wordoffset o)) - 2 then
      if (ob_wordcount o) mod ENTR_PER_PAGE =? 0 then ENTR_PER_PAGE
      else (ob_wordcount o) mod ENTR_PER_PAGE
    else ENTR_PER_PAGE in
  if negb (page_idx =? ob_page_idx o) then
    let* w0 := defined (vec_at (ob_wordoffset o) page_idx) in
    let* w1 := defined (vec_at (ob_wordoffset o) (page_idx + 1)) in
    let size := (w1 - w0) mod 2 ^ 32 in
    let page_data := fread_at (ob_idxfile o) w0 size in
    if Z.of_nat (length page_data) =? size then
      let* entries := page_fill page_data (Z.to_nat nentr) 0 in
      Ok ({| ob_idxfile := ob_idxfile o; ob_wordoffset := ob_wordoffset o;
             ob_wordcount := ob_wordcount o;
             ob_wordentry_buf := ob_wordentry_buf o;
             ob_page_idx := page_idx; ob_entries := entries |}, nentr)
    else Throw
  else Ok (o, nentr).

(** [get_key]: the key, with [wordentry_offset] and [wordentry_size]. *)
Definition OffsetBuf_get_key (o : OffsetBuf) (idx : Z)
  : result (OffsetBuf * (cstring * Z * Z)) :=
  let* loaded := OffsetBuf_load_page o (Z.quot idx ENTR_PER_PAGE) in
  let o' := fst loaded in
  let idx_in_page := Z.rem idx ENTR_PER_PAGE in
  let* e := defined (vec_at (ob_entries o') idx_in_page) in
  Ok (o', (pe_keystr e, pe_off e, pe_size e)).

End OffsetBytes.

Lemma entry_start_succ es i e :
  es !! i = Some e ->
  entry_start es (S i) = entry_start es i + Z.of_nat (length (render_entry e)).
Proof.
  intros Hi. unfold entry_start. rewrite (take_S_r es i e Hi).
  unfold render_entries. rewrite map_app, concat_app, length_app.
  simpl. rewrite app_nil_r. lia.
Qed.

Lemma entry_start_all es i :
  (length es <= i)%nat ->
  entry_start es i = Z.of_nat (length (render_entries es)).
Proof. intros Hi. unfold entry_start. now rewrite take_ge. Qed.

Lemma entry_start_le_size es i :
  entry_start es i <= Z.of_nat (length (render_entries es)).
Proof.
  destruct (Nat.le_gt_cases (length es) i) as [H|H].
  - rewrite entry_start_all by assumption. lia.
  - rewrite <- (entry_start_all es (length es)) by lia.
    apply entry_start_mono. lia.
Qed.

Lemma vec_set_lookup {A} (v v' : list A) j x :
  vec_set v j x = Some v' ->
  0 <= j < Z.of_nat (length v) /\ length v' = length v /\
  vec_at v' j = Some x /\
  forall k, k <> j -> vec_at v' k = vec_at v k.
Proof.
  unfold vec_set, vec_at.
  destruct (Z.leb_spec 0 j); [|discriminate].
  destruct (Z.ltb_spec j (Z.of_nat (length v))); [|discriminate].
  cbn [andb]. intros [= <-]. split; [lia|]. split; [apply length_insert|].
  split.
  - destruct (Z.ltb_spec j 0); [lia|]. apply list_lookup_insert_eq. lia.
  - intros k Hk. destruct (Z.ltb_spec k 0); [reflexivity|].
    apply list_lookup_insert_ne. lia.
Qed.

Lemma vec_set_defined {A} (v : list A) j x :
  0 <= j < Z.of_nat (length v) -> exists v', vec_set v j x = Some v'.
Proof.
  intros Hj. unfold vec_set.
  destruct (Z.leb_spec 0 j); [|lia].
  destruct (Z.ltb_spec j (Z.of_nat (length v))); [|lia].
  eexists. reflexivity.
Qed.

(** Linear arithmetic with divisions by constants. *)
Ltac lia_div := Z.to_euclidean_division_equations; lia.

(** The scan stores the start of every entry whose number is a multiple of
    [ENTR_PER_PAGE], and the end of the file last. *)
Lemma page_offsets_entries es npages :
  Forall (wf_raw_entry 8) es ->
  Z.of_nat (length (render_entries es)) < 2 ^ 32 ->
  1 <= Z.of_nat (length es) ->
  npages = (Z.of_nat (length es) - 1) / ENTR_PER_PAGE + 2 ->
  forall rest done wo,
  es = done ++ rest ->
  Z.of_nat (length wo) = npages ->
  (forall k, 0 <= k < (Z.of_nat (length done) + 31) / ENTR_PER_PAGE ->
             vec_at wo k
             = Some (entry_start es (Z.to_nat (ENTR_PER_PAGE * k)))) ->
  exists wo',
    page_offsets (render_entries es) (length rest) (Z.of_nat (length done))
      (entry_start es (length done))
      ((Z.of_nat (length done) + 31) / ENTR_PER_PAGE) wo = Some wo' /\
    Z.of_nat (length wo') = npages /\
    forall k, 0 <= k < npages ->
              vec_at wo' k
              = Some (entry_start es (Z.to_nat (ENTR_PER_PAGE * k))).
Proof.
  intros Hes Hsz Hn Hnp. unfold ENTR_PER_PAGE in *.
  induction rest as [|e rest IH]; intros done wo Hsplit Hlen Hwo.
  - rewrite app_nil_r in Hsplit. subst done.
    cbn [length page_offsets].
    pose proof (entry_start_le_size es (length es)).
    pose proof (entry_start_nonneg es (length es)).
    rewrite Z.mod_small by lia.
    set (j := (Z.of_nat (length es) + 31) / 32) in *.
    assert (Hj : j = npages - 1) by (subst j npages; lia_div).
    destruct (vec_set_defined wo j (entry_start es (length es)))
      as [wo' Hset]; [subst j npages; lia_div|].
    exists wo'. split; [exact Hset|].
    destruct (vec_set_lookup _ _ _ _ Hset) as (_ & Hl & Hat & Hother).
    split; [lia|]. intros k Hk.
    destruct (Z.eq_dec k j) as [->|Hne].
    + rewrite Hat. f_equal.
      rewrite !entry_start_all; [reflexivity | |]; try lia; subst j; lia_div.
    + rewrite Hother by assumption. apply Hwo. subst j; lia_div.
  - assert (Hi : es !! length done = Some e).
    { rewrite Hsplit. now rewrite list_lookup_middle. }
    assert (Hilt : Z.of_nat (length done) < Z.of_nat (length es)).
    { apply lookup_lt_Some in Hi. lia. }
    cbn [length page_offsets].
    pose proof (from_ptr_entry es (length done) e Hi) as Hp.
    rewrite Hp.
    assert (He : wf_raw_entry 8 e).
    { apply (proj1 (Forall_forall _ _) Hes). eapply list_elem_of_lookup_2, Hi. }
    rewrite c_str_at_render_entry by apply He.
    pose proof (render_entry_length 8 e He) as Hl.
    pose proof (entry_start_succ es (length done) e Hi) as Hs.
    replace (entry_start es (length done) + (Z.of_nat (length (re_key e)) + 1 + 2 * 4))
      with (entry_start es (S (length done))) by lia.
    specialize (IH (done ++ [e])).
    rewrite length_app in IH. cbn [length] in IH.
    replace (length done + 1)%nat with (S (length done)) in IH by lia.
    replace (Z.of_nat (length done) + 1) with (Z.of_nat (S (length done))) by lia.
    unfold ENTR_PER_PAGE. rewrite Z.rem_mod_nonneg by lia.
    pose proof (entry_start_le_size es (length done)).
    pose proof (entry_start_nonneg es (length done)).
    destruct (Z.eqb_spec (Z.of_nat (length done) mod 32) 0) as [Hm|Hm].
    + rewrite Z.mod_small by lia.
      set (j := (Z.of_nat (length done) + 31) / 32) in *.
      assert (Hj : Z.of_nat (length done) = 32 * j) by (subst j; lia_div).
      destruct (vec_set_defined wo j (entry_start es (length done)))
        as [wo1 Hset]; [subst npages; lia_div|].
      rewrite Hset.
      destruct (vec_set_lookup _ _ _ _ Hset) as (_ & Hl1 & Hat & Hother).
      replace (j + 1) with ((Z.of_nat (S (length done)) + 31) / 32) by lia_div.
      apply IH.
      * rewrite Hsplit, <- app_assoc. reflexivity.
      * lia.
      * intros k Hk. destruct (Z.eq_dec k j) as [->|Hne].
        -- rewrite Hat. do 2 f_equal. lia.
        -- rewrite Hother by assumption. apply Hwo.
           clear - Hk Hne Hj. subst j. lia_div.
    + replace ((Z.of_nat (length done) + 31) / 32)
        with ((Z.of_nat (S (length done)) + 31) / 32) in * by lia_div.
      apply IH.
      * rewrite Hsplit, <- app_assoc. reflexivity.
      * lia.
      * exact Hwo.
Qed.

Lemma render_entries_app a b :
  render_entries (a ++ b) = render_entries a ++ render_entries b.
Proof. unfold render_entries. now rewrite map_app, concat_app. Qed.

Lemma render_entries_length_ge es :
  (length es <= length (render_entries es))%nat.
Proof.
  induction es as [|e es IH]; [simpl; lia|].
  rewrite render_entries_cons, length_app. unfold render_entry at 1.
  rewrite length_app. simpl. lia.
Qed.

Lemma OffsetIndex_scan_table (es : list raw_entry) :
  Forall (wf_raw_entry 8) es ->
  1 <= Z.of_nat (length es) ->
  Z.of_nat (length (render_entries es)) < 2 ^ 32 ->
  exists wordoffset,
    OffsetIndex_scan (render_entries es) (Z.of_nat (length es))
    = Some wordoffset /\
    Z.of_nat (length wordoffset)
    = (Z.of_nat (length es) - 1) / ENTR_PER_PAGE + 2 /\
    (forall k, 0 <= k < Z.of_nat (length wordoffset) ->
       vec_at wordoffset k
       = Some (entry_start es (Z.to_nat (ENTR_PER_PAGE * k)))) /\
    vec_at wordoffset (Z.of_nat (length wordoffset) - 1)
    = Some (Z.of_nat (length (render_entries es))).
Proof.
  intros Hes Hn Hsz.
  pose proof (render_entries_length_ge es) as Hge.
  unfold OffsetIndex_scan. rewrite (Z.mod_small (_ - 1)) by lia.
  set (npages := (Z.of_nat (length es) - 1) / ENTR_PER_PAGE + 2).
  assert (Hnp : 2 <= npages) by (subst npages; unfold ENTR_PER_PAGE; lia_div).
  destruct (page_offsets_entries es npages Hes Hsz Hn eq_refl es []
              (replicate (Z.to_nat npages) 0) eq_refl)
    as (wo & Hwo & Hlen & Hk).
  - rewrite length_replicate. lia.
  - cbn [length]. intros k Hk. unfold ENTR_PER_PAGE in Hk.
    change ((Z.of_nat 0 + 31) / 32) with 0 in Hk. lia.
  - cbn [length] in Hwo.
    change ((Z.of_nat 0 + 31) / ENTR_PER_PAGE) with 0 in Hwo.
    rewrite Nat2Z.id. exists wo. split; [exact Hwo|].
    split; [exact Hlen|]. rewrite Hlen.
    split; [exact Hk|].
    rewrite Hk by lia. f_equal. apply entry_start_all.
    subst npages. unfold ENTR_PER_PAGE. lia_div.
Qed.

(** X4.  The scan of [OffsetIndex::load] over the bytes of an index of
    [wc >= 1] well-formed entries fills the page table: it has
    [(wc - 1) / 32 + 2] slots, slot [k] holds the offset of entry [32 * k],
    and the last slot holds the size of the file.  No slot outside the
    table is written. *)
Theorem OffsetIndex_scan_entries (es : list raw_entry) :
  Forall (wf_raw_entry 8) es ->
  1 <= Z.of_nat (length es) ->
  Z.of_nat (length (render_entries es)) < 2 ^ 32 ->
  exists wordoffset,
    OffsetIndex_scan (render_entries es) (Z.of_nat (length es))
    = Some wordoffset /\
    Z.of_nat (length wordoffset)
    = (Z.of_nat (length es) - 1) / ENTR_PER_PAGE + 2 /\
    (forall k, 0 <= k < Z.of_nat (length wordoffset) ->
       vec_at wordoffset k
       = Some (entry_start es (Z.to_nat (ENTR_PER_PAGE * k)))) /\
    vec_at wordoffset (Z.of_nat (length wordoffset) - 1)
    = Some (Z.of_nat (length (render_entries es))).
Proof. exact (OffsetIndex_scan_table es). Qed.

Lemma OffsetIndex_scan_entries_witness :
  exists wordoffset,
    OffsetIndex_scan (render_entries idx_two) (Z.of_nat (length idx_two))
    = Some wordoffset /\
    Z.of_nat (length wordoffset)
    = (Z.of_nat (length idx_two) - 1) / ENTR_PER_PAGE + 2 /\
    (forall k, 0 <= k < Z.of_nat (length wordoffset) ->
       vec_at wordoffset k
       = Some (entry_start idx_two (Z.to_nat (ENTR_PER_PAGE * k)))) /\
    vec_at wordoffset (Z.of_nat (length wordoffset) - 1)
    = Some (Z.of_nat (length (render_entries idx_two))).
Proof.
  apply (OffsetIndex_scan_entries idx_two wf_idx_two); vm_compute;
    [discriminate | reflexivity].
Defined.

(** The bytes between the starts of two entries are the entries between
    them. *)
Lemma fread_at_entries es (a b : nat) :
  (a <= b)%nat ->
  fread_at (render_entries es) (entry_start es a)
    (entry_start es b - entry_start es a)
  = render_entries (take (b - a) (drop a es)) /\
  entry_start es b - entry_start es a
  = Z.of_nat (length (render_entries (take (b - a) (drop a es)))).
Proof.
  intros Hab. unfold fread_at, from_ptr.
  pose proof (entry_start_nonneg es a).
  destruct (Z.ltb_spec (entry_start es a) 0); [lia|].
  rewrite drop_entry_start.
  assert (Hb : entry_start es b - entry_start es a
               = Z.of_nat (length (render_entries (take (b - a) (drop a es))))).
  { unfold entry_start.
    replace (take b es) with (take a es ++ take (b - a) (drop a es)).
    - rewrite render_entries_app, length_app. lia.
    - rewrite take_take_drop. f_equal. lia. }
  assert (Hs : render_entries (drop a es)
               = render_entries (take (b - a) (drop a es))
                   ++ render_entries (drop (b - a) (drop a es)))
    by (now rewrite <- render_entries_app, take_drop).
  split; [|exact Hb].
  rewrite Hb, Nat2Z.id, Hs. now rewrite take_app_length.
Qed.

Section OffsetBytesSpec.

Variable get_uint32 : list Z -> Z.
Variable g_ntohl : Z -> Z.

(** An entry as [fill] decodes it. *)
Definition decode_entry (e : raw_entry) : page_entry :=
  {| pe_keystr := re_key e;
     pe_off := g_ntohl (get_uint32 (take 4 (re_tail e)));
     pe_size := g_ntohl (get_uint32 (drop 4 (re_tail e))) |}.

Lemma page_fill_entries es :
  Forall (wf_raw_entry 8) es ->
  forall pre post,
  page_fill get_uint32 g_ntohl (pre ++ render_entries es ++ post) (length es)
    (Z.of_nat (length pre))
  = Ok (map decode_entry es).
Proof.
  induction 1 as [|e es He Hes IH]; intros pre post; [reflexivity|].
  cbn [length page_fill].
  assert (Hp : from_ptr (pre ++ render_entries (e :: es) ++ post)
                 (Z.of_nat (length pre))
               = (re_key e ++ [0]) ++ take 4 (re_tail e)
                   ++ drop 4 (re_tail e) ++ render_entries es ++ post).
  { rewrite from_ptr_drop, drop_app_length, render_entries_cons.
    unfold render_entry. rewrite <- !app_assoc. cbn [app].
    now rewrite (app_assoc (take 4 _)), take_drop. }
  destruct He as [Hk Hl].
  assert (Hc : c_str_at (from_ptr (pre ++ render_entries (e :: es) ++ post)
                           (Z.of_nat (length pre))) = Some (re_key e)).
  { rewrite from_ptr_drop, drop_app_length, render_entries_cons, <- app_assoc.
    now apply c_str_at_render_entry. }
  rewrite Hc. cbn [defined result_bind].
  apply from_ptr_app in Hp; [|lia].
  rewrite length_app in Hp. cbn [length] in Hp.
  replace (Z.of_nat (length pre) + Z.of_nat (length (re_key e) + 1))
    with (Z.of_nat (length pre) + Z.of_nat (length (re_key e)) + 1) in Hp by lia.
  rewrite (read_uint32_at _ _ _ _ _ _ Hp) by (rewrite length_take; lia).
  cbn [defined result_bind].
  apply from_ptr_app in Hp; [|lia].
  rewrite length_take in Hp.
  replace (Z.of_nat (4 `min` length (re_tail e))) with 4 in Hp by lia.
  rewrite (read_uint32_at _ _ _ _ _ _ Hp) by (rewrite length_drop; lia).
  cbn [defined result_bind].
  specialize (IH (pre ++ render_entry e) post).
  replace (Z.of_nat (length pre) + Z.of_nat (length (re_key e)) + 1 + 4 + 4)
    with (Z.of_nat (length (pre ++ render_entry e))).
  - rewrite render_entries_cons, <- app_assoc, app_assoc, IH. reflexivity.
  - rewrite length_app. unfold render_entry. rewrite length_app. simpl. lia.
Qed.

(** The state of an [OffsetIndex] over the index file of the entries [es]:
    the page table is that of the scan, and the page buffer, when a page has
    been loaded, holds the entries of that page. *)
Record OffsetBuf_ok (es : list raw_entry) (o : OffsetBuf) : Prop := {
  ob_file_ok : ob_idxfile o = render_entries es;
  ob_wordcount_ok : ob_wordcount o = Z.of_nat (length es);
  ob_npages_ok : Z.of_nat (length (ob_wordoffset o))
                 = (Z.of_nat (length es) - 1) / ENTR_PER_PAGE + 2;
  ob_wordoffset_ok : forall k, 0 <= k < Z.of_nat (length (ob_wordoffset o)) ->
      vec_at (ob_wordoffset o) k
      = Some (entry_start es (Z.to_nat (ENTR_PER_PAGE * k)));
  ob_page_ok : ob_page_idx o = -1 \/
      (0 <= ob_page_idx o /\
       ob_entries o
       = map decode_entry
           (take (Z.to_nat ENTR_PER_PAGE)
              (drop (Z.to_nat (ENTR_PER_PAGE * ob_page_idx o)) es)))
}.

End OffsetBytesSpec.

(** The object after the scan, with the page buffer of a new object
    ([page.idx] is [-1]). *)
Definition OffsetBuf_scanned (file : list Z) (wc : Z) (wordentry_buf : list Z)
  : option OffsetBuf :=
  option_map
    (fun wordoffset =>
       {| ob_idxfile := file; ob_wordoffset := wordoffset; ob_wordcount := wc;
          ob_wordentry_buf := wordentry_buf;
          ob_page_idx := -1; ob_entries := [] |})
    (OffsetIndex_scan file wc).

Lemma OffsetBuf_scanned_ok get_uint32 g_ntohl es wordentry_buf :
  Forall (wf_raw_entry 8) es ->
  1 <= Z.of_nat (length es) ->
  Z.of_nat (length (render_entries es)) < 2 ^ 32 ->
  exists o,
    OffsetBuf_scanned (render_entries es) (Z.of_nat (length es)) wordentry_buf
    = Some o /\
    OffsetBuf_ok get_uint32 g_ntohl es o.
Proof.
  intros Hes Hn Hsz.
  destruct (OffsetIndex_scan_table es Hes Hn Hsz) as (wo & Hwo & Hlen & Hk & _).
  unfold OffsetBuf_scanned. rewrite Hwo. cbn [option_map].
  eexists. split; [reflexivity|].
  constructor; cbn; auto.
Qed.

Section OffsetBytesProofs.

Variable get_uint32 : list Z -> Z.
Variable g_ntohl : Z -> Z.
Variable es : list raw_entry.
Hypothesis es_wf : Forall (wf_raw_entry 8) es.
Hypothesis es_size : Z.of_nat (length (render_entries es)) < 2 ^ 32.

Let n : Z := Z.of_nat (length es).

(** The entries of page [p]. *)
Definition page_entries_of (p : Z) : list raw_entry :=
  take (Z.to_nat ENTR_PER_PAGE) (drop (Z.to_nat (ENTR_PER_PAGE * p)) es).

Lemma page_entries_of_length p :
  0 <= p -> ENTR_PER_PAGE * p < n ->
  Z.of_nat (length (page_entries_of p))
  = Z.min ENTR_PER_PAGE (n - ENTR_PER_PAGE * p).
Proof.
  intros Hp Hlt. unfold page_entries_of.
  rewrite length_take, length_drop. subst n. unfold ENTR_PER_PAGE in *. lia.
Qed.

Lemma OffsetBuf_load_page_ok o p :
  OffsetBuf_ok get_uint32 g_ntohl es o ->
  0 <= p -> ENTR_PER_PAGE * p < n ->
  exists o',
    OffsetBuf_load_page get_uint32 g_ntohl o p
    = Ok (o', Z.of_nat (length (page_entries_of p))) /\
    OffsetBuf_ok get_uint32 g_ntohl es o' /\
    ob_entries o' = map (decode_entry get_uint32 g_ntohl) (page_entries_of p).
Proof.
  intros [Hfile Hwc Hnp Hwo Hpage] Hp Hlt.
  pose proof (page_entries_of_length p Hp Hlt) as Hlen.
  fold n in Hnp, Hwc.
  unfold OffsetBuf_load_page.
  assert (Hnentr :
    (if p =? Z.of_nat (length (ob_wordoffset o)) - 2
     then if ob_wordcount o mod ENTR_PER_PAGE =? 0 then ENTR_PER_PAGE
          else ob_wordcount o mod ENTR_PER_PAGE
     else ENTR_PER_PAGE) = Z.of_nat (length (page_entries_of p))).
  { rewrite Hlen, Hnp, Hwc. unfold ENTR_PER_PAGE in *.
    destruct (Z.eqb_spec p ((n - 1) / 32 + 2 - 2)).
    - destruct (Z.eqb_spec (n mod 32) 0); lia_div.
    - lia_div. }
  rewrite Hnentr.
  destruct (Z.eqb_spec p (ob_page_idx o)) as [Heq|Hne]; cbn [negb].
  - exists o. split; [reflexivity|]. split; [constructor; assumption|].
    destruct Hpage as [Hm|[_ He]]; [lia|]. rewrite He, <- Heq. reflexivity.
  - assert (Hk0 : 0 <= p < Z.of_nat (length (ob_wordoffset o)))
      by (rewrite Hnp; unfold ENTR_PER_PAGE in *; lia_div).
    assert (Hk1 : 0 <= p + 1 < Z.of_nat (length (ob_wordoffset o)))
      by (rewrite Hnp; unfold ENTR_PER_PAGE in *; lia_div).
    rewrite (Hwo p Hk0), (Hwo (p + 1) Hk1). cbn [defined result_bind].
    set (a := Z.to_nat (ENTR_PER_PAGE * p)).
    set (b := Z.to_nat (ENTR_PER_PAGE * (p + 1))).
    assert (Hab : (a <= b)%nat) by (subst a b; unfold ENTR_PER_PAGE; lia).
    destruct (fread_at_entries es a b Hab) as [Hread Hsize].
    assert (Hba : (b - a)%nat = Z.to_nat ENTR_PER_PAGE)
      by (subst a b; unfold ENTR_PER_PAGE; lia).
    rewrite Hba in Hread, Hsize.
    fold (page_entries_of p) in Hread, Hsize.
    pose proof (entry_start_le_size es b).
    pose proof (entry_start_nonneg es a).
    pose proof (entry_start_mono es a b Hab).
    rewrite Z.mod_small by lia.
    rewrite Hfile, Hread, <- Hsize, Z.eqb_refl.
    rewrite Nat2Z.id.
    assert (Hpw : Forall (wf_raw_entry 8) (page_entries_of p)).
    { unfold page_entries_of. apply Forall_take, Forall_drop, es_wf. }
    pose proof (page_fill_entries get_uint32 g_ntohl _ Hpw [] []) as Hfill.
    cbn [app] in Hfill. rewrite app_nil_r in Hfill.
    change (Z.of_nat (length (@nil Z))) with 0 in Hfill.
    change (take (Z.to_nat ENTR_PER_PAGE) (drop a es)) with (page_entries_of p).
    rewrite Hfill. cbn [result_bind].
    eexists. split; [reflexivity|]. split; [|reflexivity].
    constructor; cbn; auto.
Qed.

Lemma OffsetBuf_get_key_ok o (idx : nat) e :
  OffsetBuf_ok get_uint32 g_ntohl es o ->
  es !! idx = Some e ->
  exists o',
    OffsetBuf_get_key get_uint32 g_ntohl o (Z.of_nat idx)
    = Ok (o', (re_key e,
               g_ntohl (get_uint32 (take 4 (re_tail e))),
               g_ntohl (get_uint32 (drop 4 (re_tail e))))) /\
    OffsetBuf_ok get_uint32 g_ntohl es o'.
Proof.
  intros Hok Hi.
  assert (Hlt : Z.of_nat idx < n) by (apply lookup_lt_Some in Hi; subst n; lia).
  unfold OffsetBuf_get_key.
  rewrite Z.quot_div_nonneg, Z.rem_mod_nonneg by (unfold ENTR_PER_PAGE; lia).
  destruct (OffsetBuf_load_page_ok o (Z.of_nat idx / ENTR_PER_PAGE) Hok)
    as (o' & Hload & Hok' & He);
    [unfold ENTR_PER_PAGE; lia_div | unfold ENTR_PER_PAGE; lia_div |].
  rewrite Hload. cbn [result_bind fst]. rewrite He.
  assert (Hat : vec_at (map (decode_entry get_uint32 g_ntohl)
                          (page_entries_of (Z.of_nat idx / ENTR_PER_PAGE)))
                  (Z.of_nat idx mod ENTR_PER_PAGE)
                = Some (decode_entry get_uint32 g_ntohl e)).
  { unfold vec_at, page_entries_of.
    destruct (Z.ltb_spec (Z.of_nat idx mod ENTR_PER_PAGE) 0);
      [unfold ENTR_PER_PAGE in *; lia_div|].
    rewrite list_lookup_fmap, lookup_take_lt
      by (unfold ENTR_PER_PAGE in *; lia_div).
    rewrite lookup_drop.
    replace (Z.to_nat (ENTR_PER_PAGE * (Z.of_nat idx / ENTR_PER_PAGE))
             + Z.to_nat (Z.of_nat idx mod ENTR_PER_PAGE))%nat with idx
      by (unfold ENTR_PER_PAGE in *; lia_div).
    now rewrite Hi. }
  rewrite Hat. cbn [defined result_bind decode_entry pe_keystr pe_off pe_size].
  exists o'. split; [reflexivity | exact Hok'].
Qed.

End OffsetBytesProofs.

(** X5.  On an [OffsetIndex] over the index file of well-formed entries,
    with the page table of the scan and any page or none in the buffer,
    [get_key (idx)] returns the key of entry [idx] and sets
    [wordentry_offset] and [wordentry_size] to its decoded offset and size,
    for every entry; it reads no byte outside the page it loads, and the
    index stays in such a state. *)
Theorem OffsetBuf_get_key_entry (get_uint32 : list Z -> Z) (g_ntohl : Z -> Z)
    (es : list raw_entry) (o : OffsetBuf) (idx : nat) (e : raw_entry) :
  Forall (wf_raw_entry 8) es ->
  Z.of_nat (length (render_entries es)) < 2 ^ 32 ->
  OffsetBuf_ok get_uint32 g_ntohl es o ->
  es !! idx = Some e ->
  exists o',
    OffsetBuf_get_key get_uint32 g_ntohl o (Z.of_nat idx)
    = Ok (o', (re_key e,
               g_ntohl (get_uint32 (take 4 (re_tail e))),
               g_ntohl (get_uint32 (drop 4 (re_tail e))))) /\
    OffsetBuf_ok get_uint32 g_ntohl es o'.
Proof.
  intros Hes Hsz Hok Hi.
  exact (OffsetBuf_get_key_ok get_uint32 g_ntohl es Hes Hsz o idx e Hok Hi).
Qed.

(** The index over [idx_two] after the scan. *)
Definition o_idx_two : OffsetBuf :=
  {| ob_idxfile := render_entries idx_two;
     ob_wordoffset := [0; 20];
     ob_wordcount := 2;
     ob_wordentry_buf := replicate (Z.to_nat wordentry_buf_size) 0;
     ob_page_idx := -1;
     ob_entries := [] |}.

Lemma o_idx_two_ok : OffsetBuf_ok uint32_be id idx_two o_idx_two.
Proof.
  destruct (OffsetBuf_scanned_ok uint32_be id idx_two
              (replicate (Z.to_nat wordentry_buf_size) 0) wf_idx_two)
    as (o & Hs & Hok); [vm_compute; discriminate | vm_compute; reflexivity |].
  vm_compute in Hs. injection Hs as <-. exact Hok.
Qed.

Lemma OffsetBuf_get_key_entry_witness :
  exists o',
    OffsetBuf_get_key uint32_be id o_idx_two 1
    = Ok (o', (str "b", 5, 263)) /\
    OffsetBuf_ok uint32_be id idx_two o'.
Proof.
  apply (OffsetBuf_get_key_entry uint32_be id idx_two o_idx_two 1
           {| re_key := str "b"; re_tail := [0; 0; 0; 5; 0; 0; 1; 7] |}
           wf_idx_two);
    [vm_compute; reflexivity | exact o_idx_two_ok | reflexivity].
Defined.

Lemma page_first_entry es (p : Z) e :
  0 <= p ->
  es !! Z.to_nat (ENTR_PER_PAGE * p) = Some e ->
  from_ptr (render_entries es) (entry_start es (Z.to_nat (ENTR_PER_PAGE * p)))
  = render_entry e
      ++ render_entries (drop (S (Z.to_nat (ENTR_PER_PAGE * p))) es) /\
  Z.of_nat (length (render_entry e))
  <= entry_start es (Z.to_nat (ENTR_PER_PAGE * (p + 1)))
     - entry_start es (Z.to_nat (ENTR_PER_PAGE * p))
  <= Z.of_nat (length (render_entries es))
     - entry_start es (Z.to_nat (ENTR_PER_PAGE * p)).
Proof.
  intros Hp Hi. split; [now apply from_ptr_entry|].
  pose proof (entry_start_succ es _ e Hi) as Hs.
  pose proof (entry_start_mono es (S (Z.to_nat (ENTR_PER_PAGE * p)))
                (Z.to_nat (ENTR_PER_PAGE * (p + 1)))
                ltac:(unfold ENTR_PER_PAGE; lia)).
  pose proof (entry_start_le_size es (Z.to_nat (ENTR_PER_PAGE * (p + 1)))).
  lia.
Qed.

Lemma OffsetBuf_read_first_on_page_key_ok (get_uint32 : list Z -> Z)
    (g_ntohl : Z -> Z) (es : list raw_entry) (o : OffsetBuf) (p : Z)
    (e : raw_entry) :
  Forall (wf_raw_entry 8) es ->
  Z.of_nat (length (render_entries es)) < 2 ^ 32 ->
  OffsetBuf_ok get_uint32 g_ntohl es o ->
  0 <= p ->
  es !! Z.to_nat (ENTR_PER_PAGE * p) = Some e ->
  Z.of_nat (length (re_key e)) < wordentry_buf_size ->
  exists o',
    OffsetBuf_read_first_on_page_key o p = Ok (o', re_key e) /\
    OffsetBuf_ok get_uint32 g_ntohl es o'.
Proof.
  intros Hes Hsz [Hfile Hwc Hnp Hwo Hpage] Hp Hi Hshort.
  assert (He : wf_raw_entry 8 e).
  { apply (proj1 (Forall_forall _ _) Hes). eapply list_elem_of_lookup_2, Hi. }
  pose proof (render_entry_length 8 e He) as Hl.
  assert (Hlt : ENTR_PER_PAGE * p < Z.of_nat (length es)).
  { apply lookup_lt_Some in Hi. unfold ENTR_PER_PAGE in *. lia. }
  destruct (page_first_entry es p e Hp Hi) as [Hfrom Hsize].
  unfold OffsetBuf_read_first_on_page_key.
  rewrite (Hwo p), (Hwo (p + 1))
    by (rewrite Hnp; unfold ENTR_PER_PAGE in *; lia_div).
  cbn [defined result_bind].
  pose proof (entry_start_nonneg es (Z.to_nat (ENTR_PER_PAGE * p))).
  rewrite Z.mod_small by lia.
  set (page_size := entry_start es (Z.to_nat (ENTR_PER_PAGE * (p + 1)))
                    - entry_start es (Z.to_nat (ENTR_PER_PAGE * p))) in *.
  set (size := Z.min wordentry_buf_size page_size).
  assert (Hsz1 : Z.of_nat (length (re_key e)) + 1 <= size <= page_size)
    by (subst size; unfold wordentry_buf_size in *; lia).
  unfold fread_at. rewrite Hfile, Hfrom.
  set (rest := render_entries (drop (S (Z.to_nat (ENTR_PER_PAGE * p))) es)) in *.
  assert (Hrl : page_size <= Z.of_nat (length (render_entry e ++ rest))).
  { rewrite <- Hfrom. unfold from_ptr.
    destruct (Z.ltb_spec (entry_start es (Z.to_nat (ENTR_PER_PAGE * p))) 0);
      [lia|]. rewrite length_drop. lia. }
  rewrite length_take.
  replace (Z.of_nat (Z.to_nat size `min` length (render_entry e ++ rest)))
    with size by lia.
  destruct (Z.ltb_spec 0 size); [|lia]. rewrite Z.eqb_refl. cbn [andb].
  assert (Hgot : take (Z.to_nat size) (render_entry e ++ rest)
                 = re_key e
                     ++ 0 :: take (Z.to_nat size - length (re_key e) - 1)
                               (re_tail e ++ rest)).
  { unfold render_entry. rewrite <- app_assoc.
    rewrite take_app_ge by lia. f_equal.
    destruct (Z.to_nat size - length (re_key e))%nat as [|m] eqn:Em; [lia|].
    cbn [app take]. do 2 f_equal. lia. }
  rewrite Hgot, <- app_assoc. cbn [app].
  set (old := drop _ (ob_wordentry_buf o)).
  pose proof (c_str_at_render_entry
                {| re_key := re_key e;
                   re_tail := take (Z.to_nat size - length (re_key e) - 1)
                                (re_tail e ++ rest) |} old) as Hc.
  unfold render_entry in Hc. cbn [re_key re_tail] in Hc.
  rewrite <- app_assoc in Hc. cbn [app] in Hc.
  rewrite Hc by apply He. cbn [defined result_bind].
  eexists. split; [reflexivity|]. constructor; cbn; auto.
Qed.

(** X6.  [read_first_on_page_key (p)] returns the key of the first entry of
    page [p], provided the key is shorter than [wordentry_buf] (264 bytes),
    so that its terminator is among the bytes read. *)
Theorem OffsetBuf_read_first_on_page_key_entry (get_uint32 : list Z -> Z)
    (g_ntohl : Z -> Z) (es : list raw_entry) (o : OffsetBuf) (p : Z)
    (e : raw_entry) :
  Forall (wf_raw_entry 8) es ->
  Z.of_nat (length (render_entries es)) < 2 ^ 32 ->
  OffsetBuf_ok get_uint32 g_ntohl es o ->
  0 <= p ->
  es !! Z.to_nat (ENTR_PER_PAGE * p) = Some e ->
  Z.of_nat (length (re_key e)) < wordentry_buf_size ->
  exists o',
    OffsetBuf_read_first_on_page_key o p = Ok (o', re_key e) /\
    OffsetBuf_ok get_uint32 g_ntohl es o'.
Proof.
  intros Hes Hsz Hok Hp Hi Hshort.
  exact (OffsetBuf_read_first_on_page_key_ok get_uint32 g_ntohl es o p e
           Hes Hsz Hok Hp Hi Hshort).
Qed.

Lemma OffsetBuf_read_first_on_page_key_entry_witness :
  exists o',
    OffsetBuf_read_first_on_page_key o_idx_two 0 = Ok (o', str "a") /\
    OffsetBuf_ok uint32_be id idx_two o'.
Proof.
  apply (OffsetBuf_read_first_on_page_key_entry uint32_be id idx_two
           o_idx_two 0
           {| re_key := str "a"; re_tail := [0; 0; 0; 0; 0; 0; 0; 5] |}
           wf_idx_two);
    [vm_compute; reflexivity | exact o_idx_two_ok | lia | reflexivity
    | vm_compute; reflexivity].
Defined.

Lemma c_str_at_no_nul p :
  forallb (fun c => negb (is_nul c)) p = true -> c_str_at p = None.
Proof.
  intros H. unfold c_str_at.
  assert (E : existsb is_nul p = false).
  { induction p as [|c p IH]; [reflexivity|]. simpl in *.
    apply andb_true_iff in H as [Hc Hp].
    destruct (is_nul c); [discriminate|]. now apply IH. }
  now rewrite E.
Qed.

Lemma forallb_take {A} (f : A -> bool) n l :
  forallb f l = true -> forallb f (take n l) = true.
Proof.
  revert n. induction l as [|a l IH]; intros [|n] H; simpl in *; auto.
  apply andb_true_iff in H as [Ha Hl]. rewrite Ha. now apply IH.
Qed.

(** X7.  When the first key of a page has 264 bytes or more,
    [read_first_on_page_key] fills [wordentry_buf] with the start of the
    key and no terminator: the string it returns runs beyond the buffer. *)
Theorem OffsetBuf_read_first_on_page_key_long_key (get_uint32 : list Z -> Z)
    (g_ntohl : Z -> Z) (es : list raw_entry) (o : OffsetBuf) (p : Z)
    (e : raw_entry) :
  Forall (wf_raw_entry 8) es ->
  Z.of_nat (length (render_entries es)) < 2 ^ 32 ->
  OffsetBuf_ok get_uint32 g_ntohl es o ->
  Z.of_nat (length (ob_wordentry_buf o)) = wordentry_buf_size ->
  0 <= p ->
  es !! Z.to_nat (ENTR_PER_PAGE * p) = Some e ->
  wordentry_buf_size <= Z.of_nat (length (re_key e)) ->
  OffsetBuf_read_first_on_page_key o p = Undefined.
Proof.
  intros Hes Hsz [Hfile Hwc Hnp Hwo Hpage] Hbuf Hp Hi Hlong.
  assert (He : wf_raw_entry 8 e).
  { apply (proj1 (Forall_forall _ _) Hes). eapply list_elem_of_lookup_2, Hi. }
  pose proof (render_entry_length 8 e He) as Hl.
  assert (Hlt : ENTR_PER_PAGE * p < Z.of_nat (length es)).
  { apply lookup_lt_Some in Hi. unfold ENTR_PER_PAGE in *. lia. }
  destruct (page_first_entry es p e Hp Hi) as [Hfrom Hsize].
  unfold OffsetBuf_read_first_on_page_key.
  rewrite (Hwo p), (Hwo (p + 1))
    by (rewrite Hnp; unfold ENTR_PER_PAGE in *; lia_div).
  cbn [defined result_bind].
  pose proof (entry_start_nonneg es (Z.to_nat (ENTR_PER_PAGE * p))).
  rewrite Z.mod_small by lia.
  rewrite Z.min_l by lia.
  unfold fread_at. rewrite Hfile, Hfrom.
  unfold render_entry. rewrite <- app_assoc, take_app_le by lia.
  rewrite length_take.
  replace (Z.of_nat (Z.to_nat wordentry_buf_size `min` length (re_key e)))
    with wordentry_buf_size by lia.
  rewrite Z.eqb_refl. change (0 <? wordentry_buf_size) with true. cbn [andb].
  rewrite drop_ge, app_nil_r by lia.
  rewrite c_str_at_no_nul; [reflexivity|].
  apply forallb_take, is_cstr_no_nul, He.
Qed.

Definition idx_long_key : list raw_entry :=
  [ {| re_key := replicate 264 97; re_tail := [0; 0; 0; 0; 0; 0; 0; 1] |} ].

Lemma wf_idx_long_key : Forall (wf_raw_entry 8) idx_long_key.
Proof.
  repeat (constructor; [split; [apply is_cstrb_spec|]; reflexivity|]).
  constructor.
Qed.

Definition o_idx_long_key : OffsetBuf :=
  {| ob_idxfile := render_entries idx_long_key;
     ob_wordoffset := [0; 273];
     ob_wordcount := 1;
     ob_wordentry_buf := replicate (Z.to_nat wordentry_buf_size) 0;
     ob_page_idx := -1;
     ob_entries := [] |}.

Lemma o_idx_long_key_ok : OffsetBuf_ok uint32_be id idx_long_key o_idx_long_key.
Proof.
  destruct (OffsetBuf_scanned_ok uint32_be id idx_long_key
              (replicate (Z.to_nat wordentry_buf_size) 0) wf_idx_long_key)
    as (o & Hs & Hok); [vm_compute; discriminate | vm_compute; reflexivity |].
  vm_compute in Hs. injection Hs as <-. exact Hok.
Qed.

Lemma OffsetBuf_read_first_on_page_key_long_key_witness :
  OffsetBuf_read_first_on_page_key o_idx_long_key 0 = Undefined.
Proof.
  apply (OffsetBuf_read_first_on_page_key_long_key uint32_be id idx_long_key
           o_idx_long_key 0
           {| re_key := replicate 264 97;
              re_tail := [0; 0; 0; 0; 0; 0; 0; 1] |}
           wf_idx_long_key);
    [vm_compute; reflexivity | exact o_idx_long_key_ok | reflexivity | lia
    | reflexivity | vm_compute; discriminate].
Defined.

(** * Synonyms and [Dict::Lookup] (lines 866-919) *)

(** The entries of the synonym file in order: the key and the index stored
    behind it, [g_ntohl (get_uint32 (key + strlen (key) + 1))].  The last
    slot of [synlist], the end of the file, is left out; for a file that
    was not loaded [synlist] is empty, and [synlist.size () - 2] is negative
    as it is for a file without entries. *)
Record SynFile := { synlist : list (cstring * Z) }.

Definition SynFile_get_key (s : SynFile) (idx : Z) : cstring :=
  key_at (map fst (synlist s)) idx.

Definition SynFile_get_index (s : SynFile) (idx : Z) : Z :=
  nth (Z.to_nat idx) (map snd (synlist s)) 0.

Section SynLoops.

(** [cmp i] is [stardict_strcmp (str, get_key (i))], [target i] the index
    stored behind the key of entry [i]. *)
Variable cmp : Z -> Z.
Variable target : Z -> Z.

(** [while (iHeadIndex >= 0 && stardict_strcmp (str, get_key (iHeadIndex)) == 0)
      { key = get_key (iHeadIndex--); idxs.insert (INDEX (key)); }] *)
Equations? syn_walk_back (iHeadIndex : Z) (idxs : gset Z) : gset Z
  by wf (Z.to_nat (iHeadIndex + 1)) lt :=
  syn_walk_back iHeadIndex idxs with Z_le_gt_dec 0 iHeadIndex => {
    | right _ => idxs;
    | left _ with Z.eq_dec (cmp iHeadIndex) 0 => {
        | left _ => syn_walk_back (iHeadIndex - 1)
                      ({[target iHeadIndex]} ∪ idxs);
        | right _ => idxs } }.
Proof. lia. Qed.

(** [do { key = get_key (iThisIndex++); idxs.insert (INDEX (key)); }
    while (iThisIndex <= iLast && stardict_strcmp (str, get_key (iThisIndex)) == 0);]
    with [iThisIndex] the entry about to be inserted. *)
Equations? syn_walk_fwd (iLast iThisIndex : Z) (idxs : gset Z) : gset Z
  by wf (Z.to_nat (iLast - iThisIndex + 1)) lt :=
  syn_walk_fwd iLast iThisIndex idxs with Z_le_gt_dec (iThisIndex + 1) iLast => {
    | right _ => {[target iThisIndex]} ∪ idxs;
    | left _ with Z.eq_dec (cmp (iThisIndex + 1)) 0 => {
        | left _ => syn_walk_fwd iLast (iThisIndex + 1)
                      ({[target iThisIndex]} ∪ idxs);
        | right _ => {[target iThisIndex]} ∪ idxs } }.
Proof. lia. Qed.

Lemma syn_walk_back_spec iHeadIndex idxs :
  (forall i j, 0 <= i -> i <= j -> j <= iHeadIndex -> cmp i = 0 -> cmp j = 0) ->
  forall x, x ∈ syn_walk_back iHeadIndex idxs <->
            x ∈ idxs \/
            exists i, 0 <= i <= iHeadIndex /\ cmp i = 0 /\ target i = x.
Proof.
  funelim (syn_walk_back iHeadIndex idxs); intros Hrun x.
  - split; [auto|]. intros [?|(i & ? & _)]; [assumption | lia].
  - rewrite H by (intros i j ? ? ? ?; apply (Hrun i j); lia).
    rewrite elem_of_union, elem_of_singleton. split.
    + intros [[-> | ?] | (i & ? & ? & ?)]; auto.
      * right. exists iHeadIndex. split_and!; auto; lia.
      * right. exists i. split_and!; auto; lia.
    + intros [? | (i & ? & Hi & Ht)]; auto.
      destruct (Z.eq_dec i iHeadIndex) as [->|]; [auto|].
      right. exists i. split_and!; auto; lia.
  - split; [auto|]. intros [? | (i & ? & Hi & _)]; [assumption|]. exfalso.
    apply n. apply (Hrun i iHeadIndex); lia.
Qed.

Lemma syn_walk_fwd_spec iLast iThisIndex idxs :
  (forall i j, iThisIndex < i -> i <= j -> j <= iLast -> cmp j = 0 -> cmp i = 0) ->
  forall x, x ∈ syn_walk_fwd iLast iThisIndex idxs <->
            x ∈ idxs \/ x = target iThisIndex \/
            exists i, iThisIndex < i <= iLast /\ cmp i = 0 /\ target i = x.
Proof.
  funelim (syn_walk_fwd iLast iThisIndex idxs); intros Hrun x.
  - rewrite elem_of_union, elem_of_singleton.
    split; [intros [?|?]; auto|]. intros [?|[?|(i & ? & _)]]; auto; lia.
  - rewrite H by (intros i j ? ? ? ?; apply (Hrun i j); lia).
    rewrite elem_of_union, elem_of_singleton. split.
    + intros [[? | ?] | [-> | (i & ? & ? & ?)]]; auto.
      * right. right. exists (iThisIndex + 1). split_and!; auto; lia.
      * right. right. exists i. split_and!; auto; lia.
    + intros [? | [? | (i & ? & Hi & Ht)]]; auto.
      destruct (Z.eq_dec i (iThisIndex + 1)) as [->|]; [auto|].
      right. right. exists i. split_and!; auto; lia.
  - rewrite elem_of_union, elem_of_singleton.
    split; [intros [?|?]; auto|].
    intros [? | [? | (i & ? & Hi & _)]]; auto. exfalso.
    apply n. apply (Hrun (iThisIndex + 1) i); lia.
Qed.

End SynLoops.

Section SynLookup.

Variable INVALID_INDEX : Z.

Definition SynFile_lookup (s : SynFile) (str : cstring) (idxs : gset Z)
    (next_idx : Z) : lookup_result :=
  let iLast := Z.of_nat (length (synlist s)) - 1 in
  if iLast <? 0 then Build_lookup_result false idxs next_idx
  else
    let cmp := fun i => stardict_strcmp str (SynFile_get_key s i) in
    if cmp 0 <? 0 then Build_lookup_result false idxs 0
    else if 0 <? cmp iLast then Build_lookup_result false idxs INVALID_INDEX
    else
      let r := snd (bsearch (fun (u : unit) i => (u, cmp i)) tt 0 iLast 0) in
      if negb (bs_found r) then Build_lookup_result false idxs (bs_iFrom r)
      else
        let idxs1 := syn_walk_back cmp (SynFile_get_index s)
                       (bs_iThisIndex r - 1) idxs in
        let idxs2 := syn_walk_fwd cmp (SynFile_get_index s) iLast
                       (bs_iThisIndex r) idxs1 in
        Build_lookup_result true idxs2 next_idx.

End SynLookup.

(** The keys of the synonym file are C strings in ascending order. *)
Definition syn_sorted (syn : list (cstring * Z)) : bool :=
  forallb is_cstrb (map fst syn) && index_sortedb (map fst syn).

Lemma syn_entry_iff syn str x :
  is_cstr str -> forallb is_cstrb (map fst syn) = true ->
  (exists i, 0 <= i < Z.of_nat (length syn) /\
             cmp_key_at (map fst syn) str i = 0 /\
             SynFile_get_index {| synlist := syn |} i = x) <->
  In (str, x) syn.
Proof.
  intros Hs Hc. unfold cmp_key_at, SynFile_get_index, key_at. cbn [synlist].
  assert (Hf : forall k, nth k (map fst syn) [] = fst (nth k syn ([], 0)))
    by (intros; apply (map_nth fst syn ([], 0))).
  assert (Hsn : forall k, nth k (map snd syn) 0 = snd (nth k syn ([], 0)))
    by (intros; apply (map_nth snd syn ([], 0))).
  split.
  - intros (i & Hi & Hz & Ht).
    apply stardict_strcmp_eq in Hz;
      [|assumption | now apply forallb_is_cstrb_nth].
    rewrite Hf in Hz. rewrite Hsn in Ht.
    assert (Hn : nth (Z.to_nat i) syn ([], 0) = (str, x)).
    { rewrite (surjective_pairing (nth _ syn _)). now rewrite <- Hz, Ht. }
    rewrite <- Hn. apply nth_In. lia.
  - intros Hin. apply (In_nth _ _ ([], 0)) in Hin as (k & Hk & Hn).
    exists (Z.of_nat k). rewrite Nat2Z.id. split; [lia|].
    rewrite Hf, Hsn, Hn. cbn [fst snd].
    split; [apply stardict_strcmp_refl | reflexivity].
Qed.

Lemma SynFile_lookup_spec INVALID_INDEX syn str idxs next_idx :
  syn_sorted syn = true -> is_cstr str ->
  let r := SynFile_lookup INVALID_INDEX {| synlist := syn |} str idxs next_idx in
  (forall x, x ∈ lr_idxs r <-> x ∈ idxs \/ In (str, x) syn) /\
  (lr_found r = true <-> exists x, In (str, x) syn) /\
  (lr_found r = true \/ syn = [] -> lr_next_idx r = next_idx).
Proof.
  intros Hsorted Hs. cbv zeta.
  unfold syn_sorted in Hsorted. apply andb_true_iff in Hsorted as [Hc Hsrt].
  destruct syn as [|e0 syn0] eqn:Esyn.
  { cbn. split_and!; auto.
    - intros x. split; [intros ?; left; assumption | intros [?|[]]; assumption].
    - split; [discriminate | intros (x & [])]. }
  rewrite <- Esyn in *.
  assert (Hk : index_ok (map fst syn) = true).
  { unfold index_ok. rewrite Hc, Hsrt, Esyn. reflexivity. }
  set (keys := map fst syn) in *.
  assert (Hlen : length keys = length syn) by apply length_map.
  pose proof (fun x => syn_entry_iff syn str x Hs Hc) as Hentry.
  fold keys in Hentry.
  change (SynFile_lookup INVALID_INDEX {| synlist := syn |} str idxs next_idx)
    with (let n := Z.of_nat (length syn) in
          let c := cmp_key_at keys str in
          let tg := SynFile_get_index {| synlist := syn |} in
          let cmp_at := fun (u : unit) (i : Z) => (u, c i) in
          if n - 1 <? 0 then Build_lookup_result false idxs next_idx
          else if c 0 <? 0 then Build_lookup_result false idxs 0
          else if 0 <? c (n - 1) then Build_lookup_result false idxs INVALID_INDEX
          else
            let r := snd (bsearch cmp_at tt 0 (n - 1) 0) in
            if negb (bs_found r) then Build_lookup_result false idxs (bs_iFrom r)
            else
              let idxs1 := syn_walk_back c tg (bs_iThisIndex r - 1) idxs in
              let idxs2 := syn_walk_fwd c tg (n - 1) (bs_iThisIndex r) idxs1 in
              Build_lookup_result true idxs2 next_idx).
  cbv zeta.
  set (n := Z.of_nat (length syn)) in *.
  set (c := cmp_key_at keys str) in *.
  set (tg := SynFile_get_index {| synlist := syn |}) in *.
  set (cmp_at := fun (u : unit) (i : Z) => (u, c i)).
  destruct (index_ok_parts keys Hk) as (Hn & _ & _).
  rewrite Hlen in Hn. fold n in Hn.
  destruct (Z.ltb_spec (n - 1) 0); [lia|].
  assert (Hpure : forall (s : unit) i, True -> 0 <= i <= n - 1 ->
                    True /\ snd (cmp_at s i) = c i) by (intros; split; auto).
  assert (Hmono : forall i j, 0 <= i -> i <= j -> j <= n - 1 ->
                    (c i < 0 -> c j < 0) /\ (0 < c j -> 0 < c i)).
  { intros. apply cmp_key_at_mono; auto. rewrite Hlen. fold n. lia. }
  assert (Hnone : forall i, 0 <= i -> i <= n ->
            (0 < i -> 0 < c (i - 1)) -> (i < n -> c i < 0) ->
            forall x, ~ In (str, x) syn).
  { intros i Hi0 Hin Hl Hr x Hx. apply Hentry in Hx as (k & Hk1 & Hk2 & _).
    revert Hk2.
    apply (no_zero_between keys str i); rewrite ?Hlen; fold n;
      first [assumption | exact Hl | exact Hr | lia]. }
  destruct (Z.ltb_spec (c 0) 0) as [L0|L0].
  { cbn [lr_idxs lr_found lr_next_idx].
    pose proof (Hnone 0 ltac:(lia) ltac:(lia) ltac:(lia) ltac:(auto)) as Hno.
    split_and!.
    - intros x. split; [intros ?; left; assumption|]. intros [?|Hx]; [assumption | destruct (Hno x Hx)].
    - split; [discriminate|]. intros (x & Hx). destruct (Hno x Hx).
    - intros [?|?]; congruence. }
  destruct (Z.ltb_spec 0 (c (n - 1))) as [L1|L1].
  { cbn [lr_idxs lr_found lr_next_idx].
    pose proof (Hnone n ltac:(lia) ltac:(lia) ltac:(auto) ltac:(lia)) as Hno.
    split_and!.
    - intros x. split; [intros ?; left; assumption|]. intros [?|Hx]; [assumption | destruct (Hno x Hx)].
    - split; [discriminate|]. intros (x & Hx). destruct (Hno x Hx).
    - intros [?|?]; congruence. }
  destruct (bsearch_found cmp_at (fun _ => True) c 0 (n - 1) Hpure tt 0 (n - 1) 0 I
              ltac:(lia) ltac:(lia)) as [_ Hf].
  pose proof (bsearch_not_found cmp_at (fun _ => True) c 0 (n - 1) Hpure Hmono
                tt 0 (n - 1) 0 I ltac:(lia) ltac:(lia) ltac:(lia)) as Hnf.
  destruct (bs_found (snd (bsearch cmp_at tt 0 (n - 1) 0))) eqn:F; cbn [negb].
  - destruct (Hf eq_refl) as [Hr Hz]. clear Hf Hnf.
    set (m := bs_iThisIndex (snd (bsearch cmp_at tt 0 (n - 1) 0))) in *.
    cbn [lr_idxs lr_found lr_next_idx].
    pose proof (syn_walk_back_spec c tg (m - 1) idxs) as Hb.
    pose proof (syn_walk_fwd_spec c tg (n - 1) m
                  (syn_walk_back c tg (m - 1) idxs)) as Hw.
    assert (Hrun : forall i j k, 0 <= i -> i <= j -> j <= k -> k <= n - 1 ->
                     c i = 0 -> c k = 0 -> c j = 0).
    { intros i j k ? ? ? ? ? ?.
      apply (cmp_key_at_run keys str Hk Hs i j k); auto. rewrite Hlen. fold n. lia. }
    specialize (Hb ltac:(intros i j ? ? ? ?; apply (Hrun i j m); auto; lia)).
    specialize (Hw ltac:(intros i j ? ? ? ?; apply (Hrun m i j); auto; lia)).
    split_and!.
    + intros x. rewrite Hw, Hb, <- Hentry. split.
      * intros [[?|(i & ? & ? & ?)]|[->|(i & ? & ? & ?)]]; auto; right.
        -- exists i. split_and!; auto; lia.
        -- exists m. split_and!; auto; lia.
        -- exists i. split_and!; auto; lia.
      * intros [?|(i & ? & Zi & Ti)]; auto.
        destruct (Z_lt_le_dec i m).
        { left. right. exists i. split_and!; auto; lia. }
        destruct (Z.eq_dec i m) as [->|]; [auto|].
        right. right. exists i. split_and!; auto; lia.
    + split; [|reflexivity]. intros _. exists (tg m). apply Hentry.
      exists m. split_and!; auto; lia.
    + reflexivity.
  - destruct (Hnf eq_refl) as (E & B & L & R). clear Hf Hnf.
    set (f := bs_iFrom (snd (bsearch cmp_at tt 0 (n - 1) 0))) in *.
    cbn [lr_idxs lr_found lr_next_idx].
    assert (Hno : forall x, ~ In (str, x) syn).
    { apply (Hnone f); try lia.
      - intros ?. apply L. lia.
      - intros ?. apply R. lia. }
    split_and!.
    + intros x. split; [intros ?; left; assumption|]. intros [?|Hx]; [assumption | destruct (Hno x Hx)].
    + split; [discriminate|]. intros (x & Hx). destruct (Hno x Hx).
    + intros [?|?]; congruence.
Qed.

(** X8.  On a synonym file whose keys are in ascending order of the
    comparator (or that is empty or absent), [SynFile::lookup] adds to
    [idxs] exactly the indices stored with the entries whose key is the
    query, returns whether there is such an entry, and leaves [next_idx]
    alone when it returns true or the file has no entries. *)
Theorem SynFile_lookup_synonyms (INVALID_INDEX : Z) (syn : list (cstring * Z))
    (str : cstring) (idxs : gset Z) (next_idx : Z) :
  syn_sorted syn = true -> is_cstr str ->
  let r := SynFile_lookup INVALID_INDEX {| synlist := syn |} str idxs next_idx in
  (forall x, x ∈ lr_idxs r <-> x ∈ idxs \/ In (str, x) syn) /\
  (lr_found r = true <-> exists x, In (str, x) syn) /\
  (lr_found r = true \/ syn = [] -> lr_next_idx r = next_idx).
Proof.
  intros Hsyn Hs. exact (SynFile_lookup_spec INVALID_INDEX syn str idxs next_idx Hsyn Hs).
Qed.

Definition syn_colours : list (cstring * Z) :=
  [ (str "color", 7); (str "colour", 7); (str "colour", 9); (str "grey", 3) ].

Lemma SynFile_lookup_synonyms_witness :
  let r := SynFile_lookup (-1) {| synlist := syn_colours |} (str "colour") ∅ 0 in
  (forall x, x ∈ lr_idxs r <-> x ∈ (∅ : gset Z) \/ In (str "colour", x) syn_colours) /\
  (lr_found r = true <-> exists x, In (str "colour", x) syn_colours) /\
  (lr_found r = true \/ syn_colours = [] -> lr_next_idx r = 0).
Proof.
  apply (SynFile_lookup_synonyms (-1) syn_colours (str "colour") ∅ 0);
    [reflexivity | apply is_cstrb_spec; reflexivity].
Defined.

(** * [DictBase::GetWordData] (lines 172-313) *)

(** How the [switch] over a type character copies a field: as text up to
    its NUL, or as a size and that many bytes. *)
Inductive field_kind := TextField | BinaryField.

Definition field_kind_of (t : Z) : field_kind :=
  if is_search_type t then TextField
  else if (t =? 87) || (t =? 80) then BinaryField
  else if g_ascii_isupper t then BinaryField
  else TextField.

(** An entry of [cache]: [data] is [None] for the null pointer. *)
Record cacheItem := { ci_data : option (list Z); ci_offset : Z }.

(** [dictfile] is the uncompressed content of the [.dict] file, read
    through [dictfile] or [dictdzfile]; a read that does not get all its
    bytes is the exception of the [dictfile] branch. *)
Record DictBase := {
  db_sametypesequence : list Z;
  db_dictfile : list Z;
  db_cache : list cacheItem;
  db_cache_cur : Z
}.

(** [for (i = 0; i < WORDDATA_CACHE_NUM; i++)
      if (cache[i].data && cache[i].offset == idxitem_offset) return cache[i].data;] *)
Fixpoint cache_find (cache : list cacheItem) (idxitem_offset : Z)
  : option (list Z) :=
  match cache with
  | [] => None
  | c :: cache' =>
      match ci_data c with
      | Some data =>
          if ci_offset c =? idxitem_offset then Some data
          else cache_find cache' idxitem_offset
      | None => cache_find cache' idxitem_offset
      end
  end.

Section GetWordData.

(** [get_uint32] and [set_uint32] of [utils.hpp], by the four bytes read
    and written, and the size of the cache, a constant of
    [stardict_lib.hpp]. *)
Variable get_uint32 : list Z -> Z.
Variable set_uint32 : Z -> list Z.
Variable WORDDATA_CACHE_NUM : Z.

(** The loop that copies the head items: [p2] is what is left of
    [origin_data], [body] what has been written from [data + 4] on.  The
    result is the type of the last item with [p2] and [body] before it. *)
Fixpoint copy_head_items (seq : list Z) (p2 : list Z) (body : list Z)
  : result (Z * list Z * list Z) :=
  match seq with
  | [] => Undefined
  | [t] => Ok (t, p2, body)
  | t :: seq' =>
      let body := body ++ [t] in
      let* sec_size :=
        match field_kind_of t with
        | TextField =>
            let* s := defined (c_str_at p2) in Ok (Z.of_nat (length s) + 1)
        | BinaryField => defined (binary_sec_size get_uint32 p2)
        end in
      let* p2' := defined (advance p2 sec_size) in
      copy_head_items seq' p2' (body ++ take (Z.to_nat sec_size) p2)
  end.

(** [data_size] for a non-empty [sametypesequence], in [guint32]. *)
Definition word_data_size (seq : list Z) (idxitem_size : Z) : Z :=
  let data_size := (idxitem_size + 4 + Z.of_nat (length seq)) mod 2 ^ 32 in
  match field_kind_of (List.last seq 0) with
  | TextField => (data_size + 1) mod 2 ^ 32
  | BinaryField => (data_size + 4) mod 2 ^ 32
  end.

(** The buffer built for a record [origin_data] of [idxitem_size] bytes.
    The bytes are written in order from [data + 4] on, so that they stay
    inside the [data_size] bytes allocated when all of them fit. *)
Definition build_word_data (seq : list Z) (idxitem_size : Z)
    (origin_data : list Z) : result (list Z) :=
  match seq with
  | [] =>
      Ok (set_uint32 ((idxitem_size + 4) mod 2 ^ 32) ++ origin_data)
  | _ =>
      let data_size := word_data_size seq idxitem_size in
      let* head := copy_head_items seq origin_data [] in
      let '(t, p2, body) := head in
      let sec_size :=
        (idxitem_size
         - (Z.of_nat (length origin_data) - Z.of_nat (length p2))) mod 2 ^ 32 in
      let body := body ++ [t] in
      let* p2' := defined (advance p2 sec_size) in
      let body :=
        match field_kind_of t with
        | TextField => body ++ take (Z.to_nat sec_size) p2 ++ [0]
        | BinaryField =>
            body ++ set_uint32 sec_size ++ take (Z.to_nat sec_size) p2
        end in
      if 4 + Z.of_nat (length body) <=? data_size
      then Ok (set_uint32 data_size ++ body)
      else Undefined
  end.

(** [fseek], [g_malloc (idxitem_size)] and the read of the record. *)
Definition read_record (d : DictBase) (idxitem_offset idxitem_size : Z)
  : result (list Z) :=
  let got := fread_at (db_dictfile d) idxitem_offset idxitem_size in
  if Z.of_nat (length got) =? idxitem_size then Ok got else Throw.

Definition GetWordData (d : DictBase) (idxitem_offset idxitem_size : Z)
  : result (DictBase * list Z) :=
  match cache_find (db_cache d) idxitem_offset with
  | Some data => Ok (d, data)
  | None =>
      let* origin_data := read_record d idxitem_offset idxitem_size in
      let* data :=
        build_word_data (db_sametypesequence d) idxitem_size origin_data in
      let* cache :=
        defined (vec_set (db_cache d) (db_cache_cur d)
                   {| ci_data := Some data; ci_offset := idxitem_offset |}) in
      let cache_cur := db_cache_cur d + 1 in
      let cache_cur :=
        if cache_cur =? WORDDATA_CACHE_NUM then 0 else cache_cur in
      Ok ({| db_sametypesequence := db_sametypesequence d;
             db_dictfile := db_dictfile d;
             db_cache := cache; db_cache_cur := cache_cur |}, data)
  end.

End GetWordData.

(** *** The layout of the buffer *)

(** The content of a file or a buffer: bytes. *)
Definition is_bytes (l : list Z) : Prop := Forall (fun c => 0 <= c < 256) l.

Section WordDataLayout.

Variable get_uint32 : list Z -> Z.
Variable set_uint32 : Z -> list Z.

(** [set_uint32] writes four bytes, and writes back the bytes that
    [get_uint32] read. *)
Hypothesis set_uint32_length : forall x, length (set_uint32 x) = 4%nat.
Hypothesis set_get_uint32 :
  forall b, is_bytes b -> length b = 4%nat -> set_uint32 (get_uint32 b) = b.

(** A field in the buffer: its type, then text and a NUL, or a size and
    the bytes. *)
Definition encode_field (f : Z * list Z) : list Z :=
  fst f ::
  (if g_ascii_isupper (fst f)
   then set_uint32 (Z.of_nat (length (snd f))) ++ snd f
   else snd f ++ [0]).

Lemma field_kind_of_upper t :
  field_kind_of t = if g_ascii_isupper t then BinaryField else TextField.
Proof.
  unfold field_kind_of, is_search_type, g_ascii_isupper.
  repeat match goal with
         | |- context [?a =? ?b] => destruct (Z.eqb_spec a b); subst
         end; cbn; reflexivity.
Qed.

Lemma c_str_at_split p s :
  c_str_at p = Some s -> p = s ++ 0 :: drop (length s + 1) p.
Proof.
  unfold c_str_at. destruct (existsb is_nul p) eqn:E; [|discriminate].
  intros [= <-]. induction p as [|c p IH]; [discriminate|].
  cbn [upto existsb] in *. unfold is_nul in *.
  destruct (Z.eqb_spec c 0) as [->|Hc].
  - reflexivity.
  - cbn [orb] in E. cbn [app length Nat.add drop]. f_equal. now apply IH.
Qed.

Lemma record_fields_cons t t' seq' data :
  record_fields get_uint32 (t :: t' :: seq') data
  = if g_ascii_isupper t then
      if 4 <=? Z.of_nat (length data) then
        let len := get_uint32 (take 4 data) in
        if (0 <=? len) && (len + 4 <=? Z.of_nat (length data)) then
          option_map (cons (t, take (Z.to_nat len) (drop 4 data)))
            (record_fields get_uint32 (t' :: seq')
               (drop (Z.to_nat (len + 4)) data))
        else None
      else None
    else
      match c_str_at data with
      | None => None
      | Some s =>
          option_map (cons (t, s))
            (record_fields get_uint32 (t' :: seq') (drop (length s + 1) data))
      end.
Proof. reflexivity. Qed.

Lemma copy_head_items_cons t t' seq' p2 body :
  copy_head_items get_uint32 (t :: t' :: seq') p2 body
  = let body := body ++ [t] in
    let* sec_size :=
      match field_kind_of t with
      | TextField =>
          let* s := defined (c_str_at p2) in Ok (Z.of_nat (length s) + 1)
      | BinaryField => defined (binary_sec_size get_uint32 p2)
      end in
    let* p2' := defined (advance p2 sec_size) in
    copy_head_items get_uint32 (t' :: seq') p2'
      (body ++ take (Z.to_nat sec_size) p2).
Proof. reflexivity. Qed.

Lemma copy_head_items_fields seq :
  forall p2 body fields,
  record_fields get_uint32 seq p2 = Some fields ->
  seq <> [] ->
  is_bytes p2 ->
  Z.of_nat (length p2) + 4 < 2 ^ 32 ->
  exists hd p2l,
    copy_head_items get_uint32 seq p2 body
    = Ok (List.last seq 0, p2l, body ++ concat (map encode_field hd)) /\
    fields = hd ++ [(List.last seq 0, p2l)] /\
    map fst fields = seq /\
    Z.of_nat (length (concat (map encode_field hd))) + Z.of_nat (length p2l)
    = Z.of_nat (length hd) + Z.of_nat (length p2).
Proof.
  induction seq as [|t seq IH]; intros p2 body fields Hf Hne Hb Hsz;
    [congruence|].
  destruct seq as [|t' seq'].
  - cbn in Hf. injection Hf as <-. exists [], p2. cbn.
    rewrite app_nil_r. split_and!; auto.
  - rewrite record_fields_cons in Hf. rewrite copy_head_items_cons.
    cbv zeta in Hf |- *. rewrite field_kind_of_upper.
    change (List.last (t :: t' :: seq') 0) with (List.last (t' :: seq') 0).
    destruct (g_ascii_isupper t) eqn:Eu.
    + destruct (Z.leb_spec 4 (Z.of_nat (length p2))) as [H4|]; [|discriminate].
      set (len := get_uint32 (take 4 p2)) in *.
      destruct (Z.leb_spec 0 len) as [H0|]; [|discriminate].
      destruct (Z.leb_spec (len + 4) (Z.of_nat (length p2))) as [Hl|];
        [|discriminate].
      cbn [andb] in Hf.
      destruct (record_fields get_uint32 (t' :: seq')
                  (drop (Z.to_nat (len + 4)) p2)) as [fs|] eqn:Er;
        [|discriminate].
      injection Hf as <-.
      unfold binary_sec_size.
      destruct (Z.leb_spec 4 (Z.of_nat (length p2))); [|lia].
      fold len. rewrite Z.mod_small by lia. cbn [defined result_bind].
      unfold advance.
      destruct (Z.leb_spec 0 (len + 4)); [|lia].
      destruct (Z.leb_spec (len + 4) (Z.of_nat (length p2))); [|lia].
      cbn [andb defined result_bind].
      destruct (IH (drop (Z.to_nat (len + 4)) p2)
                  ((body ++ [t]) ++ take (Z.to_nat (len + 4)) p2) fs Er
                  ltac:(discriminate))
        as (hd & p2l & Hc & -> & Hm & Hlen);
        [now apply Forall_drop | rewrite length_drop; lia|].
      exists ((t, take (Z.to_nat len) (drop 4 p2)) :: hd), p2l.
      assert (Henc : encode_field (t, take (Z.to_nat len) (drop 4 p2))
                     = t :: take (Z.to_nat (len + 4)) p2).
      { unfold encode_field. cbn [fst snd]. rewrite Eu. f_equal.
        rewrite length_take, length_drop.
        replace (Z.of_nat (Z.to_nat len `min` (length p2 - 4))) with len by lia.
        subst len.
        rewrite set_get_uint32
          by (first [now apply Forall_take | rewrite length_take; lia]).
        replace (Z.to_nat (get_uint32 (take 4 p2) + 4))
          with (4 + Z.to_nat (get_uint32 (take 4 p2)))%nat by lia.
        now rewrite <- take_take_drop. }
      split_and!.
      * rewrite Hc. cbn [map concat]. rewrite Henc.
        now rewrite <- !app_assoc.
      * reflexivity.
      * cbn [map fst]. f_equal. exact Hm.
      * cbn [map concat length]. rewrite Henc, length_app.
        cbn [length]. rewrite length_take. rewrite length_drop in Hlen. lia.
    + destruct (c_str_at p2) as [s|] eqn:Es; [|discriminate].
      destruct (record_fields get_uint32 (t' :: seq') (drop (length s + 1) p2))
        as [fs|] eqn:Er; [|discriminate].
      cbn [option_map] in Hf. injection Hf as <-.
      cbn [defined result_bind].
      pose proof (c_str_at_length p2 s Es) as Hsl.
      unfold advance.
      destruct (Z.leb_spec 0 (Z.of_nat (length s) + 1)); [|lia].
      destruct (Z.leb_spec (Z.of_nat (length s) + 1) (Z.of_nat (length p2)));
        [|lia].
      cbn [andb defined result_bind].
      replace (Z.to_nat (Z.of_nat (length s) + 1)) with (length s + 1)%nat by lia.
      destruct (IH (drop (length s + 1) p2)
                  ((body ++ [t]) ++ take (length s + 1) p2) fs Er
                  ltac:(discriminate))
        as (hd & p2l & Hc & -> & Hm & Hlen);
        [now apply Forall_drop | rewrite length_drop; lia|].
      exists ((t, s) :: hd), p2l.
      assert (Henc : encode_field (t, s) = t :: take (length s + 1) p2).
      { unfold encode_field. cbn [fst snd]. rewrite Eu. f_equal.
        rewrite (c_str_at_split p2 s Es) at 1.
        rewrite take_app_ge by lia.
        replace (length s + 1 - length s)%nat with 1%nat by lia.
        reflexivity. }
      split_and!.
      * rewrite Hc. cbn [map concat]. rewrite Henc.
        now rewrite <- !app_assoc.
      * reflexivity.
      * cbn [map fst]. f_equal. exact Hm.
      * cbn [map concat length]. rewrite Henc, length_app.
        cbn [length]. rewrite length_take. rewrite length_drop in Hlen. lia.
Qed.

End WordDataLayout.

(** X10.  For a dictionary with a [sametypesequence] and a record that
    splits into the fields of that sequence, the buffer that [GetWordData]
    builds is its own size in four bytes followed by every field in order,
    each with its type character in front: text with its NUL, binary data
    with its size.  The bytes written fill the [data_size] bytes allocated
    exactly. *)
Theorem build_word_data_layout (get_uint32 : list Z -> Z)
    (set_uint32 : Z -> list Z) (seq origin_data : list Z)
    (fields : list (Z * list Z)) :
  (forall x, length (set_uint32 x) = 4%nat) ->
  (forall b, is_bytes b -> length b = 4%nat -> set_uint32 (get_uint32 b) = b) ->
  seq <> [] ->
  is_bytes origin_data ->
  record_fields get_uint32 seq origin_data = Some fields ->
  Z.of_nat (length origin_data) + Z.of_nat (length seq) + 8 < 2 ^ 32 ->
  exists data,
    build_word_data get_uint32 set_uint32 seq
      (Z.of_nat (length origin_data)) origin_data = Ok data /\
    data = set_uint32 (Z.of_nat (length data))
             ++ concat (map (encode_field set_uint32) fields) /\
    map fst fields = seq /\
    Z.of_nat (length data)
    = word_data_size seq (Z.of_nat (length origin_data)).
Proof.
  intros Hlen Hsg Hne Hb Hf Hsz.
  destruct (copy_head_items_fields get_uint32 set_uint32 Hsg seq origin_data []
              fields Hf Hne Hb ltac:(lia))
    as (hd & p2l & Hc & -> & Hm & Hl).
  set (tl := List.last seq 0) in *.
  assert (Hseq : Z.of_nat (length seq) = Z.of_nat (length hd) + 1).
  { rewrite <- Hm, length_map, length_app. cbn [length]. lia. }
  assert (Hp2l : Z.of_nat (length p2l) <= Z.of_nat (length origin_data)).
  { assert (Z.of_nat (length hd)
            <= Z.of_nat (length (concat (map (encode_field set_uint32) hd)))).
    { clear. induction hd as [|f hd IH]; [reflexivity|].
      cbn [map concat]. rewrite length_app. unfold encode_field at 1.
      cbn [length]. lia. }
    lia. }
  unfold build_word_data. destruct seq as [|t0 seq0]; [congruence|].
  set (seq := t0 :: seq0) in *.
  rewrite Hc. cbn [result_bind app].
  replace (Z.of_nat (length origin_data)
           - (Z.of_nat (length origin_data) - Z.of_nat (length p2l)))
    with (Z.of_nat (length p2l)) by lia.
  rewrite Z.mod_small by lia.
  unfold advance.
  destruct (Z.leb_spec 0 (Z.of_nat (length p2l))); [|lia].
  rewrite Z.leb_refl. cbn [andb defined result_bind].
  rewrite Nat2Z.id, firstn_all.
  assert (Henc : match field_kind_of tl with
                 | TextField =>
                     (concat (map (encode_field set_uint32) hd) ++ [tl])
                       ++ p2l ++ [0]
                 | BinaryField =>
                     (concat (map (encode_field set_uint32) hd) ++ [tl])
                       ++ set_uint32 (Z.of_nat (length p2l)) ++ p2l
                 end
                 = concat (map (encode_field set_uint32) (hd ++ [(tl, p2l)]))).
  { rewrite map_app, concat_app. cbn [map concat]. rewrite app_nil_r.
    rewrite field_kind_of_upper.
    change (encode_field set_uint32 (tl, p2l))
      with (tl :: (if g_ascii_isupper tl
                   then set_uint32 (Z.of_nat (length p2l)) ++ p2l
                   else p2l ++ [0])).
    destruct (g_ascii_isupper tl); now rewrite <- app_assoc. }
  rewrite Henc.
  assert (Hsize : 4 + Z.of_nat (length (concat (map (encode_field set_uint32)
                                                  (hd ++ [(tl, p2l)]))))
                  = word_data_size seq (Z.of_nat (length origin_data))).
  { rewrite map_app, concat_app, length_app. cbn [map concat].
    rewrite app_nil_r.
    change (encode_field set_uint32 (tl, p2l))
      with (tl :: (if g_ascii_isupper tl
                   then set_uint32 (Z.of_nat (length p2l)) ++ p2l
                   else p2l ++ [0])).
    cbn [length].
    unfold word_data_size. rewrite field_kind_of_upper.
    rewrite (Z.mod_small (_ + 4 + _)) by lia.
    change (List.last seq 0) with tl.
    destruct (g_ascii_isupper tl);
      rewrite Z.mod_small by lia; rewrite length_app, ?Hlen; cbn [length]; lia. }
  destruct (Z.leb_spec
              (4 + Z.of_nat (length (concat (map (encode_field set_uint32)
                                               (hd ++ [(tl, p2l)])))))
              (word_data_size seq (Z.of_nat (length origin_data)))); [|lia].
  eexists. split; [reflexivity|].
  rewrite length_app, Hlen.
  replace (Z.of_nat (4 + length (concat (map (encode_field set_uint32)
                                           (hd ++ [(tl, p2l)])))))
    with (word_data_size seq (Z.of_nat (length origin_data))) by lia.
  split_and!; auto.
Qed.

(** Four bytes, most significant first, for the examples. *)
Definition uint32_bytes (x : Z) : list Z :=
  [x / 16777216 mod 256; x / 65536 mod 256; x / 256 mod 256; x mod 256].

Lemma uint32_bytes_be b :
  is_bytes b -> length b = 4%nat -> uint32_bytes (uint32_be b) = b.
Proof.
  intros Hb Hl.
  destruct b as [|b0 [|b1 [|b2 [|b3 [|? ?]]]]]; try discriminate.
  inversion Hb as [|? ? H0 Hb1]; subst. inversion Hb1 as [|? ? H1 Hb2]; subst.
  inversion Hb2 as [|? ? H2 Hb3]; subst. inversion Hb3 as [|? ? H3 _]; subst.
  unfold uint32_bytes, uint32_be. cbn [fold_left].
  repeat f_equal; lia_div.
Qed.

Lemma build_word_data_layout_witness :
  exists data,
    build_word_data uint32_be uint32_bytes (str "Wm")
      (Z.of_nat (length [0; 0; 0; 2; 1; 2; 104; 105]))
      [0; 0; 0; 2; 1; 2; 104; 105] = Ok data /\
    data = uint32_bytes (Z.of_nat (length data))
             ++ concat (map (encode_field uint32_bytes)
                          [(87, [1; 2]); (109, [104; 105])]) /\
    map fst [(87, [1; 2]); (109, [104; 105])] = str "Wm" /\
    Z.of_nat (length data)
    = word_data_size (str "Wm") (Z.of_nat (length [0; 0; 0; 2; 1; 2; 104; 105])).
Proof.
  apply (build_word_data_layout uint32_be uint32_bytes (str "Wm")
           [0; 0; 0; 2; 1; 2; 104; 105] [(87, [1; 2]); (109, [104; 105])]).
  - reflexivity.
  - exact uint32_bytes_be.
  - discriminate.
  - repeat (constructor; [lia|]). constructor.
  - reflexivity.
  - vm_compute. reflexivity.
Defined.

(** *** The cache *)

(** The cache has [WORDDATA_CACHE_NUM] entries and [cache_cur] is the index
    of one of them. *)
Definition cache_ok (WORDDATA_CACHE_NUM : Z) (d : DictBase) : Prop :=
  Z.of_nat (length (db_cache d)) = WORDDATA_CACHE_NUM /\
  0 <= db_cache_cur d < WORDDATA_CACHE_NUM.

Lemma cache_find_insert cache (cur : nat) off data :
  cache_find cache off = None ->
  (cur < length cache)%nat ->
  cache_find (<[cur := {| ci_data := Some data; ci_offset := off |}]> cache) off
  = Some data.
Proof.
  revert cur. induction cache as [|c cache IH]; intros cur Hnone Hcur;
    [simpl in Hcur; lia|].
  destruct cur as [|cur].
  - cbn. now rewrite Z.eqb_refl.
  - cbn [cache_find] in Hnone.
    change (<[S cur := ?x]> (c :: cache)) with (c :: <[cur := x]> cache).
    cbn [cache_find].
    destruct (ci_data c) as [d0|].
    + destruct (ci_offset c =? off); [discriminate|].
      apply IH; [assumption | simpl in Hcur; lia].
    + apply IH; [assumption | simpl in Hcur; lia].
Qed.

(** X11.  After [GetWordData] has returned the buffer of the record at an
    offset, a further call for that offset, with whatever size, returns the
    same buffer from the cache and changes nothing; the cache keeps its
    size and [cache_cur] stays an index into it. *)
Theorem GetWordData_cached (get_uint32 : list Z -> Z)
    (set_uint32 : Z -> list Z) (WORDDATA_CACHE_NUM : Z) (d d' : DictBase)
    (idxitem_offset idxitem_size : Z) (data : list Z) :
  cache_ok WORDDATA_CACHE_NUM d ->
  GetWordData get_uint32 set_uint32 WORDDATA_CACHE_NUM d
    idxitem_offset idxitem_size = Ok (d', data) ->
  cache_ok WORDDATA_CACHE_NUM d' /\
  forall size',
    GetWordData get_uint32 set_uint32 WORDDATA_CACHE_NUM d'
      idxitem_offset size' = Ok (d', data).
Proof.
  intros [Hlen Hcur] Hget. unfold GetWordData in Hget.
  destruct (cache_find (db_cache d) idxitem_offset) as [hit|] eqn:Ef.
  - injection Hget as <- <-. split; [split; assumption|].
    intros size'. unfold GetWordData. now rewrite Ef.
  - destruct (read_record d idxitem_offset idxitem_size) as [origin| |];
      try discriminate.
    cbn [result_bind] in Hget.
    destruct (build_word_data get_uint32 set_uint32 (db_sametypesequence d)
                idxitem_size origin) as [built| |]; try discriminate.
    cbn [result_bind] in Hget.
    destruct (vec_set (db_cache d) (db_cache_cur d)
                {| ci_data := Some built; ci_offset := idxitem_offset |})
      as [cache'|] eqn:Ev; try discriminate.
    cbn [defined result_bind] in Hget. injection Hget as <- <-.
    destruct (vec_set_lookup _ _ _ _ Ev) as (_ & Hl' & _).
    split.
    + split; cbn [db_cache db_cache_cur]; [lia|].
      destruct (Z.eqb_spec (db_cache_cur d + 1) WORDDATA_CACHE_NUM); lia.
    + intros size'. unfold GetWordData. cbn [db_cache].
      unfold vec_set in Ev.
      destruct ((0 <=? db_cache_cur d)
                && (db_cache_cur d <? Z.of_nat (length (db_cache d))));
        [|discriminate].
      injection Ev as <-.
      rewrite cache_find_insert by (assumption || lia). reflexivity.
Qed.

Definition dict_base_Wm : DictBase :=
  {| db_sametypesequence := str "Wm";
     db_dictfile := [0; 0; 0; 2; 1; 2; 104; 105];
     db_cache := [ {| ci_data := None; ci_offset := 0 |};
                   {| ci_data := None; ci_offset := 0 |} ];
     db_cache_cur := 1 |}.

Definition dict_base_Wm_cached : DictBase :=
  {| db_sametypesequence := str "Wm";
     db_dictfile := [0; 0; 0; 2; 1; 2; 104; 105];
     db_cache :=
       [ {| ci_data := None; ci_offset := 0 |};
         {| ci_data := Some [0; 0; 0; 15; 87; 0; 0; 0; 2; 1; 2;
                             109; 104; 105; 0];
            ci_offset := 0 |} ];
     db_cache_cur := 0 |}.

Lemma GetWordData_cached_witness :
  cache_ok 2 dict_base_Wm_cached /\
  forall size',
    GetWordData uint32_be uint32_bytes 2 dict_base_Wm_cached 0 size'
    = Ok (dict_base_Wm_cached,
          [0; 0; 0; 15; 87; 0; 0; 0; 2; 1; 2; 109; 104; 105; 0]).
Proof.
  apply (GetWordData_cached uint32_be uint32_bytes 2 dict_base_Wm
           dict_base_Wm_cached 0 8).
  - split; [reflexivity | cbn; lia].
  - vm_compute. reflexivity.
Defined.

(** * Lookups by pattern (lines 987-998, 1441-1476) *)

Section LookupWithRule.

(** [g_pattern_spec_match_string (pspec, s)] for the pattern of the query,
    and a constant of [stardict_lib.hpp]. *)
Variable pattern_match : cstring -> bool.
Variable MAX_MATCH_ITEM_PER_LIB : Z.

(** The loop of [Dict::LookupWithRule] from article [i] on, over the keys
    from there on: [iIndexCount] and the array [aIndex]. *)
Fixpoint rule_scan (keys : list cstring) (i iIndexCount iBuffLen : Z)
    (aIndex : list Z) : result (Z * list Z) :=
  match keys with
  | [] => Ok (iIndexCount, aIndex)
  | key :: keys' =>
      if iIndexCount <? iBuffLen - 1 then
        if pattern_match key then
          let* aIndex' := defined (vec_set aIndex iIndexCount i) in
          rule_scan keys' (i + 1) (iIndexCount + 1) iBuffLen aIndex'
        else rule_scan keys' (i + 1) iIndexCount iBuffLen aIndex
      else Ok (iIndexCount, aIndex)
  end.

(** [Dict::LookupWithRule] on the keys of the index. *)
Definition Dict_LookupWithRule (keys : list cstring) (aIndex : list Z)
    (iBuffLen : Z) : result (bool * list Z) :=
  let* scanned := rule_scan keys 0 0 iBuffLen aIndex in
  let iIndexCount := fst scanned in
  let* aIndex' := defined (vec_set (snd scanned) iIndexCount (-1)) in
  Ok (0 <? iIndexCount, aIndex').

(** [for (int i = 0; aIndex[i] != -1; i++) { ... }] of
    [Libs::LookupWithRule], over [aIndex] from [i] on: a word that is not in
    [ppMatchWord] yet is put behind the others. *)
Fixpoint rule_collect (keys : list cstring) (aIndex : list Z)
    (ppMatchWord : list cstring) : result (list cstring) :=
  match aIndex with
  | [] => Undefined
  | idx :: aIndex' =>
      if idx =? -1 then Ok ppMatchWord
      else
        let sMatchWord := key_at keys idx in
        let bAlreadyInList :=
          existsb (fun w => strcmp w sMatchWord =? 0) ppMatchWord in
        if bAlreadyInList then rule_collect keys aIndex' ppMatchWord
        else rule_collect keys aIndex' (ppMatchWord ++ [sMatchWord])
  end.

(** The loop over the dictionaries; [aiIndex] is the local array of
    [MAX_MATCH_ITEM_PER_LIB + 1] entries. *)
Fixpoint rule_libs (oLib : list (list cstring)) (aiIndex : list Z)
    (ppMatchWord : list cstring) : result (list cstring) :=
  match oLib with
  | [] => Ok ppMatchWord
  | keys :: oLib' =>
      let* looked :=
        Dict_LookupWithRule keys aiIndex (MAX_MATCH_ITEM_PER_LIB + 1) in
      if fst looked then
        let* ppMatchWord' := rule_collect keys (snd looked) ppMatchWord in
        rule_libs oLib' (snd looked) ppMatchWord'
      else rule_libs oLib' (snd looked) ppMatchWord
  end.

(** The comparison handed to [std::sort]. *)
Definition rule_less (lh rh : cstring) : bool := stardict_strcmp lh rh <? 0.

(** [std::sort] on words that differ from each other: [rule_less] orders
    them totally, and the result is their one ascending arrangement, which
    insertion computes. *)
Fixpoint rule_insert (x : cstring) (l : list cstring) : list cstring :=
  match l with
  | [] => [x]
  | y :: l' => if rule_less x y then x :: l else y :: rule_insert x l'
  end.

Definition rule_sort (l : list cstring) : list cstring :=
  foldr rule_insert [] l.

(** [Libs::LookupWithRule]: [iMatchCount] and the words in [ppMatchWord];
    [aiIndex] is the array as it is found on the stack. *)
Definition Libs_LookupWithRule (oLib : list (list cstring)) (aiIndex : list Z)
  : result (Z * list cstring) :=
  let* ppMatchWord := rule_libs oLib aiIndex [] in
  let iMatchCount := Z.of_nat (length ppMatchWord) in
  Ok (iMatchCount,
      if 0 <? iMatchCount then rule_sort ppMatchWord else ppMatchWord).

(** The articles that match, from article [i] on. *)
Fixpoint matching_from (keys : list cstring) (i : Z) : list Z :=
  match keys with
  | [] => []
  | key :: keys' =>
      if pattern_match key then i :: matching_from keys' (i + 1)
      else matching_from keys' (i + 1)
  end.

End LookupWithRule.

Section LookupWithRuleSpec.

Variable pattern_match : cstring -> bool.

Lemma matching_from_spec keys : forall i x,
  In x (matching_from pattern_match keys i) <->
  i <= x < i + Z.of_nat (length keys) /\
  pattern_match (key_at keys (x - i)) = true.
Proof.
  unfold key_at.
  induction keys as [|key keys IH]; intros i x; cbn [matching_from length].
  - split; [intros [] | lia].
  - assert (Hstep : forall y, i + 1 <= y ->
              nth (Z.to_nat (y - i)) (key :: keys) []
              = nth (Z.to_nat (y - (i + 1))) keys []).
    { intros y Hy. replace (Z.to_nat (y - i)) with (S (Z.to_nat (y - (i + 1))))
        by lia. reflexivity. }
    destruct (pattern_match key) eqn:Em.
    + cbn [In]. rewrite IH. split.
      * intros [<- | [Hr Hm]].
        -- rewrite Z.sub_diag. change (Z.to_nat 0) with 0%nat. cbn [nth].
           split; [lia | assumption].
        -- rewrite Hstep by lia. split; [lia | assumption].
      * intros [Hr Hm]. destruct (Z.eq_dec i x) as [|Hne]; [auto|]. right.
        rewrite Hstep in Hm by lia. split; [lia | assumption].
    + rewrite IH. split.
      * intros [Hr Hm]. rewrite Hstep by lia. split; [lia | assumption].
      * intros [Hr Hm]. destruct (Z.eq_dec i x) as [<-|Hne].
        -- rewrite Z.sub_diag in Hm. change (Z.to_nat 0) with 0%nat in Hm.
           cbn [nth] in Hm. congruence.
        -- rewrite Hstep in Hm by lia. split; [lia | assumption].
Qed.

Lemma rule_scan_spec keys : forall i iIndexCount iBuffLen pre rest,
  Z.of_nat (length pre) = iIndexCount ->
  iBuffLen <= Z.of_nat (length (pre ++ rest)) ->
  iIndexCount <= iBuffLen - 1 ->
  let ms := take (Z.to_nat (iBuffLen - 1 - iIndexCount))
              (matching_from pattern_match keys i) in
  rule_scan pattern_match keys i iIndexCount iBuffLen (pre ++ rest)
  = Ok (iIndexCount + Z.of_nat (length ms),
        pre ++ ms ++ drop (length ms) rest).
Proof.
  induction keys as [|key keys IH]; intros i cnt B pre rest Hpre Hlen Hcnt;
    cbv zeta; cbn [rule_scan matching_from].
  - rewrite take_nil. cbn. now rewrite Z.add_0_r.
  - destruct (Z.ltb_spec cnt (B - 1)) as [Hlt|Hge].
    + destruct (pattern_match key).
      * rewrite length_app in Hlen.
        destruct rest as [|r0 rest']; [cbn in Hlen; lia|].
        assert (Hset : vec_set (pre ++ r0 :: rest') cnt i
                       = Some ((pre ++ [i]) ++ rest')).
        { unfold vec_set. rewrite length_app.
          destruct (Z.leb_spec 0 cnt); [|lia].
          destruct (Z.ltb_spec cnt (Z.of_nat (length pre + length (r0 :: rest'))));
            [|cbn [length] in *; lia].
          cbn [andb]. f_equal.
          replace (Z.to_nat cnt) with (length pre + 0)%nat by lia.
          rewrite insert_app_r. cbn. now rewrite <- app_assoc. }
        rewrite Hset. cbn [defined result_bind].
        rewrite (IH (i + 1) (cnt + 1) B (pre ++ [i]) rest')
          by (rewrite ?length_app in *; cbn [length] in *; lia).
        replace (Z.to_nat (B - 1 - cnt)) with (S (Z.to_nat (B - 1 - (cnt + 1))))
          by lia.
        cbn [take length app drop]. f_equal. f_equal; [lia|].
        now rewrite <- app_assoc.
      * apply IH; assumption.
    + replace (Z.to_nat (B - 1 - cnt)) with 0%nat by lia.
      cbn. now rewrite Z.add_0_r.
Qed.

Lemma Dict_LookupWithRule_spec keys aIndex iBuffLen :
  1 <= iBuffLen ->
  iBuffLen <= Z.of_nat (length aIndex) ->
  let ms := take (Z.to_nat (iBuffLen - 1))
              (matching_from pattern_match keys 0) in
  Dict_LookupWithRule pattern_match keys aIndex iBuffLen
  = Ok (0 <? Z.of_nat (length ms), ms ++ -1 :: drop (S (length ms)) aIndex).
Proof.
  intros HB Hlen. cbv zeta. unfold Dict_LookupWithRule.
  pose proof (rule_scan_spec keys 0 0 iBuffLen [] aIndex eq_refl Hlen
                ltac:(lia)) as Hscan.
  cbv zeta in Hscan. cbn [app] in Hscan. rewrite Z.sub_0_r in Hscan.
  rewrite Hscan. cbn [result_bind fst snd]. rewrite Z.add_0_l.
  set (ms := take (Z.to_nat (iBuffLen - 1))
               (matching_from pattern_match keys 0)).
  assert (Hms : Z.of_nat (length ms) <= iBuffLen - 1).
  { subst ms. rewrite length_take. lia. }
  destruct (drop (length ms) aIndex) as [|r0 rest'] eqn:Ed.
  { apply (f_equal length) in Ed. rewrite length_drop in Ed. cbn in Ed. lia. }
  assert (Hrest : rest' = drop (S (length ms)) aIndex).
  { replace (S (length ms)) with (length ms + 1)%nat by lia.
    now rewrite <- drop_drop, Ed. }
  unfold vec_set. rewrite length_app. cbn [length].
  destruct (Z.leb_spec 0 (Z.of_nat (length ms))); [|lia].
  destruct (Z.ltb_spec (Z.of_nat (length ms))
              (Z.of_nat (length ms + S (length rest')))); [|lia].
  cbn [andb defined result_bind]. rewrite Nat2Z.id.
  replace (length ms) with (length ms + 0)%nat at 2 by lia.
  rewrite insert_app_r. cbn. now rewrite Hrest.
Qed.

End LookupWithRuleSpec.

(** X12.  [Dict::LookupWithRule] with a buffer of [iBuffLen >= 1] entries
    writes the first [iBuffLen - 1] matching articles, in ascending order,
    to the start of the buffer and [-1] behind them, leaves the rest of the
    buffer alone and writes nothing outside it; it returns whether an
    article matched. *)
Theorem Dict_LookupWithRule_matches (pattern_match : cstring -> bool)
    (keys : list cstring) (aIndex : list Z) (iBuffLen : Z) :
  1 <= iBuffLen ->
  iBuffLen <= Z.of_nat (length aIndex) ->
  let ms := take (Z.to_nat (iBuffLen - 1))
              (matching_from pattern_match keys 0) in
  Dict_LookupWithRule pattern_match keys aIndex iBuffLen
  = Ok (0 <? Z.of_nat (length ms), ms ++ -1 :: drop (S (length ms)) aIndex) /\
  (forall x, In x (matching_from pattern_match keys 0) <->
     0 <= x < Z.of_nat (length keys) /\ pattern_match (key_at keys x) = true) /\
  StronglySorted Z.lt (matching_from pattern_match keys 0).
Proof.
  intros HB Hlen. cbv zeta. split_and!.
  - now apply Dict_LookupWithRule_spec.
  - intros x. rewrite matching_from_spec, Z.sub_0_r. reflexivity.
  - generalize 0 as i. induction keys as [|key keys IH]; intros i;
      cbn [matching_from]; [constructor|].
    destruct (pattern_match key); [|apply IH].
    constructor; [apply IH|].
    apply Forall_forall. intros x Hx. apply list_elem_of_In in Hx.
    apply matching_from_spec in Hx. lia.
Qed.

(** Words that begin with "b". *)
Definition begins_with_b (s : cstring) : bool :=
  match s with c :: _ => c =? 98 | [] => false end.

Lemma Dict_LookupWithRule_matches_witness :
  Dict_LookupWithRule begins_with_b
    [str "apple"; str "banana"; str "bean"; str "berry"] [7; 7; 7; 7] 3
  = Ok (true, [1; 2; -1; 7]).
Proof.
  refine (proj1 (Dict_LookupWithRule_matches begins_with_b
                   [str "apple"; str "banana"; str "bean"; str "berry"]
                   [7; 7; 7; 7] 3 _ _)).
  - lia.
  - cbn. lia.
Defined.

(** *** [Libs::LookupWithRule] *)

Lemma existsb_strcmp_In pp s :
  Forall is_cstr pp -> is_cstr s ->
  existsb (fun w => strcmp w s =? 0) pp = true <-> In s pp.
Proof.
  intros Hpp Hs. rewrite existsb_exists. split.
  - intros (w & Hw & Hz). apply Z.eqb_eq in Hz.
    apply strcmp_eq in Hz; [now subst | | assumption].
    apply (proj1 (Forall_forall _ _) Hpp). now apply list_elem_of_In.
  - intros Hin. exists s. split; [assumption|].
    now rewrite strcmp_refl.
Qed.

Lemma rule_collect_spec keys tail ms : forall pp,
  Forall (fun i => i <> -1) ms ->
  (forall i, In i ms -> is_cstr (key_at keys i)) ->
  Forall is_cstr pp -> List.NoDup pp ->
  exists pp',
    rule_collect keys (ms ++ -1 :: tail) pp = Ok pp' /\
    (forall w, In w pp' <-> In w pp \/ exists i, In i ms /\ key_at keys i = w) /\
    Forall is_cstr pp' /\ List.NoDup pp' /\
    (length pp' <= length pp + length ms)%nat.
Proof.
  induction ms as [|idx ms IH]; intros pp Hms Hkeys Hpp Hnd.
  - exists pp. cbn. split_and!; auto; [|lia].
    intros w. split; [intros ?; left; assumption|].
    intros [?|(i & [] & _)]; assumption.
  - inversion Hms as [|? ? Hidx Hms']; subst.
    cbn [app rule_collect].
    destruct (Z.eqb_spec idx (-1)); [contradiction|].
    assert (Hk : is_cstr (key_at keys idx)) by (apply Hkeys; left; reflexivity).
    destruct (existsb (fun w => strcmp w (key_at keys idx) =? 0) pp) eqn:Ex.
    + apply existsb_strcmp_In in Ex; [|assumption..].
      destruct (IH pp Hms' ltac:(intros; apply Hkeys; right; assumption)
                  Hpp Hnd) as (pp' & Hc & Hin & Hc' & Hnd' & Hl).
      exists pp'. split_and!; auto; [|cbn [length]; lia].
      intros w. rewrite Hin. split.
      * intros [?|(i & Hi & Hw)]; [left; assumption|].
        right. exists i. split; [right; assumption | assumption].
      * intros [?|(i & [<-|Hi] & Hw)]; [left; assumption | |].
        -- left. now rewrite <- Hw.
        -- right. exists i. split; assumption.
    + assert (Hnot : ~ In (key_at keys idx) pp).
      { intros Hin. apply (existsb_strcmp_In pp _ Hpp Hk) in Hin. congruence. }
      destruct (IH (pp ++ [key_at keys idx]) Hms'
                  ltac:(intros; apply Hkeys; right; assumption))
        as (pp' & Hc & Hin & Hc' & Hnd' & Hl).
      { apply Forall_app. split; [assumption|]. constructor; [assumption|constructor]. }
      { apply List.NoDup_app;
          [assumption | constructor; [intros []|constructor] |].
        intros a Ha [<-|[]]. contradiction. }
      exists pp'. split_and!; auto.
      * intros w. rewrite Hin, in_app_iff. cbn [In]. split.
        -- intros [[?|[<-|[]]]|(i & Hi & Hw)].
           ++ left; assumption.
           ++ right. exists idx. split; [left; reflexivity | reflexivity].
           ++ right. exists i. split; [right; assumption | assumption].
        -- intros [?|(i & [<-|Hi] & Hw)].
           ++ left; left; assumption.
           ++ left. right. left. assumption.
           ++ right. exists i. split; assumption.
      * rewrite length_app in Hl. cbn [length] in *. lia.
Qed.

Lemma In_take {A} (x : A) n l : In x (take n l) -> In x l.
Proof.
  revert n. induction l as [|a l IH]; intros [|n]; cbn; try (intros []; fail).
  intros [?|?]; [left; assumption | right; eauto].
Qed.

Lemma key_at_is_cstr keys i : Forall is_cstr keys -> is_cstr (key_at keys i).
Proof.
  intros H. unfold key_at.
  destruct (nth_in_or_default (Z.to_nat i) keys []) as [Hin| ->];
    [|constructor].
  apply (proj1 (Forall_forall _ _) H). now apply list_elem_of_In.
Qed.

Section LibsLookupWithRuleSpec.

Variable pattern_match : cstring -> bool.
Variable MAX_MATCH_ITEM_PER_LIB : Z.
Hypothesis MAX_nonneg : 0 <= MAX_MATCH_ITEM_PER_LIB.

(** The articles of a dictionary that [Dict::LookupWithRule] reports. *)
Definition reported (keys : list cstring) : list Z :=
  take (Z.to_nat MAX_MATCH_ITEM_PER_LIB) (matching_from pattern_match keys 0).

Lemma rule_libs_spec oLib : forall aiIndex pp,
  MAX_MATCH_ITEM_PER_LIB + 1 <= Z.of_nat (length aiIndex) ->
  Forall (Forall is_cstr) oLib -> Forall is_cstr pp -> List.NoDup pp ->
  exists pp',
    rule_libs pattern_match MAX_MATCH_ITEM_PER_LIB oLib aiIndex pp = Ok pp' /\
    (forall w, In w pp' <->
       In w pp \/
       exists keys i, In keys oLib /\ In i (reported keys) /\ key_at keys i = w) /\
    Forall is_cstr pp' /\ List.NoDup pp' /\
    Z.of_nat (length pp')
    <= Z.of_nat (length pp) + MAX_MATCH_ITEM_PER_LIB * Z.of_nat (length oLib).
Proof.
  induction oLib as [|keys oLib IH]; intros aiIndex pp Hlen Hlib Hpp Hnd.
  - exists pp. cbn [rule_libs length]. split_and!; auto; [|lia].
    intros w. split; [intros ?; left; assumption|].
    intros [?|(keys & i & [] & _)]; assumption.
  - inversion Hlib as [|? ? Hkeys Hlib']; subst.
    cbn [rule_libs].
    pose proof (Dict_LookupWithRule_spec pattern_match keys aiIndex
                  (MAX_MATCH_ITEM_PER_LIB + 1) ltac:(lia) Hlen) as Hd.
    cbv zeta in Hd.
    replace (MAX_MATCH_ITEM_PER_LIB + 1 - 1) with MAX_MATCH_ITEM_PER_LIB in Hd
      by lia.
    fold (reported keys) in Hd. rewrite Hd. cbn [result_bind fst snd].
    set (ms := reported keys) in *.
    set (ai' := ms ++ -1 :: drop (S (length ms)) aiIndex).
    assert (Hmsl : Z.of_nat (length ms) <= MAX_MATCH_ITEM_PER_LIB).
    { subst ms. unfold reported. rewrite length_take. lia. }
    assert (Hlen' : MAX_MATCH_ITEM_PER_LIB + 1 <= Z.of_nat (length ai')).
    { subst ai'. rewrite length_app. cbn [length]. rewrite length_drop. lia. }
    assert (Hms1 : Forall (fun i => i <> -1) ms).
    { apply Forall_forall. intros x Hx. apply list_elem_of_In in Hx.
      apply In_take, matching_from_spec in Hx. lia. }
    destruct (rule_collect_spec keys (drop (S (length ms)) aiIndex) ms pp Hms1)
      as (pp1 & Hc1 & Hin1 & Hcs1 & Hnd1 & Hl1); auto.
    { intros i _. now apply key_at_is_cstr. }
    fold ai' in Hc1.
    assert (Hstep : exists pp2,
              (if 0 <? Z.of_nat (length ms)
               then let* ppMatchWord' := rule_collect keys ai' pp in
                    rule_libs pattern_match MAX_MATCH_ITEM_PER_LIB oLib ai'
                      ppMatchWord'
               else rule_libs pattern_match MAX_MATCH_ITEM_PER_LIB oLib ai' pp)
              = rule_libs pattern_match MAX_MATCH_ITEM_PER_LIB oLib ai' pp2 /\
              pp2 = pp1).
    { exists pp1. split; [|reflexivity].
      destruct (Z.ltb_spec 0 (Z.of_nat (length ms))) as [Hpos|Hz].
      - rewrite Hc1. reflexivity.
      - destruct ms; [|cbn [length] in Hz; lia].
        subst ai'. cbn [app rule_collect] in Hc1.
        destruct (Z.eqb_spec (-1) (-1)); [|contradiction].
        now injection Hc1 as <-. }
    destruct Hstep as (pp2 & -> & ->).
    destruct (IH ai' pp1 Hlen' Hlib' Hcs1 Hnd1)
      as (pp' & Hr & Hin & Hcs & Hnd' & Hl).
    exists pp'. split_and!; auto.
    + intros w. rewrite Hin, Hin1. split.
      * intros [[?|(i & Hi & Hw)]|(k & i & Hk & Hi & Hw)].
        -- left; assumption.
        -- right. exists keys, i. split_and!; auto. left; reflexivity.
        -- right. exists k, i. split_and!; auto. right; assumption.
      * intros [?|(k & i & [<-|Hk] & Hi & Hw)].
        -- left; left; assumption.
        -- left. right. exists i. split; assumption.
        -- right. exists k, i. split_and!; auto.
    + cbn [length]. lia.
Qed.

End LibsLookupWithRuleSpec.

(** [lh] is before [rh] in the order of the comparator. *)
Definition stardict_lt (lh rh : cstring) : Prop := stardict_strcmp lh rh < 0.

Lemma rule_insert_In x l w : In w (rule_insert x l) <-> w = x \/ In w l.
Proof.
  induction l as [|y l IH]; cbn [rule_insert In].
  - split; [intros [<-|[]]; auto | intros [->|[]]; auto].
  - destruct (rule_less x y); cbn [In]; [split; intros [?|?]; auto|].
    rewrite IH. split; intros H; repeat destruct H as [H|H]; auto.
Qed.

Lemma rule_insert_length x l : length (rule_insert x l) = S (length l).
Proof.
  induction l as [|y l IH]; cbn [rule_insert length]; [reflexivity|].
  destruct (rule_less x y); cbn [length]; [reflexivity | now rewrite IH].
Qed.

Lemma rule_insert_sorted x l :
  is_cstr x -> Forall is_cstr l -> ~ In x l ->
  StronglySorted stardict_lt l -> StronglySorted stardict_lt (rule_insert x l).
Proof.
  intros Hx Hl Hnot Hs. induction Hs as [|y l Hs IH Hy]; cbn [rule_insert].
  - constructor; constructor.
  - inversion Hl as [|? ? Hcy Hcl]; subst.
    unfold rule_less. destruct (Z.ltb_spec (stardict_strcmp x y) 0) as [Hlt|Hge].
    + constructor; [constructor; assumption|].
      constructor; [exact Hlt|].
      apply Forall_forall. intros z Hz.
      apply stardict_strcmp_trans_lt with y; auto.
      * apply (proj1 (Forall_forall _ _) Hcl z Hz).
      * apply (proj1 (Forall_forall _ _) Hy z Hz).
    + assert (Hyx : stardict_lt y x).
      { unfold stardict_lt.
        pose proof (stardict_strcmp_antisym x y Hx Hcy) as Ha.
        destruct (Z.eq_dec (stardict_strcmp x y) 0) as [Hz|Hnz].
        - apply stardict_strcmp_eq in Hz; auto. subst.
          exfalso. apply Hnot. left; reflexivity.
        - lia. }
      constructor.
      * apply IH; [assumption|]. intros Hin. apply Hnot. right; assumption.
      * apply Forall_forall. intros z Hz. apply list_elem_of_In in Hz.
        apply rule_insert_In in Hz as [->|Hz]; [exact Hyx|].
        apply (proj1 (Forall_forall _ _) Hy z). now apply list_elem_of_In.
Qed.

Lemma rule_sort_spec l :
  Forall is_cstr l -> List.NoDup l ->
  StronglySorted stardict_lt (rule_sort l) /\
  (forall w, In w (rule_sort l) <-> In w l) /\
  length (rule_sort l) = length l.
Proof.
  intros Hl Hnd. induction Hnd as [|x l Hx Hnd IH]; cbn [rule_sort foldr].
  - split_and!; [constructor | reflexivity | reflexivity].
  - inversion Hl as [|? ? Hcx Hcl]; subst.
    destruct (IH Hcl) as (Hs & Hin & Hlen). fold (rule_sort l).
    split_and!.
    + apply rule_insert_sorted; auto.
      * apply Forall_forall. intros z Hz. apply list_elem_of_In, Hin in Hz.
        apply (proj1 (Forall_forall _ _) Hcl z). now apply list_elem_of_In.
      * now rewrite Hin.
    + intros w. rewrite rule_insert_In, Hin. cbn [In].
      split; intros [?|?]; auto.
    + rewrite rule_insert_length, Hlen. reflexivity.
Qed.

(** X13.  [Libs::LookupWithRule] returns, in strictly ascending order of
    the comparator and so without repetition, exactly the headwords that
    some dictionary reports for the pattern (its first
    [MAX_MATCH_ITEM_PER_LIB] matching articles); their number is at most
    [MAX_MATCH_ITEM_PER_LIB] times the number of dictionaries, and the local
    array of indices is never left. *)
Theorem Libs_LookupWithRule_sorted (pattern_match : cstring -> bool)
    (MAX_MATCH_ITEM_PER_LIB : Z) (oLib : list (list cstring))
    (aiIndex : list Z) :
  0 <= MAX_MATCH_ITEM_PER_LIB ->
  Z.of_nat (length aiIndex) = MAX_MATCH_ITEM_PER_LIB + 1 ->
  Forall (Forall is_cstr) oLib ->
  exists ppMatchWord,
    Libs_LookupWithRule pattern_match MAX_MATCH_ITEM_PER_LIB oLib aiIndex
    = Ok (Z.of_nat (length ppMatchWord), ppMatchWord) /\
    Z.of_nat (length ppMatchWord)
    <= MAX_MATCH_ITEM_PER_LIB * Z.of_nat (length oLib) /\
    StronglySorted stardict_lt ppMatchWord /\
    forall w, In w ppMatchWord <->
      exists keys i,
        In keys oLib /\
        In i (reported pattern_match MAX_MATCH_ITEM_PER_LIB keys) /\
        key_at keys i = w.
Proof.
  intros HM Hlen Hlib.
  destruct (rule_libs_spec pattern_match MAX_MATCH_ITEM_PER_LIB HM oLib aiIndex
              [] ltac:(lia) Hlib ltac:(constructor) ltac:(constructor))
    as (pp & Hr & Hin & Hcs & Hnd & Hl).
  destruct (rule_sort_spec pp Hcs Hnd) as (Hs & Hsin & Hsl).
  unfold Libs_LookupWithRule. rewrite Hr. cbn [result_bind].
  destruct (Z.ltb_spec 0 (Z.of_nat (length pp))) as [Hpos|Hz].
  - exists (rule_sort pp). rewrite Hsl.
    split_and!; [reflexivity | cbn [length] in Hl; lia | exact Hs |].
    intros w. rewrite Hsin, Hin. split.
    + intros [[]|?]; assumption.
    + intros ?; right; assumption.
  - exists pp. destruct pp; [|cbn [length] in Hz; lia].
    split_and!; [reflexivity | cbn [length] in *; lia | constructor |].
    intros w. rewrite Hin. split.
    + intros [[]|?]; assumption.
    + intros ?; right; assumption.
Qed.

Lemma Libs_LookupWithRule_sorted_witness :
  exists ppMatchWord,
    Libs_LookupWithRule begins_with_b 2
      [[str "apple"; str "banana"; str "bean"; str "berry"];
       [str "Bean"; str "bBQ"; str "banana"]] [0; 0; 0]
    = Ok (Z.of_nat (length ppMatchWord), ppMatchWord) /\
    Z.of_nat (length ppMatchWord) <= 2 * Z.of_nat 2 /\
    StronglySorted stardict_lt ppMatchWord /\
    forall w, In w ppMatchWord <->
      exists keys i,
        In keys [[str "apple"; str "banana"; str "bean"; str "berry"];
                 [str "Bean"; str "bBQ"; str "banana"]] /\
        In i (reported begins_with_b 2 keys) /\
        key_at keys i = w.
Proof.
  apply (Libs_LookupWithRule_sorted begins_with_b 2
           [[str "apple"; str "banana"; str "bean"; str "berry"];
            [str "Bean"; str "bBQ"; str "banana"]] [0; 0; 0]).
  - lia.
  - reflexivity.
  - repeat (constructor;
            [repeat (constructor; [apply is_cstrb_spec; reflexivity|]);
             constructor|]).
    constructor.
Defined.

(** * [LookupWithFuzzy]: the list of results (lines 1394-1438) *)

(** The headwords in the slots. *)
Definition slot_words (slots : list Fuzzystruct) : list cstring :=
  omap pMatchWord slots.

Lemma scan_slots_spec slots w iMax : forall j iMaxDistanceAt,
  Forall is_cstr (slot_words slots) -> is_cstr w ->
  (fst (scan_slots slots w iMax j iMaxDistanceAt) = true
   <-> In w (slot_words slots)) /\
  (snd (scan_slots slots w iMax j iMaxDistanceAt) = iMaxDistanceAt \/
   (j <= snd (scan_slots slots w iMax j iMaxDistanceAt) < j + length slots)%nat).
Proof.
  unfold slot_words.
  induction slots as [|slot slots IH]; intros j iAt Hc Hw; cbn [scan_slots].
  - cbn. split; [split; [discriminate | intros []] | left; reflexivity].
  - cbn [omap list_omap length] in *.
    destruct (pMatchWord slot) as [v|] eqn:Ev.
    + inversion Hc as [|? ? Hv Hc']; subst.
      destruct (Z.eqb_spec (strcmp v w) 0) as [Hz|Hnz].
      * apply strcmp_eq in Hz; auto. subst v. cbn.
        split; [split; auto | left; reflexivity].
      * destruct (IH (S j) (if iMatchWordDistance slot =? iMax then j else iAt)
                    Hc' Hw) as [Hb Hat].
        split.
        -- rewrite Hb. cbn [In]. split; [auto|].
           intros [->|?]; [|assumption]. rewrite strcmp_refl in Hnz. lia.
        -- destruct Hat as [->|Hr]; [|right; lia].
           destruct (iMatchWordDistance slot =? iMax); [right; lia | left; reflexivity].
    + destruct (IH (S j) (if iMatchWordDistance slot =? iMax then j else iAt)
                  Hc Hw) as [Hb Hat].
      split; [exact Hb|].
      destruct Hat as [->|Hr]; [|right; lia].
      destruct (iMatchWordDistance slot =? iMax); [right; lia | left; reflexivity].
Qed.

(** Writing a word that is in no slot into a slot keeps the words
    distinct. *)
Lemma slot_words_insert slots (i : nat) w d :
  (i < length slots)%nat ->
  List.NoDup (slot_words slots) -> ~ In w (slot_words slots) ->
  List.NoDup (slot_words (<[i := {| pMatchWord := Some w;
                                    iMatchWordDistance := d |}]> slots)) /\
  In w (slot_words (<[i := {| pMatchWord := Some w;
                              iMatchWordDistance := d |}]> slots)) /\
  forall v, In v (slot_words (<[i := {| pMatchWord := Some w;
                                        iMatchWordDistance := d |}]> slots)) ->
            v = w \/ In v (slot_words slots).
Proof.
  intros Hi Hnd Hnot. unfold slot_words in *.
  rewrite insert_take_drop by assumption.
  rewrite <- (take_drop i slots) in Hnd, Hnot.
  assert (Hd : exists s, drop i slots = s :: drop (S i) slots).
  { destruct (drop i slots) as [|s r] eqn:Ed.
    - apply (f_equal length) in Ed. rewrite length_drop in Ed. cbn in Ed. lia.
    - exists s. f_equal.
      replace (S i) with (i + 1)%nat by lia. now rewrite <- drop_drop, Ed. }
  destruct Hd as [s Hd]. rewrite Hd in Hnd, Hnot.
  rewrite omap_app in *. cbn [omap list_omap] in *.
  set (a := omap pMatchWord (take i slots)) in *.
  set (b := omap pMatchWord (drop (S i) slots)) in *.
  assert (Hab : List.NoDup (a ++ b) /\ ~ In w (a ++ b) /\
                forall v, In v (a ++ b) ->
                  In v (omap pMatchWord (take i slots ++ drop i slots))).
  { rewrite Hd, omap_app. cbn [omap list_omap]. fold a b.
    destruct (pMatchWord s) as [v0|].
    - split_and!.
      + now apply NoDup_remove_1 in Hnd.
      + intros Hin. apply Hnot. apply in_app_iff in Hin as [?|?];
          apply in_app_iff; [left | right; right]; assumption.
      + intros v Hin. apply in_app_iff in Hin as [?|?];
          apply in_app_iff; [left | right; right]; assumption.
    - split_and!; auto. }
  destruct Hab as (Hnd' & Hnot' & Hsub). rewrite take_drop in Hsub.
  split_and!.
  - apply List.NoDup_app.
    + now apply NoDup_app_remove_r in Hnd'.
    + constructor.
      * intros Hin. apply Hnot'. apply in_app_iff. right; assumption.
      * now apply NoDup_app_remove_l in Hnd'.
    + intros v Ha [<-|Hb].
      * apply Hnot'. apply in_app_iff. left; assumption.
      * revert v Ha Hb. clear - Hnd'.
        induction a as [|x a IH]; intros v Ha Hb; [destruct Ha|].
        cbn [app] in Hnd'. inversion Hnd' as [|? ? Hx Hnd'']; subst.
        destruct Ha as [<-|Ha]; [|eauto].
        apply Hx. apply in_app_iff. right; assumption.
  - apply in_app_iff. right. left. reflexivity.
  - intros v Hin. apply in_app_iff in Hin as [Hin|[<-|Hin]]; auto; right;
      apply Hsub, in_app_iff; [left | right]; assumption.
Qed.

Section FuzzyList.

Variable g_utf8_to_ucs4_fast : cstring -> list Z.
Variable g_unichar_tolower : Z -> Z.

(** What the loop over the headwords keeps of the slots: their number; the
    words in them are headwords, each in one slot only; and [Found] tells
    whether a word has been taken. *)
Definition fuzzy_list_inv (cands : list cstring) (n : nat) (st : fuzzy_state)
  : Prop :=
  length (oFuzzystruct st) = n /\
  List.NoDup (slot_words (oFuzzystruct st)) /\
  (forall w, In w (slot_words (oFuzzystruct st)) -> In w cands) /\
  (fz_Found st = true -> n = 0%nat \/ slot_words (oFuzzystruct st) <> []) /\
  (fz_Found st = false -> slot_words (oFuzzystruct st) = []).

Lemma fuzzy_step_list_inv q cands n st sCheck :
  Forall is_cstr cands -> In sCheck cands -> (0 < n)%nat ->
  fuzzy_list_inv cands n st ->
  exists st',
    fuzzy_step g_utf8_to_ucs4_fast g_unichar_tolower q st sCheck = Ok st' /\
    fuzzy_list_inv cands n st'.
Proof.
  intros Hc Hin Hn (Hlen & Hnd & Hsub & Hft & Hff). unfold fuzzy_step.
  destruct (_ || _); [exists st; repeat split; assumption|].
  destruct (_ && _); [|exists st; repeat split; assumption].
  assert (Hcs : Forall is_cstr (slot_words (oFuzzystruct st))).
  { apply Forall_forall. intros w Hw. apply list_elem_of_In in Hw.
    apply (proj1 (Forall_forall _ _) Hc). apply list_elem_of_In. auto. }
  assert (Hw : is_cstr sCheck).
  { apply (proj1 (Forall_forall _ _) Hc). now apply list_elem_of_In. }
  destruct (scan_slots_spec (oFuzzystruct st) sCheck (iMaxDistance st) 0 0
              Hcs Hw) as [Hb Hat].
  destruct (scan_slots (oFuzzystruct st) sCheck (iMaxDistance st) 0 0)
    as [bAlreadyInList iMaxDistanceAt].
  cbn [fst snd] in Hb, Hat.
  destruct bAlreadyInList.
  - eexists. split; [reflexivity|].
    split_and!; cbn [oFuzzystruct fz_Found]; auto; [|discriminate].
    intros _. right. intros E. rewrite E in Hb. destruct (proj1 Hb eq_refl).
  - assert (Hnot : ~ In sCheck (slot_words (oFuzzystruct st))).
    { intros H. apply Hb in H. discriminate. }
    assert (Hi : (iMaxDistanceAt < length (oFuzzystruct st))%nat) by lia.
    destruct (vec_set_nat (oFuzzystruct st) iMaxDistanceAt
                {| pMatchWord := Some sCheck;
                   iMatchWordDistance :=
                     CalEditDistance
                       (fuzzy_candidate g_utf8_to_ucs4_fast g_unichar_tolower
                          sCheck (Z.of_nat (length q))) q (iMaxDistance st) |})
      as [[_ ->] | [Hge _]]; [|lia].
    cbn [defined result_bind]. eexists. split; [reflexivity|].
    unfold fuzzy_list_inv. cbn [oFuzzystruct fz_Found].
    destruct (slot_words_insert (oFuzzystruct st) iMaxDistanceAt sCheck
                (CalEditDistance
                   (fuzzy_candidate g_utf8_to_ucs4_fast g_unichar_tolower
                      sCheck (Z.of_nat (length q))) q (iMaxDistance st))
                Hi Hnd Hnot) as (Hnd' & Hin' & Hsub').
    split_and!.
    + now rewrite length_insert.
    + exact Hnd'.
    + intros w Hw'. apply Hsub' in Hw' as [->|?]; auto.
    + intros _. right. intros E. rewrite E in Hin'. destruct Hin'.
    + discriminate.
Qed.

Lemma fuzzy_fold_list_inv q cands n l : forall st,
  Forall is_cstr cands -> (forall w, In w l -> In w cands) -> (0 < n)%nat ->
  fuzzy_list_inv cands n st ->
  exists st',
    fuzzy_loop g_utf8_to_ucs4_fast g_unichar_tolower q l st = Ok st' /\
    fuzzy_list_inv cands n st'.
Proof.
  induction l as [|w l IH]; intros st Hc Hl Hn Hst; cbn [fuzzy_loop].
  - exists st. split; [reflexivity | assumption].
  - destruct (fuzzy_step_list_inv q cands n st w Hc
                ltac:(apply Hl; left; reflexivity) Hn Hst) as (st1 & -> & H1).
    cbn [result_bind].
    apply IH; [assumption | intros; apply Hl; right; assumption
              | assumption | assumption].
Qed.

Lemma fuzzy_insert_Permutation x l : fuzzy_insert x l ≡ₚ x :: l.
Proof.
  induction l as [|y l IH]; cbn [fuzzy_insert]; [reflexivity|].
  destruct (fuzzy_less y x); [|reflexivity].
  rewrite IH. apply perm_swap.
Qed.

Lemma fuzzy_sort_Permutation l : fuzzy_sort l ≡ₚ l.
Proof.
  induction l as [|x l IH]; cbn [fuzzy_sort fold_right]; [reflexivity|].
  fold (fuzzy_sort l). rewrite fuzzy_insert_Permutation. now rewrite IH.
Qed.

End FuzzyList.

(** The entries of [reslist] that are not null. *)
Definition reslist_words (reslist : list (option cstring)) : list cstring :=
  omap id reslist.

Lemma reslist_words_map slots :
  reslist_words (map pMatchWord slots) = slot_words slots.
Proof.
  unfold reslist_words, slot_words.
  induction slots as [|s slots IH]; [reflexivity|].
  cbn [map omap list_omap]. change (id (pMatchWord s)) with (pMatchWord s).
  destruct (pMatchWord s); cbn; now rewrite <- IH.
Qed.

Lemma reslist_words_In reslist w :
  In w (reslist_words reslist) <-> In (Some w) reslist.
Proof.
  unfold reslist_words. induction reslist as [|[v|] r IH];
    cbn [omap list_omap In]; [tauto | | ].
  - change (id (Some v)) with (Some v). cbn [In]. rewrite IH.
    split; intros [?|?]; auto; [left; congruence | left; congruence].
  - change (id (@None cstring)) with (@None cstring). cbn. rewrite IH.
    split; [auto | intros [?|?]; [discriminate | assumption]].
Qed.

Lemma reslist_words_nil reslist :
  reslist_words reslist = [] -> Forall (fun r => r = None) reslist.
Proof.
  unfold reslist_words. induction reslist as [|[v|] r IH];
    cbn [omap list_omap]; [constructor | discriminate |].
  intros H. constructor; auto.
Qed.

(** X14.  For a query that is not empty and [reslist_size] at least 1,
    [LookupWithFuzzy] returns and fills [reslist] with [reslist_size]
    entries in which no headword occurs twice, although a headword may
    occur in many dictionaries; when it returns false every entry is null,
    and when it returns true some entry is a headword. *)
Theorem LookupWithFuzzy_distinct (g_utf8_to_ucs4_fast : cstring -> list Z)
    (g_unichar_tolower : Z -> Z) (oLib : list (list cstring))
    (sWord : cstring) (reslist_size : nat) :
  Forall (Forall is_cstr) oLib ->
  sWord <> [] ->
  (1 <= reslist_size)%nat ->
  exists found reslist,
    LookupWithFuzzy g_utf8_to_ucs4_fast g_unichar_tolower oLib sWord
      reslist_size = Ok (found, Some reslist) /\
    length reslist = reslist_size /\
    List.NoDup (reslist_words reslist) /\
    (found = false -> Forall (fun r => r = None) reslist) /\
    (found = true -> exists w, In (Some w) reslist).
Proof.
  intros Hlib Hne Hsize. unfold LookupWithFuzzy.
  destruct sWord as [|c0 sWord]; [congruence|].
  set (q := unicode_strdown g_unichar_tolower (g_utf8_to_ucs4_fast (c0 :: sWord))).
  set (st0 := {| oFuzzystruct :=
                   repeat {| pMatchWord := None;
                             iMatchWordDistance := iMaxFuzzyDistance |}
                     reslist_size;
                 iMaxDistance := iMaxFuzzyDistance; fz_Found := false |}).
  assert (Hw0 : slot_words (oFuzzystruct st0) = []).
  { cbn [oFuzzystruct st0]. clear. induction reslist_size as [|n IH];
      [reflexivity | exact IH]. }
  assert (H0 : fuzzy_list_inv (concat oLib) reslist_size st0).
  { unfold fuzzy_list_inv. rewrite Hw0. cbn [oFuzzystruct fz_Found st0].
    split_and!; [apply repeat_length | constructor | intros ? [] | discriminate
                | reflexivity]. }
  assert (Hc : Forall is_cstr (concat oLib)) by now apply Forall_concat.
  destruct (fuzzy_fold_list_inv g_utf8_to_ucs4_fast g_unichar_tolower q
              (concat oLib) reslist_size (concat oLib) st0 Hc (fun _ H => H)
              ltac:(lia) H0)
    as (st & -> & Hlen & Hnd & Hsub & Hft & Hff).
  cbn [result_bind].
  set (slots := if fz_Found st then fuzzy_sort (oFuzzystruct st)
                else oFuzzystruct st).
  assert (Hperm : slots ≡ₚ oFuzzystruct st).
  { subst slots. destruct (fz_Found st); [apply fuzzy_sort_Permutation | reflexivity]. }
  assert (Hwperm : slot_words slots ≡ₚ slot_words (oFuzzystruct st)).
  { unfold slot_words. now rewrite Hperm. }
  eexists _, _. split; [reflexivity|]. split_and!.
  - rewrite length_map, (Permutation_length Hperm). exact Hlen.
  - rewrite reslist_words_map.
    apply (Permutation_NoDup (Permutation_sym Hwperm)). exact Hnd.
  - intros Hfalse. apply reslist_words_nil. rewrite reslist_words_map.
    apply Permutation_nil_r. rewrite <- (Hff Hfalse). exact Hwperm.
  - intros Htrue. destruct (Hft Htrue) as [->|Hnw]; [lia|].
    destruct (slot_words (oFuzzystruct st)) as [|w ws] eqn:Ew; [congruence|].
    exists w. apply reslist_words_In. rewrite reslist_words_map.
    apply (Permutation_in w (Permutation_sym Hwperm)). left; reflexivity.
Qed.

(** "abd" is a headword of both dictionaries and is returned once. *)
Lemma LookupWithFuzzy_distinct_witness :
  exists found reslist,
    LookupWithFuzzy id g_ascii_tolower
      [[str "abd"; str "xyz"]; [str "abcd"; str "abd"]] (str "abc") 2
    = Ok (found, Some reslist) /\
    length reslist = 2%nat /\
    List.NoDup (reslist_words reslist) /\
    (found = false -> Forall (fun r => r = None) reslist) /\
    (found = true -> exists w, In (Some w) reslist).
Proof.
  apply (LookupWithFuzzy_distinct id g_ascii_tolower
           [[str "abd"; str "xyz"]; [str "abcd"; str "abd"]] (str "abc") 2).
  - repeat (constructor;
            [repeat (constructor; [apply is_cstrb_spec; reflexivity|]);
             constructor|]).
    constructor.
  - discriminate.
  - lia.
Defined.

(** With [reslist_size] 0 a headword that is taken goes to slot 0 of an
    array without slots. *)
Example LookupWithFuzzy_no_slot :
  LookupWithFuzzy id g_ascii_tolower [[str "abd"]] (str "abc") 0 = Undefined /\
  LookupWithFuzzy id g_ascii_tolower [[str "xyz"]] (str "abc") 0
  = Ok (false, Some []).
Proof. split; reflexivity. Qed.

(** *** The slot that a new word replaces *)

(** [iMaxDistance] is the largest distance in the slots. *)
Definition fuzzy_max_inv (st : fuzzy_state) : Prop :=
  Forall (fun slot => iMatchWordDistance slot <= iMaxDistance st)
    (oFuzzystruct st) /\
  Exists (fun slot => iMatchWordDistance slot = iMaxDistance st)
    (oFuzzystruct st).

(** When the word is in no slot, the scan ends on the last slot whose
    distance is [iMax], if there is one. *)
Lemma scan_slots_at slots w iMax : forall j iMaxDistanceAt,
  fst (scan_slots slots w iMax j iMaxDistanceAt) = false ->
  (snd (scan_slots slots w iMax j iMaxDistanceAt) = iMaxDistanceAt /\
   Forall (fun slot => iMatchWordDistance slot <> iMax) slots) \/
  exists k slot,
    snd (scan_slots slots w iMax j iMaxDistanceAt) = (j + k)%nat /\
    slots !! k = Some slot /\ iMatchWordDistance slot = iMax.
Proof.
  induction slots as [|slot slots IH]; intros j iAt; cbn [scan_slots].
  - intros _. left. split; [reflexivity | constructor].
  - assert (Hrec : fst (scan_slots slots w iMax (S j)
                          (if iMatchWordDistance slot =? iMax then j else iAt))
                   = false ->
                   (snd (scan_slots slots w iMax (S j)
                           (if iMatchWordDistance slot =? iMax then j else iAt))
                    = iAt /\
                    Forall (fun slot => iMatchWordDistance slot <> iMax)
                      (slot :: slots)) \/
                   exists k slot0,
                     snd (scan_slots slots w iMax (S j)
                            (if iMatchWordDistance slot =? iMax then j else iAt))
                     = (j + k)%nat /\
                     (slot :: slots) !! k = Some slot0 /\
                     iMatchWordDistance slot0 = iMax).
    { intros Hf. destruct (IH (S j) _ Hf) as [[Hs Hall] | (k & s & Hs & Hk & Hd)].
      - destruct (Z.eqb_spec (iMatchWordDistance slot) iMax) as [He|Hne].
        + right. exists 0%nat, slot. rewrite Hs. split_and!; auto.
        + left. split; [assumption | constructor; assumption].
      - right. exists (S k), s. rewrite Hs. split_and!; auto; lia. }
    destruct (pMatchWord slot) as [v|]; [|exact Hrec].
    destruct (strcmp v w =? 0); [discriminate | exact Hrec].
Qed.

Lemma max_slot_distance_spec slots : forall d,
  d <= max_slot_distance slots d /\
  Forall (fun slot => iMatchWordDistance slot <= max_slot_distance slots d)
    slots /\
  (max_slot_distance slots d = d \/
   Exists (fun slot => iMatchWordDistance slot = max_slot_distance slots d)
     slots).
Proof.
  unfold max_slot_distance.
  induction slots as [|slot slots IH]; intros d; cbn [fold_left].
  - split_and!; [lia | constructor | left; reflexivity].
  - destruct (IH (if d <? iMatchWordDistance slot
                  then iMatchWordDistance slot else d)) as (H1 & H2 & H3).
    destruct (Z.ltb_spec d (iMatchWordDistance slot)) as [Hlt|Hge].
    + split_and!; [lia | constructor; [lia | assumption] |].
      right. destruct H3 as [->|H3]; [left; reflexivity | right; assumption].
    + split_and!; [lia | constructor; [lia | assumption] |].
      destruct H3 as [->|H3]; [left; reflexivity | right; right; assumption].
Qed.

(** X15.  In the loop of [LookupWithFuzzy], [iMaxDistance] is the largest
    distance held in the slots and never grows; a headword that is taken
    replaces a slot that holds this largest distance, with a distance that
    is smaller.  So a slot is only ever given up for a closer word. *)
Theorem fuzzy_step_replaces_largest (g_utf8_to_ucs4_fast : cstring -> list Z)
    (g_unichar_tolower : Z -> Z) (q : list Z) (st : fuzzy_state)
    (sCheck : cstring) :
  fuzzy_max_inv st ->
  exists st',
    fuzzy_step g_utf8_to_ucs4_fast g_unichar_tolower q st sCheck = Ok st' /\
    fuzzy_max_inv st' /\
    iMaxDistance st' <= iMaxDistance st /\
    (oFuzzystruct st' = oFuzzystruct st \/
     exists (a : nat) old d,
       oFuzzystruct st !! a = Some old /\
       iMatchWordDistance old = iMaxDistance st /\
       d < iMaxDistance st /\
       oFuzzystruct st'
       = <[a := {| pMatchWord := Some sCheck; iMatchWordDistance := d |}]>
           (oFuzzystruct st)).
Proof.
  intros [Hle Hex]. unfold fuzzy_step.
  destruct (_ || _);
    [exists st; split_and!;
       [reflexivity | split; assumption | lia | left; reflexivity]|].
  destruct (_ && _) eqn:Etake;
    [|exists st; split_and!;
        [reflexivity | split; assumption | lia | left; reflexivity]].
  apply andb_true_iff in Etake as [E3 _]. apply Z.ltb_lt in E3.
  set (d := CalEditDistance
              (fuzzy_candidate g_utf8_to_ucs4_fast g_unichar_tolower sCheck
                 (Z.of_nat (length q))) q (iMaxDistance st)) in *.
  pose proof (scan_slots_at (oFuzzystruct st) sCheck (iMaxDistance st) 0 0)
    as Hat.
  destruct (scan_slots (oFuzzystruct st) sCheck (iMaxDistance st) 0 0)
    as [bAlreadyInList a].
  cbn [fst snd] in Hat.
  destruct bAlreadyInList;
    [eexists; split_and!;
       [reflexivity | split; assumption | cbn; lia | left; reflexivity]|].
  destruct (Hat eq_refl) as [[_ Hnone] | (k & old & -> & Hk & Hd)].
  { exfalso. apply Exists_exists in Hex as (s & Hs & He).
    apply (proj1 (Forall_forall _ _) Hnone) in Hs. contradiction. }
  cbn [Nat.add].
  set (new := {| pMatchWord := Some sCheck; iMatchWordDistance := d |}).
  assert (Hk' : (k < length (oFuzzystruct st))%nat)
    by (now apply lookup_lt_Some in Hk).
  destruct (vec_set_nat (oFuzzystruct st) k new) as [[_ ->] | [Hge _]];
    [|lia].
  cbn [defined result_bind]. eexists. split; [reflexivity|].
  cbn [oFuzzystruct iMaxDistance].
  set (slots' := <[k := new]> (oFuzzystruct st)).
  assert (Hnew : slots' !! k = Some new)
    by (apply list_lookup_insert_eq; assumption).
  destruct (max_slot_distance_spec slots' d) as (M1 & M2 & M3).
  assert (Hle' : Forall (fun slot => iMatchWordDistance slot <= iMaxDistance st)
                   slots').
  { apply Forall_insert; [assumption | cbn; lia]. }
  split_and!.
  - split; [exact M2|]. cbn [oFuzzystruct iMaxDistance].
    destruct M3 as [->|M3]; [|exact M3].
    apply Exists_exists. exists new. split; [|reflexivity].
    eapply list_elem_of_lookup_2, Hnew.
  - destruct M3 as [->|M3]; [lia|].
    apply Exists_exists in M3 as (s & Hs & <-).
    apply (proj1 (Forall_forall _ _) Hle' s Hs).
  - right. exists k, old, d. split_and!; auto.
Qed.

(** The slots of the witness: "abd" at distance 1 and an empty slot. *)
Definition fuzzy_state_abd : fuzzy_state :=
  {| oFuzzystruct :=
       [ {| pMatchWord := Some (str "abd"); iMatchWordDistance := 1 |};
         {| pMatchWord := None; iMatchWordDistance := 3 |} ];
     iMaxDistance := 3; fz_Found := true |}.

Lemma fuzzy_step_replaces_largest_witness :
  exists st',
    fuzzy_step id g_ascii_tolower (str "abc") fuzzy_state_abd (str "abcd")
    = Ok st' /\
    fuzzy_max_inv st' /\
    iMaxDistance st' <= iMaxDistance fuzzy_state_abd /\
    (oFuzzystruct st' = oFuzzystruct fuzzy_state_abd \/
     exists (a : nat) old d,
       oFuzzystruct fuzzy_state_abd !! a = Some old /\
       iMatchWordDistance old = iMaxDistance fuzzy_state_abd /\
       d < iMaxDistance fuzzy_state_abd /\
       oFuzzystruct st'
       = <[a := {| pMatchWord := Some (str "abcd");
                   iMatchWordDistance := d |}]>
           (oFuzzystruct fuzzy_state_abd)).
Proof.
  apply (fuzzy_step_replaces_largest id g_ascii_tolower (str "abc")).
  split; cbn [fuzzy_state_abd oFuzzystruct iMaxDistance].
  - repeat (constructor; [cbn; lia|]). constructor.
  - right. left. reflexivity.
Defined.

(** * The [.ifo] file as a whole (lines 77-170) *)

(** The value on the first line that has the key [k]. *)
Fixpoint first_value (ls : list ifo_line) (k : list Z) : option (list Z) :=
  match ls with
  | [] => None
  | l :: ls' => if decide (key l = k) then Some (value l) else first_value ls' k
  end.

Lemma fold_map_insert_lookup ls : forall m k,
  fold_left (fun m l => map_insert (key l) (value l) m) ls m !! k
  = match m !! k with
    | Some v => Some v
    | None => first_value ls k
    end.
Proof.
  induction ls as [|l ls IH]; intros m k; cbn [fold_left first_value].
  - destruct (m !! k); reflexivity.
  - rewrite IH. unfold map_insert.
    destruct (decide (key l = k)) as [<-|Hne].
    + destruct (m !! key l) eqn:E; [now rewrite E|].
      now rewrite lookup_insert_eq.
    + destruct (m !! key l) eqn:E; [reflexivity|].
      now rewrite lookup_insert_ne.
Qed.

Lemma ifo_map_first_value ls k : ifo_map ls !! k = first_value ls k.
Proof. unfold ifo_map. rewrite fold_map_insert_lookup. now rewrite lookup_empty. Qed.

Lemma parse_ifo_body_ifo_map ls ws :
  forallb wf_line ls = true -> forallb g_ascii_isspace ws = true ->
  parse_ifo_body (ifo_lines ls ++ ws) = Some (ifo_map ls).
Proof.
  intros Hls Hws. unfold parse_ifo_body.
  rewrite ifo_body_loop_lines by (auto; lia).
  cbn [ifo_body_loop]. now rewrite ifo_body_step_ws.
Qed.

(** X16.  [load_from_ifo_file] on a file made of an optional byte order
    mark, the magic line and well-formed [key=value] lines succeeds exactly
    when [wordcount], [idxfilesize] ([tdxfilesize] for a tree dictionary)
    and [bookname] are among the keys; every field is then taken from the
    first line that has its key, the optional ones being empty (0 for
    [synwordcount]) when no line has it.  The byte order mark makes no
    difference. *)
Theorem load_from_ifo_file_lines (to_count to_filesize : Z -> Z)
    (ifofilename : cstring) (bom istreedict : bool) (ls : list ifo_line)
    (ws : list Z) :
  forallb wf_line ls = true -> forallb g_ascii_isspace ws = true ->
  let field k := default [] (first_value ls (str k)) in
  load_from_ifo_file to_count to_filesize ifofilename
    (Some ((if bom then utf8_bom else [])
           ++ magic_data istreedict ++ ifo_lines ls ++ ws)) istreedict
  = match first_value ls (str "wordcount"),
          first_value ls (if istreedict then str "tdxfilesize"
                          else str "idxfilesize"),
          first_value ls (str "bookname") with
    | Some wc, Some fs, Some bn =>
        Some {| ifo_file_name := ifofilename;
                wordcount := to_count (atol wc);
                syn_wordcount :=
                  match first_value ls (str "synwordcount") with
                  | Some swc => to_count (atol swc)
                  | None => 0
                  end;
                bookname := bn;
                author := field "author";
                email := field "email";
                website := field "website";
                date := field "date";
                description := field "description";
                index_file_size := to_filesize (atol fs);
                sametypesequence := field "sametypesequence" |}
    | _, _, _ => None
    end.
Proof.
  intros Hls Hws. cbv zeta. unfold load_from_ifo_file.
  set (body := ifo_lines ls ++ ws).
  assert (Hp : (if g_str_has_prefix
                     ((if bom then utf8_bom else []) ++ magic_data istreedict ++ body)
                     utf8_bom
                then drop (length utf8_bom)
                       ((if bom then utf8_bom else [])
                        ++ magic_data istreedict ++ body)
                else (if bom then utf8_bom else [])
                     ++ magic_data istreedict ++ body)
               = magic_data istreedict ++ body).
  { destruct bom.
    - rewrite g_str_has_prefix_app. now rewrite drop_app_length.
    - cbn [app].
      assert (g_str_has_prefix (magic_data istreedict ++ body) utf8_bom = false)
        as -> by (destruct istreedict; reflexivity).
      reflexivity. }
  rewrite Hp, g_str_has_prefix_app. cbn [negb].
  rewrite drop_app_length. subst body.
  rewrite (parse_ifo_body_ifo_map ls ws Hls Hws).
  unfold set_if_exists. rewrite !ifo_map_first_value.
  destruct (first_value ls (str "wordcount")); [|reflexivity].
  destruct (first_value ls (if istreedict then str "tdxfilesize"
                            else str "idxfilesize")); [|reflexivity].
  destruct (first_value ls (str "bookname")); reflexivity.
Qed.

(** A file with a byte order mark, two [wordcount] lines and no
    [sametypesequence]. *)
Definition ifo_example_lines : list ifo_line :=
  [ {| pre_ws := [10]; key := str "wordcount"; mid_ws := [];
       value := str "3"; eol := 10 |};
    {| pre_ws := []; key := str "idxfilesize"; mid_ws := [];
       value := str "57"; eol := 10 |};
    {| pre_ws := []; key := str "wordcount"; mid_ws := [];
       value := str "4"; eol := 10 |};
    {| pre_ws := []; key := str "bookname"; mid_ws := [32];
       value := str "Flora"; eol := 10 |} ].

Lemma load_from_ifo_file_lines_witness :
  load_from_ifo_file id id (str "flora.ifo")
    (Some (utf8_bom ++ magic_data false ++ ifo_lines ifo_example_lines ++ []))
    false
  = Some {| ifo_file_name := str "flora.ifo"; wordcount := 3;
            syn_wordcount := 0; bookname := str "Flora";
            author := []; email := []; website := []; date := [];
            description := []; index_file_size := 57;
            sametypesequence := [] |}.
Proof.
  exact (load_from_ifo_file_lines id id (str "flora.ifo") true false
           ifo_example_lines [] eq_refl eq_refl).
Defined.

(** * [SearchData] on records that carry their type characters
    (lines 383-413) *)

(** X17.  In a dictionary without [sametypesequence] the text that
    [SearchData] searches for a field of type m, t, y, l, g, x or k starts
    at the type character of the field, not behind it: the needle made of
    that one character is found in every record that begins with such a
    field, whatever its text. *)
Theorem SearchData_tagged_type_character (get_uint32 : list Z -> Z)
    (t : Z) (text rest : list Z) (file : dict_file) (offset allocated : Z) :
  is_search_type t = true ->
  forallb (fun c => negb (is_nul c)) text = true ->
  let data := t :: text ++ 0 :: rest in
  let size := Z.of_nat (length data) in
  fread_at (dict_content file) offset size = data ->
  size <= allocated ->
  SearchData get_uint32 file [] [[t]] offset size (Some allocated) = Ok true.
Proof.
  intros Ht Htext data size Hrec Halloc.
  assert (Hlen : Z.of_nat (length (fread_at (dict_content file) offset size))
                 = size) by (rewrite Hrec; reflexivity).
  assert (Hpos : 0 < size) by (unfold size, data; cbn [length]; lia).
  assert (Hs : search_record get_uint32 [] [[t]] data = Some true).
  { unfold search_record, data. cbn [length search_tagged repeat].
    rewrite Ht.
    assert (Hnz : is_nul t = false).
    { unfold is_search_type, is_nul in *.
      destruct (Z.eqb_spec t 0) as [->|]; [discriminate | reflexivity]. }
    assert (Hc : c_str_at (t :: text ++ 0 :: rest) = Some (t :: text)).
    { unfold c_str_at. cbn [existsb upto]. rewrite Hnz. cbn [orb].
      destruct (find_if_app_hit is_nul text 0 rest Htext eq_refl) as [_ ->].
      rewrite existsb_app. cbn. now rewrite orb_true_r. }
    rewrite Hc. cbn [mark_found negb andb occurs_in prefixb].
    rewrite Z.eqb_refl. reflexivity. }
  unfold SearchData. destruct file as [content|content];
    cbn [dict_content] in *.
  - unfold fread_record. rewrite Hlen.
    destruct (Z.ltb_spec allocated size); [lia|].
    destruct (Z.ltb_spec 0 size); [|lia]. rewrite Z.eqb_refl.
    cbn [andb result_bind]. rewrite Hrec, Hs. reflexivity.
  - destruct (Z.ltb_spec allocated size); [lia|].
    unfold dictData_read. rewrite Hlen, Z.eqb_refl. cbn [result_bind].
    rewrite Hrec, Hs. reflexivity.
Qed.

Lemma SearchData_tagged_type_character_witness :
  SearchData uint32_be (DictFile (109 :: str "hello" ++ 0 :: [])) [] [[109]]
    0 7 (Some 7) = Ok true.
Proof.
  apply (SearchData_tagged_type_character uint32_be 109 (str "hello") []
           (DictFile (109 :: str "hello" ++ 0 :: [])) 0 7);
    [reflexivity | reflexivity | reflexivity | cbn; lia].
Defined.

(** * [Libs::LookupSimilarWord] as a whole (lines 1026-1336) *)

Definition g_ascii_toupper (c : Z) : Z :=
  if (97 <=? c) && (c <=? 122) then c - 32 else c.

Definition bIsVowel (inputchar : Z) : bool :=
  let ch := g_ascii_toupper inputchar in
  (ch =? 65) || (ch =? 69) || (ch =? 73) || (ch =? 79) || (ch =? 85).

(** An access outside a buffer. *)
Definition mem_fail {A} : mem A := fun _ => None.

Section SimilarWord.

(** [oLib[iLib]->Lookup (word, iWordIndices)], and GLib's [g_utf8_strdown],
    [g_utf8_strup] and the table [g_utf8_skip] behind [g_utf8_next_char]. *)
Variable Lookup : cstring -> gset Z -> bool * gset Z.
Variable g_utf8_strdown : cstring -> cstring.
Variable g_utf8_strup : cstring -> cstring.
Variable g_utf8_skip : Z -> Z.

(** [if (strcmp (casestr, sWord)) { if (Lookup (casestr)) bFound = true; }] *)
Definition lookup_if_differs (casestr sWord : cstring) (idxs : gset Z)
  : bool * gset Z :=
  if strcmp casestr sWord =? 0 then (false, idxs) else Lookup casestr idxs.

(** The three attempts with the case changed (lines 1031-1061):
    [g_utf8_next_char] reads the first byte of the word, and the rest of
    the word is taken from the byte it points to. *)
Definition case_variants (sWord : cstring) (idxs : gset Z)
  : mem (bool * gset Z) :=
  let '(found1, idxs1) := lookup_if_differs (g_utf8_strdown sWord) sWord idxs in
  if found1 then mem_ret (true, idxs1)
  else
    let '(found2, idxs2) :=
      lookup_if_differs (g_utf8_strup sWord) sWord idxs1 in
    if found2 then mem_ret (true, idxs2)
    else
      do c <- load sWord 0 ;;
      let n := g_utf8_skip c in
      if (0 <=? n) && (n <=? Z.of_nat (length sWord)) then
        let firstchar := g_utf8_strup (take (Z.to_nat n) sWord) in
        let nextchar := g_utf8_strdown (drop (Z.to_nat n) sWord) in
        mem_ret (lookup_if_differs (firstchar ++ nextchar) sWord idxs2)
      else mem_fail.

(** [!strncmp (&sWord[iWordLen - n], lit, n)] for a literal of [n]
    letters. *)
Definition has_suffix (sWord lit : cstring) : mem bool :=
  do r <- strncmp_at sWord (Z.of_nat (length sWord) - Z.of_nat (length lit))
            lit (length lit) ;;
  mem_ret (r =? 0).

(** [strcpy (sNewWord, sWord); sNewWord[k] = '\0';] in the buffer of
    [iWordLen + 1] bytes. *)
Definition truncate_at (sWord : cstring) (k : Z) : mem cstring :=
  if (0 <=? k) && (k <=? Z.of_nat (length sWord))
  then mem_ret (take (Z.to_nat k) sWord) else mem_fail.

(** [strcat (sNewWord, add)] in that buffer. *)
Definition strcat_in (iWordLen : Z) (sNewWord add : cstring) : mem cstring :=
  if Z.of_nat (length (sNewWord ++ add)) <=? iWordLen
  then mem_ret (sNewWord ++ add) else mem_fail.

(** The lookup of a stem, and of the stem in lower case when the suffix was
    in upper case or the word begins with a capital:
    [if (Lookup (sNewWord)) bFound = true;
     else if (isupcase || g_ascii_isupper (sWord[0])) { ... }] *)
Definition lookup_stem (sWord sNewWord : cstring) (isupcase : bool)
    (idxs : gset Z) : mem (bool * gset Z) :=
  let '(found, idxs1) := Lookup sNewWord idxs in
  if found then mem_ret (true, idxs1)
  else
    do lower <-
      (if isupcase then mem_ret true
       else do c0 <- load sWord 0 ;; mem_ret (g_ascii_isupper c0)) ;;
    if lower then mem_ret (lookup_lowered Lookup sNewWord idxs1)
    else mem_ret (false, idxs1).

(** The blocks that cut "ied", "ies", "er" and "est" (lines 1242-1324)
    differ in the suffix [LIT]/[lit], the least length and the letter put in
    its place. *)
Definition cut_simple (minlen : Z) (LIT lit ADD add : cstring)
    (sWord : cstring) (bFound : bool) (idxs : gset Z) : mem (bool * gset Z) :=
  let iWordLen := Z.of_nat (length sWord) in
  if negb bFound && (minlen <? iWordLen) then
    do isupcase <- has_suffix sWord LIT ;;
    do cut <- (if isupcase then mem_ret true else has_suffix sWord lit) ;;
    if cut then
      do sNewWord <- truncate_at sWord (iWordLen - Z.of_nat (length lit)) ;;
      do sNewWord <- strcat_in iWordLen sNewWord (if isupcase then ADD else add) ;;
      lookup_stem sWord sNewWord isupcase idxs
    else mem_ret (bFound, idxs)
  else mem_ret (bFound, idxs).

(** [iWordLen > k + 2 && sNewWord[iWordLen - k] == sNewWord[iWordLen - k - 1]
    && !bIsVowel (sNewWord[iWordLen - k - 1])
    && bIsVowel (sNewWord[iWordLen - k - 2])] *)
Definition is_doubled (sNewWord : cstring) (iWordLen k : Z) : mem bool :=
  if k + 2 <? iWordLen then
    do a <- load sNewWord (iWordLen - k) ;;
    do b <- load sNewWord (iWordLen - k - 1) ;;
    if a =? b then
      do c <- load sNewWord (iWordLen - k - 1) ;;
      if negb (bIsVowel c) then
        do d <- load sNewWord (iWordLen - k - 2) ;; mem_ret (bIsVowel d)
      else mem_ret false
    else mem_ret false
  else mem_ret false.

(** The attempt without the doubled consonant: the stem is cut once more;
    when nothing is found the letter is put back.  The result is [bFound],
    the indices and [sNewWord]. *)
Definition try_doubled (sWord sNewWord : cstring) (k : Z) (isupcase : bool)
    (idxs : gset Z) : mem (bool * gset Z * cstring) :=
  let iWordLen := Z.of_nat (length sWord) in
  do doubled <- is_doubled sNewWord iWordLen k ;;
  if doubled then
    do sShort <- truncate_at sNewWord (iWordLen - k) ;;
    do r <- lookup_stem sWord sShort isupcase idxs ;;
    if fst r then mem_ret (r, sShort)
    else
      do c <- load sShort (iWordLen - k - 1) ;;
      mem_ret (r, sShort ++ [c])
  else mem_ret ((false, idxs), sNewWord).

(** The blocks that cut "ly", "ing" and "ed" (lines 1089-1182, 1203-1240);
    after "ing" an "e" is tried in its place. *)
Definition cut_doubled (minlen : Z) (LIT lit : cstring) (with_e : bool)
    (sWord : cstring) (bFound : bool) (idxs : gset Z) : mem (bool * gset Z) :=
  let iWordLen := Z.of_nat (length sWord) in
  let n := Z.of_nat (length lit) in
  if negb bFound && (minlen <? iWordLen) then
    do isupcase <- has_suffix sWord LIT ;;
    do cut <- (if isupcase then mem_ret true else has_suffix sWord lit) ;;
    if cut then
      do sNewWord <- truncate_at sWord (iWordLen - n) ;;
      do d <- try_doubled sWord sNewWord (n + 1) isupcase idxs ;;
      if fst (fst d) then mem_ret (fst d)
      else
        do r <- lookup_stem sWord (snd d) isupcase (snd (fst d)) ;;
        if fst r || negb with_e then mem_ret r
        else
          do sNewWord <-
            strcat_in iWordLen (snd d) (if isupcase then str "E" else str "e") ;;
          lookup_stem sWord sNewWord isupcase (snd r)
    else mem_ret (bFound, idxs)
  else mem_ret (bFound, idxs).

(** The condition of the block that cuts "es" (lines 1186-1187), for the
    letters in one case: the suffix, behind "s", "x", "o", "ch" or "sh". *)
Definition es_test (sWord : cstring) (lit : cstring) (cS cX cO cH cC : Z)
  : mem bool :=
  let iWordLen := Z.of_nat (length sWord) in
  do suffix <- has_suffix sWord lit ;;
  if suffix then
    do a <- load sWord (iWordLen - 3) ;;
    if a =? cS then mem_ret true
    else
      do a <- load sWord (iWordLen - 3) ;;
      if a =? cX then mem_ret true
      else
        do a <- load sWord (iWordLen - 3) ;;
        if a =? cO then mem_ret true
        else if 4 <? iWordLen then
          do a <- load sWord (iWordLen - 3) ;;
          if a =? cH then
            do b <- load sWord (iWordLen - 4) ;;
            if b =? cC then mem_ret true
            else do b <- load sWord (iWordLen - 4) ;; mem_ret (b =? cS)
          else mem_ret false
        else mem_ret false
  else mem_ret false.

Definition cut_es (sWord : cstring) (bFound : bool) (idxs : gset Z)
  : mem (bool * gset Z) :=
  let iWordLen := Z.of_nat (length sWord) in
  if negb bFound && (3 <? iWordLen) then
    do isupcase <- es_test sWord (str "ES") 83 88 79 72 67 ;;
    do cut <- (if isupcase then mem_ret true
               else es_test sWord (str "es") 115 120 111 104 99) ;;
    if cut then
      do sNewWord <- truncate_at sWord (iWordLen - 2) ;;
      lookup_stem sWord sNewWord isupcase idxs
    else mem_ret (bFound, idxs)
  else mem_ret (bFound, idxs).

Definition LookupSimilarWord (sWord : cstring) (idxs : gset Z)
  : mem (bool * gset Z) :=
  do r <- case_variants sWord idxs ;;
  if bIsPureEnglish sWord then
    do r <- trim_s_ed Lookup sWord (fst r) (snd r) ;;
    do r <- cut_doubled 2 (str "LY") (str "ly") false sWord (fst r) (snd r) ;;
    do r <- cut_doubled 3 (str "ING") (str "ing") true sWord (fst r) (snd r) ;;
    do r <- cut_es sWord (fst r) (snd r) ;;
    do r <- cut_doubled 3 (str "ED") (str "ed") false sWord (fst r) (snd r) ;;
    do r <- cut_simple 3 (str "IED") (str "ied") (str "Y") (str "y")
              sWord (fst r) (snd r) ;;
    do r <- cut_simple 3 (str "IES") (str "ies") (str "Y") (str "y")
              sWord (fst r) (snd r) ;;
    do r <- cut_simple 2 (str "ER") (str "er") [] [] sWord (fst r) (snd r) ;;
    cut_simple 3 (str "EST") (str "est") [] [] sWord (fst r) (snd r)
  else mem_ret r.

(** [SimpleLookupWord] (lines 1338-1344); [fuzzy] is the member [fuzzy_]. *)
Definition SimpleLookupWord (fuzzy : bool) (sWord : cstring) (idxs : gset Z)
  : mem (bool * gset Z) :=
  let '(bFound, idxs1) := Lookup sWord idxs in
  if negb bFound && fuzzy then LookupSimilarWord sWord idxs1
  else mem_ret (bFound, idxs1).

End SimilarWord.

(** *** Computations that stay inside the word *)

(** From any record of reads inside the word [s], the computation [m]
    delivers [a] and a record of reads inside [s]. *)
Definition mem_returns (s : cstring) {A} (m : mem A) (a : A) : Prop :=
  forall tr, reads_in_bounds s tr ->
    exists tr', m tr = Some (a, tr') /\ reads_in_bounds s tr'.

Lemma returns_ret s {A} (a : A) : mem_returns s (mem_ret a) a.
Proof. intros tr Htr. exists tr. split; [reflexivity | assumption]. Qed.

Lemma returns_bind s {A B} (m : mem A) (f : A -> mem B) a b :
  mem_returns s m a -> mem_returns s (f a) b ->
  mem_returns s (mem_bind m f) b.
Proof.
  intros Hm Hf tr Htr. unfold mem_bind.
  destruct (Hm tr Htr) as (tr1 & -> & Htr1). exact (Hf tr1 Htr1).
Qed.

(** A read of a copy [s'] of a part of the word, at an index inside both. *)
Lemma returns_load s s' i :
  0 <= i -> i <= Z.of_nat (length s') -> i < Z.of_nat (length s) ->
  mem_returns s (load s' i) (nth (Z.to_nat i) s' 0).
Proof.
  intros H0 H1 H2 tr Htr. unfold load.
  destruct (Z.leb_spec 0 i); [|lia].
  destruct (Z.leb_spec i (Z.of_nat (length s'))); [|lia].
  cbn [andb]. eexists. split; [reflexivity|].
  constructor; [lia | assumption].
Qed.

(** The bytes of [lit] are at [k] in [s]. *)
Fixpoint bytes_at (s : cstring) (k : nat) (lit : cstring) : bool :=
  match lit with
  | [] => true
  | c :: lit' => (nth k s 0 =? c) && bytes_at s (S k) lit'
  end.

Lemma returns_strncmp s lit : forall k,
  is_cstr s -> is_cstr lit ->
  0 <= k -> k + Z.of_nat (length lit) <= Z.of_nat (length s) ->
  exists r,
    mem_returns s (strncmp_at s k lit (length lit)) r /\
    (r =? 0) = bytes_at s (Z.to_nat k) lit.
Proof.
  induction lit as [|c lit IH]; intros k Hs Hlit Hk Hlen.
  - exists 0. split; [apply returns_ret | reflexivity].
  - apply is_cstr_cons in Hlit as [Hc Hlit]. cbn [length] in Hlen.
    cbn [length strncmp_at bytes_at]. unfold deref. cbn [hd tl].
    pose proof (returns_load s s k Hk ltac:(lia) ltac:(lia)) as Hload.
    set (c1 := nth (Z.to_nat k) s 0) in *.
    destruct (Z.eqb_spec c1 c) as [He|Hne].
    + assert (Hnz : (c1 =? 0) = false) by (apply Z.eqb_neq; lia).
      destruct (IH (k + 1) Hs Hlit ltac:(lia) ltac:(lia)) as (r & Hr & Hv).
      exists r. split.
      * eapply returns_bind; [exact Hload|]. cbv beta.
        destruct (Z.eqb_spec c1 c) as [_|]; [|contradiction].
        rewrite Hnz. exact Hr.
      * cbn [andb]. rewrite Hv. f_equal. lia.
    + exists (c1 - c). split.
      * eapply returns_bind; [exact Hload|]. cbv beta.
        destruct (Z.eqb_spec c1 c) as [|_]; [contradiction|].
        apply returns_ret.
      * cbn [andb]. apply Z.eqb_neq. lia.
Qed.

(** The word ends with [lit]. *)
Definition ends_with (s lit : cstring) : bool :=
  bytes_at s (length s - length lit) lit.

Lemma returns_has_suffix s lit :
  is_cstr s -> is_cstr lit -> (length lit <= length s)%nat ->
  mem_returns s (has_suffix s lit) (ends_with s lit).
Proof.
  intros Hs Hlit Hlen. unfold has_suffix, ends_with.
  destruct (returns_strncmp s lit
              (Z.of_nat (length s) - Z.of_nat (length lit)) Hs Hlit
              ltac:(lia) ltac:(lia)) as (r & Hr & Hv).
  eapply returns_bind; [exact Hr|].
  rewrite Hv.
  replace (Z.to_nat (Z.of_nat (length s) - Z.of_nat (length lit)))
    with (length s - length lit)%nat by lia.
  apply returns_ret.
Qed.

(** *** The words that are tried, in order *)

Section SimilarCandidates.

Variable Lookup : cstring -> gset Z -> bool * gset Z.
Variable g_utf8_strdown : cstring -> cstring.
Variable g_utf8_strup : cstring -> cstring.
Variable g_utf8_skip : Z -> Z.

(** The words are looked up one after the other until one is found. *)
Fixpoint first_found (cands : list cstring) (idxs : gset Z) : bool * gset Z :=
  match cands with
  | [] => (false, idxs)
  | c :: cands' =>
      let '(found, idxs1) := Lookup c idxs in
      if found then (true, idxs1) else first_found cands' idxs1
  end.

(** More words are tried when nothing has been found so far. *)
Definition then_try (r : bool * gset Z) (cands : list cstring)
  : bool * gset Z :=
  if fst r then r else first_found cands (snd r).

(** A changed form of a word counts when it differs from the word. *)
Definition differing (casestr sWord : cstring) : list cstring :=
  if strcmp casestr sWord =? 0 then [] else [casestr].

(** Lower case, upper case, and a capital followed by lower case. *)
Definition case_candidates (sWord : cstring) : list cstring :=
  let n := Z.to_nat (g_utf8_skip (deref sWord)) in
  differing (g_utf8_strdown sWord) sWord
  ++ differing (g_utf8_strup sWord) sWord
  ++ differing (g_utf8_strup (take n sWord) ++ g_utf8_strdown (drop n sWord))
       sWord.

(** A stem, and the stem in lower case when the suffix was in upper case or
    the word begins with a capital. *)
Definition stem_candidates (sWord stem : cstring) (isupcase : bool)
  : list cstring :=
  stem :: (if isupcase || g_ascii_isupper (deref sWord)
           then differing (strdown stem) stem else []).

(** The last byte of the word. *)
Definition last_byte (sWord : cstring) : Z := nth (length sWord - 1) sWord 0.

(** Without a final "s" or the "d" of "ed". *)
Definition s_ed_candidates (sWord : cstring) : list cstring :=
  if (1 <? Z.of_nat (length sWord)) then
    let isupcase := (last_byte sWord =? 83) || ends_with sWord (str "ED") in
    if isupcase || (last_byte sWord =? 115) || ends_with sWord (str "ed")
    then stem_candidates sWord (take (length sWord - 1) sWord) isupcase
    else []
  else [].

(** Without the suffix, [add] in its place. *)
Definition simple_candidates (minlen : Z) (LIT lit ADD add : cstring)
    (sWord : cstring) : list cstring :=
  if (minlen <? Z.of_nat (length sWord))
     && (ends_with sWord LIT || ends_with sWord lit) then
    let isupcase := ends_with sWord LIT in
    stem_candidates sWord
      (take (length sWord - length lit) sWord ++ (if isupcase then ADD else add))
      isupcase
  else [].

(** The stem has more than three letters and ends in a doubled consonant
    behind a vowel. *)
Definition ends_doubled (stem : cstring) : bool :=
  let m := length stem in
  (3 <? m)%nat
  && (nth (m - 1) stem 0 =? nth (m - 2) stem 0)
  && negb (bIsVowel (nth (m - 2) stem 0))
  && bIsVowel (nth (m - 3) stem 0).

(** Without the suffix: first with the doubled consonant undone, then as it
    is, then with an "e". *)
Definition doubled_candidates (minlen : Z) (LIT lit : cstring) (with_e : bool)
    (sWord : cstring) : list cstring :=
  if (minlen <? Z.of_nat (length sWord))
     && (ends_with sWord LIT || ends_with sWord lit) then
    let isupcase := ends_with sWord LIT in
    let stem := take (length sWord - length lit) sWord in
    (if ends_doubled stem
     then stem_candidates sWord (take (length stem - 1) stem) isupcase
     else [])
    ++ stem_candidates sWord stem isupcase
    ++ (if with_e
        then stem_candidates sWord
               (stem ++ (if isupcase then str "E" else str "e")) isupcase
        else [])
  else [].

(** "es" behind "s", "x", "o", "ch" or "sh". *)
Definition es_ending (sWord lit : cstring) (cS cX cO cH cC : Z) : bool :=
  let m := length sWord in
  ends_with sWord lit
  && ((nth (m - 3) sWord 0 =? cS) || (nth (m - 3) sWord 0 =? cX)
      || (nth (m - 3) sWord 0 =? cO)
      || ((4 <? Z.of_nat m) && (nth (m - 3) sWord 0 =? cH)
          && ((nth (m - 4) sWord 0 =? cC) || (nth (m - 4) sWord 0 =? cS)))).

Definition es_candidates (sWord : cstring) : list cstring :=
  if (3 <? Z.of_nat (length sWord)) then
    let isupcase := es_ending sWord (str "ES") 83 88 79 72 67 in
    if isupcase || es_ending sWord (str "es") 115 120 111 104 99
    then stem_candidates sWord (take (length sWord - 2) sWord) isupcase
    else []
  else [].

(** All the words that [LookupSimilarWord] tries for [sWord], in order. *)
Definition similar_candidates (sWord : cstring) : list cstring :=
  case_candidates sWord
  ++ (if bIsPureEnglish sWord then
        s_ed_candidates sWord
        ++ doubled_candidates 2 (str "LY") (str "ly") false sWord
        ++ doubled_candidates 3 (str "ING") (str "ing") true sWord
        ++ es_candidates sWord
        ++ doubled_candidates 3 (str "ED") (str "ed") false sWord
        ++ simple_candidates 3 (str "IED") (str "ied") (str "Y") (str "y") sWord
        ++ simple_candidates 3 (str "IES") (str "ies") (str "Y") (str "y") sWord
        ++ simple_candidates 2 (str "ER") (str "er") [] [] sWord
        ++ simple_candidates 3 (str "EST") (str "est") [] [] sWord
      else []).

Lemma first_found_app a b idxs :
  first_found (a ++ b) idxs = then_try (first_found a idxs) b.
Proof.
  revert idxs. induction a as [|c a IH]; intros idxs; cbn [app first_found].
  - reflexivity.
  - destruct (Lookup c idxs) as [found idxs1]. destruct found; [reflexivity|].
    apply IH.
Qed.

Lemma then_try_app r a b :
  then_try r (a ++ b) = then_try (then_try r a) b.
Proof.
  unfold then_try at 1 3. destruct (fst r) eqn:E.
  - unfold then_try. now rewrite E.
  - apply first_found_app.
Qed.

Lemma then_try_nil r : then_try r [] = r.
Proof. unfold then_try. destruct r as [[|] i]; reflexivity. Qed.

Lemma lookup_lowered_differing stem idxs :
  lookup_lowered Lookup stem idxs
  = first_found (differing (strdown stem) stem) idxs.
Proof.
  unfold lookup_lowered, differing.
  destruct (strcmp (strdown stem) stem =? 0); [reflexivity|].
  cbn [first_found]. destruct (Lookup (strdown stem) idxs) as [[|] i]; reflexivity.
Qed.

Lemma lookup_if_differs_differing casestr sWord idxs :
  lookup_if_differs Lookup casestr sWord idxs
  = first_found (differing casestr sWord) idxs.
Proof.
  unfold lookup_if_differs, differing.
  destruct (strcmp casestr sWord =? 0); [reflexivity|].
  cbn [first_found]. destruct (Lookup casestr idxs) as [[|] i]; reflexivity.
Qed.

Variable sWord : cstring.
Hypothesis sWord_cstr : is_cstr sWord.
Hypothesis sWord_nonempty : sWord <> [].

Lemma deref_nth : deref sWord = nth 0 sWord 0.
Proof. destruct sWord; reflexivity. Qed.

Lemma returns_lookup_stem stem isupcase idxs :
  mem_returns sWord (lookup_stem Lookup sWord stem isupcase idxs)
    (first_found (stem_candidates sWord stem isupcase) idxs).
Proof.
  unfold lookup_stem, stem_candidates. cbn [first_found].
  destruct (Lookup stem idxs) as [found idxs1].
  destruct found; [apply returns_ret|].
  assert (Hlen : 0 < Z.of_nat (length sWord))
    by (destruct sWord; [congruence | cbn; lia]).
  eapply returns_bind with (a := isupcase || g_ascii_isupper (deref sWord)).
  - destruct isupcase; [apply returns_ret|]. cbn [orb].
    eapply returns_bind; [apply (returns_load sWord sWord 0); lia|].
    rewrite deref_nth. apply returns_ret.
  - destruct (isupcase || g_ascii_isupper (deref sWord)).
    + rewrite lookup_lowered_differing. apply returns_ret.
    + apply returns_ret.
Qed.

Lemma returns_truncate_at k :
  0 <= k <= Z.of_nat (length sWord) ->
  mem_returns sWord (truncate_at sWord k) (take (Z.to_nat k) sWord).
Proof.
  intros Hk. unfold truncate_at.
  destruct (Z.leb_spec 0 k); [|lia].
  destruct (Z.leb_spec k (Z.of_nat (length sWord))); [|lia].
  apply returns_ret.
Qed.

Lemma returns_cut_simple minlen LIT lit ADD add r :
  is_cstr LIT -> is_cstr lit -> length LIT = length lit ->
  Z.of_nat (length lit) <= minlen + 1 ->
  (length ADD <= length lit)%nat -> (length add <= length lit)%nat ->
  mem_returns sWord
    (cut_simple Lookup minlen LIT lit ADD add sWord (fst r) (snd r))
    (then_try r (simple_candidates minlen LIT lit ADD add sWord)).
Proof.
  intros HLIT Hlit Hll Hmin HADD Hadd.
  unfold cut_simple, simple_candidates, then_try.
  destruct (fst r) eqn:Ef; cbn [negb andb];
    [destruct r; cbn in *; subst; apply returns_ret|].
  destruct (Z.ltb_spec minlen (Z.of_nat (length sWord))) as [Hlt|Hge];
    cbn [andb]; [|destruct r; cbn in *; subst; apply returns_ret].
  eapply returns_bind;
    [apply returns_has_suffix; [assumption | assumption | lia]|].
  eapply returns_bind with
    (a := ends_with sWord LIT || ends_with sWord lit).
  { destruct (ends_with sWord LIT); [apply returns_ret|]. cbn [orb].
    apply returns_has_suffix; [assumption | assumption | lia]. }
  destruct (ends_with sWord LIT || ends_with sWord lit);
    [|destruct r; cbn in *; subst; apply returns_ret].
  eapply returns_bind; [apply returns_truncate_at; lia|].
  replace (Z.to_nat (Z.of_nat (length sWord) - Z.of_nat (length lit)))
    with (length sWord - length lit)%nat by lia.
  eapply returns_bind.
  { unfold strcat_in.
    destruct (Z.leb_spec
                (Z.of_nat (length (take (length sWord - length lit) sWord
                                   ++ (if ends_with sWord LIT then ADD else add))))
                (Z.of_nat (length sWord))) as [_|Hbad]; [apply returns_ret|].
    exfalso. rewrite length_app, length_take in Hbad.
    destruct (ends_with sWord LIT); lia. }
  apply returns_lookup_stem.
Qed.

Lemma returns_is_doubled stem :
  (length stem <= length sWord)%nat ->
  mem_returns sWord
    (is_doubled stem (Z.of_nat (length sWord))
       (Z.of_nat (length sWord) - Z.of_nat (length stem) + 1))
    (ends_doubled stem).
Proof.
  intros Hle. unfold is_doubled, ends_doubled.
  set (len := Z.of_nat (length sWord)).
  set (m := length stem) in *.
  replace (len - (len - Z.of_nat m + 1)) with (Z.of_nat m - 1) by lia.
  replace (len - Z.of_nat m + 1 + 2 <? len) with (3 <? m)%nat.
  2:{ destruct (Nat.ltb_spec 3 m), (Z.ltb_spec (len - Z.of_nat m + 1 + 2) len);
      first [reflexivity | lia]. }
  destruct (Nat.ltb_spec 3 m) as [Hm|Hm]; [|apply returns_ret].
  cbn [andb].
  assert (Hload : forall j, (1 <= j <= 3)%nat ->
            mem_returns sWord (load stem (Z.of_nat m - Z.of_nat j))
              (nth (m - j) stem 0)).
  { intros j Hj.
    replace (m - j)%nat with (Z.to_nat (Z.of_nat m - Z.of_nat j)) by lia.
    apply returns_load; subst len m; lia. }
  eapply returns_bind; [apply (Hload 1%nat); lia|].
  eapply returns_bind;
    [replace (Z.of_nat m - 1 - 1) with (Z.of_nat m - Z.of_nat 2) by lia;
     apply (Hload 2%nat); lia|].
  destruct (nth (m - 1) stem 0 =? nth (m - 2) stem 0); [|apply returns_ret].
  cbn [andb].
  eapply returns_bind;
    [replace (Z.of_nat m - 1 - 1) with (Z.of_nat m - Z.of_nat 2) by lia;
     apply (Hload 2%nat); lia|].
  destruct (negb (bIsVowel (nth (m - 2) stem 0))); [|apply returns_ret].
  cbn [andb].
  eapply returns_bind;
    [replace (Z.of_nat m - 1 - 2) with (Z.of_nat m - Z.of_nat 3) by lia;
     apply (Hload 3%nat); lia|].
  apply returns_ret.
Qed.

(** Putting the doubled letter back gives the stem again. *)
Lemma restore_doubled (stem : cstring) :
  (2 <= length stem)%nat ->
  nth (length stem - 1) stem 0 = nth (length stem - 2) stem 0 ->
  take (length stem - 1) stem
  ++ [nth (length stem - 2) (take (length stem - 1) stem) 0] = stem.
Proof.
  intros Hm He.
  destruct (lookup_lt_is_Some_2 stem (length stem - 1)) as [x Hx]; [lia|].
  pose proof (take_S_r stem (length stem - 1) x Hx) as Ht.
  replace (S (length stem - 1)) with (length stem) in Ht by lia.
  rewrite firstn_all in Ht.
  assert (Hc : nth (length stem - 1) stem 0 = x)
    by (apply nth_lookup_Some; exact Hx).
  assert (Hn : nth (length stem - 2) (take (length stem - 1) stem) 0
               = nth (length stem - 2) stem 0).
  { rewrite !nth_lookup. first [rewrite lookup_take_lt by lia
                               | rewrite lookup_take by lia]. reflexivity. }
  rewrite Hn, <- He, Hc. symmetry. exact Ht.
Qed.

Lemma returns_try_doubled stem isupcase idxs :
  (length stem <= length sWord)%nat ->
  mem_returns sWord
    (try_doubled Lookup sWord stem
       (Z.of_nat (length sWord) - Z.of_nat (length stem) + 1) isupcase idxs)
    (if ends_doubled stem then
       let r := first_found
                  (stem_candidates sWord (take (length stem - 1) stem) isupcase)
                  idxs in
       (r, if fst r then take (length stem - 1) stem else stem)
     else ((false, idxs), stem)).
Proof.
  intros Hle. unfold try_doubled.
  eapply returns_bind; [apply returns_is_doubled; assumption|].
  destruct (ends_doubled stem) eqn:Ed; [|apply returns_ret].
  unfold ends_doubled in Ed.
  apply andb_prop in Ed as [Ed _]. apply andb_prop in Ed as [Ed _].
  apply andb_prop in Ed as [Hm He].
  apply Nat.ltb_lt in Hm. apply Z.eqb_eq in He.
  replace (Z.of_nat (length sWord)
           - (Z.of_nat (length sWord) - Z.of_nat (length stem) + 1))
    with (Z.of_nat (length stem) - 1) by lia.
  unfold truncate_at.
  destruct (Z.leb_spec 0 (Z.of_nat (length stem) - 1)); [|lia].
  destruct (Z.leb_spec (Z.of_nat (length stem) - 1) (Z.of_nat (length stem)));
    [|lia].
  cbn [andb].
  replace (Z.to_nat (Z.of_nat (length stem) - 1))
    with (length stem - 1)%nat by lia.
  eapply returns_bind; [apply returns_ret|].
  eapply returns_bind; [apply returns_lookup_stem|].
  cbv zeta.
  destruct (fst (first_found
                   (stem_candidates sWord (take (length stem - 1) stem) isupcase)
                   idxs)); [apply returns_ret|].
  eapply returns_bind.
  { apply (returns_load sWord (take (length stem - 1) stem)
             (Z.of_nat (length stem) - 1 - 1));
      [lia | rewrite length_take; lia | lia]. }
  replace (Z.to_nat (Z.of_nat (length stem) - 1 - 1))
    with (length stem - 2)%nat by lia.
  rewrite restore_doubled by (first [lia | assumption]).
  apply returns_ret.
Qed.

Lemma returns_cut_doubled minlen LIT lit with_e r :
  is_cstr LIT -> is_cstr lit -> length LIT = length lit ->
  Z.of_nat (length lit) <= minlen + 1 -> (1 <= length lit)%nat ->
  mem_returns sWord
    (cut_doubled Lookup minlen LIT lit with_e sWord (fst r) (snd r))
    (then_try r (doubled_candidates minlen LIT lit with_e sWord)).
Proof.
  intros HLIT Hlit Hll Hmin Hn.
  unfold cut_doubled, doubled_candidates, then_try.
  destruct (fst r) eqn:Ef; cbn [negb andb];
    [destruct r; cbn in *; subst; apply returns_ret|].
  destruct (Z.ltb_spec minlen (Z.of_nat (length sWord))) as [Hlt|Hge];
    cbn [andb]; [|destruct r; cbn in *; subst; apply returns_ret].
  eapply returns_bind;
    [apply returns_has_suffix; [assumption | assumption | lia]|].
  eapply returns_bind with
    (a := ends_with sWord LIT || ends_with sWord lit).
  { destruct (ends_with sWord LIT); [apply returns_ret|]. cbn [orb].
    apply returns_has_suffix; [assumption | assumption | lia]. }
  destruct (ends_with sWord LIT || ends_with sWord lit);
    [|destruct r; cbn in *; subst; apply returns_ret].
  eapply returns_bind; [apply returns_truncate_at; lia|].
  replace (Z.to_nat (Z.of_nat (length sWord) - Z.of_nat (length lit)))
    with (length sWord - length lit)%nat by lia.
  set (isupcase := ends_with sWord LIT).
  set (stem := take (length sWord - length lit) sWord).
  assert (Hstem : length stem = (length sWord - length lit)%nat)
    by (subst stem; rewrite length_take; lia).
  cbv zeta.
  eapply returns_bind.
  { replace (Z.of_nat (length lit) + 1)
      with (Z.of_nat (length sWord) - Z.of_nat (length stem) + 1) by lia.
    apply returns_try_doubled. lia. }
  rewrite first_found_app.
  destruct (ends_doubled stem).
  - cbv zeta. cbn [fst snd].
    set (r1 := first_found
                 (stem_candidates sWord (take (length stem - 1) stem) isupcase)
                 (snd r)).
    unfold then_try at 1.
    destruct (fst r1) eqn:E1; [apply returns_ret|].
    rewrite first_found_app.
    eapply returns_bind; [apply returns_lookup_stem|].
    set (r2 := first_found (stem_candidates sWord stem isupcase) (snd r1)).
    unfold then_try.
    destruct (fst r2) eqn:E2; cbn [orb]; [apply returns_ret|].
    destruct with_e; cbn [negb].
    + eapply returns_bind; [|apply returns_lookup_stem].
      unfold strcat_in.
      destruct (Z.leb_spec
                  (Z.of_nat (length (stem ++ (if isupcase then str "E"
                                              else str "e"))))
                  (Z.of_nat (length sWord))) as [_|Hbad]; [apply returns_ret|].
      exfalso. rewrite length_app in Hbad.
      destruct isupcase; cbn in Hbad; lia.
    + destruct r2; cbn in *; subst; apply returns_ret.
  - cbn [fst snd first_found]. unfold then_try at 1. cbn [fst snd].
    rewrite first_found_app.
    eapply returns_bind; [apply returns_lookup_stem|].
    set (r2 := first_found (stem_candidates sWord stem isupcase) (snd r)).
    unfold then_try.
    destruct (fst r2) eqn:E2; cbn [orb]; [apply returns_ret|].
    destruct with_e; cbn [negb].
    + eapply returns_bind; [|apply returns_lookup_stem].
      unfold strcat_in.
      destruct (Z.leb_spec
                  (Z.of_nat (length (stem ++ (if isupcase then str "E"
                                              else str "e"))))
                  (Z.of_nat (length sWord))) as [_|Hbad]; [apply returns_ret|].
      exfalso. rewrite length_app in Hbad.
      destruct isupcase; cbn in Hbad; lia.
    + destruct r2; cbn in *; subst; apply returns_ret.
Qed.

Lemma returns_es_test lit cS cX cO cH cC :
  is_cstr lit -> length lit = 2%nat -> 3 < Z.of_nat (length sWord) ->
  mem_returns sWord (es_test sWord lit cS cX cO cH cC)
    (es_ending sWord lit cS cX cO cH cC).
Proof.
  intros Hlit Hl Hlen. unfold es_test, es_ending.
  eapply returns_bind;
    [apply returns_has_suffix; [assumption | assumption | lia]|].
  destruct (ends_with sWord lit); [|apply returns_ret]. cbn [andb].
  assert (H3 : mem_returns sWord (load sWord (Z.of_nat (length sWord) - 3))
                 (nth (length sWord - 3) sWord 0)).
  { replace (length sWord - 3)%nat
      with (Z.to_nat (Z.of_nat (length sWord) - 3)) by lia.
    apply returns_load; lia. }
  set (a := nth (length sWord - 3) sWord 0) in *.
  eapply returns_bind; [exact H3|].
  destruct (a =? cS); [apply returns_ret|]. cbn [orb].
  eapply returns_bind; [exact H3|].
  destruct (a =? cX); [apply returns_ret|]. cbn [orb].
  eapply returns_bind; [exact H3|].
  destruct (a =? cO); [apply returns_ret|]. cbn [orb].
  destruct (Z.ltb_spec 4 (Z.of_nat (length sWord))) as [H4|H4];
    [|apply returns_ret]. cbn [andb].
  eapply returns_bind; [exact H3|].
  destruct (a =? cH); [|apply returns_ret]. cbn [andb].
  assert (Hb : mem_returns sWord (load sWord (Z.of_nat (length sWord) - 4))
                 (nth (length sWord - 4) sWord 0)).
  { replace (length sWord - 4)%nat
      with (Z.to_nat (Z.of_nat (length sWord) - 4)) by lia.
    apply returns_load; lia. }
  eapply returns_bind; [exact Hb|].
  destruct (nth (length sWord - 4) sWord 0 =? cC); [apply returns_ret|].
  cbn [orb].
  eapply returns_bind; [exact Hb|]. apply returns_ret.
Qed.

Lemma is_cstr_str2 a b :
  0 < a < 256 -> 0 < b < 256 -> is_cstr [a; b].
Proof. intros Ha Hb. repeat constructor; lia. Qed.

Lemma returns_cut_es r :
  mem_returns sWord (cut_es Lookup sWord (fst r) (snd r))
    (then_try r (es_candidates sWord)).
Proof.
  unfold cut_es, es_candidates, then_try.
  destruct (fst r) eqn:Ef; cbn [negb andb];
    [destruct r; cbn in *; subst; apply returns_ret|].
  destruct (Z.ltb_spec 3 (Z.of_nat (length sWord))) as [Hlt|Hge];
    [|destruct r; cbn in *; subst; apply returns_ret].
  eapply returns_bind;
    [apply returns_es_test;
       [repeat constructor | reflexivity | assumption]|].
  eapply returns_bind with
    (a := es_ending sWord (str "ES") 83 88 79 72 67
          || es_ending sWord (str "es") 115 120 111 104 99).
  { destruct (es_ending sWord (str "ES") 83 88 79 72 67);
      [apply returns_ret|]. cbn [orb].
    apply returns_es_test;
      [repeat constructor | reflexivity | assumption]. }
  destruct (es_ending sWord (str "ES") 83 88 79 72 67
            || es_ending sWord (str "es") 115 120 111 104 99);
    [|destruct r; cbn in *; subst; apply returns_ret].
  eapply returns_bind; [apply returns_truncate_at; lia|].
  replace (Z.to_nat (Z.of_nat (length sWord) - 2))
    with (length sWord - 2)%nat by lia.
  apply returns_lookup_stem.
Qed.

Lemma returns_trim_s_ed r :
  mem_returns sWord (trim_s_ed Lookup sWord (fst r) (snd r))
    (then_try r (s_ed_candidates sWord)).
Proof.
  unfold trim_s_ed, s_ed_candidates, then_try.
  destruct (fst r) eqn:Ef; cbn [negb andb];
    [destruct r; cbn in *; subst; apply returns_ret|].
  destruct (Z.ltb_spec 1 (Z.of_nat (length sWord))) as [Hlt|Hge];
    [|destruct r; cbn in *; subst; apply returns_ret].
  assert (Hlast : mem_returns sWord (load sWord (Z.of_nat (length sWord) - 1))
                    (last_byte sWord)).
  { unfold last_byte.
    replace (length sWord - 1)%nat
      with (Z.to_nat (Z.of_nat (length sWord) - 1)) by lia.
    apply returns_load; lia. }
  assert (Hsuf : forall a b, 0 < a < 256 -> 0 < b < 256 ->
            mem_returns sWord
              (do r0 <- strncmp_at sWord (Z.of_nat (length sWord) - 2) [a; b] 2 ;;
               mem_ret (r0 =? 0))
              (ends_with sWord [a; b])).
  { intros a b Ha Hb.
    apply (returns_has_suffix sWord [a; b]);
      [assumption | apply is_cstr_str2; assumption | cbn; lia]. }
  eapply returns_bind; [exact Hlast|].
  eapply returns_bind with
    (a := (last_byte sWord =? 83) || ends_with sWord (str "ED")).
  { destruct (last_byte sWord =? 83); [apply returns_ret|]. cbn [orb].
    apply (Hsuf 69 68); lia. }
  set (isupcase := (last_byte sWord =? 83) || ends_with sWord (str "ED")).
  eapply returns_bind with
    (a := isupcase || (last_byte sWord =? 115) || ends_with sWord (str "ed")).
  { destruct isupcase; [apply returns_ret|]. cbn [orb].
    eapply returns_bind; [exact Hlast|].
    destruct (last_byte sWord =? 115); [apply returns_ret|]. cbn [orb].
    apply (Hsuf 101 100); lia. }
  destruct (isupcase || (last_byte sWord =? 115) || ends_with sWord (str "ed"));
    [|destruct r; cbn in *; subst; apply returns_ret].
  replace (Z.to_nat (Z.of_nat (length sWord) - 1))
    with (length sWord - 1)%nat by lia.
  apply (returns_lookup_stem (take (length sWord - 1) sWord) isupcase (snd r)).
Qed.

Lemma returns_case_variants idxs :
  0 <= g_utf8_skip (deref sWord) <= Z.of_nat (length sWord) ->
  mem_returns sWord
    (case_variants Lookup g_utf8_strdown g_utf8_strup g_utf8_skip sWord idxs)
    (first_found (case_candidates sWord) idxs).
Proof.
  intros Hskip. unfold case_variants, case_candidates. cbv zeta.
  rewrite first_found_app, !lookup_if_differs_differing.
  destruct (first_found (differing (g_utf8_strdown sWord) sWord) idxs)
    as [found1 idxs1] eqn:E1.
  unfold then_try at 1. cbn [fst snd].
  destruct found1; [apply returns_ret|].
  rewrite first_found_app, lookup_if_differs_differing.
  destruct (first_found (differing (g_utf8_strup sWord) sWord) idxs1)
    as [found2 idxs2] eqn:E2.
  unfold then_try. cbn [fst snd].
  destruct found2; [apply returns_ret|].
  assert (Hlen : 0 < Z.of_nat (length sWord))
    by (destruct sWord; [congruence | cbn; lia]).
  eapply returns_bind; [apply (returns_load sWord sWord 0); lia|].
  change (Z.to_nat 0) with 0%nat. rewrite <- deref_nth.
  destruct (Z.leb_spec 0 (g_utf8_skip (deref sWord))); [|lia].
  destruct (Z.leb_spec (g_utf8_skip (deref sWord)) (Z.of_nat (length sWord)));
    [|lia].
  cbn [andb]. rewrite lookup_if_differs_differing. apply returns_ret.
Qed.

End SimilarCandidates.

Lemma returns_LookupSimilarWord
    (Lookup : cstring -> gset Z -> bool * gset Z)
    (g_utf8_strdown g_utf8_strup : cstring -> cstring) (g_utf8_skip : Z -> Z)
    (sWord : cstring) (idxs : gset Z) :
  is_cstr sWord -> sWord <> [] ->
  0 <= g_utf8_skip (deref sWord) <= Z.of_nat (length sWord) ->
  mem_returns sWord
    (LookupSimilarWord Lookup g_utf8_strdown g_utf8_strup g_utf8_skip sWord idxs)
    (first_found Lookup
       (similar_candidates g_utf8_strdown g_utf8_strup g_utf8_skip sWord) idxs).
Proof.
  intros Hs Hne Hskip. unfold LookupSimilarWord, similar_candidates.
  rewrite first_found_app.
  eapply returns_bind;
    [apply returns_case_variants; assumption|].
  set (r0 := first_found Lookup
               (case_candidates g_utf8_strdown g_utf8_strup g_utf8_skip sWord)
               idxs).
  destruct (bIsPureEnglish sWord);
    [|rewrite then_try_nil; apply returns_ret].
  rewrite !then_try_app.
  eapply returns_bind; [apply returns_trim_s_ed; assumption|].
  eapply returns_bind;
    [apply returns_cut_doubled;
       first [assumption | reflexivity | cbn; lia | solve [repeat constructor]]|].
  eapply returns_bind;
    [apply returns_cut_doubled;
       first [assumption | reflexivity | cbn; lia | solve [repeat constructor]]|].
  eapply returns_bind; [apply returns_cut_es; assumption|].
  eapply returns_bind;
    [apply returns_cut_doubled;
       first [assumption | reflexivity | cbn; lia | solve [repeat constructor]]|].
  eapply returns_bind;
    [apply returns_cut_simple;
       first [assumption | reflexivity | cbn; lia | solve [repeat constructor]]|].
  eapply returns_bind;
    [apply returns_cut_simple;
       first [assumption | reflexivity | cbn; lia | solve [repeat constructor]]|].
  eapply returns_bind;
    [apply returns_cut_simple;
       first [assumption | reflexivity | cbn; lia | solve [repeat constructor]]|].
  apply returns_cut_simple;
    first [assumption | reflexivity | cbn; lia | solve [repeat constructor]].
Qed.

(** X18.  For a non-empty word whose first character lies inside it,
    [LookupSimilarWord] looks up the words of [similar_candidates] in their
    order, stops at the first one that is found, and reads the word only at
    indices before its terminator. *)
Theorem LookupSimilarWord_tries_candidates
    (Lookup : cstring -> gset Z -> bool * gset Z)
    (g_utf8_strdown g_utf8_strup : cstring -> cstring) (g_utf8_skip : Z -> Z)
    (sWord : cstring) (idxs : gset Z) :
  is_cstr sWord -> sWord <> [] ->
  0 <= g_utf8_skip (deref sWord) <= Z.of_nat (length sWord) ->
  exists tr,
    LookupSimilarWord Lookup g_utf8_strdown g_utf8_strup g_utf8_skip
      sWord idxs []
    = Some (first_found Lookup
              (similar_candidates g_utf8_strdown g_utf8_strup g_utf8_skip sWord)
              idxs, tr)
    /\ reads_in_bounds sWord tr.
Proof.
  intros Hs Hne Hskip.
  apply (returns_LookupSimilarWord Lookup g_utf8_strdown g_utf8_strup
           g_utf8_skip sWord idxs Hs Hne Hskip []).
  constructor.
Qed.

(** A dictionary with the one headword "hop", at index 7. *)
Definition lookup_hop (w : cstring) (idxs : gset Z) : bool * gset Z :=
  if strcmp w (str "hop") =? 0 then (true, {[7]} ∪ idxs) else (false, idxs).

Lemma LookupSimilarWord_tries_candidates_witness :
  exists tr,
    LookupSimilarWord lookup_hop strdown (map g_ascii_toupper) (fun _ => 1)
      (str "Hopping") ∅ []
    = Some (first_found lookup_hop
              (similar_candidates strdown (map g_ascii_toupper) (fun _ => 1)
                 (str "Hopping")) ∅, tr)
    /\ reads_in_bounds (str "Hopping") tr.
Proof.
  apply (LookupSimilarWord_tries_candidates lookup_hop strdown
           (map g_ascii_toupper) (fun _ => 1) (str "Hopping") ∅).
  - repeat constructor.
  - discriminate.
  - cbn. lia.
Defined.

(** X19.  When the first byte of the word announces a character that is
    longer than the word (the empty word is the case of one byte announced
    and none there) and neither the lower-case nor the upper-case form is
    found, the attempt with a capital first letter takes the rest of the
    word from behind its terminator: [LookupSimilarWord] reads outside the
    word. *)
Theorem LookupSimilarWord_first_char_past_end
    (Lookup : cstring -> gset Z -> bool * gset Z)
    (g_utf8_strdown g_utf8_strup : cstring -> cstring) (g_utf8_skip : Z -> Z)
    (sWord : cstring) (idxs idxs1 idxs2 : gset Z) (tr : list Z) :
  Z.of_nat (length sWord) < g_utf8_skip (deref sWord) ->
  lookup_if_differs Lookup (g_utf8_strdown sWord) sWord idxs = (false, idxs1) ->
  lookup_if_differs Lookup (g_utf8_strup sWord) sWord idxs1 = (false, idxs2) ->
  LookupSimilarWord Lookup g_utf8_strdown g_utf8_strup g_utf8_skip
    sWord idxs tr = None.
Proof.
  intros Hskip E1 E2.
  unfold LookupSimilarWord, mem_bind, case_variants.
  rewrite E1, E2. unfold mem_bind, load.
  destruct (Z.leb_spec 0 0); [|lia].
  destruct (Z.leb_spec 0 (Z.of_nat (length sWord))); [|lia].
  cbn [andb]. change (Z.to_nat 0) with 0%nat.
  replace (nth 0 sWord 0) with (deref sWord) by (destruct sWord; reflexivity).
  destruct (Z.leb_spec (g_utf8_skip (deref sWord)) (Z.of_nat (length sWord)));
    [lia|].
  rewrite andb_false_r. reflexivity.
Qed.

Lemma LookupSimilarWord_first_char_past_end_witness :
  LookupSimilarWord lookup_hop strdown (map g_ascii_toupper) (fun _ => 1)
    [] ∅ [] = None.
Proof.
  apply (LookupSimilarWord_first_char_past_end lookup_hop strdown
           (map g_ascii_toupper) (fun _ => 1) [] ∅ ∅ ∅ []).
  - cbn. lia.
  - reflexivity.
  - reflexivity.
Defined.

(** * The cache of page offsets: [OffsetIndex::load_cache] and
      [OffsetIndex::save_cache] (lines 549-616) *)

Definition CACHE_MAGIC : cstring := str "StarDict's Cache, Version: 0.2".

Definition CACHE_MAGIC_BYTES : Z := 0x51a4d1c1.

(** What [g_stat] and a mapping show of a file. *)
Record stat_file := { st_mtime : Z; st_content : list Z }.

Definition st_size (f : stat_file) : Z := Z.of_nat (length (st_content f)).

(** The files by their names. *)
Definition file_system : Type := gmap (list Z) stat_file.

(** [strncmp (buf, lit, n)] on a mapping [buf], which has no terminator of
    its own: the byte behind its last one is outside the mapping. *)
Fixpoint strncmp_mapped (buf : list Z) (lit : cstring) (n : nat) {struct n}
  : result Z :=
  match n with
  | O => Ok 0
  | S n' =>
      match buf with
      | [] => Undefined
      | c1 :: buf' =>
          let c2 := deref lit in
          if c1 =? c2 then
            if c1 =? 0 then Ok 0 else strncmp_mapped buf' (tl lit) n'
          else Ok (c1 - c2)
      end
  end.

(** [memcpy (dst, buf + pos, n)]: the bytes copied out of the mapping. *)
Definition memcpy_mapped (buf : list Z) (pos n : Z) : result (list Z) :=
  if (0 <=? pos) && (0 <=? n) && (pos + n <=? Z.of_nat (length buf))
  then Ok (take (Z.to_nat n) (drop (Z.to_nat pos) buf))
  else Undefined.

Section CacheFile.

(** The four bytes of a [guint32] in memory, in the byte order of the host,
    and the [guint32] that four bytes in memory are. *)
Variable object_bytes : Z -> list Z.
Variable object_value : list Z -> Z.

(** Modelled from the spec: [MapFile] is a read-only view of a file of known
    size, a pointer to its first byte and its length; the file may fail to
    be mapped (an empty file, a limit of the platform), which the caller
    recovers from.  [MapFile_open] is the view got of a file for a size,
    when there is one. *)
Variable MapFile_open : stat_file -> Z -> option (list Z).

(** Whether [fopen (item, "wb")] gives a stream; the number of items that
    [fwrite (ptr, size, nmemb, out)] writes to the file [item] at a
    position; the time of the writes. *)
Variable fopen_wb : list Z -> bool.
Variable fwrite_count : list Z -> Z -> Z -> Z -> Z.
Variable now : Z.

(** [n] values of type [guint32] copied from [raw]. *)
Fixpoint guint32_array (raw : list Z) (n : nat) : list Z :=
  match n with
  | O => []
  | S n' => object_value (take 4 raw) :: guint32_array (drop 4 raw) n'
  end.

(** One round of the loop of [load_cache]: [None] is [continue], [Some] is
    [wordoffset] at [return true]. *)
Definition load_cache_item (idxstat cachestat : option stat_file)
    (wordoffset : list Z) : result (option (list Z)) :=
  match idxstat, cachestat with
  | Some idxstat, Some cachestat =>
      if st_mtime cachestat <? st_mtime idxstat then Ok None
      else
        match MapFile_open cachestat (st_size cachestat) with
        | None => Ok None
        | Some mf =>
            let strlen_magic := Z.of_nat (length CACHE_MAGIC) in
            let* d := strncmp_mapped mf CACHE_MAGIC (length CACHE_MAGIC) in
            if negb (d =? 0) then Ok None
            else
              let* tmp := memcpy_mapped mf strlen_magic 4 in
              if negb (object_value tmp =? CACHE_MAGIC_BYTES) then Ok None
              else
                let* raw :=
                  memcpy_mapped mf (strlen_magic + 4)
                    (Z.of_nat (length wordoffset) * 4) in
                Ok (Some (guint32_array raw (length wordoffset)))
        end
  | _, _ => Ok None
  end.

(** [load_cache (url)]; [vars] is the value of [get_cache_variant (url)],
    which asks the file system for the cache directory.  The result is the
    value returned and [wordoffset]. *)
Fixpoint load_cache (fs : file_system) (url : list Z) (vars : list (list Z))
    (wordoffset : list Z) : result (bool * list Z) :=
  match vars with
  | [] => Ok (false, wordoffset)
  | item :: vars' =>
      let* r := load_cache_item (fs !! url) (fs !! item) wordoffset in
      match r with
      | Some wordoffset' => Ok (true, wordoffset')
      | None => load_cache fs url vars' wordoffset
      end
  end.

(** [fwrite (data, size, nmemb, out)] behind the [content] written so far:
    the count returned and the content after it. *)
Definition fwrite (item : list Z) (content data : list Z) (size nmemb : Z)
  : Z * list Z :=
  let k := fwrite_count item (Z.of_nat (length content)) size nmemb in
  (k, content ++ take (Z.to_nat (k * size)) data).

(** What [fopen (item, "wb")] and the writes leave in the file. *)
Definition written (fs : file_system) (item : list Z) (content : list Z)
  : file_system :=
  <[item := {| st_mtime := now; st_content := content |}]> fs.

(** [save_cache (url, verbose)], with [vars] as in [load_cache]: the value
    returned and the files after it. *)
Fixpoint save_cache (fs : file_system) (vars : list (list Z))
    (wordoffset : list Z) : bool * file_system :=
  match vars with
  | [] => (false, fs)
  | item :: vars' =>
      if fopen_wb item then
        let strlen_magic := Z.of_nat (length CACHE_MAGIC) in
        let w1 := fwrite item [] CACHE_MAGIC 1 strlen_magic in
        if negb (fst w1 =? strlen_magic)
        then save_cache (written fs item (snd w1)) vars' wordoffset
        else
          let w2 := fwrite item (snd w1) (object_bytes CACHE_MAGIC_BYTES) 1 4 in
          if negb (fst w2 =? 4)
          then save_cache (written fs item (snd w2)) vars' wordoffset
          else
            let w3 :=
              fwrite item (snd w2) (flat_map object_bytes wordoffset) 4
                (Z.of_nat (length wordoffset)) in
            if negb (fst w3 =? Z.of_nat (length wordoffset))
            then save_cache (written fs item (snd w3)) vars' wordoffset
            else (true, written fs item (snd w3))
      else save_cache fs vars' wordoffset
  end.

(** The table part of [OffsetIndex::load] (lines 620-643), [fsize] being
    the size that the [.ifo] file gives for the index: [None] is
    [return false], otherwise [wordoffset] as it is when the index file gets
    opened for its pages; and the files after it. *)
Definition OffsetIndex_load_table (fs : file_system) (url : list Z)
    (vars : list (list Z)) (wc fsize : Z)
  : result (option (list Z) * file_system) :=
  let npages := ((wc - 1) mod 2 ^ 64) / ENTR_PER_PAGE + 2 in
  let wordoffset := replicate (Z.to_nat npages) 0 in
  let* r := load_cache fs url vars wordoffset in
  if fst r then Ok (Some (snd r), fs)
  else
    match fs !! url ≫= (fun f => MapFile_open f fsize) with
    | None => Ok (None, fs)
    | Some idxdatabuffer =>
        let* wordoffset :=
          defined (page_offsets idxdatabuffer (Z.to_nat wc) 0 0 0 (snd r)) in
        Ok (Some wordoffset, snd (save_cache fs vars wordoffset))
    end.

End CacheFile.

(** *** A table that was saved is the table that is loaded *)

Lemma strncmp_mapped_prefix (lit rest : list Z) :
  is_cstr lit -> strncmp_mapped (lit ++ rest) lit (length lit) = Ok 0.
Proof.
  induction lit as [|c lit IH]; intros Hlit; [reflexivity|].
  apply is_cstr_cons in Hlit as [Hc Hlit].
  cbn [app length strncmp_mapped]. unfold deref. cbn [hd tl].
  rewrite Z.eqb_refl.
  destruct (Z.eqb_spec c 0) as [->|_]; [lia|]. exact (IH Hlit).
Qed.

Lemma memcpy_mapped_mid (a b c : list Z) :
  memcpy_mapped (a ++ b ++ c) (Z.of_nat (length a)) (Z.of_nat (length b))
  = Ok b.
Proof.
  unfold memcpy_mapped.
  destruct (Z.leb_spec 0 (Z.of_nat (length a))); [|lia].
  destruct (Z.leb_spec 0 (Z.of_nat (length b))); [|lia].
  destruct (Z.leb_spec (Z.of_nat (length a) + Z.of_nat (length b))
              (Z.of_nat (length (a ++ b ++ c)))) as [_|Hbad];
    [|rewrite !length_app in Hbad; lia].
  cbn [andb]. rewrite !Nat2Z.id.
  rewrite drop_app_length, take_app_length. reflexivity.
Qed.

Lemma memcpy_mapped_short (buf : list Z) (pos n : Z) :
  Z.of_nat (length buf) < pos + n -> memcpy_mapped buf pos n = Undefined.
Proof.
  intros H. unfold memcpy_mapped.
  destruct (Z.leb_spec (pos + n) (Z.of_nat (length buf))); [lia|].
  now rewrite andb_false_r.
Qed.

(** The values of a [guint32]. *)
Definition is_guint32 (x : Z) : Prop := 0 <= x < 2 ^ 32.

Section CacheFileSpec.

Variable object_bytes : Z -> list Z.
Variable object_value : list Z -> Z.
Variable MapFile_open : stat_file -> Z -> option (list Z).
Variable fopen_wb : list Z -> bool.
Variable fwrite_count : list Z -> Z -> Z -> Z -> Z.
Variable now : Z.

(** A [guint32] takes four bytes, and is the value of its bytes. *)
Hypothesis object_bytes_length :
  forall x, is_guint32 x -> length (object_bytes x) = 4%nat.
Hypothesis object_value_bytes :
  forall x, is_guint32 x -> object_value (object_bytes x) = x.

(** The cache file of a table. *)
Definition cache_content (wordoffset : list Z) : list Z :=
  CACHE_MAGIC ++ object_bytes CACHE_MAGIC_BYTES
  ++ flat_map object_bytes wordoffset.

Lemma CACHE_MAGIC_BYTES_guint32 : is_guint32 CACHE_MAGIC_BYTES.
Proof. unfold is_guint32, CACHE_MAGIC_BYTES. lia. Qed.

Lemma CACHE_MAGIC_cstr : is_cstr CACHE_MAGIC.
Proof. apply is_cstrb_spec. reflexivity. Qed.

Lemma flat_map_object_bytes_length (wordoffset : list Z) :
  Forall is_guint32 wordoffset ->
  Z.of_nat (length (flat_map object_bytes wordoffset))
  = Z.of_nat (length wordoffset) * 4.
Proof.
  induction 1 as [|x wo Hx _ IH]; [reflexivity|].
  cbn [flat_map length]. rewrite length_app, object_bytes_length by assumption.
  lia.
Qed.

Lemma guint32_array_object_bytes (wordoffset : list Z) :
  Forall is_guint32 wordoffset ->
  guint32_array object_value (flat_map object_bytes wordoffset)
    (length wordoffset) = wordoffset.
Proof.
  induction 1 as [|x wo Hx _ IH]; [reflexivity|].
  cbn [flat_map length guint32_array].
  pose proof (object_bytes_length x Hx) as Hl.
  rewrite <- Hl at 1 2.
  rewrite take_app_length, drop_app_length, object_value_bytes, IH
    by assumption.
  reflexivity.
Qed.

(** The round of [load_cache] on a cache file that holds a table, of any
    number of entries: the first entries of the file are taken when there
    are enough of them, and the copy runs out of the file otherwise. *)
Lemma load_cache_item_content (idxstat cachestat : stat_file)
    (saved wordoffset : list Z) :
  st_content cachestat = cache_content saved ->
  MapFile_open cachestat (st_size cachestat) = Some (st_content cachestat) ->
  st_mtime idxstat <= st_mtime cachestat ->
  Forall is_guint32 saved ->
  load_cache_item object_value MapFile_open (Some idxstat) (Some cachestat)
    wordoffset
  = if (length wordoffset <=? length saved)%nat
    then Ok (Some (take (length wordoffset) saved))
    else Undefined.
Proof.
  intros Hc Hopen Hm Hs. unfold load_cache_item.
  destruct (Z.ltb_spec (st_mtime cachestat) (st_mtime idxstat)); [lia|].
  rewrite Hopen, Hc. unfold cache_content. cbv zeta.
  rewrite strncmp_mapped_prefix by apply CACHE_MAGIC_cstr.
  cbn [result_bind]. change (negb (0 =? 0)) with false. cbv iota.
  pose proof (object_bytes_length _ CACHE_MAGIC_BYTES_guint32) as Hl4.
  replace 4 with (Z.of_nat (length (object_bytes CACHE_MAGIC_BYTES))) at 1
    by (rewrite Hl4; reflexivity).
  rewrite memcpy_mapped_mid. cbn [result_bind].
  rewrite object_value_bytes by apply CACHE_MAGIC_BYTES_guint32.
  rewrite Z.eqb_refl. cbn [negb].
  destruct (Nat.leb_spec (length wordoffset) (length saved)) as [Hle|Hgt].
  - rewrite <- (take_drop (length wordoffset) saved) at 1.
    rewrite flat_map_app, (app_assoc CACHE_MAGIC).
    assert (Ht : Forall is_guint32 (take (length wordoffset) saved))
      by (apply Forall_take; assumption).
    replace (Z.of_nat (length CACHE_MAGIC) + 4)
      with (Z.of_nat (length (CACHE_MAGIC ++ object_bytes CACHE_MAGIC_BYTES)))
      by (rewrite length_app, Hl4; lia).
    replace (Z.of_nat (length wordoffset) * 4)
      with (Z.of_nat (length (flat_map object_bytes
                                (take (length wordoffset) saved)))).
    2:{ rewrite flat_map_object_bytes_length by assumption.
        rewrite length_take. lia. }
    rewrite memcpy_mapped_mid. cbn [result_bind].
    replace (length wordoffset)
      with (length (take (length wordoffset) saved)) at 2
      by (rewrite length_take; lia).
    rewrite guint32_array_object_bytes by assumption. reflexivity.
  - rewrite memcpy_mapped_short; [reflexivity|].
    rewrite !length_app, Hl4.
    pose proof (flat_map_object_bytes_length saved Hs). lia.
Qed.

(** No write is cut short. *)
Hypothesis fwrite_complete :
  forall item pos size nmemb, fwrite_count item pos size nmemb = nmemb.

(** [save_cache] writes the table to the first file that can be opened, and
    touches no file when none can. *)
Lemma save_cache_first_opened (wordoffset : list Z) (vars : list (list Z))
    (fs : file_system) :
  Forall is_guint32 wordoffset ->
  (Forall (fun v => fopen_wb v = false) vars /\
   save_cache object_bytes fopen_wb fwrite_count now fs vars wordoffset
   = (false, fs))
  \/ (exists pre w post,
        vars = pre ++ w :: post /\
        Forall (fun v => fopen_wb v = false) pre /\ fopen_wb w = true /\
        save_cache object_bytes fopen_wb fwrite_count now fs vars wordoffset
        = (true, written now fs w (cache_content wordoffset))).
Proof.
  intros Hwo. induction vars as [|item vars IH].
  - left. split; [constructor | reflexivity].
  - cbn [save_cache]. destruct (fopen_wb item) eqn:Eo.
    + right. exists [], item, vars.
      split_and!; [reflexivity | constructor | assumption |].
      unfold fwrite. cbv zeta. cbn [fst snd]. rewrite !fwrite_complete.
      rewrite Z.eqb_refl. cbn [negb].
      change (4 =? 4) with true. cbn [negb]. rewrite Z.eqb_refl. cbn [negb].
      f_equal. f_equal. unfold cache_content.
      rewrite Z.mul_1_r, Nat2Z.id, firstn_all. cbn [app].
      rewrite <- app_assoc. f_equal.
      pose proof (object_bytes_length _ CACHE_MAGIC_BYTES_guint32) as Hl4.
      change (Z.to_nat (4 * 1)) with 4%nat. rewrite <- Hl4 at 1.
      rewrite firstn_all. f_equal.
      rewrite <- (flat_map_object_bytes_length wordoffset Hwo).
      rewrite Nat2Z.id, firstn_all. reflexivity.
    + destruct IH as [[Hall Hs] | (pre & w & post & -> & Hpre & Hw & Hs)].
      * left. split; [constructor; assumption | exact Hs].
      * right. exists (item :: pre), w, post.
        split_and!; [reflexivity | constructor; assumption | assumption
                    | exact Hs].
Qed.

(** Rounds that [continue] before the file that was written go on doing so,
    and the round on that file takes the table from it. *)
Lemma load_cache_written (url w : list Z) (post : list (list Z))
    (idxstat : stat_file) (fs : file_system) (wordoffset wo0 wo1 : list Z) :
  let saved :=
    {| st_mtime := now; st_content := cache_content wordoffset |} in
  MapFile_open saved (st_size saved) = Some (cache_content wordoffset) ->
  Forall is_guint32 wordoffset -> length wo0 = length wordoffset ->
  fs !! url = Some idxstat -> st_mtime idxstat <= now ->
  fopen_wb w = true ->
  forall pre,
    Forall (fun v => fopen_wb v = false) pre ->
    url ∉ pre ++ w :: post ->
    load_cache object_value MapFile_open fs url (pre ++ w :: post) wo0
    = Ok (false, wo1) ->
    load_cache object_value MapFile_open
      (written now fs w (cache_content wordoffset)) url (pre ++ w :: post) wo0
    = Ok (true, wordoffset).
Proof.
  intros saved Hopen Hwo Hlen Hurl Hm Hw pre Hpre.
  induction Hpre as [|item pre Hitem Hpre IH]; intros Hnot Hload.
  - cbn [app load_cache]. unfold written, file_system in *.
    assert (url <> w) by (intros ->; apply Hnot; left).
    rewrite lookup_insert_ne by congruence. rewrite lookup_insert_eq, Hurl.
    fold saved.
    rewrite (load_cache_item_content idxstat saved wordoffset wo0)
      by first [reflexivity | assumption].
    rewrite Hlen, Nat.leb_refl. cbn [result_bind].
    rewrite firstn_all. reflexivity.
  - cbn [app load_cache] in Hload |- *. unfold written, file_system in *.
    assert (url <> w).
    { intros ->. apply Hnot. cbn [app]. right.
      apply elem_of_app. right. left. }
    assert (item <> w) by congruence.
    rewrite !lookup_insert_ne by congruence.
    destruct (load_cache_item object_value MapFile_open (fs !! url)
                (fs !! item) wo0) as [[wo'|]| |]; cbn [result_bind] in *;
      try discriminate.
    apply IH; [|exact Hload].
    intros Hin. apply Hnot. cbn [app]. right. exact Hin.
Qed.

Lemma load_cache_saved (fs fs' : file_system) (url : list Z)
    (vars : list (list Z)) (idxstat : stat_file)
    (wordoffset wo0 wo1 : list Z) :
  let saved :=
    {| st_mtime := now; st_content := cache_content wordoffset |} in
  MapFile_open saved (st_size saved) = Some (cache_content wordoffset) ->
  Forall is_guint32 wordoffset -> length wo0 = length wordoffset ->
  fs !! url = Some idxstat -> st_mtime idxstat <= now -> url ∉ vars ->
  load_cache object_value MapFile_open fs url vars wo0 = Ok (false, wo1) ->
  save_cache object_bytes fopen_wb fwrite_count now fs vars wordoffset
  = (true, fs') ->
  load_cache object_value MapFile_open fs' url vars wo0
  = Ok (true, wordoffset).
Proof.
  intros saved Hopen Hwo Hlen Hurl Hm Hnot Hload Hsave.
  destruct (save_cache_first_opened wordoffset vars fs Hwo)
    as [[_ Hs] | (pre & w & post & -> & Hpre & Hw & Hs)];
    rewrite Hs in Hsave; [discriminate|].
  injection Hsave as <-.
  exact (load_cache_written url w post idxstat fs wordoffset wo0 wo1
           Hopen Hwo Hlen Hurl Hm Hw pre Hpre Hnot Hload).
Qed.

Lemma load_cache_false (fs : file_system) (url : list Z)
    (vars : list (list Z)) (wo0 wo1 : list Z) :
  load_cache object_value MapFile_open fs url vars wo0 = Ok (false, wo1) ->
  wo1 = wo0.
Proof.
  induction vars as [|item vars IH]; cbn [load_cache].
  - now intros [= <-].
  - destruct (load_cache_item object_value MapFile_open (fs !! url)
                (fs !! item) wo0) as [[wo'|]| |]; cbn [result_bind];
      try discriminate.
    exact IH.
Qed.

(** The scan keeps the size of the table and stores [guint32] values. *)
Lemma page_offsets_guint32 (buf : list Z) (n : nat) :
  forall i p1 j wo0 wo,
    Forall is_guint32 wo0 ->
    page_offsets buf n i p1 j wo0 = Some wo ->
    Forall is_guint32 wo /\ length wo = length wo0.
Proof.
  assert (Hset : forall (v v' : list Z) j p1,
            Forall is_guint32 v -> vec_set v j (p1 mod 2 ^ 32) = Some v' ->
            Forall is_guint32 v' /\ length v' = length v).
  { intros v v' j p1 Hv. unfold vec_set.
    destruct ((0 <=? j) && (j <? Z.of_nat (length v))); [|discriminate].
    intros [= <-]. split; [|apply length_insert].
    apply Forall_insert; [assumption|]. unfold is_guint32. lia_div. }
  induction n as [|n IH]; intros i p1 j wo0 wo Hwo0; cbn [page_offsets].
  - apply Hset. assumption.
  - destruct (c_str_at (from_ptr buf p1)) as [s|]; [|discriminate].
    destruct (Z.rem i ENTR_PER_PAGE =? 0).
    + destruct (vec_set wo0 j (p1 mod 2 ^ 32)) as [wo'|] eqn:Ev;
        [|discriminate].
      destruct (Hset _ _ _ _ Hwo0 Ev) as [Hwo' Hl'].
      intros H. destruct (IH _ _ _ _ _ Hwo' H) as [? ?].
      split; [assumption | congruence].
    + apply IH. assumption.
Qed.

(** A non-empty file is mapped whole for its own size. *)
Hypothesis MapFile_open_whole :
  forall f, st_content f <> [] ->
    MapFile_open f (st_size f) = Some (st_content f).

Lemma OffsetIndex_load_table_stable (fs fs' : file_system) (url : list Z)
    (vars : list (list Z)) (idxstat : stat_file) (wc fsize : Z)
    (wordoffset : list Z) :
  fs !! url = Some idxstat -> st_mtime idxstat <= now -> url ∉ vars ->
  OffsetIndex_load_table object_bytes object_value MapFile_open fopen_wb
    fwrite_count now fs url vars wc fsize = Ok (Some wordoffset, fs') ->
  OffsetIndex_load_table object_bytes object_value MapFile_open fopen_wb
    fwrite_count now fs' url vars wc fsize = Ok (Some wordoffset, fs') /\
  (existsb fopen_wb vars = true ->
   load_cache object_value MapFile_open fs' url vars
     (replicate (Z.to_nat (((wc - 1) mod 2 ^ 64) / ENTR_PER_PAGE + 2)) 0)
   = Ok (true, wordoffset)).
Proof.
  intros Hurl Hm Hnot. unfold OffsetIndex_load_table.
  set (wo0 := replicate (Z.to_nat (((wc - 1) mod 2 ^ 64) / ENTR_PER_PAGE + 2))
                0).
  destruct (load_cache object_value MapFile_open fs url vars wo0)
    as [[[|] wo1]| |] eqn:Eload; cbn [result_bind fst snd]; try discriminate.
  - intros [= -> <-]. rewrite Eload. cbn [result_bind fst snd].
    split; [reflexivity | intros _; reflexivity].
  - apply load_cache_false in Eload as Hwo1. subst wo1.
    destruct (fs !! url ≫= (fun f => MapFile_open f fsize))
      as [buf|] eqn:Emap; [|discriminate].
    destruct (page_offsets buf (Z.to_nat wc) 0 0 0 wo0) as [wo|] eqn:Escan;
      cbn [defined result_bind]; [|discriminate].
    intros [= -> <-].
    assert (Hwo0 : Forall is_guint32 wo0).
    { subst wo0. apply Forall_replicate. unfold is_guint32. lia. }
    destruct (page_offsets_guint32 _ _ _ _ _ _ _ Hwo0 Escan) as [Hwo Hlen].
    destruct (save_cache_first_opened wordoffset vars fs Hwo)
      as [[Hall Hs] | (pre & w & post & Hv & Hpre & Hw & Hs)].
    + rewrite Hs. cbn [snd]. rewrite Eload. cbn [result_bind fst snd].
      rewrite Emap, Escan. cbn [defined result_bind]. rewrite Hs.
      split; [reflexivity|].
      intros Hex. exfalso. apply existsb_exists in Hex as (v & Hv & Hvo).
      rewrite Forall_forall in Hall.
      rewrite (Hall v) in Hvo; [discriminate|].
      apply list_elem_of_In. exact Hv.
    + assert (Hcache :
        load_cache object_value MapFile_open
          (written now fs w (cache_content wordoffset)) url vars wo0
        = Ok (true, wordoffset)).
      { apply (load_cache_saved fs _ url vars idxstat wordoffset wo0 wo0);
          try assumption.
        - apply MapFile_open_whole. unfold cache_content. cbn. discriminate.
        - congruence. }
      rewrite Hs. cbn [snd]. rewrite Hcache. cbn [result_bind fst snd].
      split; [reflexivity | intros _; reflexivity].
Qed.

End CacheFileSpec.

(** X20.  A table that [save_cache] has written is the table that
    [load_cache] reads: when the cache could not be loaded, no write is cut
    short and the file written is not older than the index, a [load_cache]
    after the [save_cache] returns true with [wordoffset] equal to the table
    that was saved. *)
Theorem load_cache_after_save_cache
    (object_bytes : Z -> list Z) (object_value : list Z -> Z)
    (MapFile_open : stat_file -> Z -> option (list Z))
    (fopen_wb : list Z -> bool) (fwrite_count : list Z -> Z -> Z -> Z -> Z)
    (now : Z) (fs fs' : file_system) (url : list Z) (vars : list (list Z))
    (idxstat : stat_file) (wordoffset wo0 wo1 : list Z) :
  (forall x, is_guint32 x -> length (object_bytes x) = 4%nat) ->
  (forall x, is_guint32 x -> object_value (object_bytes x) = x) ->
  (forall item pos size nmemb, fwrite_count item pos size nmemb = nmemb) ->
  MapFile_open
    {| st_mtime := now; st_content := cache_content object_bytes wordoffset |}
    (Z.of_nat (length (cache_content object_bytes wordoffset)))
  = Some (cache_content object_bytes wordoffset) ->
  Forall is_guint32 wordoffset -> length wo0 = length wordoffset ->
  fs !! url = Some idxstat -> st_mtime idxstat <= now -> url ∉ vars ->
  load_cache object_value MapFile_open fs url vars wo0 = Ok (false, wo1) ->
  save_cache object_bytes fopen_wb fwrite_count now fs vars wordoffset
  = (true, fs') ->
  load_cache object_value MapFile_open fs' url vars wo0
  = Ok (true, wordoffset).
Proof.
  intros Hl Hv Hw Hopen Hwo Hlen Hurl Hm Hnot Hload Hsave.
  exact (load_cache_saved object_bytes object_value MapFile_open fopen_wb
           fwrite_count now Hl Hv Hw fs fs' url vars idxstat wordoffset
           wo0 wo1 Hopen Hwo Hlen Hurl Hm Hnot Hload Hsave).
Qed.

Lemma uint32_be_bytes (x : Z) : is_guint32 x -> uint32_be (uint32_bytes x) = x.
Proof.
  unfold is_guint32, uint32_be, uint32_bytes. cbn [fold_left]. intros Hx.
  lia_div.
Qed.

(** A mapping of [size] bytes of a file, for the examples: there is none of
    an empty file. *)
Definition map_bytes (f : stat_file) (size : Z) : option (list Z) :=
  if size <=? 0 then None else Some (take (Z.to_nat size) (st_content f)).

Lemma map_bytes_whole (f : stat_file) :
  st_content f <> [] -> map_bytes f (st_size f) = Some (st_content f).
Proof.
  intros Hne. unfold map_bytes, st_size.
  destruct (st_content f) as [|c l]; [congruence|].
  destruct (Z.leb_spec (Z.of_nat (length (c :: l))) 0) as [H|_];
    [cbn [length] in H; lia|].
  rewrite Nat2Z.id, firstn_all. reflexivity.
Qed.

(** An index file of two entries, older than the time of the writes. *)
Definition fs_idx_two : file_system :=
  {[ str "a.idx" := {| st_mtime := 3; st_content := render_entries idx_two |} ]}.

Lemma load_cache_after_save_cache_witness :
  load_cache uint32_be map_bytes
    (written 5 fs_idx_two (str "a.idx.oft") (cache_content uint32_bytes [0; 20]))
    (str "a.idx") [str "a.idx.oft"] [0; 0]
  = Ok (true, [0; 20]).
Proof.
  apply (load_cache_after_save_cache uint32_bytes uint32_be map_bytes
           (fun _ => true) (fun _ _ _ nmemb => nmemb) 5 fs_idx_two _
           (str "a.idx") [str "a.idx.oft"]
           {| st_mtime := 3; st_content := render_entries idx_two |}
           [0; 20] [0; 0] [0; 0]).
  - reflexivity.
  - apply uint32_be_bytes.
  - reflexivity.
  - reflexivity.
  - repeat (constructor; [unfold is_guint32; lia|]). constructor.
  - reflexivity.
  - reflexivity.
  - simpl. lia.
  - intros H. apply list_elem_of_In in H. destruct H as [H|[]].
    discriminate H.
  - reflexivity.
  - reflexivity.
Defined.

(** X21.  [load_cache] does not compare the size of a cache file with the
    size of the table.  From a cache file that is not older than the index
    and holds a table after the magic text and number, it takes as many
    offsets as [wordoffset] has entries: the first ones when the file holds
    more, and with fewer in the file the copy runs beyond the end of the
    file. *)
Theorem load_cache_unchecked_size
    (object_bytes : Z -> list Z) (object_value : list Z -> Z)
    (MapFile_open : stat_file -> Z -> option (list Z))
    (fs : file_system) (url item : list Z) (vars : list (list Z))
    (idxstat cachestat : stat_file) (saved wordoffset : list Z) :
  (forall x, is_guint32 x -> length (object_bytes x) = 4%nat) ->
  (forall x, is_guint32 x -> object_value (object_bytes x) = x) ->
  fs !! url = Some idxstat -> fs !! item = Some cachestat ->
  st_mtime idxstat <= st_mtime cachestat ->
  st_content cachestat = cache_content object_bytes saved ->
  Forall is_guint32 saved ->
  MapFile_open cachestat (st_size cachestat) = Some (st_content cachestat) ->
  load_cache object_value MapFile_open fs url (item :: vars) wordoffset
  = if (length wordoffset <=? length saved)%nat
    then Ok (true, take (length wordoffset) saved)
    else Undefined.
Proof.
  intros Hl Hv Hurl Hitem Hm Hc Hs Hopen. cbn [load_cache].
  rewrite Hurl, Hitem.
  rewrite (load_cache_item_content object_bytes object_value MapFile_open
             Hl Hv idxstat cachestat saved wordoffset Hc Hopen Hm Hs).
  destruct (length wordoffset <=? length saved)%nat; reflexivity.
Qed.

(** The index of two entries with a cache file that holds one offset. *)
Definition fs_short_cache : file_system :=
  <[ str "a.idx.oft" :=
       {| st_mtime := 4; st_content := cache_content uint32_bytes [0] |} ]>
    fs_idx_two.

Lemma load_cache_unchecked_size_witness :
  load_cache uint32_be map_bytes fs_short_cache (str "a.idx")
    [str "a.idx.oft"] [0; 0]
  = Undefined.
Proof.
  apply (load_cache_unchecked_size uint32_bytes uint32_be map_bytes
           fs_short_cache (str "a.idx") (str "a.idx.oft") []
           {| st_mtime := 3; st_content := render_entries idx_two |}
           {| st_mtime := 4; st_content := cache_content uint32_bytes [0] |}
           [0] [0; 0]).
  - reflexivity.
  - apply uint32_be_bytes.
  - reflexivity.
  - reflexivity.
  - simpl. lia.
  - reflexivity.
  - repeat (constructor; [unfold is_guint32; lia|]). constructor.
  - reflexivity.
Defined.

(** X22.  After [OffsetIndex::load] has got its table of page offsets, from
    the cache or by the scan of the index, a further load gets the same
    table and leaves the files as they are; when one of the cache files can
    be opened for writing, the further load takes the table from the cache.
    No write is cut short, files that are not empty can be mapped, and the
    index is not newer than the time of the writes. *)
Theorem OffsetIndex_load_table_again
    (object_bytes : Z -> list Z) (object_value : list Z -> Z)
    (MapFile_open : stat_file -> Z -> option (list Z))
    (fopen_wb : list Z -> bool) (fwrite_count : list Z -> Z -> Z -> Z -> Z)
    (now : Z) (fs fs' : file_system) (url : list Z) (vars : list (list Z))
    (idxstat : stat_file) (wc fsize : Z) (wordoffset : list Z) :
  (forall x, is_guint32 x -> length (object_bytes x) = 4%nat) ->
  (forall x, is_guint32 x -> object_value (object_bytes x) = x) ->
  (forall item pos size nmemb, fwrite_count item pos size nmemb = nmemb) ->
  (forall f, st_content f <> [] ->
     MapFile_open f (st_size f) = Some (st_content f)) ->
  fs !! url = Some idxstat -> st_mtime idxstat <= now -> url ∉ vars ->
  OffsetIndex_load_table object_bytes object_value MapFile_open fopen_wb
    fwrite_count now fs url vars wc fsize = Ok (Some wordoffset, fs') ->
  OffsetIndex_load_table object_bytes object_value MapFile_open fopen_wb
    fwrite_count now fs' url vars wc fsize = Ok (Some wordoffset, fs') /\
  (existsb fopen_wb vars = true ->
   load_cache object_value MapFile_open fs' url vars
     (replicate (Z.to_nat (((wc - 1) mod 2 ^ 64) / ENTR_PER_PAGE + 2)) 0)
   = Ok (true, wordoffset)).
Proof.
  intros Hl Hv Hw Hmap Hurl Hm Hnot Hload.
  exact (OffsetIndex_load_table_stable object_bytes object_value MapFile_open
           fopen_wb fwrite_count now Hl Hv Hw Hmap fs fs' url vars idxstat
           wc fsize wordoffset Hurl Hm Hnot Hload).
Qed.

Definition fs_idx_two_cached : file_system :=
  written 5 fs_idx_two (str "a.idx.oft") (cache_content uint32_bytes [0; 20]).

Lemma OffsetIndex_load_table_again_witness :
  OffsetIndex_load_table uint32_bytes uint32_be map_bytes (fun _ => true)
    (fun _ _ _ nmemb => nmemb) 5 fs_idx_two_cached
    (str "a.idx") [str "a.idx.oft"] 2 20
  = Ok (Some [0; 20], fs_idx_two_cached) /\
  (existsb (fun _ => true) [str "a.idx.oft"] = true ->
   load_cache uint32_be map_bytes fs_idx_two_cached
     (str "a.idx") [str "a.idx.oft"]
     (replicate (Z.to_nat (((2 - 1) mod 2 ^ 64) / ENTR_PER_PAGE + 2)) 0)
   = Ok (true, [0; 20])).
Proof.
  apply (OffsetIndex_load_table_again uint32_bytes uint32_be map_bytes
           (fun _ => true) (fun _ _ _ nmemb => nmemb) 5 fs_idx_two
           fs_idx_two_cached (str "a.idx") [str "a.idx.oft"]
           {| st_mtime := 3; st_content := render_entries idx_two |}
           2 20 [0; 20]).
  - reflexivity.
  - apply uint32_be_bytes.
  - reflexivity.
  - apply map_bytes_whole.
  - reflexivity.
  - simpl. lia.
  - intros H. apply list_elem_of_In in H. destruct H as [H|[]].
    discriminate H.
  - reflexivity.
Defined.

(** * [OffsetIndex]: [load] and [lookup] on the index file
      (lines 535-547, 618-656, 687-759) *)

(** ** The loops of a lookup whose comparisons read the file

    Getting at the key of an entry of an [OffsetIndex] reads the index file:
    it changes the state of the index, and it can throw or leave a
    buffer. *)
Section IndexLoopsResult.

Context {S : Type}.
Variable cmp_at : S -> Z -> result (S * Z).

(** [while (iFrom <= iTo) { iThisIndex = (iFrom + iTo) / 2; ... }] *)
Equations? bsearch_r (s : S) (iFrom iTo iThisIndex : Z)
  : result (S * bsearch_result)
  by wf (Z.to_nat (iTo - iFrom + 1)) lt :=
  bsearch_r s iFrom iTo iThisIndex with Z_le_gt_dec iFrom iTo => {
    | right _ => Ok (s, Build_bsearch_result false iFrom iTo iThisIndex);
    | left _ with cmp_at s (Z.quot (iFrom + iTo) 2) => {
        | Throw => Throw;
        | Undefined => Undefined;
        | Ok (s', cmpint) with Z.compare cmpint 0 => {
            | Gt => bsearch_r s' (Z.quot (iFrom + iTo) 2 + 1) iTo
                      (Z.quot (iFrom + iTo) 2);
            | Lt => bsearch_r s' iFrom (Z.quot (iFrom + iTo) 2 - 1)
                      (Z.quot (iFrom + iTo) 2);
            | Eq => Ok (s', Build_bsearch_result true iFrom iTo
                              (Z.quot (iFrom + iTo) 2)) } } }.
Proof.
  all: pose proof (quot2_between iFrom iTo ltac:(lia)); lia.
Qed.

(** [while (iHeadIndex >= 0 && stardict_strcmp (str, get_key (iHeadIndex)) == 0)
      idxs.insert (iHeadIndex--);] *)
Equations? walk_back_r (s : S) (iHeadIndex : Z) (idxs : gset Z)
  : result (S * gset Z)
  by wf (Z.to_nat (iHeadIndex + 1)) lt :=
  walk_back_r s iHeadIndex idxs with Z_le_gt_dec 0 iHeadIndex => {
    | right _ => Ok (s, idxs);
    | left _ with cmp_at s iHeadIndex => {
        | Throw => Throw;
        | Undefined => Undefined;
        | Ok (s', cmpint) with Z.eq_dec cmpint 0 => {
            | left _ => walk_back_r s' (iHeadIndex - 1) ({[iHeadIndex]} ∪ idxs);
            | right _ => Ok (s', idxs) } } }.
Proof. lia. Qed.

(** [do idxs.insert (iThisIndex++);
    while (iThisIndex <= iLast && stardict_strcmp (str, get_key (iThisIndex)) == 0);]
    with [iThisIndex] the index about to be inserted. *)
Equations? walk_fwd_r (s : S) (iLast iThisIndex : Z) (idxs : gset Z)
  : result (S * gset Z)
  by wf (Z.to_nat (iLast - iThisIndex + 1)) lt :=
  walk_fwd_r s iLast iThisIndex idxs with Z_le_gt_dec (iThisIndex + 1) iLast => {
    | right _ => Ok (s, {[iThisIndex]} ∪ idxs);
    | left _ with cmp_at s (iThisIndex + 1) => {
        | Throw => Throw;
        | Undefined => Undefined;
        | Ok (s', cmpint) with Z.eq_dec cmpint 0 => {
            | left _ => walk_fwd_r s' iLast (iThisIndex + 1)
                          ({[iThisIndex]} ∪ idxs);
            | right _ => Ok (s', {[iThisIndex]} ∪ idxs) } } }.
Proof. lia. Qed.

(** Between [lo] and [hi] the comparison succeeds, with the value of a fixed
    function [c] of the index, in every state satisfying [Inv], which it
    keeps. *)
Variable Inv : S -> Prop.
Variable c : Z -> Z.
Variables lo hi : Z.
Hypothesis cmp_at_ok : forall s i,
  Inv s -> lo <= i <= hi -> exists s', cmp_at s i = Ok (s', c i) /\ Inv s'.

(** The comparison at hand, by [cmp_at_ok]. *)
Local Ltac use_cmp HI :=
  match goal with
  | Hq : cmp_at ?s ?i = _ |- _ =>
      destruct (cmp_at_ok s i HI ltac:(lia)) as (s1 & Hc & HI');
      rewrite Hc in Hq; first [discriminate Hq | injection Hq as <- <-]
  end.

Lemma bsearch_r_found s iFrom iTo iThisIndex :
  Inv s -> lo <= iFrom -> iTo <= hi ->
  exists s' r,
    bsearch_r s iFrom iTo iThisIndex = Ok (s', r) /\ Inv s' /\
    (bs_found r = true ->
     iFrom <= bs_iThisIndex r <= iTo /\ c (bs_iThisIndex r) = 0).
Proof.
  funelim (bsearch_r s iFrom iTo iThisIndex); intros HI Hlo Hhi;
    try (pose proof (quot2_between iFrom iTo l) as Hq; use_cmp HI).
  - eexists _, _. split; [reflexivity|]. split; [assumption|]. discriminate.
  - eexists _, _. split; [reflexivity|]. split; [assumption|].
    intros _. cbn. split; [lia|]. apply Z.compare_eq in Heq. lia.
  - destruct (H HI' ltac:(lia) ltac:(lia)) as (s2 & r & -> & H1 & H2).
    eexists _, _. split; [reflexivity|]. split; [assumption|].
    intros F. specialize (H2 F). lia.
  - destruct (H HI' ltac:(lia) ltac:(lia)) as (s2 & r & -> & H1 & H2).
    eexists _, _. split; [reflexivity|]. split; [assumption|].
    intros F. specialize (H2 F). lia.
Qed.

(** The sign of the comparison falls along a sorted run. *)
Hypothesis c_mono : forall i j, lo <= i -> i <= j -> j <= hi ->
  (c i < 0 -> c j < 0) /\ (0 < c j -> 0 < c i).

Lemma bsearch_r_not_found s iFrom iTo iThisIndex :
  Inv s -> lo <= iFrom -> iTo <= hi -> iFrom <= iTo + 1 ->
  forall s' r, bsearch_r s iFrom iTo iThisIndex = Ok (s', r) ->
  bs_found r = false ->
  bs_iFrom r = bs_iTo r + 1 /\
  iFrom <= bs_iFrom r <= iTo + 1 /\
  (forall i, iFrom <= i < bs_iFrom r -> 0 < c i) /\
  (forall i, bs_iFrom r <= i <= iTo -> c i < 0).
Proof.
  funelim (bsearch_r s iFrom iTo iThisIndex); intros HI Hlo Hhi Hft s2 r;
    try (pose proof (quot2_between iFrom iTo l) as Hq; use_cmp HI).
  - intros [= <- <-] _. cbn. split_and!; intros; lia.
  - intros [= <- <-]. discriminate.
  - rewrite Z.compare_lt_iff in Heq. intros Hr F.
    destruct (H HI' ltac:(lia) ltac:(lia) ltac:(lia) s2 r Hr F)
      as (E & B & L & R).
    split_and!; try lia; [exact L|].
    intros i Hi.
    destruct (Z_lt_le_dec i ((iFrom + iTo) `quot` 2)); [apply R; lia|].
    apply (c_mono ((iFrom + iTo) `quot` 2) i); lia.
  - rewrite Z.compare_gt_iff in Heq. intros Hr F.
    destruct (H HI' ltac:(lia) ltac:(lia) ltac:(lia) s2 r Hr F)
      as (E & B & L & R).
    split_and!; try lia; [|exact R].
    intros i Hi.
    destruct (Z_lt_le_dec ((iFrom + iTo) `quot` 2) i); [apply L; lia|].
    apply (c_mono i ((iFrom + iTo) `quot` 2)); lia.
Qed.

(** The backward walk collects the run of zeros that ends at
    [iHeadIndex]. *)
Lemma walk_back_r_spec s iHeadIndex idxs :
  Inv s -> lo <= 0 -> iHeadIndex <= hi ->
  (forall i j, 0 <= i -> i <= j -> j <= iHeadIndex -> c i = 0 -> c j = 0) ->
  exists s' idxs',
    walk_back_r s iHeadIndex idxs = Ok (s', idxs') /\ Inv s' /\
    forall x, x ∈ idxs' <-> x ∈ idxs \/ (0 <= x <= iHeadIndex /\ c x = 0).
Proof.
  funelim (walk_back_r s iHeadIndex idxs); intros HI Hlo Hhi Hrun;
    try use_cmp HI.
  - eexists _, _. split; [reflexivity|]. split; [assumption|].
    intros x. split; [auto|]. intros [?|?]; [assumption|lia].
  - destruct (H HI' Hlo ltac:(lia)) as (s2 & idxs2 & -> & H1 & H2).
    { intros i j ? ? ? ?. apply (Hrun i j); lia. }
    eexists _, _. split; [reflexivity|]. split; [assumption|].
    intros x. rewrite H2, elem_of_union, elem_of_singleton. split.
    + intros [[-> | ?] | [? ?]];
        [right; split; [lia|congruence] | auto | right; split; [lia|assumption]].
    + intros [? | [? Hx]]; [auto|].
      destruct (Z.eq_dec x iHeadIndex); [auto|]. right. split; [lia|assumption].
  - eexists _, _. split; [reflexivity|]. split; [assumption|].
    intros x. split; [auto|].
    intros [? | [? Hx]]; [assumption|]. exfalso.
    apply n. apply (Hrun x iHeadIndex); lia.
Qed.

(** The forward walk collects [iThisIndex] and the run of zeros after it. *)
Lemma walk_fwd_r_spec s iLast iThisIndex idxs :
  Inv s -> lo <= iThisIndex + 1 -> iLast <= hi ->
  (forall i j, iThisIndex < i -> i <= j -> j <= iLast -> c j = 0 -> c i = 0) ->
  exists s' idxs',
    walk_fwd_r s iLast iThisIndex idxs = Ok (s', idxs') /\ Inv s' /\
    forall x, x ∈ idxs' <->
              x ∈ idxs \/ x = iThisIndex \/ (iThisIndex < x <= iLast /\ c x = 0).
Proof.
  funelim (walk_fwd_r s iLast iThisIndex idxs); intros HI Hlo Hhi Hrun;
    try use_cmp HI.
  - eexists _, _. split; [reflexivity|]. split; [assumption|].
    intros x. rewrite elem_of_union, elem_of_singleton.
    split; [intros [?|?]; auto|]. intros [?|[?|?]]; auto; lia.
  - destruct (H HI' ltac:(lia) Hhi) as (s2 & idxs2 & -> & H1 & H2).
    { intros i j ? ? ? ?. apply (Hrun i j); lia. }
    eexists _, _. split; [reflexivity|]. split; [assumption|].
    intros x. rewrite H2, elem_of_union, elem_of_singleton. split.
    + intros [[? | ?] | [-> | [? ?]]]; auto.
      * right. right. split; [lia|congruence].
      * right. right. split; [lia|assumption].
    + intros [? | [? | [? Hx]]]; auto.
      destruct (Z.eq_dec x (iThisIndex + 1)); [auto|].
      right. right. split; [lia|assumption].
  - eexists _, _. split; [reflexivity|]. split; [assumption|].
    intros x. rewrite elem_of_union, elem_of_singleton.
    split; [intros [?|?]; auto|].
    intros [? | [? | [? Hx]]]; auto. exfalso.
    apply n. apply (Hrun (iThisIndex + 1) x); lia.
Qed.

End IndexLoopsResult.

(** ** The index object *)

(** An [OffsetIndex]: the file, page table and buffers of [OffsetBuf], and
    the anchors [first], [last], [middle] and [real_last]. *)
Record OffsetIndex := {
  oi_buf : OffsetBuf;
  oi_first : index_entry;
  oi_last : index_entry;
  oi_middle : index_entry;
  oi_real_last : index_entry
}.

(** The object after a read that changed its buffers. *)
Definition set_buf (o : OffsetIndex) (b : OffsetBuf) : OffsetIndex :=
  {| oi_buf := b; oi_first := oi_first o; oi_last := oi_last o;
     oi_middle := oi_middle o; oi_real_last := oi_real_last o |}.

Section OffsetIndexLookup.

Variable get_uint32 : list Z -> Z.
Variable g_ntohl : Z -> Z.

(** [INVALID_INDEX] is a constant of [stardict_lib.hpp]. *)
Variable INVALID_INDEX : Z.

Definition read_first_on_page_key (o : OffsetIndex) (page_idx : Z)
  : result (OffsetIndex * cstring) :=
  let* r := OffsetBuf_read_first_on_page_key (oi_buf o) page_idx in
  Ok (set_buf o (fst r), snd r).

Definition get_first_on_page_key (o : OffsetIndex) (page_idx : Z)
  : result (OffsetIndex * cstring) :=
  if page_idx <? ie_idx (oi_middle o) then
    if page_idx =? ie_idx (oi_first o) then Ok (o, ie_keystr (oi_first o))
    else read_first_on_page_key o page_idx
  else if ie_idx (oi_middle o) <? page_idx then
    if page_idx =? ie_idx (oi_last o) then Ok (o, ie_keystr (oi_last o))
    else read_first_on_page_key o page_idx
  else Ok (o, ie_keystr (oi_middle o)).

Definition load_page (o : OffsetIndex) (page_idx : Z)
  : result (OffsetIndex * Z) :=
  let* r := OffsetBuf_load_page get_uint32 g_ntohl (oi_buf o) page_idx in
  Ok (set_buf o (fst r), snd r).

Definition OffsetIndex_get_key (o : OffsetIndex) (idx : Z)
  : result (OffsetIndex * cstring) :=
  let* r := OffsetBuf_get_key get_uint32 g_ntohl (oi_buf o) idx in
  Ok (set_buf o (fst r), fst (fst (snd r))).

(** [stardict_strcmp (str, get_first_on_page_key (i))],
    [stardict_strcmp (str, page.entries[i].keystr)] and
    [stardict_strcmp (str, get_key (i))]. *)
Definition cmp_first_on_page (str : cstring) (s : OffsetIndex) (i : Z)
  : result (OffsetIndex * Z) :=
  let* r := get_first_on_page_key s i in
  Ok (fst r, stardict_strcmp str (snd r)).

Definition cmp_page_entry (str : cstring) (s : OffsetIndex) (i : Z)
  : result (OffsetIndex * Z) :=
  let* e := defined (vec_at (ob_entries (oi_buf s)) i) in
  Ok (s, stardict_strcmp str (pe_keystr e)).

Definition cmp_key (str : cstring) (s : OffsetIndex) (i : Z)
  : result (OffsetIndex * Z) :=
  let* r := OffsetIndex_get_key s i in
  Ok (fst r, stardict_strcmp str (snd r)).

(** The end of [lookup] after a match at [iThisIndex]: the walks behind and
    ahead of it. *)
Definition OffsetIndex_collect (o1 : OffsetIndex) (str : cstring)
    (iThisIndex : Z) (idxs : gset Z) (next_idx : Z)
  : result (OffsetIndex * lookup_result) :=
  let* back := walk_back_r (cmp_key str) o1 (iThisIndex - 1) idxs in
  let* fwd :=
    walk_fwd_r (cmp_key str) (fst back) (ie_idx (oi_real_last (fst back)))
      iThisIndex (snd back) in
  Ok (fst fwd, Build_lookup_result true (snd fwd) next_idx).

(** The search for the page, and in the page when no page begins with the
    word: the object, [bFound], [iPage], [iFrom] and [iThisIndex]. *)
Definition OffsetIndex_search (o : OffsetIndex) (str : cstring)
  : result (OffsetIndex * (bool * Z * Z * Z)) :=
  let* outer :=
    bsearch_r (cmp_first_on_page str) o 0
      (Z.of_nat (length (ob_wordoffset (oi_buf o))) - 2) 0 in
  if bs_found (snd outer) then
    Ok (fst outer, (true, bs_iThisIndex (snd outer), bs_iFrom (snd outer), 0))
  else
    let iPage := bs_iTo (snd outer) in
    let* page := load_page (fst outer) iPage in
    let* inner :=
      bsearch_r (cmp_page_entry str) (fst page) 0 (snd page - 1)
        (bs_iThisIndex (snd outer)) in
    Ok (fst inner,
        (bs_found (snd inner), iPage, bs_iFrom (snd inner),
         bs_iThisIndex (snd inner))).

Definition OffsetIndex_lookup (o : OffsetIndex) (str : cstring)
    (idxs : gset Z) (next_idx : Z) : result (OffsetIndex * lookup_result) :=
  if stardict_strcmp str (ie_keystr (oi_first o)) <? 0 then
    Ok (o, Build_lookup_result false idxs 0)
  else if 0 <? stardict_strcmp str (ie_keystr (oi_real_last o)) then
    Ok (o, Build_lookup_result false idxs INVALID_INDEX)
  else
    let* found := OffsetIndex_search o str in
    let '(bFound, iPage, iFrom, iThisIndex) := snd found in
    if negb bFound then
      Ok (fst found,
          Build_lookup_result false idxs (iPage * ENTR_PER_PAGE + iFrom))
    else
      OffsetIndex_collect (fst found) str (iPage * ENTR_PER_PAGE + iThisIndex)
        idxs next_idx.

End OffsetIndexLookup.

Section OffsetIndexLoad.

Variable get_uint32 : list Z -> Z.
Variable g_ntohl : Z -> Z.

(** The parameters of the cache of page offsets. *)
Variable object_bytes : Z -> list Z.
Variable object_value : list Z -> Z.
Variable MapFile_open : stat_file -> Z -> option (list Z).
Variable fopen_wb : list Z -> bool.
Variable fwrite_count : list Z -> Z -> Z -> Z -> Z.
Variable now : Z.

(** [OffsetIndex::load] (lines 618-656) on a new object, whose
    [wordentry_buf] holds the bytes [wordentry_buf]: the table is loaded
    from the cache or computed and saved; the file is opened ([fopen
    (url, "rb")] is taken to succeed on a file that is there); the anchors
    are read.  [None] is [return false]. *)
Definition OffsetIndex_load (fs : file_system) (url : list Z)
    (vars : list (list Z)) (wc fsize : Z) (wordentry_buf : list Z)
  : result (option OffsetIndex * file_system) :=
  let* table :=
    OffsetIndex_load_table object_bytes object_value MapFile_open fopen_wb
      fwrite_count now fs url vars wc fsize in
  match fst table, snd table !! url with
  | Some wordoffset, Some f =>
      let o0 := {| ob_idxfile := st_content f; ob_wordoffset := wordoffset;
                   ob_wordcount := wc; ob_wordentry_buf := wordentry_buf;
                   ob_page_idx := -1; ob_entries := [] |} in
      let npages := Z.of_nat (length wordoffset) in
      let* first := OffsetBuf_read_first_on_page_key o0 0 in
      let* last := OffsetBuf_read_first_on_page_key (fst first) (npages - 2) in
      let* middle :=
        OffsetBuf_read_first_on_page_key (fst last) ((npages - 2) / 2) in
      let* real_last :=
        OffsetBuf_get_key get_uint32 g_ntohl (fst middle) (wc - 1) in
      Ok (Some {| oi_buf := fst real_last;
                  oi_first := Build_index_entry 0 (snd first);
                  oi_last := Build_index_entry (npages - 2) (snd last);
                  oi_middle :=
                    Build_index_entry ((npages - 2) / 2) (snd middle);
                  oi_real_last :=
                    Build_index_entry (wc - 1) (fst (fst (snd real_last))) |},
          snd table)
  | _, _ => Ok (None, snd table)
  end.

End OffsetIndexLoad.

(** ** The index over the file of given entries *)

(** The entries of an index file: headwords of at most 255 bytes, each with
    its offset and size in eight bytes, in a file whose size fits the
    [guint32] of the page table. *)
Definition index_entries_ok (es : list raw_entry) : Prop :=
  Forall (wf_raw_entry 8) es /\
  Forall (fun e => Z.of_nat (length (re_key e)) <= 255) es /\
  Z.of_nat (length (render_entries es)) < 2 ^ 32.

Lemma key_at_entry (es : list raw_entry) (i : Z) (e : raw_entry) :
  0 <= i -> es !! Z.to_nat i = Some e -> key_at (map re_key es) i = re_key e.
Proof.
  intros Hi He. unfold key_at. apply nth_lookup_Some.
  rewrite list_lookup_fmap, He. reflexivity.
Qed.

Lemma entry_at (es : list raw_entry) (i : Z) :
  0 <= i < Z.of_nat (length es) -> exists e, es !! Z.to_nat i = Some e.
Proof. intros Hi. apply lookup_lt_is_Some_2. lia. Qed.

Section OffsetIndexSpec.

Variable get_uint32 : list Z -> Z.
Variable g_ntohl : Z -> Z.
Variable es : list raw_entry.

(** The state of an [OffsetIndex] over the index file of the entries [es]:
    the page table is that of the file, the page buffer holds the page it
    says, and the anchors are the keys that [load] reads. *)
Record OffsetIndex_ok (o : OffsetIndex) : Prop := {
  oik_buf : OffsetBuf_ok get_uint32 g_ntohl es (oi_buf o);
  oik_first : oi_first o = Build_index_entry 0 (key_at (map re_key es) 0);
  oik_last :
    oi_last o =
    Build_index_entry (last_page (Z.of_nat (length es)))
      (key_at (map re_key es)
         (ENTR_PER_PAGE * last_page (Z.of_nat (length es))));
  oik_middle :
    oi_middle o =
    Build_index_entry (last_page (Z.of_nat (length es)) / 2)
      (key_at (map re_key es)
         (ENTR_PER_PAGE * (last_page (Z.of_nat (length es)) / 2)));
  oik_real_last :
    oi_real_last o =
    Build_index_entry (Z.of_nat (length es) - 1)
      (key_at (map re_key es) (Z.of_nat (length es) - 1))
}.

Lemma set_buf_ok o b :
  OffsetIndex_ok o -> OffsetBuf_ok get_uint32 g_ntohl es b ->
  OffsetIndex_ok (set_buf o b).
Proof. intros [H0 H1 H2 H3 H4] Hb. constructor; assumption. Qed.

Hypothesis es_ok : index_entries_ok es.
Hypothesis es_nonempty : 1 <= Z.of_nat (length es).

Let n : Z := Z.of_nat (length es).
Let P : Z := last_page n.

Lemma last_page_div : P = (n - 1) / ENTR_PER_PAGE.
Proof.
  unfold P, last_page. apply Z.quot_div_nonneg; unfold ENTR_PER_PAGE; lia.
Qed.

Lemma read_first_on_page_key_spec o p :
  OffsetIndex_ok o -> 0 <= p <= P ->
  exists o',
    read_first_on_page_key o p
    = Ok (o', key_at (map re_key es) (ENTR_PER_PAGE * p)) /\
    OffsetIndex_ok o'.
Proof.
  intros Ho Hp. destruct es_ok as (Hwf & Hlen & Hsz).
  destruct (page_arith n es_nonempty) as (_ & _ & PA).
  destruct (PA p Hp) as (H1 & H2 & _). fold P in PA.
  destruct (entry_at es (ENTR_PER_PAGE * p)) as [e He];
    [fold n; unfold ENTR_PER_PAGE in *; lia|].
  assert (Hk : Z.of_nat (length (re_key e)) <= 255).
  { apply (proj1 (Forall_forall _ _) Hlen). eapply list_elem_of_lookup_2, He. }
  destruct (OffsetBuf_read_first_on_page_key_ok get_uint32 g_ntohl es
              (oi_buf o) p e Hwf Hsz (oik_buf o Ho) ltac:(lia) He)
    as (b & Hr & Hb); [unfold wordentry_buf_size; lia|].
  unfold read_first_on_page_key. rewrite Hr. cbn [result_bind fst snd].
  rewrite (key_at_entry es _ e) by (first [exact He | unfold ENTR_PER_PAGE; lia]).
  eexists. split; [reflexivity|]. now apply set_buf_ok.
Qed.

Lemma get_first_on_page_key_spec o p :
  OffsetIndex_ok o -> 0 <= p <= P ->
  exists o',
    get_first_on_page_key o p
    = Ok (o', key_at (map re_key es) (ENTR_PER_PAGE * p)) /\
    OffsetIndex_ok o'.
Proof.
  intros Ho Hp. unfold get_first_on_page_key.
  rewrite (oik_first o Ho), (oik_last o Ho), (oik_middle o Ho).
  cbn [ie_idx ie_keystr]. fold n. fold P.
  destruct (Z.ltb_spec p (P / 2)).
  - destruct (Z.eqb_spec p 0) as [->|_].
    + exists o. split; [reflexivity | assumption].
    + now apply read_first_on_page_key_spec.
  - destruct (Z.ltb_spec (P / 2) p).
    + destruct (Z.eqb_spec p P) as [->|_].
      * exists o. split; [reflexivity | assumption].
      * now apply read_first_on_page_key_spec.
    + assert (p = P / 2) as -> by lia.
      exists o. split; [reflexivity | assumption].
Qed.

Lemma page_entries_of_keys p :
  0 <= p <= P ->
  Z.of_nat (length (page_entries_of es p)) = page_len n p /\
  map re_key (page_entries_of es p) = page_of (map re_key es) p.
Proof.
  intros Hp.
  destruct (page_arith n es_nonempty) as (P0 & PL & PA). fold P in P0, PL, PA.
  destruct (PA p Hp) as (H1 & H2 & H3).
  assert (Hlen : Z.of_nat (length (page_entries_of es p)) = page_len n p).
  { rewrite page_entries_of_length by (unfold ENTR_PER_PAGE in *; lia).
    fold n. destruct (Z_lt_le_dec p P) as [Hlt|Hge].
    - rewrite (H3 Hlt). unfold ENTR_PER_PAGE in *. lia.
    - assert (p = P) as -> by lia. unfold ENTR_PER_PAGE in *. lia. }
  split; [exact Hlen|].
  unfold page_of. rewrite length_map. fold n.
  rewrite <- Hlen. unfold page_entries_of.
  rewrite skipn_map, firstn_map, Nat2Z.id. f_equal.
  set (l := drop (Z.to_nat (ENTR_PER_PAGE * p)) es).
  rewrite length_take, <- take_take, firstn_all. reflexivity.
Qed.

Lemma load_page_spec o p :
  OffsetIndex_ok o -> 0 <= p <= P ->
  exists o',
    load_page get_uint32 g_ntohl o p = Ok (o', page_len n p) /\
    OffsetIndex_ok o' /\
    ob_entries (oi_buf o')
    = map (decode_entry get_uint32 g_ntohl) (page_entries_of es p).
Proof.
  intros Ho Hp. destruct es_ok as (Hwf & Hlen & Hsz).
  destruct (page_arith n es_nonempty) as (_ & _ & PA). fold P in PA.
  destruct (PA p Hp) as (H1 & H2 & _).
  destruct (OffsetBuf_load_page_ok get_uint32 g_ntohl es Hwf Hsz (oi_buf o) p
              (oik_buf o Ho) ltac:(lia))
    as (b & Hl & Hb & He); [fold n; unfold ENTR_PER_PAGE in *; lia|].
  unfold load_page. rewrite Hl. cbn [result_bind fst snd].
  rewrite (proj1 (page_entries_of_keys p Hp)).
  eexists. split; [reflexivity|]. split; [now apply set_buf_ok | exact He].
Qed.

Lemma OffsetIndex_get_key_spec o idx :
  OffsetIndex_ok o -> 0 <= idx < n ->
  exists o',
    OffsetIndex_get_key get_uint32 g_ntohl o idx
    = Ok (o', key_at (map re_key es) idx) /\
    OffsetIndex_ok o'.
Proof.
  intros Ho Hi. destruct es_ok as (Hwf & Hlen & Hsz).
  destruct (entry_at es idx Hi) as [e He].
  destruct (OffsetBuf_get_key_ok get_uint32 g_ntohl es Hwf Hsz (oi_buf o)
              (Z.to_nat idx) e (oik_buf o Ho) He) as (b & Hg & Hb).
  rewrite Z2Nat.id in Hg by lia.
  unfold OffsetIndex_get_key. rewrite Hg. cbn [result_bind fst snd].
  rewrite (key_at_entry es idx e) by (first [exact He | lia]).
  eexists. split; [reflexivity|]. now apply set_buf_ok.
Qed.

End OffsetIndexSpec.

Section OffsetLookupSpec.

Variable get_uint32 : list Z -> Z.
Variable g_ntohl : Z -> Z.
Variable INVALID_INDEX : Z.
Variable es : list raw_entry.
Variable str : cstring.
Hypothesis es_ok : index_entries_ok es.
Hypothesis keys_ok : index_ok (map re_key es) = true.
Hypothesis str_ok : is_cstr str.

Let n : Z := Z.of_nat (length es).
Let P : Z := last_page n.
Let c : Z -> Z := cmp_key_at (map re_key es) str.
Let ok : OffsetIndex -> Prop := OffsetIndex_ok get_uint32 g_ntohl es.

Lemma index_nonempty : 1 <= n.
Proof.
  destruct (index_ok_parts _ keys_ok) as (Hn & _).
  rewrite length_map in Hn. exact Hn.
Qed.

Lemma index_cmp_mono i j :
  0 <= i -> i <= j -> j <= n - 1 ->
  (c i < 0 -> c j < 0) /\ (0 < c j -> 0 < c i).
Proof.
  intros. apply cmp_key_at_mono; auto. rewrite length_map. fold n. lia.
Qed.

Lemma index_cmp_run i j k :
  0 <= i -> i <= j -> j <= k -> k <= n - 1 -> c i = 0 -> c k = 0 -> c j = 0.
Proof.
  intros. apply (cmp_key_at_run _ str keys_ok str_ok i j k); auto.
  rewrite length_map. fold n. lia.
Qed.

Lemma index_cmp_no_zero i :
  0 <= i -> i <= n -> (0 < i -> 0 < c (i - 1)) -> (i < n -> c i < 0) ->
  forall x, 0 <= x < n -> c x <> 0.
Proof.
  intros Hi Hn Hl Hr x Hx.
  apply (no_zero_between (map re_key es) str i); auto;
    rewrite length_map; fold n; assumption.
Qed.

Lemma cmp_key_ok s i :
  ok s -> 0 <= i <= n - 1 ->
  exists s', cmp_key get_uint32 g_ntohl str s i = Ok (s', c i) /\ ok s'.
Proof.
  intros Hs Hi.
  destruct (OffsetIndex_get_key_spec get_uint32 g_ntohl es es_ok s i Hs)
    as (s' & Hg & Hs'); [fold n; lia|].
  unfold cmp_key. rewrite Hg. cbn [result_bind fst snd].
  exists s'. split; [reflexivity | exact Hs'].
Qed.

Lemma cmp_first_on_page_ok s i :
  ok s -> 0 <= i <= P ->
  exists s', cmp_first_on_page str s i = Ok (s', c (ENTR_PER_PAGE * i)) /\ ok s'.
Proof.
  intros Hs Hi.
  destruct (get_first_on_page_key_spec get_uint32 g_ntohl es es_ok index_nonempty
              s i Hs Hi) as (s' & Hg & Hs').
  unfold cmp_first_on_page. rewrite Hg. cbn [result_bind fst snd].
  exists s'. split; [reflexivity | exact Hs'].
Qed.

(** The page [p] is in the buffer. *)
Definition page_loaded (p : Z) (s : OffsetIndex) : Prop :=
  ok s /\
  ob_entries (oi_buf s)
  = map (decode_entry get_uint32 g_ntohl) (page_entries_of es p).

Lemma cmp_page_entry_ok p s i :
  0 <= p <= P -> page_loaded p s -> 0 <= i <= page_len n p - 1 ->
  exists s', cmp_page_entry str s i = Ok (s', c (ENTR_PER_PAGE * p + i))
             /\ page_loaded p s'.
Proof.
  intros Hp [Hs He] Hi.
  destruct (page_entries_of_keys es index_nonempty p Hp) as [Hlen Hkeys].
  fold n in Hlen.
  destruct (page_arith n index_nonempty) as (_ & _ & PA). fold P in PA.
  destruct (PA p Hp) as (H1 & H2 & _).
  unfold cmp_page_entry. rewrite He. unfold vec_at.
  destruct (Z.ltb_spec i 0); [lia|].
  rewrite list_lookup_fmap.
  destruct (lookup_lt_is_Some_2 (page_entries_of es p) (Z.to_nat i))
    as [e Hie]; [lia|].
  rewrite Hie. cbn [fmap option_fmap option_map defined result_bind
                      decode_entry pe_keystr].
  exists s. split; [|split; assumption].
  do 2 f_equal. unfold c, cmp_key_at. f_equal.
  rewrite <- (key_at_page_of (map re_key es) p i);
    [|rewrite length_map; exact index_nonempty
     |rewrite length_map; fold n; fold P; exact Hp
     |rewrite length_map; fold n; lia].
  rewrite <- Hkeys. unfold key_at. symmetry. apply nth_lookup_Some.
  rewrite list_lookup_fmap, Hie. reflexivity.
Qed.

Lemma OffsetIndex_collect_spec o1 m idxs next_idx :
  ok o1 -> 0 <= m < n -> c m = 0 ->
  exists o3 r,
    OffsetIndex_collect get_uint32 g_ntohl o1 str m idxs next_idx = Ok (o3, r) /\
    ok o3 /\
    lookup_spec INVALID_INDEX (map re_key es) str idxs next_idx r.
Proof.
  intros Ho1 Hm Zm. unfold OffsetIndex_collect.
  destruct (walk_back_r_spec (cmp_key get_uint32 g_ntohl str) ok c 0 (n - 1)
              cmp_key_ok o1 (m - 1) idxs Ho1 ltac:(lia) ltac:(lia))
    as (o2 & idxs1 & -> & Ho2 & Hb).
  { intros i j ? ? ? Zi. apply (index_cmp_run i j m); auto; lia. }
  cbn [result_bind fst snd].
  rewrite (oik_real_last _ _ _ _ Ho2). cbn [ie_idx]. fold n.
  destruct (walk_fwd_r_spec (cmp_key get_uint32 g_ntohl str) ok c 0 (n - 1)
              cmp_key_ok o2 (n - 1) m idxs1 Ho2 ltac:(lia) ltac:(lia))
    as (o3 & idxs2 & -> & Ho3 & Hw).
  { intros i j ? ? ? Zj. apply (index_cmp_run m i j); auto; lia. }
  cbn [result_bind fst snd].
  eexists _, _. split; [reflexivity|]. split; [assumption|].
  unfold lookup_spec. cbn [lr_idxs lr_found lr_next_idx].
  rewrite length_map. fold n. fold c. split.
  - intros x. rewrite Hw, Hb. split.
    + intros [[?|[? ?]]|[->|[? ?]]]; auto; right; split; auto; lia.
    + intros [?|[? Zx]]; auto.
      destruct (Z_lt_le_dec x m); [left; right; split; [lia|assumption]|].
      destruct (Z.eq_dec x m); [auto|].
      right. right. split; [lia|assumption].
  - right. right. right. split_and!; auto. exists m. auto.
Qed.

Lemma OffsetIndex_search_spec o :
  ok o -> 0 <= c 0 -> c (n - 1) <= 0 ->
  exists o1 bFound iPage iFrom iThisIndex,
    OffsetIndex_search get_uint32 g_ntohl o str
    = Ok (o1, (bFound, iPage, iFrom, iThisIndex)) /\ ok o1 /\
    (bFound = true ->
     0 <= iPage * ENTR_PER_PAGE + iThisIndex < n /\
     c (iPage * ENTR_PER_PAGE + iThisIndex) = 0) /\
    (bFound = false ->
     0 < iPage * ENTR_PER_PAGE + iFrom < n /\
     0 < c (iPage * ENTR_PER_PAGE + iFrom - 1) /\
     c (iPage * ENTR_PER_PAGE + iFrom) < 0).
Proof.
  intros Ho L0 L1. pose proof index_nonempty as Hn.
  destruct (page_arith n Hn) as (P0 & PL & PA). fold P in P0, PL, PA.
  assert (HP : ENTR_PER_PAGE * P <= n - 1).
  { destruct (PA P ltac:(lia)) as (? & ? & _). lia. }
  assert (Hpmono : forall i j, 0 <= i -> i <= j -> j <= P ->
            (c (ENTR_PER_PAGE * i) < 0 -> c (ENTR_PER_PAGE * j) < 0) /\
            (0 < c (ENTR_PER_PAGE * j) -> 0 < c (ENTR_PER_PAGE * i))).
  { intros i j Hi Hij Hj. apply index_cmp_mono; unfold ENTR_PER_PAGE in *; lia. }
  unfold OffsetIndex_search.
  rewrite (ob_npages_ok _ _ _ _ (oik_buf _ _ _ _ Ho)).
  rewrite <- (last_page_div es index_nonempty). fold n. fold P.
  replace (P + 2 - 2) with P by lia.
  destruct (bsearch_r_found (cmp_first_on_page str) ok
              (fun p => c (ENTR_PER_PAGE * p)) 0 P cmp_first_on_page_ok
              o 0 P 0 Ho ltac:(lia) ltac:(lia))
    as (o0 & outer & Houter & Ho0 & Hof).
  pose proof (bsearch_r_not_found (cmp_first_on_page str) ok
                (fun p => c (ENTR_PER_PAGE * p)) 0 P cmp_first_on_page_ok
                Hpmono o 0 P 0 Ho ltac:(lia) ltac:(lia) ltac:(lia)
                o0 outer Houter) as Honf.
  rewrite Houter. cbn [result_bind fst snd].
  destruct (bs_found outer) eqn:F.
  - destruct (Hof eq_refl) as [Hr Hz]. clear Hof Honf.
    eexists _, _, _, _, _. split; [reflexivity|]. split; [assumption|].
    split; [|discriminate]. intros _.
    replace (bs_iThisIndex outer * ENTR_PER_PAGE + 0)
      with (ENTR_PER_PAGE * bs_iThisIndex outer) by lia.
    split; [unfold ENTR_PER_PAGE in *; lia | exact Hz].
  - destruct (Honf eq_refl) as (E & B & L & R). clear Hof Honf.
    set (f := bs_iFrom outer) in *. set (iPage := bs_iTo outer) in *.
    assert (Hf0 : 0 < f).
    { destruct (Z.eq_dec f 0) as [E0|]; [|lia].
      specialize (R 0 ltac:(lia)). cbv beta in R.
      replace (ENTR_PER_PAGE * 0) with 0 in R by lia. lia. }
    assert (HiP : 0 <= iPage <= P) by lia.
    assert (Hpos : 0 < c (ENTR_PER_PAGE * iPage)) by (apply (L iPage); lia).
    destruct (load_page_spec get_uint32 g_ntohl es es_ok index_nonempty
                o0 iPage Ho0 HiP) as (o1 & Hload & Ho1 & Hent).
    fold n in Hload. rewrite Hload. cbn [result_bind fst snd].
    set (netr := page_len n iPage) in *.
    destruct (PA iPage HiP) as (Hnl & Hfit & Hfull). fold netr in Hnl, Hfit, Hfull.
    assert (Hentry : forall s i, page_loaded iPage s -> 0 <= i <= netr - 1 ->
              exists s', cmp_page_entry str s i
                         = Ok (s', c (ENTR_PER_PAGE * iPage + i))
                         /\ page_loaded iPage s')
      by (intros s i Hs Hi; now apply cmp_page_entry_ok).
    assert (Hemono : forall i j, 0 <= i -> i <= j -> j <= netr - 1 ->
              (c (ENTR_PER_PAGE * iPage + i) < 0
               -> c (ENTR_PER_PAGE * iPage + j) < 0) /\
              (0 < c (ENTR_PER_PAGE * iPage + j)
               -> 0 < c (ENTR_PER_PAGE * iPage + i))).
    { intros i j Hi Hij Hj.
      apply index_cmp_mono; unfold ENTR_PER_PAGE in *; lia. }
    assert (Hpl : page_loaded iPage o1) by (split; assumption).
    destruct (bsearch_r_found (cmp_page_entry str) (page_loaded iPage)
                (fun k => c (ENTR_PER_PAGE * iPage + k)) 0 (netr - 1) Hentry
                o1 0 (netr - 1) (bs_iThisIndex outer) Hpl
                ltac:(lia) ltac:(lia))
      as (o2 & inner & Hinner & [Ho2 _] & Hif).
    pose proof (bsearch_r_not_found (cmp_page_entry str) (page_loaded iPage)
                  (fun k => c (ENTR_PER_PAGE * iPage + k)) 0 (netr - 1)
                  Hentry Hemono o1 0 (netr - 1) (bs_iThisIndex outer) Hpl
                  ltac:(lia) ltac:(lia) ltac:(lia) o2 inner Hinner) as Hinf.
    rewrite Hinner. cbn [result_bind fst snd].
    eexists _, _, _, _, _. split; [reflexivity|]. split; [assumption|].
    destruct (bs_found inner) eqn:F2.
    + destruct (Hif eq_refl) as [Hr Hz]. clear Hif Hinf.
      split; [|discriminate]. intros _. cbv beta in Hz.
      replace (iPage * ENTR_PER_PAGE + bs_iThisIndex inner)
        with (ENTR_PER_PAGE * iPage + bs_iThisIndex inner) by lia.
      split; [unfold ENTR_PER_PAGE in *; lia | exact Hz].
    + destruct (Hinf eq_refl) as (E' & B' & L' & R'). clear Hif Hinf.
      split; [discriminate|]. intros _.
      set (g := bs_iFrom inner) in *. cbv beta in L', R'.
      assert (Hg0 : 0 < g).
      { destruct (Z.eq_dec g 0) as [E0|]; [|lia].
        specialize (R' 0 ltac:(lia)).
        replace (ENTR_PER_PAGE * iPage + 0) with (ENTR_PER_PAGE * iPage)
          in R' by lia.
        lia. }
      set (nx := iPage * ENTR_PER_PAGE + g).
      assert (Hprev : 0 < c (nx - 1)).
      { specialize (L' (g - 1) ltac:(lia)).
        replace (nx - 1) with (ENTR_PER_PAGE * iPage + (g - 1))
          by (unfold nx; lia).
        exact L'. }
      assert (Hnx : nx < n /\ c nx < 0).
      { destruct (Z_lt_le_dec g netr) as [Hlt|Hge].
        - split; [unfold nx, ENTR_PER_PAGE in *; lia|].
          specialize (R' g ltac:(lia)).
          replace nx with (ENTR_PER_PAGE * iPage + g) by (unfold nx; lia).
          exact R'.
        - assert (g = netr) by lia.
          destruct (Z_lt_le_dec iPage P) as [HltP|HgeP].
          + specialize (Hfull HltP).
            specialize (R (iPage + 1) ltac:(lia)). cbv beta in R.
            replace nx with (ENTR_PER_PAGE * (iPage + 1))
              by (unfold nx, ENTR_PER_PAGE in *; lia).
            split; [unfold ENTR_PER_PAGE in *; lia | exact R].
          + exfalso. assert (iPage = P) by lia.
            assert (nx = n).
            { unfold nx. replace g with netr by lia. subst netr.
              replace iPage with P by lia. unfold ENTR_PER_PAGE in *. lia. }
            replace (nx - 1) with (n - 1) in Hprev by lia. lia. }
      destruct Hnx as [Hnx1 Hnx2].
      split_and!; [unfold nx, ENTR_PER_PAGE in *; lia | exact Hnx1
                  | exact Hprev | exact Hnx2].
Qed.

Lemma OffsetIndex_lookup_spec o idxs next_idx :
  ok o ->
  exists o' r,
    OffsetIndex_lookup get_uint32 g_ntohl INVALID_INDEX o str idxs next_idx
    = Ok (o', r) /\
    ok o' /\
    lookup_spec INVALID_INDEX (map re_key es) str idxs next_idx r.
Proof.
  intros Ho. pose proof index_nonempty as Hn.
  unfold OffsetIndex_lookup.
  rewrite (oik_first _ _ _ _ Ho), (oik_real_last _ _ _ _ Ho).
  cbn [ie_keystr ie_idx]. fold n.
  change (stardict_strcmp str (key_at (map re_key es) 0)) with (c 0).
  change (stardict_strcmp str (key_at (map re_key es) (n - 1)))
    with (c (n - 1)).
  assert (Hmiss : forall nx,
            0 <= nx -> nx <= n -> (0 < nx -> 0 < c (nx - 1)) ->
            (nx < n -> c nx < 0) ->
            forall x, x ∈ idxs <-> x ∈ idxs \/ (0 <= x < n /\ c x = 0)).
  { intros nx H1 H2 H3 H4 x. split; [intros ?; left; assumption|].
    intros [?|[Hx Z0]]; [assumption|]. exfalso. revert Z0.
    now apply (index_cmp_no_zero nx). }
  destruct (Z.ltb_spec (c 0) 0) as [L0|L0].
  { eexists _, _. split; [reflexivity|]. split; [assumption|].
    unfold lookup_spec. cbn [lr_idxs lr_found lr_next_idx].
    rewrite length_map. fold n. fold c.
    split; [|left; auto].
    apply (Hmiss 0); intros; lia. }
  destruct (Z.ltb_spec 0 (c (n - 1))) as [L1|L1].
  { eexists _, _. split; [reflexivity|]. split; [assumption|].
    unfold lookup_spec. cbn [lr_idxs lr_found lr_next_idx].
    rewrite length_map. fold n. fold c.
    split; [|right; left; auto].
    apply (Hmiss n); intros; first [lia | assumption]. }
  destruct (OffsetIndex_search_spec o Ho L0 L1)
    as (o1 & bFound & iPage & iFrom & iThisIndex & Hs & Ho1 & Hf & Hnf).
  rewrite Hs. cbn [result_bind fst snd].
  destruct bFound; cbn [negb].
  - destruct (Hf eq_refl) as [Hr Hz].
    now apply OffsetIndex_collect_spec.
  - destruct (Hnf eq_refl) as (Hr & Hp & Hx).
    eexists _, _. split; [reflexivity|]. split; [assumption|].
    unfold lookup_spec. cbn [lr_idxs lr_found lr_next_idx].
    rewrite length_map. fold n. fold c.
    split.
    + apply (Hmiss (iPage * ENTR_PER_PAGE + iFrom));
        intros; first [lia | assumption].
    + right. right. left. split_and!; auto; lia.
Qed.

End OffsetLookupSpec.

(** ** [load] with the page table of the file *)

Section OffsetIndexLoadSpec.

Variable get_uint32 : list Z -> Z.
Variable g_ntohl : Z -> Z.
Variable object_bytes : Z -> list Z.
Variable object_value : list Z -> Z.
Variable MapFile_open : stat_file -> Z -> option (list Z).
Variable fopen_wb : list Z -> bool.
Variable fwrite_count : list Z -> Z -> Z -> Z -> Z.
Variable now : Z.
Variable es : list raw_entry.
Hypothesis es_ok : index_entries_ok es.
Hypothesis es_nonempty : 1 <= Z.of_nat (length es).

(** When the table that [load] got, from a cache file or by its scan, is
    the table of the index file, [load] succeeds and leaves the index in a
    state that the lookups rest on. *)
Lemma OffsetIndex_load_ok (fs fs' : file_system) (url : list Z)
    (vars : list (list Z)) (fsize : Z) (wordentry_buf wordoffset : list Z)
    (f : stat_file) :
  OffsetIndex_load_table object_bytes object_value MapFile_open fopen_wb
    fwrite_count now fs url vars (Z.of_nat (length es)) fsize
  = Ok (Some wordoffset, fs') ->
  OffsetIndex_scan (render_entries es) (Z.of_nat (length es))
  = Some wordoffset ->
  fs' !! url = Some f -> st_content f = render_entries es ->
  exists o,
    OffsetIndex_load get_uint32 g_ntohl object_bytes object_value MapFile_open
      fopen_wb fwrite_count now fs url vars (Z.of_nat (length es)) fsize
      wordentry_buf
    = Ok (Some o, fs') /\
    OffsetIndex_ok get_uint32 g_ntohl es o.
Proof.
  intros Htable Hscan Hurl Hcontent.
  destruct es_ok as (Hwf & Hlen & Hsz).
  destruct (OffsetIndex_scan_table es Hwf es_nonempty Hsz)
    as (wo & Hwo & Hnp & Hk & _).
  rewrite Hscan in Hwo. injection Hwo as <-.
  set (n := Z.of_nat (length es)) in *.
  destruct (page_arith n es_nonempty) as (P0 & PL & PA).
  pose proof (last_page_div es es_nonempty) as HP. fold n in HP.
  set (P := last_page n) in *.
  assert (Hnp2 : Z.of_nat (length wordoffset) - 2 = P) by lia.
  unfold OffsetIndex_load. rewrite Htable. cbn [result_bind fst snd].
  unfold file_system in *. rewrite Hurl, Hcontent, Hnp2.
  set (o0 := {| ob_idxfile := render_entries es; ob_wordoffset := wordoffset;
                ob_wordcount := n; ob_wordentry_buf := wordentry_buf;
                ob_page_idx := -1; ob_entries := [] |}).
  assert (Ho0 : OffsetBuf_ok get_uint32 g_ntohl es o0)
    by (constructor; cbn; auto).
  assert (Hread : forall b p, OffsetBuf_ok get_uint32 g_ntohl es b ->
            0 <= p <= P ->
            exists b',
              OffsetBuf_read_first_on_page_key b p
              = Ok (b', key_at (map re_key es) (ENTR_PER_PAGE * p)) /\
              OffsetBuf_ok get_uint32 g_ntohl es b').
  { intros b p Hb Hp. destruct (PA p Hp) as (H1 & H2 & _).
    destruct (entry_at es (ENTR_PER_PAGE * p)) as [e He];
      [fold n; unfold ENTR_PER_PAGE in *; lia|].
    assert (Hkl : Z.of_nat (length (re_key e)) <= 255).
    { apply (proj1 (Forall_forall _ _) Hlen).
      eapply list_elem_of_lookup_2, He. }
    destruct (OffsetBuf_read_first_on_page_key_ok get_uint32 g_ntohl es
                b p e Hwf Hsz Hb ltac:(lia) He)
      as (b' & Hr & Hb'); [unfold wordentry_buf_size; lia|].
    rewrite (key_at_entry es _ e)
      by (first [exact He | unfold ENTR_PER_PAGE; lia]).
    exists b'. split; assumption. }
  destruct (Hread o0 0 Ho0 ltac:(lia)) as (b1 & -> & Hb1).
  cbn [result_bind fst snd].
  destruct (Hread b1 P Hb1 ltac:(lia)) as (b2 & -> & Hb2).
  cbn [result_bind fst snd].
  destruct (Hread b2 (P / 2) Hb2) as (b3 & -> & Hb3);
    [unfold ENTR_PER_PAGE in *; lia_div|].
  cbn [result_bind fst snd].
  destruct (entry_at es (n - 1)) as [e He]; [fold n; lia|].
  destruct (OffsetBuf_get_key_ok get_uint32 g_ntohl es Hwf Hsz b3
              (Z.to_nat (n - 1)) e Hb3 He) as (b4 & Hg & Hb4).
  rewrite Z2Nat.id in Hg by lia. rewrite Hg.
  cbn [result_bind fst snd].
  eexists. split; [reflexivity|].
  constructor; cbn [oi_buf oi_first oi_last oi_middle oi_real_last];
    fold n; fold P.
  - exact Hb4.
  - reflexivity.
  - reflexivity.
  - reflexivity.
  - rewrite (key_at_entry es (n - 1) e) by (first [exact He | lia]).
    reflexivity.
Qed.

End OffsetIndexLoadSpec.

(** ** Binary search correctness and duplicate walking *)

(** C1 (amended).  On an index whose entries are in ascending comparator
    order, for the fully loaded [WordListIndex] as for the paged
    [OffsetIndex] whose page table is that of the index file (in the state
    [load] leaves it in, or any state later lookups bring it to): a headword
    of the index is found, and the indices returned hold one whose key is
    that headword; a query strictly between two neighbouring keys is not
    found and [next_idx] is the index of the higher one; a query before the
    first key gives [next_idx = 0] and one after the last key gives
    [INVALID_INDEX].  [load] leaves the [OffsetIndex] in such a state when
    the table it got, by its scan or from a cache file, is the table of the
    index file. *)
Theorem index_lookup_binary_search (INVALID_INDEX : Z)
    (get_uint32 : list Z -> Z) (g_ntohl : Z -> Z)
    (keys : list cstring) (es : list raw_entry) (o : OffsetIndex)
    (str : cstring) (idxs : gset Z) (next_idx : Z) :
  index_ok keys = true -> is_cstr str ->
  index_entries_ok es -> index_ok (map re_key es) = true ->
  OffsetIndex_ok get_uint32 g_ntohl es o ->
  binary_search_correct INVALID_INDEX keys str
    (WordListIndex_lookup INVALID_INDEX {| wordlist := keys |} str idxs
       next_idx) /\
  (exists o' r,
     OffsetIndex_lookup get_uint32 g_ntohl INVALID_INDEX o str idxs next_idx
     = Ok (o', r) /\
     binary_search_correct INVALID_INDEX (map re_key es) str r /\
     OffsetIndex_ok get_uint32 g_ntohl es o') /\
  (forall object_bytes object_value MapFile_open fopen_wb fwrite_count now
          fs fs' url vars fsize wordentry_buf wordoffset f,
     OffsetIndex_load_table object_bytes object_value MapFile_open fopen_wb
       fwrite_count now fs url vars (Z.of_nat (length es)) fsize
     = Ok (Some wordoffset, fs') ->
     OffsetIndex_scan (render_entries es) (Z.of_nat (length es))
     = Some wordoffset ->
     fs' !! url = Some f -> st_content f = render_entries es ->
     exists o0,
       OffsetIndex_load get_uint32 g_ntohl object_bytes object_value
         MapFile_open fopen_wb fwrite_count now fs url vars
         (Z.of_nat (length es)) fsize wordentry_buf
       = Ok (Some o0, fs') /\
       OffsetIndex_ok get_uint32 g_ntohl es o0).
Proof.
  intros Hk Hs Hes Hek Ho.
  destruct (OffsetIndex_lookup_spec get_uint32 g_ntohl INVALID_INDEX es str
              Hes Hek Hs o idxs next_idx Ho) as (o' & r & Hl & Ho' & Hspec).
  split_and!.
  - apply (lookup_spec_binary_search INVALID_INDEX keys str idxs next_idx);
      auto.
    now apply WordListIndex_lookup_spec.
  - exists o', r. split_and!; [exact Hl | | exact Ho'].
    now apply (lookup_spec_binary_search INVALID_INDEX (map re_key es) str
                 idxs next_idx).
  - intros object_bytes object_value MapFile_open fopen_wb fwrite_count now
      fs fs' url vars fsize wordentry_buf wordoffset f Ht Hsc Hu Hc.
    apply (OffsetIndex_load_ok get_uint32 g_ntohl object_bytes object_value
             MapFile_open fopen_wb fwrite_count now es Hes
             (index_nonempty es Hek) fs fs' url vars fsize wordentry_buf
             wordoffset f Ht Hsc Hu Hc).
Qed.

(** The index file of the headwords of [keys], each with eight bytes of
    offset and size. *)
Definition entries_of (keys : list cstring) : list raw_entry :=
  map (fun k => {| re_key := k; re_tail := [0; 0; 0; 0; 0; 0; 0; 1] |}) keys.

(** [load] of the index file [file] under the name "a.idx", with no cache
    file there and none that can be written; the bytes are in network
    order. *)
Definition load_plain (file : list Z) (wc : Z)
  : result (option OffsetIndex * file_system) :=
  OffsetIndex_load uint32_be id uint32_bytes uint32_be map_bytes
    (fun _ => false) (fun _ _ _ nmemb => nmemb) 5
    {[ str "a.idx" := {| st_mtime := 3; st_content := file |} ]}
    (str "a.idx") [str "a.idx.oft"] wc (Z.of_nat (length file))
    (replicate (Z.to_nat wordentry_buf_size) 0).

Definition loaded_or_empty (r : result (option OffsetIndex * file_system))
  : OffsetIndex :=
  match r with
  | Ok (Some o, _) => o
  | _ => {| oi_buf := {| ob_idxfile := []; ob_wordoffset := [];
                         ob_wordcount := 0; ob_wordentry_buf := [];
                         ob_page_idx := -1; ob_entries := [] |};
            oi_first := Build_index_entry 0 [];
            oi_last := Build_index_entry 0 [];
            oi_middle := Build_index_entry 0 [];
            oi_real_last := Build_index_entry 0 [] |}
  end.

(** The index of scenario S1 as an [OffsetIndex]. *)
Definition o_abc : OffsetIndex :=
  Eval vm_compute in
    loaded_or_empty (load_plain (render_entries (entries_of keys_abc)) 3).

Lemma entries_of_ok (keys : list cstring) :
  forallb is_cstrb keys = true ->
  forallb (fun k => Z.of_nat (length k) <=? 255) keys = true ->
  Z.of_nat (length (render_entries (entries_of keys))) < 2 ^ 32 ->
  index_entries_ok (entries_of keys).
Proof.
  intros Hc Hl Hsz. split_and!; [| |exact Hsz].
  - apply Forall_forall. intros e He. apply list_elem_of_In in He.
    apply in_map_iff in He as (k & <- & Hk). split; [|reflexivity].
    cbn [re_key]. apply is_cstrb_spec.
    exact (proj1 (forallb_forall _ _) Hc k Hk).
  - apply Forall_forall. intros e He. apply list_elem_of_In in He.
    apply in_map_iff in He as (k & <- & Hk). cbn [re_key].
    apply Z.leb_le. exact (proj1 (forallb_forall _ _) Hl k Hk).
Qed.

Lemma entries_of_keys (keys : list cstring) :
  map re_key (entries_of keys) = keys.
Proof. unfold entries_of. rewrite map_map. cbn [re_key]. apply map_id. Qed.

Lemma o_abc_ok : OffsetIndex_ok uint32_be id (entries_of keys_abc) o_abc.
Proof.
  assert (Hes : index_entries_ok (entries_of keys_abc))
    by (apply entries_of_ok; [reflexivity | reflexivity | vm_compute; reflexivity]).
  destruct (OffsetIndex_load_ok uint32_be id uint32_bytes uint32_be map_bytes
              (fun _ => false) (fun _ _ _ nmemb => nmemb) 5
              (entries_of keys_abc) Hes ltac:(simpl; lia)
              {[ str "a.idx" := {| st_mtime := 3;
                                   st_content :=
                                     render_entries (entries_of keys_abc) |} ]}
              {[ str "a.idx" := {| st_mtime := 3;
                                   st_content :=
                                     render_entries (entries_of keys_abc) |} ]}
              (str "a.idx") [str "a.idx.oft"] 44
              (replicate (Z.to_nat wordentry_buf_size) 0) [0; 44]
              {| st_mtime := 3;
                 st_content := render_entries (entries_of keys_abc) |})
    as (o & Hload & Hok); [reflexivity | reflexivity | reflexivity | reflexivity |].
  apply (f_equal loaded_or_empty) in Hload. vm_compute in Hload.
  rewrite <- Hload in Hok. exact Hok.
Qed.

(** "blueberry" lies between "banana" and "cherry": not found, [next_idx]
    is 2, in both kinds of index. *)
Lemma index_lookup_binary_search_witness :
  index_ok keys_abc = true /\
  lr_next_idx (WordListIndex_lookup (-1) {| wordlist := keys_abc |}
                 (str "blueberry") ∅ 0) = 2 /\
  exists o' r,
    OffsetIndex_lookup uint32_be id (-1) o_abc (str "blueberry") ∅ 0
    = Ok (o', r) /\
    lr_next_idx r = 2.
Proof.
  assert (Hk : index_ok keys_abc = true) by reflexivity.
  assert (Hs : is_cstr (str "blueberry")) by (apply is_cstrb_spec; reflexivity).
  assert (Hes : index_entries_ok (entries_of keys_abc))
    by (apply entries_of_ok;
        [reflexivity | reflexivity | vm_compute; reflexivity]).
  assert (Hek : index_ok (map re_key (entries_of keys_abc)) = true)
    by reflexivity.
  destruct (index_lookup_binary_search (-1) uint32_be id keys_abc
              (entries_of keys_abc) o_abc (str "blueberry") ∅ 0
              Hk Hs Hes Hek o_abc_ok)
    as ((_ & B1 & _) & (o' & r & Hl & (_ & B2 & _) & _) & _).
  split_and!.
  - exact Hk.
  - apply (B1 1); [lia | simpl; lia | reflexivity | reflexivity].
  - exists o', r. split; [exact Hl|].
    apply (B2 1); [lia | simpl; lia | reflexivity | reflexivity].
Defined.

(** An index of the 33 headwords "k00" .. "k32", and a file system that
    holds it next to a cache file written for another index: the cache
    starts with the magic bytes, is not older than the index file, and
    gives 12 as the offset of the second page, which starts at byte 384. *)
Definition es_k33 : list raw_entry :=
  map (fun i => {| re_key := [107; 48 + i / 10; 48 + i mod 10];
                   re_tail := [0; 0; 0; i; 0; 0; 0; 1] |}) (seqZ 0 33).

Definition fs_foreign : file_system :=
  <[ str "k.idx.oft" :=
       {| st_mtime := 4;
          st_content := cache_content uint32_bytes [0; 12; 396] |} ]>
  {[ str "k.idx" := {| st_mtime := 3; st_content := render_entries es_k33 |} ]}.

Definition load_foreign : result (option OffsetIndex * file_system) :=
  OffsetIndex_load uint32_be id uint32_bytes uint32_be map_bytes
    (fun _ => true) (fun _ _ _ nmemb => nmemb) 5 fs_foreign (str "k.idx")
    [str "k.idx.oft"] 33 396 (replicate (Z.to_nat wordentry_buf_size) 0).

Definition o_foreign : OffsetIndex :=
  Eval vm_compute in loaded_or_empty load_foreign.

(** [load] takes the page table of a cache file that passes its two checks
    (the magic bytes, and a modification time not before the index file's)
    as it is.  With the cache above the index loads, its entries are in
    ascending order and "k05" is entry 5, but the second page is taken to
    start at "k01", which becomes [real_last]: the lookup of "k05" returns
    false, no index and [INVALID_INDEX]. *)
Lemma index_lookup_foreign_cache :
  index_ok (map re_key es_k33) = true /\
  key_at (map re_key es_k33) 5 = str "k05" /\
  load_foreign = Ok (Some o_foreign, fs_foreign) /\
  exists o',
    OffsetIndex_lookup uint32_be id (-1) o_foreign (str "k05") ∅ 0
    = Ok (o', {| lr_found := false; lr_idxs := ∅; lr_next_idx := -1 |}) /\
    ~ binary_search_correct (-1) (map re_key es_k33) (str "k05")
        {| lr_found := false; lr_idxs := ∅; lr_next_idx := -1 |}.
Proof.
  split_and!; [reflexivity | reflexivity | vm_compute; reflexivity |].
  eexists. split; [vm_compute; reflexivity|].
  intros (Hin & _).
  destruct Hin as [Hf _]; [|discriminate Hf].
  apply (in_map re_key es_k33 {| re_key := str "k05";
                                 re_tail := [0; 0; 0; 5; 0; 0; 0; 1] |}).
  vm_compute. tauto.
Qed.

(** C2 (as amended).  On an index in ascending order, when the entries
    whose keys equal the query are the [k] entries from index [lo] on, a
    lookup adds exactly the indices [lo .. lo + k - 1] to the result set,
    every duplicate and no other index: in a [WordListIndex], and in an
    [OffsetIndex] whose page table is that of the index file.  The walks
    over the duplicates cross page boundaries in [OffsetIndex] through
    [get_key], which loads the page it needs. *)
Theorem index_lookup_duplicates (INVALID_INDEX : Z)
    (get_uint32 : list Z -> Z) (g_ntohl : Z -> Z)
    (keys : list cstring) (es : list raw_entry) (o : OffsetIndex)
    (str : cstring) (idxs : gset Z) (next_idx : Z) :
  index_ok keys = true -> is_cstr str ->
  index_entries_ok es -> index_ok (map re_key es) = true ->
  OffsetIndex_ok get_uint32 g_ntohl es o ->
  duplicates_collected keys str idxs
    (WordListIndex_lookup INVALID_INDEX {| wordlist := keys |} str idxs
       next_idx) /\
  (exists o' r,
     OffsetIndex_lookup get_uint32 g_ntohl INVALID_INDEX o str idxs next_idx
     = Ok (o', r) /\
     duplicates_collected (map re_key es) str idxs r /\
     OffsetIndex_ok get_uint32 g_ntohl es o').
Proof.
  intros Hk Hs Hes Hek Ho.
  destruct (OffsetIndex_lookup_spec get_uint32 g_ntohl INVALID_INDEX es str
              Hes Hek Hs o idxs next_idx Ho) as (o' & r & Hl & Ho' & Hspec).
  split.
  - apply (lookup_spec_duplicates INVALID_INDEX keys str idxs next_idx); auto.
    now apply WordListIndex_lookup_spec.
  - exists o', r. split_and!; [exact Hl | | exact Ho'].
    now apply (lookup_spec_duplicates INVALID_INDEX (map re_key es) str idxs
                 next_idx).
Qed.

(** The index with "b" three times as an [OffsetIndex]. *)
Definition o_abbbc : OffsetIndex :=
  Eval vm_compute in
    loaded_or_empty (load_plain (render_entries (entries_of keys_abbbc)) 5).

Lemma o_abbbc_ok : OffsetIndex_ok uint32_be id (entries_of keys_abbbc) o_abbbc.
Proof.
  assert (Hes : index_entries_ok (entries_of keys_abbbc))
    by (apply entries_of_ok;
        [reflexivity | reflexivity | vm_compute; reflexivity]).
  destruct (OffsetIndex_load_ok uint32_be id uint32_bytes uint32_be map_bytes
              (fun _ => false) (fun _ _ _ nmemb => nmemb) 5
              (entries_of keys_abbbc) Hes ltac:(simpl; lia)
              {[ str "a.idx" := {| st_mtime := 3;
                                   st_content :=
                                     render_entries (entries_of keys_abbbc) |} ]}
              {[ str "a.idx" := {| st_mtime := 3;
                                   st_content :=
                                     render_entries (entries_of keys_abbbc) |} ]}
              (str "a.idx") [str "a.idx.oft"] 50
              (replicate (Z.to_nat wordentry_buf_size) 0) [0; 50]
              {| st_mtime := 3;
                 st_content := render_entries (entries_of keys_abbbc) |})
    as (o & Hload & Hok); [reflexivity | reflexivity | reflexivity | reflexivity |].
  apply (f_equal loaded_or_empty) in Hload. vm_compute in Hload.
  rewrite <- Hload in Hok. exact Hok.
Qed.

Lemma index_lookup_duplicates_witness :
  lr_idxs (WordListIndex_lookup (-1) {| wordlist := keys_abbbc |}
             (str "b") ∅ 0) = ∅ ∪ list_to_set (seqZ 1 3) /\
  exists o' r,
    OffsetIndex_lookup uint32_be id (-1) o_abbbc (str "b") ∅ 0 = Ok (o', r) /\
    size (lr_idxs r) = 3%nat.
Proof.
  assert (Hk : index_ok keys_abbbc = true) by reflexivity.
  assert (Hs : is_cstr (str "b")) by (apply is_cstrb_spec; reflexivity).
  assert (Hes : index_entries_ok (entries_of keys_abbbc))
    by (apply entries_of_ok;
        [reflexivity | reflexivity | vm_compute; reflexivity]).
  assert (Hek : index_ok (map re_key (entries_of keys_abbbc)) = true)
    by reflexivity.
  assert (Hrun : forall i,
            (0 <= i < Z.of_nat (length keys_abbbc) /\
             stardict_strcmp (str "b") (key_at keys_abbbc i) = 0) <->
            1 <= i < 1 + 3).
  { intros i. split.
    - intros [Hi Z0]. simpl in Hi.
      assert (i = 0 \/ i = 1 \/ i = 2 \/ i = 3 \/ i = 4)
        as [-> | [-> | [-> | [-> | ->]]]] by lia;
        vm_compute in Z0; try discriminate; lia.
    - intros Hi.
      assert (i = 1 \/ i = 2 \/ i = 3) as [-> | [-> | ->]] by lia;
        (split; [simpl; lia | reflexivity]). }
  destruct (index_lookup_duplicates (-1) uint32_be id keys_abbbc
              (entries_of keys_abbbc) o_abbbc (str "b") ∅ 0
              Hk Hs Hes Hek o_abbbc_ok)
    as (D1 & o' & r & Hl & D2 & _).
  split.
  - apply (D1 1 3); [lia | exact Hrun].
  - exists o', r. split; [exact Hl|].
    apply (D2 1 3); [lia | exact Hrun | reflexivity].
Defined.

(** With the cache file of another index, the one entry equal to "k05" is
    not returned. *)
Lemma index_lookup_foreign_cache_duplicates :
  index_ok (map re_key es_k33) = true /\
  load_foreign = Ok (Some o_foreign, fs_foreign) /\
  (forall i,
     (0 <= i < Z.of_nat (length (map re_key es_k33)) /\
      stardict_strcmp (str "k05") (key_at (map re_key es_k33) i) = 0) <->
     5 <= i < 5 + 1) /\
  exists o' r,
    OffsetIndex_lookup uint32_be id (-1) o_foreign (str "k05") ∅ 0
    = Ok (o', r) /\
    lr_idxs r = ∅ /\
    ~ duplicates_collected (map re_key es_k33) (str "k05") ∅ r.
Proof.
  assert (Hrun : forall i,
     (0 <= i < Z.of_nat (length (map re_key es_k33)) /\
      stardict_strcmp (str "k05") (key_at (map re_key es_k33) i) = 0) <->
     5 <= i < 5 + 1).
  { assert (Hall : forallb
              (fun i => Bool.eqb
                          (stardict_strcmp (str "k05")
                             (key_at (map re_key es_k33) i) =? 0)
                          (i =? 5))
              (seqZ 0 33) = true) by (vm_compute; reflexivity).
    intros i. split.
    - intros [Hi Z0]. change (Z.of_nat (length (map re_key es_k33))) with 33 in Hi.
      assert (Hin : In i (seqZ 0 33))
        by (apply list_elem_of_In, elem_of_seqZ; lia).
      pose proof (proj1 (forallb_forall _ _) Hall i Hin) as Hb.
      cbv beta in Hb. rewrite Z0 in Hb. cbn [Z.eqb] in Hb.
      apply Bool.eqb_prop in Hb. symmetry in Hb. apply Z.eqb_eq in Hb. lia.
    - intros Hi. assert (i = 5) as -> by lia.
      split; [vm_compute; split; [discriminate | reflexivity] | reflexivity]. }
  split_and!; [reflexivity | vm_compute; reflexivity | exact Hrun |].
  eexists. exists {| lr_found := false; lr_idxs := ∅; lr_next_idx := -1 |}.
  split_and!; [vm_compute; reflexivity | reflexivity |].
  intros D. destruct (D 5 1 ltac:(lia) Hrun) as (_ & [_ Hf] & _).
  cbn [lr_found] in Hf. specialize (Hf ltac:(lia)). discriminate Hf.
Qed.

(** ** [Dict::Lookup] (lines 913-919) *)

(** The interface [IIndexFile], as far as [Dict::Lookup] uses it: the
    [lookup] of the index, which may change the index (its page buffer) and
    which reads the index file in [OffsetIndex]. *)
Class IIndexFile (I : Type) := {
  idx_lookup : Z -> I -> cstring -> gset Z -> Z -> result (I * lookup_result)
}.

#[global] Instance WordListIndex_IIndexFile : IIndexFile WordListIndex := {|
  idx_lookup INVALID_INDEX w str idxs next_idx :=
    Ok (w, WordListIndex_lookup INVALID_INDEX w str idxs next_idx)
|}.

#[global] Instance OffsetIndex_IIndexFile (get_uint32 : list Z -> Z)
    (g_ntohl : Z -> Z) : IIndexFile OffsetIndex := {|
  idx_lookup INVALID_INDEX := OffsetIndex_lookup get_uint32 g_ntohl INVALID_INDEX
|}.

(** The two files of a [Dict] that [Lookup] consults. *)
Record DictIndex (I : Type) := {
  syn_file : SynFile;
  idx_file : I
}.
Arguments syn_file {I} d.
Arguments idx_file {I} d.

(** [found |= syn_file->lookup (...); found |= idx_file->lookup (...);] *)
Definition Dict_Lookup {I} `{IIndexFile I} (INVALID_INDEX : Z)
    (d : DictIndex I) (str : cstring) (idxs : gset Z) (next_idx : Z)
  : result (DictIndex I * lookup_result) :=
  let r1 := SynFile_lookup INVALID_INDEX (syn_file d) str idxs next_idx in
  let found := false || lr_found r1 in
  let* ir := idx_lookup INVALID_INDEX (idx_file d) str (lr_idxs r1)
               (lr_next_idx r1) in
  let found := found || lr_found (snd ir) in
  Ok ({| syn_file := syn_file d; idx_file := fst ir |},
      {| lr_found := found; lr_idxs := lr_idxs (snd ir);
         lr_next_idx := lr_next_idx (snd ir) |}).

(** An index that holds given keys and whose [lookup] returns, and is right
    on them. *)
Class IIndexFileSpec (I : Type) `{IIndexFile I} := {
  idx_holds : list cstring -> I -> Prop;
  idx_lookup_ok : forall INVALID_INDEX keys i str idxs next_idx,
    index_ok keys = true -> is_cstr str -> idx_holds keys i ->
    exists i' r,
      idx_lookup INVALID_INDEX i str idxs next_idx = Ok (i', r) /\
      idx_holds keys i' /\
      lookup_spec INVALID_INDEX keys str idxs next_idx r
}.

#[global, refine] Instance WordListIndex_IIndexFileSpec
  : IIndexFileSpec WordListIndex := {|
  idx_holds keys w := wordlist w = keys
|}.
Proof.
  intros INVALID_INDEX keys [w] str idxs next_idx Hk Hs Hw.
  cbn in *. subst w. eexists _, _. split_and!; [reflexivity | reflexivity |].
  now apply WordListIndex_lookup_spec.
Defined.

(** An [OffsetIndex] holds the keys of the entries of its index file when
    its page table and anchors are those of that file. *)
#[global, refine] Instance OffsetIndex_IIndexFileSpec
    (get_uint32 : list Z -> Z) (g_ntohl : Z -> Z)
  : @IIndexFileSpec OffsetIndex (OffsetIndex_IIndexFile get_uint32 g_ntohl) := {|
  idx_holds keys o :=
    exists es, index_entries_ok es /\ keys = map re_key es /\
               OffsetIndex_ok get_uint32 g_ntohl es o
|}.
Proof.
  intros INVALID_INDEX keys o str idxs next_idx Hk Hs (es & Hes & -> & Ho).
  destruct (OffsetIndex_lookup_spec get_uint32 g_ntohl INVALID_INDEX es str
              Hes Hk Hs o idxs next_idx Ho) as (o' & r & Hl & Ho' & Hspec).
  exists o', r. split_and!; [exact Hl | | exact Hspec].
  exists es. split_and!; [exact Hes | reflexivity | exact Ho'].
Defined.

Lemma cmp_key_at_zero_iff keys str i :
  index_ok keys = true -> is_cstr str ->
  cmp_key_at keys str i = 0 <-> key_at keys i = str.
Proof.
  intros Hk Hs. unfold cmp_key_at. split.
  - intros Hz. symmetry. apply stardict_strcmp_eq; auto.
    now apply key_at_cstr.
  - intros <-. apply stardict_strcmp_refl.
Qed.

Lemma In_key_at keys str :
  In str keys <->
  exists i, 0 <= i < Z.of_nat (length keys) /\ key_at keys i = str.
Proof.
  unfold key_at. split.
  - intros Hin. apply (In_nth _ _ []) in Hin as (k & Hk & Hn).
    exists (Z.of_nat k). rewrite Nat2Z.id. split; [lia | assumption].
  - intros (i & Hi & <-). apply nth_In. lia.
Qed.

(** X9.  [Dict::Lookup] over a synonym file and an index that are both in
    ascending order returns; it adds to [idxs] the positions of the
    headwords equal to the query and the indices stored with the synonyms
    equal to it, and nothing else; it returns true exactly when the query
    is a headword or a synonym.  This holds for a [WordListIndex], and for
    an [OffsetIndex] whose page table is that of its index file. *)
Theorem Dict_Lookup_headwords_and_synonyms {I} `{IIndexFileSpec I}
    (INVALID_INDEX : Z) (d : DictIndex I) (keys : list cstring)
    (str : cstring) (idxs : gset Z) (next_idx : Z) :
  syn_sorted (synlist (syn_file d)) = true ->
  index_ok keys = true ->
  idx_holds keys (idx_file d) ->
  is_cstr str ->
  exists res,
    Dict_Lookup INVALID_INDEX d str idxs next_idx = Ok res /\
    (forall x, x ∈ lr_idxs (snd res) <->
       x ∈ idxs \/ In (str, x) (synlist (syn_file d)) \/
       (0 <= x < Z.of_nat (length keys) /\ key_at keys x = str)) /\
    (lr_found (snd res) = true <->
       (exists x, In (str, x) (synlist (syn_file d))) \/ In str keys) /\
    syn_file (fst res) = syn_file d /\
    idx_holds keys (idx_file (fst res)).
Proof.
  intros Hsyn Hk Hholds Hs. unfold Dict_Lookup.
  destruct (syn_file d) as [syn] eqn:Esyn. cbn [synlist] in *.
  destruct (SynFile_lookup_spec INVALID_INDEX syn str idxs next_idx Hsyn Hs)
    as (Hsidx & Hsfound & _).
  set (r1 := SynFile_lookup INVALID_INDEX {| synlist := syn |} str idxs next_idx) in *.
  destruct (idx_lookup_ok INVALID_INDEX keys (idx_file d) str (lr_idxs r1)
              (lr_next_idx r1) Hk Hs Hholds) as (i' & r & -> & Hh' & Hspec).
  cbn [result_bind fst snd]. eexists. split; [reflexivity|].
  cbn [fst snd lr_found lr_idxs lr_next_idx syn_file idx_file].
  pose proof Hspec as [Hidx Hcase].
  split_and!; [| |reflexivity|exact Hh'].
  - intros x. rewrite Hidx, Hsidx.
    rewrite (cmp_key_at_zero_iff keys str x Hk Hs). tauto.
  - rewrite orb_false_l, orb_true_iff, Hsfound, In_key_at.
    split.
    + intros [?|F]; [left; assumption|]. right.
      destruct Hcase as [(_ & E & _) | [(_ & _ & E & _) |
                        [(_ & _ & E & _) | (_ & _ & i & Hi & Zi)]]];
        try congruence.
      exists i. split; [assumption|]. now apply cmp_key_at_zero_iff.
    + intros [?|(i & Hi & Ei)]; [left; assumption|]. right.
      apply (lookup_spec_zero_found INVALID_INDEX keys str (lr_idxs r1)
               (lr_next_idx r1) r Hk Hs Hspec i Hi).
      now apply cmp_key_at_zero_iff.
Qed.

(** A dictionary with the synonyms of the colours and the index of
    scenario S1 as an [OffsetIndex]. *)
Definition dict_colours : DictIndex OffsetIndex :=
  {| syn_file := {| synlist := syn_colours |}; idx_file := o_abc |}.

Lemma Dict_Lookup_headwords_and_synonyms_witness :
  exists res,
    @Dict_Lookup _ (OffsetIndex_IIndexFile uint32_be id) (-1) dict_colours
      (str "grey") ∅ 0 = Ok res /\
    (forall x, x ∈ lr_idxs (snd res) <->
       x ∈ (∅ : gset Z) \/
       In (str "grey", x) (synlist (syn_file dict_colours)) \/
       (0 <= x < Z.of_nat (length keys_abc) /\ key_at keys_abc x = str "grey")) /\
    (lr_found (snd res) = true <->
       (exists x, In (str "grey", x) (synlist (syn_file dict_colours))) \/
       In (str "grey") keys_abc) /\
    syn_file (fst res) = syn_file dict_colours /\
    @idx_holds _ _ (OffsetIndex_IIndexFileSpec uint32_be id) keys_abc
      (idx_file (fst res)).
Proof.
  apply (@Dict_Lookup_headwords_and_synonyms _ _
           (OffsetIndex_IIndexFileSpec uint32_be id) (-1) dict_colours
           keys_abc (str "grey") ∅ 0);
    [reflexivity | reflexivity | | apply is_cstrb_spec; reflexivity].
  exists (entries_of keys_abc). split_and!.
  - apply entries_of_ok; [reflexivity | reflexivity | vm_compute; reflexivity].
  - reflexivity.
  - exact o_abc_ok.
Defined.
